(** * laser-clock: the vector-frame pipeline of [laserclock.cpp]

    A shallow embedding of the drawing routines ([DrawPoint], [DrawLineTo],
    the ten digit programs, [DrawDigit], [DrawSquare]), of the frame rebuild
    at the head of the main loop, of the refresh loop itself, of the loop
    over the command-line options and of [DrawCircle], followed by the
    properties the specification states about them and by further
    properties of the code.

    Conventions of the embedding.
    - A C [int] is a [Z] kept in the signed 32-bit range; [+], [-], [*] wrap
      around (two's complement), [/] and [%] truncate toward zero.
    - A C [float] is an IEEE-754 binary32 number, a [spec_float] with
      precision 24 and maximal exponent 128; every operation rounds to
      nearest-even on its own (no contraction into fused operations).
      A [double] is binary64 (precision 53, maximal exponent 1024).
    - The process-wide variables of the program are the fields of one
      [state] record which every routine threads through.
    - A store outside the bounds of [vector_list] has no defined result:
      routines return [None] there, and [Some (result, state)] otherwise. *)

From Stdlib Require Import ZArith Lia Bool String Ascii DecimalString.
From Stdlib Require Import QArith Qpower Qround Lqa.
From Stdlib Require Import Floats.SpecFloat.
From stdpp Require Import base tactics option list.

Local Open Scope Z_scope.

(** ** 32-bit signed integers *)

Module Int32.

Definition min_signed : Z := - 2 ^ 31.
Definition max_signed : Z := 2 ^ 31 - 1.

(** The value of [z] once stored in an [int]. *)
Definition wrap (z : Z) : Z := (z + 2 ^ 31) mod 2 ^ 32 - 2 ^ 31.

Definition in_range (z : Z) : Prop := min_signed <= z <= max_signed.

Definition add (a b : Z) : Z := wrap (a + b).
Definition sub (a b : Z) : Z := wrap (a - b).
Definition mul (a b : Z) : Z := wrap (a * b).
(** C division and remainder truncate toward zero. *)
Definition div (a b : Z) : Z := wrap (Z.quot a b).
Definition rem (a b : Z) : Z := Z.rem a b.

End Int32.

Declare Scope int32_scope.
Delimit Scope int32_scope with i32.

(** The operands of a machine operation are machine expressions in turn. *)
Arguments Int32.add (a b)%_int32_scope.
Arguments Int32.sub (a b)%_int32_scope.
Arguments Int32.mul (a b)%_int32_scope.
Arguments Int32.div (a b)%_int32_scope.
Arguments Int32.rem (a b)%_int32_scope.

Infix "+" := Int32.add : int32_scope.
Infix "-" := Int32.sub : int32_scope.
Infix "*" := Int32.mul : int32_scope.
Infix "/" := Int32.div : int32_scope.
Infix "%" := Int32.rem (at level 40, left associativity) : int32_scope.

(** ** Floating point: truncation, ceiling, conversions *)

Module FP.

(** The nonzero finite number [(-1)^s * m * 2^e] cut to its integer part
    (toward zero), as a magnitude. *)
Definition trunc_mag (m : positive) (e : Z) : Z :=
  match e with
  | Zneg p => Z.shiftr (Zpos m) (Zpos p)
  | _ => Z.shiftl (Zpos m) e
  end.

(** Conversion to [int].  It is defined by the C standard only when the
    truncated value fits; elsewhere the embedding takes the result of the
    x86 conversion instruction, the most negative [int]. *)
Definition to_int (f : spec_float) : Z :=
  match f with
  | S754_zero _ => 0
  | S754_finite s m e =>
      let z := cond_Zopp s (trunc_mag m e) in
      if (Int32.min_signed <=? z) && (z <=? Int32.max_signed)
      then z else Int32.min_signed
  | _ => Int32.min_signed
  end.

Section Format.
Variables prec emax : Z.

Definition of_int (z : Z) : spec_float := binary_normalize prec emax z 0 false.

(** [ceilf]/[ceil]: the least integral value not below the argument.
    A float with a non-negative exponent is integral already. *)
Definition ceil (f : spec_float) : spec_float :=
  match f with
  | S754_finite s m (Zneg p) =>
      let q := Z.shiftr (Zpos m) (Zpos p) in
      let c := if s then q
               else if Z.shiftl q (Zpos p) =? Zpos m then q else q + 1 in
      if c =? 0 then S754_zero s
      else binary_normalize prec emax (cond_Zopp s c) 0 s
  | _ => f
  end.
End Format.

End FP.

Module F32.
Definition prec : Z := 24.
Definition emax : Z := 128.
Definition of_int := FP.of_int prec emax.
Definition to_int := FP.to_int.
Definition add := SFadd prec emax.
Definition mul := SFmul prec emax.
Definition div := SFdiv prec emax.
Definition sqrt := SFsqrt prec emax.
Definition ceil := FP.ceil prec emax.
(** A literal [m * 2^e]. *)
Definition lit (m e : Z) : spec_float := binary_normalize prec emax m e false.
End F32.

Module F64.
Definition prec : Z := 53.
Definition emax : Z := 1024.
Definition of_int := FP.of_int prec emax.
Definition to_int := FP.to_int.
Definition mul := SFmul prec emax.
Definition lit (m e : Z) : spec_float := binary_normalize prec emax m e false.
End F64.

(** ** Program state *)

Definition MAX_POINTS : Z := 10000.
Definition POINTS_PER_SECOND : Z := 30000.

(** Modelled from the spec: the declaration of [HeliosDacClass::HeliosPoint]
    lives in the driver's header, which is not part of the sources.  A point
    has a position of two 16-bit unsigned coordinates and four 8-bit
    channels (red, green, blue, intensity). *)
Record HeliosPoint : Type := mkPoint {
  pt_x : Z; pt_y : Z; pt_r : Z; pt_g : Z; pt_b : Z; pt_i : Z
}.

Definition u16 (z : Z) : Z := z mod 2 ^ 16.
Definition u8 (z : Z) : Z := z mod 2 ^ 8.

(** One pen move, as requested from [DrawLineTo]: destination and color. *)
Record PenMove : Type := mkMove { mv_x : Z; mv_y : Z; mv_color : Z }.

Record state : Type := mkState {
  vector_list : list HeliosPoint;   (* HeliosPoint vector_list[MAX_POINTS] *)
  num_points : Z;
  x_start : Z;
  y_start : Z;
  xpos : Z;
  ypos : Z;
  size : Z;
  color : Z;
  divider : spec_float;
  dwell : Z;
  hidden_dwell : Z;
  (** what has been printed on the diagnostic stream, oldest line first *)
  stderr : list string;
  (** history of the calls of [DrawLineTo], oldest first; no routine reads
      it, it only records what was asked *)
  pen_moves : list PenMove
}.

Definition set_buffer (vl : list HeliosPoint) (n : Z) (st : state) : state :=
  mkState vl n (x_start st) (y_start st) (xpos st) (ypos st) (size st)
          (color st) (divider st) (dwell st) (hidden_dwell st) (stderr st)
          (pen_moves st).

Definition set_num_points (n : Z) (st : state) : state :=
  set_buffer (vector_list st) n st.

Definition set_pen (x y : Z) (st : state) : state :=
  mkState (vector_list st) (num_points st) x y (xpos st) (ypos st) (size st)
          (color st) (divider st) (dwell st) (hidden_dwell st) (stderr st)
          (pen_moves st).

Definition fprintf_stderr (line : string) (st : state) : state :=
  mkState (vector_list st) (num_points st) (x_start st) (y_start st) (xpos st)
          (ypos st) (size st) (color st) (divider st) (dwell st)
          (hidden_dwell st) (stderr st ++ [line]) (pen_moves st).

Definition record_move (m : PenMove) (st : state) : state :=
  mkState (vector_list st) (num_points st) (x_start st) (y_start st) (xpos st)
          (ypos st) (size st) (color st) (divider st) (dwell st)
          (hidden_dwell st) (stderr st) (pen_moves st ++ [m]).

(** The values the globals have when the program starts with no options. *)
Definition zero_point : HeliosPoint := mkPoint 0 0 0 0 0 0.

Definition initial_state : state :=
  mkState (replicate (Z.to_nat MAX_POINTS) zero_point) 0 0 0
          0 2000 250 1 (F32.lit 50 0) 10 15 [] [].

(** ** The monad of the routines: state passing, [None] on a wild store *)

Definition M (A : Type) : Type := state -> option (A * state).

Definition ret {A} (a : A) : M A := fun st => Some (a, st).

Definition bind {A B} (m : M A) (k : A -> M B) : M B :=
  fun st => match m st with
            | Some (a, st') => k a st'
            | None => None
            end.

Notation "x <- m ;; k" := (bind m (fun x => k))
  (at level 100, m at next level, right associativity).
Notation "m ;;; k" := (bind m (fun _ => k))
  (at level 100, right associativity).

Definition get {A} (f : state -> A) : M A := fun st => Some (f st, st).
Definition modify (f : state -> state) : M unit := fun st => Some (tt, f st).

(** [vector_list[i] = p]. *)
Definition store_point (i : Z) (p : HeliosPoint) : M unit :=
  fun st =>
    if (0 <=? i) && (i <? Z.of_nat (length (vector_list st)))
    then Some (tt, set_buffer (<[Z.to_nat i := p]> (vector_list st))
                              (num_points st) st)
    else None.

(** [for (i = first; i <= last; i++) status = body(i);] run for [n] rounds. *)
Fixpoint for_upto (n : nat) (i : Z) (body : Z -> M Z) (status : Z) : M Z :=
  match n with
  | O => ret status
  | S n' => s <- body i ;; for_upto n' (Int32.add i 1) body s
  end.

(** [for (i = 0; i < n; i++) status = body;] *)
Fixpoint times (n : nat) (body : M Z) (status : Z) : M Z :=
  match n with
  | O => ret status
  | S n' => s <- body ;; times n' body s
  end.

(** ** DrawPoint (lines 82-161) *)

Definition newline : string := String (ascii_of_nat 10) EmptyString.

Definition clip_msg_x : string :=
  "Clipping!  Reduce size and/or adjust x position.." ++ newline.
Definition clip_msg_y : string :=
  "Clipping!  Reduce size and/or adjust y position.." ++ newline.

(** The [switch (color)]: the red, green and blue channels of a color. *)
Definition color_rgb (color : Z) : Z * Z * Z :=
  match color with
  | 0 => (0, 0, 0)
  | 1 => (255, 0, 0)
  | 2 => (0, 255, 0)
  | 3 => (0, 0, 255)
  | 4 => (255, 255, 0)
  | 5 => (255, 0, 255)
  | 6 => (0, 255, 255)
  | 7 => (255, 255, 255)
  | _ => (255, 255, 255)
  end.

Definition DrawPoint (x y color : Z) : M Z :=
  n <- get num_points ;;
  if MAX_POINTS <=? n then ret 0
  else
    x <- (if 4095 <? x then modify (fprintf_stderr clip_msg_x) ;;; ret 4095
          else ret x) ;;
    let x := if x <? 0 then 0 else x in
    y <- (if 4095 <? y then modify (fprintf_stderr clip_msg_y) ;;; ret 4095
          else ret y) ;;
    let y := if y <? 0 then 0 else y in
    let '(r, g, b) := color_rgb color in
    store_point n (mkPoint (u16 x) (u16 y) (u8 r) (u8 g) (u8 b) (u8 255)) ;;;
    modify (set_num_points (Int32.add n 1)) ;;;
    ret n.

(** ** DrawLineTo (lines 164-199) *)

(** [start + (length / (float)num_segments) * i], converted to [int] when it
    is passed to [DrawPoint]. *)
Definition interpolate (start : Z) (length : spec_float) (num_segments i : Z) : Z :=
  F32.to_int
    (F32.add (F32.of_int start)
             (F32.mul (F32.div length (F32.of_int num_segments)) (F32.of_int i))).

(** [ceilf(sqrtf(x_length * x_length + y_length * y_length) / divider)],
    converted to [int]. *)
Definition segments (x_length y_length divider : spec_float) : Z :=
  let vector_length :=
    F32.sqrt (F32.add (F32.mul x_length x_length) (F32.mul y_length y_length)) in
  F32.to_int (F32.ceil (F32.div vector_length divider)).

Definition DrawLineTo (x y color : Z) : M Z :=
  modify (record_move (mkMove x y color)) ;;;
  xs <- get x_start ;;
  ys <- get y_start ;;
  dv <- get divider ;;
  let x_length := F32.of_int (x - xs)%i32 in
  let y_length := F32.of_int (y - ys)%i32 in
  let num_segments := segments x_length y_length dv in
  status <-
    (if 0 <? color then
       for_upto (Z.to_nat num_segments) 1
         (fun i =>
            xs <- get x_start ;;
            ys <- get y_start ;;
            DrawPoint (interpolate xs x_length num_segments i)
                      (interpolate ys y_length num_segments i)
                      color)
         0
     else ret 0) ;;
  status <-
    (if color =? 0 then
       n <- get hidden_dwell ;;
       times (Z.to_nat n) (DrawPoint x y color) status
     else
       n <- get dwell ;;
       times (Z.to_nat n) (DrawPoint x y color) status) ;;
  modify (set_pen x y) ;;;
  ret status.

(** Arithmetic in the arguments of the drawing routines is [int] arithmetic. *)
Arguments DrawPoint (x y color)%_int32_scope.
Arguments DrawLineTo (x y color)%_int32_scope.

(** ** The digit programs (lines 201-287) and DrawDigit (lines 289-306) *)

Section Glyphs.
Local Open Scope int32_scope.

Definition DrawZero (x y color size : Z) : M unit :=
  DrawLineTo x y 0 ;;;
  DrawLineTo (x + size) y color ;;;
  DrawLineTo (x + size) (y - 2 * size) color ;;;
  DrawLineTo x (y - 2 * size) color ;;;
  DrawLineTo x y color ;;;
  ret tt.

Definition DrawOne (x y color size : Z) : M unit :=
  DrawLineTo (x + size) y 0 ;;;
  DrawLineTo (x + size) y 0 ;;;
  DrawLineTo (x + size) (y - 2 * size) color ;;;
  ret tt.

Definition DrawTwo (x y color size : Z) : M unit :=
  DrawLineTo x y 0 ;;;
  DrawLineTo (x + size) y color ;;;
  DrawLineTo (x + size) (y - size) color ;;;
  DrawLineTo x (y - size) color ;;;
  DrawLineTo x (y - 2 * size) color ;;;
  DrawLineTo (x + size) (y - 2 * size) color ;;;
  ret tt.

Definition DrawThree (x y color size : Z) : M unit :=
  DrawLineTo x y 0 ;;;
  DrawLineTo (x + size) y color ;;;
  DrawLineTo (x + size) (y - 2 * size) color ;;;
  DrawLineTo x (y - 2 * size) color ;;;
  DrawLineTo x (y - size) 0 ;;;
  DrawLineTo (x + size) (y - size) color ;;;
  ret tt.

Definition DrawFour (x y color size : Z) : M unit :=
  DrawLineTo x y 0 ;;;
  DrawLineTo x (y - size) color ;;;
  DrawLineTo (x + size) (y - size) color ;;;
  DrawLineTo (x + size) y 0 ;;;
  DrawLineTo (x + size) (y - 2 * size) color ;;;
  ret tt.

Definition DrawFive (x y color size : Z) : M unit :=
  DrawLineTo (x + size) y 0 ;;;
  DrawLineTo x y color ;;;
  DrawLineTo x (y - size) color ;;;
  DrawLineTo (x + size) (y - size) color ;;;
  DrawLineTo (x + size) (y - 2 * size) color ;;;
  DrawLineTo x (y - 2 * size) color ;;;
  ret tt.

Definition DrawSix (x y color size : Z) : M unit :=
  DrawLineTo (x + size) y 0 ;;;
  DrawLineTo x y color ;;;
  DrawLineTo x (y - 2 * size) color ;;;
  DrawLineTo (x + size) (y - 2 * size) color ;;;
  DrawLineTo (x + size) (y - size) color ;;;
  DrawLineTo x (y - size) color ;;;
  ret tt.

Definition DrawSeven (x y color size : Z) : M unit :=
  DrawLineTo x y 0 ;;;
  DrawLineTo (x + size) y color ;;;
  DrawLineTo (x + size) (y - 2 * size) color ;;;
  ret tt.

Definition DrawEight (x y color size : Z) : M unit :=
  DrawLineTo x y 0 ;;;
  DrawLineTo (x + size) y color ;;;
  DrawLineTo (x + size) (y - 2 * size) color ;;;
  DrawLineTo x (y - 2 * size) color ;;;
  DrawLineTo x y color ;;;
  DrawLineTo x (y - size) 0 ;;;
  DrawLineTo (x + size) (y - size) color ;;;
  ret tt.

Definition DrawNine (x y color size : Z) : M unit :=
  DrawLineTo (x + size) (y - 2 * size) 0 ;;;
  DrawLineTo (x + size) y color ;;;
  DrawLineTo x y color ;;;
  DrawLineTo x (y - size) color ;;;
  DrawLineTo (x + size) (y - size) color ;;;
  ret tt.

Definition DrawDigit (n x y color size : Z) : M Z :=
  match n with
  | 0 => DrawZero x y color size
  | 1 => DrawOne x y color size
  | 2 => DrawTwo x y color size
  | 3 => DrawThree x y color size
  | 4 => DrawFour x y color size
  | 5 => DrawFive x y color size
  | 6 => DrawSix x y color size
  | 7 => DrawSeven x y color size
  | 8 => DrawEight x y color size
  | 9 => DrawNine x y color size
  | _ => ret tt
  end ;;;
  ret 0.

Arguments DrawDigit (n x y color size)%_int32_scope.

(** ** DrawSquare (lines 310-321) *)

Definition DrawSquare (x y color size : Z) : M Z :=
  let offset := size / 2 in
  DrawLineTo (x - offset) (y - offset) 0 ;;;
  DrawLineTo (x - offset + size) (y - offset) color ;;;
  DrawLineTo (x - offset + size) (y - offset + size) color ;;;
  DrawLineTo (x - offset) (y - offset + size) color ;;;
  DrawLineTo (x - offset) (y - offset) color ;;;
  ret 0.

Arguments DrawSquare (x y color size)%_int32_scope.

(** ** The frame rebuild at the head of the main loop (lines 370-386) *)

(** The fields of [struct tm] the program reads. *)
Record tm : Type := mkTm {
  tm_year : Z; tm_mon : Z; tm_mday : Z; tm_hour : Z; tm_min : Z; tm_sec : Z
}.

(** [(int)(k * size)] for a [double] literal [k]. *)
Definition scaled (k : spec_float) (size : Z) : Z :=
  F64.to_int (F64.mul k (F64.of_int size)).

Definition lit_3_5 : spec_float := F64.lit 7 (-1).
Definition lit_7_5 : spec_float := F64.lit 15 (-1).

Definition rebuild (now : tm) : M unit :=
  modify (set_num_points MAX_POINTS) ;;;
  modify (set_num_points 0) ;;;
  xpos <- get xpos ;;
  ypos <- get ypos ;;
  color <- get color ;;
  size <- get size ;;
  DrawDigit (tm_hour now / 10) xpos ypos color size ;;;
  DrawDigit (tm_hour now % 10) (xpos + 2 * size) ypos color size ;;;
  DrawDigit (tm_min now / 10) (xpos + 4 * size) ypos color size ;;;
  DrawDigit (tm_min now % 10) (xpos + 6 * size) ypos color size ;;;
  DrawDigit (tm_sec now / 10) (xpos + 8 * size) ypos color size ;;;
  DrawDigit (tm_sec now % 10) (xpos + 10 * size) ypos color size ;;;
  DrawSquare (xpos + scaled lit_3_5 size) (ypos - size / 2) color (size / 10) ;;;
  DrawSquare (xpos + scaled lit_3_5 size) ((ypos - size / 2) - size) color (size / 10) ;;;
  DrawSquare (xpos + scaled lit_7_5 size) (ypos - size / 2) color (size / 10) ;;;
  DrawSquare (xpos + scaled lit_7_5 size) ((ypos - size / 2) - size) color (size / 10) ;;;
  ret tt.

End Glyphs.

Arguments DrawDigit (n x y color size)%_int32_scope.
Arguments DrawSquare (x y color size)%_int32_scope.

(** The points a [WriteFrame] would send: the first [num_points] cells. *)
Definition frame (st : state) : list HeliosPoint :=
  take (Z.to_nat (num_points st)) (vector_list st).

(** ** The refresh loop of [main] (lines 366-398)

    The clock and the device are outside the program: [clock k] is what the
    [k]-th reading of the wall clock ([time] then [localtime]) returns and
    [status k] what the [k]-th call of [GetStatus(0)] returns (zero: busy).
    The loop never ends, so it is run one control step at a time; every
    reading, poll and write is appended to a trace. *)

Inductive event : Type :=
  | Ev_time (now : tm)                        (* the clock was read *)
  | Ev_rebuild (now : tm)                     (* the buffer was cleared and redrawn *)
  | Ev_status (s : Z)                         (* GetStatus(0) returned s *)
  | Ev_write (pps : Z) (pts : list HeliosPoint).   (* WriteFrame *)

Inductive label : Type :=
  | At_outer      (* line 368: head of the outer loop *)
  | At_test       (* line 391: the test of the inner loop *)
  | At_read       (* lines 393-394 *)
  | At_poll       (* line 395 *)
  | At_write.     (* line 396 *)

Record machine : Type := mkMachine {
  pc : label;
  globals : state;
  tm_now : tm;         (* the local [tm] *)
  seconds : Z;         (* the local [seconds] *)
  reads : nat;         (* clock readings taken so far *)
  polls : nat;         (* status polls made so far *)
  trace : list event
}.

Definition dec (z : Z) : string := NilZero.string_of_int (Z.to_int z).

(** [%02d] *)
Definition dec02 (z : Z) : string :=
  let s := dec z in
  if (String.length s <? 2)%nat then ("0" ++ s)%string else s.

(** [fprintf(stderr, "now: %d-%d-%d %02d:%02d:%02d\n", ...)] *)
Definition now_line (now : tm) : string :=
  ("now: " ++ dec (tm_year now + 1900)%i32 ++ "-" ++ dec (tm_mon now + 1)%i32
   ++ "-" ++ dec (tm_mday now) ++ " " ++ dec02 (tm_hour now) ++ ":"
   ++ dec02 (tm_min now) ++ ":" ++ dec02 (tm_sec now) ++ newline)%string.

Section Scheduler.
Variable clock : nat -> tm.
Variable status : nat -> Z.

Definition step (m : machine) : option machine :=
  match pc m with
  | At_outer =>
      let now := clock (reads m) in
      match (rebuild now ;;; modify (fprintf_stderr (now_line now))) (globals m) with
      | Some (_, st) =>
          Some (mkMachine At_test st now (tm_sec now) (S (reads m)) (polls m)
                          (trace m ++ [Ev_time now; Ev_rebuild now]))
      | None => None
      end
  | At_test =>
      Some (mkMachine (if tm_sec (tm_now m) =? seconds m then At_read else At_outer)
                      (globals m) (tm_now m) (seconds m) (reads m) (polls m)
                      (trace m))
  | At_read =>
      let now := clock (reads m) in
      Some (mkMachine At_poll (globals m) now (seconds m) (S (reads m)) (polls m)
                      (trace m ++ [Ev_time now]))
  | At_poll =>
      let s := status (polls m) in
      Some (mkMachine (if s =? 0 then At_poll else At_write)
                      (globals m) (tm_now m) (seconds m) (reads m) (S (polls m))
                      (trace m ++ [Ev_status s]))
  | At_write =>
      Some (mkMachine At_test (globals m) (tm_now m) (seconds m) (reads m) (polls m)
                      (trace m ++ [Ev_write POINTS_PER_SECOND (frame (globals m))]))
  end.

Fixpoint run (n : nat) (m : machine) : option machine :=
  match n with
  | O => Some m
  | S n' => match step m with
            | Some m' => run n' m'
            | None => None
            end
  end.

End Scheduler.

(** The machine as [main] enters its loop. *)
Definition boot (st : state) : machine :=
  mkMachine At_outer st (mkTm 0 0 0 0 0 0) 0 O O [].

(** A simulated clock that advances one second per reading, from
    [t0] seconds after midnight of some day. *)
Definition tm_of_seconds (t : Z) : tm :=
  mkTm 117 0 28 ((t / 3600) mod 24) ((t / 60) mod 60) (t mod 60).

Definition ticking (t0 : Z) (k : nat) : tm := tm_of_seconds (t0 + Z.of_nat k).

Definition always_ready (k : nat) : Z := 1.

(** ** What a call stores: the pure reading of [DrawPoint] *)

(** The clipping of lines 91-103. *)
Definition clip (z : Z) : Z :=
  if 4095 <? z then 4095 else if z <? 0 then 0 else z.

Definition point_of (x y color : Z) : HeliosPoint :=
  let '(r, g, b) := color_rgb color in
  mkPoint (clip x) (clip y) r g b 255.

Definition warnings (x y : Z) : list string :=
  (if 4095 <? x then [clip_msg_x] else []) ++
  (if 4095 <? y then [clip_msg_y] else []).

(** The arguments of one call of [DrawPoint]. *)
Definition call : Type := Z * Z * Z.

Definition call_point (c : call) : HeliosPoint :=
  let '(x, y, color) := c in point_of x y color.

Definition call_warnings (c : call) : list string :=
  let '(x, y, _) := c in warnings x y.

(** The result and the state after [DrawPoint x y color] on a sound buffer. *)
Definition put (c : call) (st : state) : Z * state :=
  if MAX_POINTS <=? num_points st then (0, st)
  else
    (num_points st,
     mkState (<[Z.to_nat (num_points st) := call_point c]> (vector_list st))
             (num_points st + 1) (x_start st) (y_start st) (xpos st) (ypos st)
             (size st) (color st) (divider st) (dwell st) (hidden_dwell st)
             (stderr st ++ call_warnings c) (pen_moves st)).

Definition put_all (cs : list call) (s : Z * state) : Z * state :=
  fold_left (fun s c => put c (snd s)) cs s.

(** The calls of [DrawPoint] that [DrawLineTo x y color] makes, in order. *)
Definition stroke_calls (x y color : Z) (st : state) : list call :=
  let x_length := F32.of_int (x - x_start st)%i32 in
  let y_length := F32.of_int (y - y_start st)%i32 in
  let n := segments x_length y_length (divider st) in
  (if 0 <? color
   then map (fun i => (interpolate (x_start st) x_length n i,
                       interpolate (y_start st) y_length n i, color))
            (seqZ 1 n)
   else []).

Definition dwell_calls (x y color : Z) (st : state) : list call :=
  replicate (Z.to_nat (if color =? 0 then hidden_dwell st else dwell st))
            (x, y, color).

(** The array is whole and the fill count is within it. *)
Definition buffer_ok (st : state) : Prop :=
  Z.of_nat (length (vector_list st)) = MAX_POINTS /\
  0 <= num_points st <= MAX_POINTS.

(** The layout parameters, fixed for the run, and the pen position. *)
Definition config (st : state) : Z * Z * Z * Z * spec_float * Z * Z :=
  (xpos st, ypos st, size st, color st, divider st, dwell st, hidden_dwell st).

Definition pen (st : state) : Z * Z := (x_start st, y_start st).

(** Result and state after [DrawLineTo x y color] on a sound buffer. *)
Definition line_result (x y color : Z) (st : state) : Z * state :=
  let r := put_all (stroke_calls x y color st ++ dwell_calls x y color st)
                   (0, record_move (mkMove x y color) st) in
  (fst r, set_pen x y (snd r)).

(** A sequence of appends: [DrawPoint] called on each element in turn. *)
Fixpoint draw_all (cs : list call) (status : Z) : M Z :=
  match cs with
  | [] => ret status
  | (x, y, color) :: cs' => s <- DrawPoint x y color ;; draw_all cs' s
  end.

(** A stored point lies in the device range. *)
Definition in_device (p : HeliosPoint) : Prop :=
  0 <= pt_x p <= 4095 /\ 0 <= pt_y p <= 4095.

(** The state after the pen moves [ms], issued in order. *)
Definition run_moves (ms : list PenMove) (st : state) : state :=
  fold_left (fun st m => snd (line_result (mv_x m) (mv_y m) (mv_color m) st)) ms st.

(** ** The stroke table of the specification

    Each entry is a tag (visible or blanked) and the offset [(dx, dy)] of a
    vertex from the origin of the digit, in units of the size. *)
Definition blank (dx dy : Z) : bool * Z * Z := (false, dx, dy).
Definition draw (dx dy : Z) : bool * Z * Z := (true, dx, dy).

Definition stroke_table (d : Z) : list (bool * Z * Z) :=
  match d with
  | 0 => [blank 0 0; draw 1 0; draw 1 (-2); draw 0 (-2); draw 0 0]
  | 1 => [blank 1 0; blank 1 0; draw 1 (-2)]
  | 2 => [blank 0 0; draw 1 0; draw 1 (-1); draw 0 (-1); draw 0 (-2); draw 1 (-2)]
  | 3 => [blank 0 0; draw 1 0; draw 1 (-2); draw 0 (-2); blank 0 (-1); draw 1 (-1)]
  | 4 => [blank 0 0; draw 0 (-1); draw 1 (-1); blank 1 0; draw 1 (-2)]
  | 5 => [blank 1 0; draw 0 0; draw 0 (-1); draw 1 (-1); draw 1 (-2); draw 0 (-2)]
  | 6 => [blank 1 0; draw 0 0; draw 0 (-2); draw 1 (-2); draw 1 (-1); draw 0 (-1)]
  | 7 => [blank 0 0; draw 1 0; draw 1 (-2)]
  | 8 => [blank 0 0; draw 1 0; draw 1 (-2); draw 0 (-2); draw 0 0; blank 0 (-1);
          draw 1 (-1)]
  | 9 => [blank 1 (-2); draw 1 0; draw 0 0; draw 0 (-1); draw 1 (-1)]
  | _ => []
  end.

(** The pen move of a table entry for a digit of size [s] at [(x, y)]. *)
Definition place (x y color s : Z) (e : bool * Z * Z) : PenMove :=
  let '(visible, dx, dy) := e in
  mkMove (x + dx * s) (y + dy * s) (if visible then color else 0).

Definition digit_moves (d x y color s : Z) : list PenMove :=
  map (place x y color s) (stroke_table d).

(** The marker square of the specification: centred at [(x, y)], a blanked
    move to the corner half a size away on both axes, then the four sides. *)
Definition square_moves (x y color s : Z) : list PenMove :=
  let h := Z.quot s 2 in
  [mkMove (x - h) (y - h) 0;
   mkMove (x - h + s) (y - h) color;
   mkMove (x - h + s) (y - h + s) color;
   mkMove (x - h) (y - h + s) color;
   mkMove (x - h) (y - h) color].

(** The pen moves [ms] issued in order through [DrawLineTo]. *)
Fixpoint do_moves (ms : list PenMove) : M unit :=
  match ms with
  | [] => ret tt
  | m :: ms' => DrawLineTo (mv_x m) (mv_y m) (mv_color m) ;;; do_moves ms'
  end.

(** Two states are alike for what is drawn next: same frame, same fill
    count, same pen, same layout parameters.  The cells of the array beyond
    the fill count and the two histories may differ. *)
Definition same_frame (st1 st2 : state) : Prop :=
  frame st1 = frame st2 /\ num_points st1 = num_points st2 /\
  pen st1 = pen st2 /\ config st1 = config st2.

(** ** Monitors of the refresh loop

    A monitor reads a trace event by event, carrying a state of its own,
    and stops with [None] at the first event that breaks its rule. *)
Fixpoint monitor {Q : Type} (rule : Q -> event -> option Q) (q : Q)
    (tr : list event) : option Q :=
  match tr with
  | [] => Some q
  | e :: tr' => match rule q e with
                | Some q' => monitor rule q' tr'
                | None => None
                end
  end.

Definition accepts {Q : Type} (rule : Q -> event -> option Q) (q : Q)
    (tr : list event) : bool :=
  match monitor rule q tr with Some _ => true | None => false end.

(** The rule of the specification: a rebuilt frame is written before a
    reading shows another second value.  The state is the second value of
    a frame still waiting for its first write. *)
Definition written_before_change_rule (waiting : option Z) (e : event)
    : option (option Z) :=
  match e with
  | Ev_rebuild now => Some (Some (tm_sec now))
  | Ev_write _ _ => Some None
  | Ev_time now =>
      match waiting with
      | Some s => if tm_sec now =? s then Some waiting else None
      | None => Some None
      end
  | _ => Some waiting
  end.

Definition is_write (e : event) : bool :=
  match e with Ev_write _ _ => true | _ => false end.

(** The pen moves of the digit programs, in the order of their calls of
    [DrawLineTo], with the arithmetic of the program. *)
Definition program (d x y color size : Z) : list PenMove :=
  match d with
  | 0 => [mkMove x y 0; mkMove (x + size)%i32 y color;
          mkMove (x + size)%i32 (y - 2 * size)%i32 color;
          mkMove x (y - 2 * size)%i32 color; mkMove x y color]
  | 1 => [mkMove (x + size)%i32 y 0; mkMove (x + size)%i32 y 0;
          mkMove (x + size)%i32 (y - 2 * size)%i32 color]
  | 2 => [mkMove x y 0; mkMove (x + size)%i32 y color;
          mkMove (x + size)%i32 (y - size)%i32 color;
          mkMove x (y - size)%i32 color; mkMove x (y - 2 * size)%i32 color;
          mkMove (x + size)%i32 (y - 2 * size)%i32 color]
  | 3 => [mkMove x y 0; mkMove (x + size)%i32 y color;
          mkMove (x + size)%i32 (y - 2 * size)%i32 color;
          mkMove x (y - 2 * size)%i32 color; mkMove x (y - size)%i32 0;
          mkMove (x + size)%i32 (y - size)%i32 color]
  | 4 => [mkMove x y 0; mkMove x (y - size)%i32 color;
          mkMove (x + size)%i32 (y - size)%i32 color;
          mkMove (x + size)%i32 y 0;
          mkMove (x + size)%i32 (y - 2 * size)%i32 color]
  | 5 => [mkMove (x + size)%i32 y 0; mkMove x y color;
          mkMove x (y - size)%i32 color;
          mkMove (x + size)%i32 (y - size)%i32 color;
          mkMove (x + size)%i32 (y - 2 * size)%i32 color;
          mkMove x (y - 2 * size)%i32 color]
  | 6 => [mkMove (x + size)%i32 y 0; mkMove x y color;
          mkMove x (y - 2 * size)%i32 color;
          mkMove (x + size)%i32 (y - 2 * size)%i32 color;
          mkMove (x + size)%i32 (y - size)%i32 color;
          mkMove x (y - size)%i32 color]
  | 7 => [mkMove x y 0; mkMove (x + size)%i32 y color;
          mkMove (x + size)%i32 (y - 2 * size)%i32 color]
  | 8 => [mkMove x y 0; mkMove (x + size)%i32 y color;
          mkMove (x + size)%i32 (y - 2 * size)%i32 color;
          mkMove x (y - 2 * size)%i32 color; mkMove x y color;
          mkMove x (y - size)%i32 0;
          mkMove (x + size)%i32 (y - size)%i32 color]
  | 9 => [mkMove (x + size)%i32 (y - 2 * size)%i32 0;
          mkMove (x + size)%i32 y color; mkMove x y color;
          mkMove x (y - size)%i32 color;
          mkMove (x + size)%i32 (y - size)%i32 color]
  | _ => []
  end.

(** The same for [DrawSquare]. *)
Definition square_program (x y color size : Z) : list PenMove :=
  let offset := (size / 2)%i32 in
  [mkMove (x - offset)%i32 (y - offset)%i32 0;
   mkMove (x - offset + size)%i32 (y - offset)%i32 color;
   mkMove (x - offset + size)%i32 (y - offset + size)%i32 color;
   mkMove (x - offset)%i32 (y - offset + size)%i32 color;
   mkMove (x - offset)%i32 (y - offset)%i32 color].

(** The same for one rebuild of the frame at the time [now]. *)
Definition rebuild_program (now : tm) (st : state) : list PenMove :=
  let xpos := xpos st in
  let ypos := ypos st in
  let color := color st in
  let size := size st in
  program (tm_hour now / 10)%i32 xpos ypos color size
  ++ program (tm_hour now % 10)%i32 (xpos + 2 * size)%i32 ypos color size
  ++ program (tm_min now / 10)%i32 (xpos + 4 * size)%i32 ypos color size
  ++ program (tm_min now % 10)%i32 (xpos + 6 * size)%i32 ypos color size
  ++ program (tm_sec now / 10)%i32 (xpos + 8 * size)%i32 ypos color size
  ++ program (tm_sec now % 10)%i32 (xpos + 10 * size)%i32 ypos color size
  ++ square_program (xpos + scaled lit_3_5 size)%i32 (ypos - size / 2)%i32
                    color (size / 10)%i32
  ++ square_program (xpos + scaled lit_3_5 size)%i32
                    ((ypos - size / 2) - size)%i32 color (size / 10)%i32
  ++ square_program (xpos + scaled lit_7_5 size)%i32 (ypos - size / 2)%i32
                    color (size / 10)%i32
  ++ square_program (xpos + scaled lit_7_5 size)%i32
                    ((ypos - size / 2) - size)%i32 color (size / 10)%i32.

(** ** Values of floating-point numbers

    Used by the properties only: the number of binary digits of a mantissa,
    and the rational value of a float. *)
Definition digits (m : Z) : Z := Z.log2 m + 1.

Definition pow2 (e : Z) : Q := (2 # 1) ^ e.

Definition mag (m : positive) (e : Z) : Q := inject_Z (Zpos m) * pow2 e.

Definition val (f : spec_float) : Q :=
  match f with
  | S754_finite s m e => if s then - mag m e else mag m e
  | _ => 0
  end.

(** The unit roundoff of binary32, [2^-23]. *)
Definition u32 : Q := 1 # 8388608.

(** A float in normal form: a mantissa of exactly [prec] digits. *)
Definition normal (prec : Z) (f : spec_float) (s : bool) (m : positive) (e : Z) : Prop :=
  f = S754_finite s m e /\ digits (Zpos m) = prec.

(** A colon: two marker squares of a tenth of the size, half a size and one
    and a half sizes below the top line of the digits. *)
Definition colon_moves (x y color s : Z) : list PenMove :=
  square_moves x (y - Z.quot s 2) color (Z.quot s 10)
  ++ square_moves x (y - Z.quot s 2 - s) color (Z.quot s 10).

(** The clock face of the specification for the reading [h:m:sec]: six
    digits two sizes apart on the same line, then the two colons, three and
    a half and seven and a half sizes right of the origin. *)
Definition face_moves (h m sec x y color s : Z) : list PenMove :=
  digit_moves (h / 10) x y color s
  ++ digit_moves (h mod 10) (x + 2 * s) y color s
  ++ digit_moves (m / 10) (x + 4 * s) y color s
  ++ digit_moves (m mod 10) (x + 6 * s) y color s
  ++ digit_moves (sec / 10) (x + 8 * s) y color s
  ++ digit_moves (sec mod 10) (x + 10 * s) y color s
  ++ colon_moves (x + Z.quot (7 * s) 2) y color s
  ++ colon_moves (x + Z.quot (15 * s) 2) y color s.

(** ** Boxes

    A pen move, or a call of [DrawPoint], inside the box
    [[x0, x1] x [y0, y1]]; a call may fall one unit short of the low sides,
    where the conversion to [int] cuts an interpolated coordinate down. *)
Definition move_within (x0 x1 y0 y1 : Z) (m : PenMove) : Prop :=
  x0 <= mv_x m <= x1 /\ y0 <= mv_y m <= y1.

Definition call_within (x0 x1 y0 y1 : Z) (c : call) : Prop :=
  x0 - 1 <= fst (fst c) <= x1 /\ y0 - 1 <= snd (fst c) <= y1.

Definition point_within (x0 x1 y0 y1 : Z) (p : HeliosPoint) : Prop :=
  x0 - 1 <= pt_x p <= x1 /\ y0 - 1 <= pt_y p <= y1.

(** A sequence of pen moves that opens with a blanked one. *)
Definition starts_blank (ms : list PenMove) : Prop :=
  exists m ms', ms = m :: ms' /\ mv_color m = 0.

(** ** Readings of a trace *)

(** The frame a rebuild for the reading [now] makes from the state [st]. *)
Definition rebuilt_frame (now : tm) (st : state) : list HeliosPoint :=
  match rebuild now st with
  | Some (_, st') => frame st'
  | None => []
  end.

(** The reading of the last rebuild in a trace. *)
Definition last_rebuilt (tr : list event) : option tm :=
  fold_left (fun acc e => match e with Ev_rebuild now => Some now | _ => acc end)
            tr None.

(** The readings of all the rebuilds of a trace, oldest first. *)
Fixpoint rebuilt_times (tr : list event) : list tm :=
  match tr with
  | [] => []
  | Ev_rebuild now :: tr' => now :: rebuilt_times tr'
  | _ :: tr' => rebuilt_times tr'
  end.

(** Every write of the trace [tr] sends, at [POINTS_PER_SECOND], the frame
    that a rebuild makes from [st] for the reading of the rebuild last
    before it. *)
Definition writes_rebuilt (st : state) (tr : list event) : Prop :=
  forall tr1 tr2 pps pts,
    tr = tr1 ++ Ev_write pps pts :: tr2 ->
    pps = POINTS_PER_SECOND /\
    exists now, last_rebuilt tr1 = Some now /\ pts = rebuilt_frame now st.

(** The invariant of the loop for what it writes. *)
Definition write_inv (st : state) (m : machine) : Prop :=
  buffer_ok (globals m) /\ config (globals m) = config st /\
  writes_rebuilt st (trace m) /\
  (pc m <> At_outer ->
   exists now, last_rebuilt (trace m) = Some now /\
               frame (globals m) = rebuilt_frame now st).

(** ** The options of the command line ([main], lines 339-355)

    [argv] is the list of the arguments, the name of the program first;
    the cell after the last one holds the null pointer, which no routine
    may read.  [strcasecmp] is the comparison of the "C" locale (the program
    never sets another): letters are compared in lower case. *)

Definition tolower (c : ascii) : ascii :=
  let n := nat_of_ascii c in
  if ((65 <=? n) && (n <=? 90))%nat then ascii_of_nat (n + 32) else c.

Fixpoint strcasecmp (a b : string) : Z :=
  match a, b with
  | EmptyString, EmptyString => 0
  | EmptyString, String d _ => - Z.of_nat (nat_of_ascii (tolower d))
  | String c _, EmptyString => Z.of_nat (nat_of_ascii (tolower c))
  | String c a', String d b' =>
      if Ascii.eqb (tolower c) (tolower d) then strcasecmp a' b'
      else Z.of_nat (nat_of_ascii (tolower c))
           - Z.of_nat (nat_of_ascii (tolower d))
  end.

Definition set_size (v : Z) (st : state) : state :=
  mkState (vector_list st) (num_points st) (x_start st) (y_start st) (xpos st)
          (ypos st) v (color st) (divider st) (dwell st) (hidden_dwell st)
          (stderr st) (pen_moves st).

Definition set_dwell (v : Z) (st : state) : state :=
  mkState (vector_list st) (num_points st) (x_start st) (y_start st) (xpos st)
          (ypos st) (size st) (color st) (divider st) v (hidden_dwell st)
          (stderr st) (pen_moves st).

Definition set_xpos (v : Z) (st : state) : state :=
  mkState (vector_list st) (num_points st) (x_start st) (y_start st) v
          (ypos st) (size st) (color st) (divider st) (dwell st)
          (hidden_dwell st) (stderr st) (pen_moves st).

Definition set_ypos (v : Z) (st : state) : state :=
  mkState (vector_list st) (num_points st) (x_start st) (y_start st) (xpos st)
          v (size st) (color st) (divider st) (dwell st) (hidden_dwell st)
          (stderr st) (pen_moves st).

Definition set_color (v : Z) (st : state) : state :=
  mkState (vector_list st) (num_points st) (x_start st) (y_start st) (xpos st)
          (ypos st) (size st) v (divider st) (dwell st) (hidden_dwell st)
          (stderr st) (pen_moves st).

Definition set_hidden_dwell (v : Z) (st : state) : state :=
  mkState (vector_list st) (num_points st) (x_start st) (y_start st) (xpos st)
          (ypos st) (size st) (color st) (divider st) (dwell st) v
          (stderr st) (pen_moves st).

Definition set_divider (v : spec_float) (st : state) : state :=
  mkState (vector_list st) (num_points st) (x_start st) (y_start st) (xpos st)
          (ypos st) (size st) (color st) v (dwell st) (hidden_dwell st)
          (stderr st) (pen_moves st).

Section CommandLine.
(** The conversions of the C library: [atoi], and [atof] followed by the
    conversion of its result to the [float] that [divider] is. *)
Variable atoi : string -> Z.
Variable atof : string -> spec_float.

(** [argv[i]] *)
Definition arg (argv : list string) (i : nat) : M string :=
  fun st => match argv !! i with
            | Some a => Some (a, st)
            | None => None
            end.

(** [if (strcasecmp(argv[i], name) == 0) field = conv(argv[i+1]);] *)
Definition option_for {A} (argv : list string) (i : nat) (name : string)
    (conv : string -> A) (set : A -> state -> state) : M unit :=
  a <- arg argv i ;;
  if strcasecmp a name =? 0
  then v <- arg argv (S i) ;; modify (set (conv v))
  else ret tt.

(** The body of the loop over the arguments. *)
Definition parse_option (argv : list string) (i : nat) : M unit :=
  option_for argv i "-size" atoi set_size ;;;
  option_for argv i "-dwell" atoi set_dwell ;;;
  option_for argv i "-xpos" atoi set_xpos ;;;
  option_for argv i "-ypos" atoi set_ypos ;;;
  option_for argv i "-color" atoi set_color ;;;
  option_for argv i "-hidden_dwell" atoi set_hidden_dwell ;;;
  option_for argv i "-divider" atof set_divider.

(** [for (i = first; i < argc; i++)], run for [n] rounds. *)
Fixpoint parse_from (n : nat) (argv : list string) (i : nat) : M unit :=
  match n with
  | O => ret tt
  | S n' => parse_option argv i ;;; parse_from n' argv (S i)
  end.

Definition parse_args (argv : list string) : M unit :=
  parse_from (length argv - 1) argv 1.

End CommandLine.

(** *** The options, read as a table *)

Definition option_names : list string :=
  ["-size"; "-dwell"; "-xpos"; "-ypos"; "-color"; "-hidden_dwell"; "-divider"]%string.

(** The argument [a] is the option [name], in whatever case. *)
Definition is_option (name a : string) : bool := strcasecmp a name =? 0.

Definition known_option (a : string) : bool :=
  existsb (fun name => is_option name a) option_names.

(** The value of the option [name]: the argument that follows its last
    occurrence among [args], [found] when it does not occur.  The last
    argument has nothing after it and is not looked at. *)
Fixpoint option_value (name : string) (args : list string)
    (found : option string) : option string :=
  match args with
  | a :: rest =>
      match rest with
      | v :: _ => option_value name rest (if is_option name a then Some v else found)
      | [] => found
      end
  | [] => found
  end.

(** A field after the options: converted from the value of its option, or
    as it was. *)
Definition field_after {A} (name : string) (conv : string -> A) (old : A)
    (args : list string) : A :=
  match option_value name args None with
  | Some v => conv v
  | None => old
  end.

(** One argument [a] followed by [v], read as the loop body reads them. *)
Definition set_if {A} (name a : string) (conv : string -> A)
    (set : A -> state -> state) (v : string) (st : state) : state :=
  if is_option name a then set (conv v) st else st.

Definition apply_option (atoi : string -> Z) (atof : string -> spec_float)
    (a v : string) (st : state) : state :=
  set_if "-divider" a atof set_divider v
    (set_if "-hidden_dwell" a atoi set_hidden_dwell v
       (set_if "-color" a atoi set_color v
          (set_if "-ypos" a atoi set_ypos v
             (set_if "-xpos" a atoi set_xpos v
                (set_if "-dwell" a atoi set_dwell v
                   (set_if "-size" a atoi set_size v st)))))).

(** The loop over the arguments [args] that follow the program name. *)
Fixpoint parse_list (atoi : string -> Z) (atof : string -> spec_float)
    (args : list string) (st : state) : option state :=
  match args with
  | [] => Some st
  | a :: rest =>
      match rest with
      | v :: _ => parse_list atoi atof rest (apply_option atoi atof a v st)
      | [] => if known_option a then None else Some st
      end
  end.

(** Conversions to try the loop on, for an argument that is a string of
    decimal digits with an optional sign: [decimal_value] is the number
    written. *)
Definition digit_of (c : ascii) : option Z :=
  let n := nat_of_ascii c in
  if ((48 <=? n) && (n <=? 57))%nat then Some (Z.of_nat n - 48) else None.

Fixpoint digits_value (acc : Z) (s : string) : Z :=
  match s with
  | EmptyString => acc
  | String c s' =>
      match digit_of c with
      | Some d => digits_value (10 * acc + d) s'
      | None => acc
      end
  end.

Definition decimal_value (s : string) : Z :=
  match s with
  | String "-" s' => - digits_value 0 s'
  | String "+" s' => digits_value 0 s'
  | _ => digits_value 0 s
  end.

(** [atoi] is [(int) strtol(s, NULL, 10)]: with a [long] of 64 bits, the
    number held to the range of [long] and then cut to an [int]. *)
Definition decimal (s : string) : Z :=
  Int32.wrap (Z.max (- 2 ^ 63) (Z.min (2 ^ 63 - 1) (decimal_value s))).

(** [atof] gives the [double] nearest to the number; the assignment to the
    [float] [divider] rounds it once more. *)
Definition decimal_float (s : string) : spec_float :=
  match F64.of_int (decimal_value s) with
  | S754_finite sg m e =>
      binary_normalize F32.prec F32.emax (cond_Zopp sg (Zpos m)) e sg
  | f => f
  end.

(** The [float] of the integer [n] of at most 24 binary digits, with the
    sign [s]: the mantissa is [n] shifted up to 24 digits. *)
Definition norm_int (s : bool) (n : Z) : spec_float :=
  S754_finite s (Z.to_pos (n * 2 ^ (F32.prec - digits n))) (digits n - F32.prec).

(** ** The points a path asks for

    Under a divider that is the whole number [d], with the dwells [dw] and
    [hd]: a blanked move asks for [hd] points; any other move for [dw]
    points and, when its color is above 0, for one point per started
    [d] units of its length.  The length is taken along the axes, as all
    the visible strokes of the shapes run along one. *)
Definition move_points (d dw hd px py : Z) (m : PenMove) : Z :=
  if mv_color m =? 0 then Z.max 0 hd
  else (if 0 <? mv_color m
        then (Z.abs (mv_x m - px) + Z.abs (mv_y m - py) + d - 1) / d
        else 0) + Z.max 0 dw.

Fixpoint path_points (d dw hd px py : Z) (ms : list PenMove) : Z :=
  match ms with
  | [] => 0
  | m :: ms' =>
      move_points d dw hd px py m + path_points d dw hd (mv_x m) (mv_y m) ms'
  end.

(** Every move of the path that is not blanked runs along an axis. *)
Fixpoint along_axes (px py : Z) (ms : list PenMove) : Prop :=
  match ms with
  | [] => True
  | m :: ms' =>
      (mv_color m <= 0 \/ mv_x m = px \/ mv_y m = py) /\
      along_axes (mv_x m) (mv_y m) ms'
  end.

(** The pen moves of a clock face with the six digit values given: the
    digits two sizes apart, then the two colons. *)
Definition clock_moves (d1 d2 d3 d4 d5 d6 x y color s : Z) : list PenMove :=
  digit_moves d1 x y color s
  ++ digit_moves d2 (x + 2 * s) y color s
  ++ digit_moves d3 (x + 4 * s) y color s
  ++ digit_moves d4 (x + 6 * s) y color s
  ++ digit_moves d5 (x + 8 * s) y color s
  ++ digit_moves d6 (x + 10 * s) y color s
  ++ colon_moves (x + Z.quot (7 * s) 2) y color s
  ++ colon_moves (x + Z.quot (15 * s) 2) y color s.

(** ** DrawCircle (lines 323-334)

    The routine mixes [float] and [double]: the angle [theta] and the
    operands [radius] and [stepsize] are [float], the literals are [double],
    and an operation with a [double] operand is done in [double].  The sine
    and the cosine of the C library are taken as they come. *)

Module Double.
(** A [float] as a [double]: the same number, in the form of the wider
    format. *)
Definition of_float (f : spec_float) : spec_float :=
  match f with
  | S754_finite s m e =>
      binary_normalize F64.prec F64.emax (cond_Zopp s (Zpos m)) e s
  | _ => f
  end.

(** A [double] stored in a [float]: rounded to the narrower format. *)
Definition to_float (f : spec_float) : spec_float :=
  match f with
  | S754_finite s m e =>
      binary_normalize F32.prec F32.emax (cond_Zopp s (Zpos m)) e s
  | _ => f
  end.

Definition add := SFadd F64.prec F64.emax.
Definition sub := SFsub F64.prec F64.emax.
Definition mul := SFmul F64.prec F64.emax.
Definition div := SFdiv F64.prec F64.emax.
Definition ltb := SFltb.

Definition lit_0_0 : spec_float := S754_zero false.
Definition lit_0_5 : spec_float := F64.lit 1 (-1).
Definition lit_360 : spec_float := F64.lit 360 0.
Definition lit_180 : spec_float := F64.lit 180 0.
(** [3.1415926]: the [double] nearest to 31415926 / 10^7. *)
Definition lit_pi : spec_float := div (F64.lit 31415926 0) (F64.lit 10000000 0).
End Double.

(** What a routine with a loop of its own has come to after a number of
    rounds: it has returned, or made a store outside the array, or is
    still in its loop. *)
Inductive outcome (A : Type) : Type :=
  | Returned (a : A) (st : state)
  | Faulted
  | Unfinished.

Arguments Returned {A} a st.
Arguments Faulted {A}.
Arguments Unfinished {A}.

Section Circle.
Variable cos : spec_float -> spec_float.
Variable sin : spec_float -> spec_float.

(** [theta * 3.1415926 / 180.0] *)
Definition radians (theta : spec_float) : spec_float :=
  Double.div (Double.mul (Double.of_float theta) Double.lit_pi) Double.lit_180.

(** [360.0 + (0.5 * stepsize)] *)
Definition last_angle (stepsize : spec_float) : spec_float :=
  Double.add Double.lit_360 (Double.mul Double.lit_0_5 (Double.of_float stepsize)).

(** [0.0 - (0.5 * stepsize)], stored in the [float] [theta]. *)
Definition first_angle (stepsize : spec_float) : spec_float :=
  Double.to_float
    (Double.sub Double.lit_0_0 (Double.mul Double.lit_0_5 (Double.of_float stepsize))).

(** The loop over [theta], for at most [rounds] tests of its condition. *)
Fixpoint circle_loop (rounds : nat) (x y color : Z)
    (radius stepsize theta : spec_float) (st : state) : outcome unit :=
  match rounds with
  | O => Unfinished
  | S rounds' =>
      if Double.ltb (Double.of_float theta) (last_angle stepsize)
      then
        let xf := Double.to_float
                    (Double.mul (Double.of_float radius) (cos (radians theta))) in
        let yf := Double.to_float
                    (Double.mul (Double.of_float radius) (sin (radians theta))) in
        match DrawLineTo (F32.to_int xf + x)%i32 (F32.to_int yf + y)%i32 color st with
        | Some (_, st') =>
            circle_loop rounds' x y color radius stepsize
                        (F32.add theta stepsize) st'
        | None => Faulted
        end
      else Returned tt st
  end.

Definition DrawCircle (rounds : nat) (x y color : Z)
    (radius stepsize : spec_float) (st : state) : outcome Z :=
  match DrawLineTo (F32.to_int (F32.add (F32.of_int x) radius)) y 0 st with
  | Some (_, st1) =>
      match circle_loop rounds x y color radius stepsize
                        (first_angle stepsize) st1 with
      | Returned _ st2 => Returned 0 st2
      | Faulted => Faulted
      | Unfinished => Unfinished
      end
  | None => Faulted
  end.

End Circle.

(** The rounds of the loop of [DrawCircle]: how many times its condition
    holds before it fails, [None] when it still holds after [rounds]
    tests.  The angle does not depend on what is drawn. *)
Fixpoint angle_rounds (rounds : nat) (stepsize theta : spec_float) : option nat :=
  match rounds with
  | O => None
  | S rounds' =>
      if Double.ltb (Double.of_float theta) (last_angle stepsize)
      then option_map S (angle_rounds rounds' stepsize (F32.add theta stepsize))
      else Some O
  end.

(** The rounds for a step of [k] degrees, [k] a whole number: the angle
    goes from [-k/2] in steps of [k] up to the last value below
    [360 + k/2]. *)
Definition whole_step_rounds (k : Z) : Z := (360 + k - 1) / k + 1.

Definition check_whole_steps : bool :=
  forallb (fun k => match angle_rounds 362 (F32.of_int k) (first_angle (F32.of_int k)) with
                    | Some n => Z.of_nat n =? whole_step_rounds k
                    | None => false
                    end)
          (seqZ 1 360).

(** ** The cadence of the refresh loop

    What the specification asks of the loop, reading by reading.  The loop
    either has a frame in the buffer that it keeps writing, rebuilt for the
    reading [shown], or it has none (at its start, and after the second
    value has changed).  A reading taken with no frame is the reading of a
    rebuild.  A reading taken with a frame is followed by one write of that
    frame; the frame is kept when the reading shows the second value of
    [shown] and given up otherwise. *)
Definition advance (st : state) (current : option tm) (t : tm)
    : option tm * list event :=
  match current with
  | None => (Some t, [Ev_time t; Ev_rebuild t])
  | Some shown =>
      (if tm_sec t =? tm_sec shown then Some shown else None,
       [Ev_time t; Ev_write POINTS_PER_SECOND (rebuilt_frame shown st)])
  end.

(** The readings, rebuilds and writes that a sequence of readings of the
    clock leads to. *)
Fixpoint schedule (st : state) (current : option tm) (readings : list tm)
    : list event :=
  match readings with
  | [] => []
  | t :: rest =>
      snd (advance st current t) ++ schedule st (fst (advance st current t)) rest
  end.

(** The frame kept after a sequence of readings. *)
Definition kept (st : state) (current : option tm) (readings : list tm)
    : option tm :=
  fold_left (fun c t => fst (advance st c t)) readings current.

Definition is_poll (e : event) : bool :=
  match e with Ev_status _ => true | _ => false end.

(** A trace without its polls of the device. *)
Definition non_poll (tr : list event) : list event :=
  List.filter (fun e => negb (is_poll e)) tr.

(** The polls of a trace: a poll that finds the device busy is followed by
    another poll, a poll that finds it ready by a write, and a write comes
    only right after a poll that found the device ready. *)
Inductive polling : Type := Idle | Busy | Ready.

Definition poll_rule (q : polling) (e : event) : option polling :=
  match e with
  | Ev_status s =>
      match q with
      | Ready => None
      | _ => Some (if s =? 0 then Busy else Ready)
      end
  | Ev_write _ _ =>
      match q with
      | Ready => Some Idle
      | _ => None
      end
  | _ =>
      match q with
      | Idle => Some Idle
      | _ => None
      end
  end.

(** What holds each time the loop has dealt with a reading: [n] readings
    have been taken, the trace is their schedule, and the loop is at the
    head of the outer loop when no frame is kept, at the test of the inner
    loop with the kept frame in the buffer otherwise. *)
Definition cadence_inv (clock : nat -> tm) (st : state) (n : nat) (m : machine)
    : Prop :=
  reads m = n /\ buffer_ok (globals m) /\ config (globals m) = config st /\
  non_poll (trace m) = schedule st None (map clock (seq 0 n)) /\
  monitor poll_rule Idle (trace m) = Some Idle /\
  match kept st None (map clock (seq 0 n)) with
  | None => pc m = At_outer
  | Some shown =>
      pc m = At_test /\ tm_sec (tm_now m) = seconds m /\
      seconds m = tm_sec shown /\ frame (globals m) = rebuilt_frame shown st
  end.

(** * Properties *)

(** ** Integers *)

Lemma wrap_in_range z : Int32.in_range z -> Int32.wrap z = z.
Proof.
  unfold Int32.in_range, Int32.wrap, Int32.min_signed, Int32.max_signed.
  intros H. rewrite Z.mod_small; lia.
Qed.

Lemma wrap_range z : Int32.in_range (Int32.wrap z).
Proof.
  unfold Int32.in_range, Int32.wrap, Int32.min_signed, Int32.max_signed.
  pose proof (Z.mod_pos_bound (z + 2 ^ 31) (2 ^ 32) ltac:(lia)). lia.
Qed.

Lemma min_signed_in_range : Int32.in_range Int32.min_signed.
Proof. unfold Int32.in_range, Int32.min_signed, Int32.max_signed. lia. Qed.

Lemma to_int_range f : Int32.in_range (FP.to_int f).
Proof.
  unfold FP.to_int.
  destruct f as [s|s| |s m e]; try apply min_signed_in_range.
  - unfold Int32.in_range, Int32.min_signed, Int32.max_signed. lia.
  - cbv zeta.
    destruct (Int32.min_signed <=? _) eqn:E1; cbn [andb];
      [|apply min_signed_in_range].
    destruct (_ <=? Int32.max_signed) eqn:E2; [|apply min_signed_in_range].
    apply Z.leb_le in E1, E2. split; assumption.
Qed.

(** ** Floating point: rounding *)

Lemma Zdigits2_digits m : 0 < m -> Zdigits2 m = digits m.
Proof.
  unfold digits. destruct m as [|p|p]; try lia. intros _. cbn [Zdigits2].
  induction p as [p IH|p IH|]; cbn [digits2_pos Z.log2] in *; try reflexivity.
  - destruct p; cbn [Z.log2 Pos.size] in *; lia.
  - destruct p; cbn [Z.log2 Pos.size] in *; lia.
Qed.

Lemma digits_bounds m : 0 < m -> 2 ^ (digits m - 1) <= m < 2 ^ digits m.
Proof.
  intros H. unfold digits. replace (Z.log2 m + 1 - 1) with (Z.log2 m) by lia.
  pose proof (Z.log2_spec m H). lia.
Qed.

Lemma digits_unique m d : 0 < m -> 2 ^ (d - 1) <= m < 2 ^ d -> digits m = d.
Proof.
  intros H Hd. unfold digits.
  assert (0 <= d - 1).
  { destruct (Z_lt_le_dec (d - 1) 0) as [Hn|]; [|assumption].
    assert (d <= 0) by lia. 
    assert (2 ^ d <= 1). { destruct (Z.eq_dec d 0) as [->|]; [cbn; lia|]. rewrite Z.pow_neg_r by lia. lia. }
    lia. }
  rewrite (Z.log2_unique m (d - 1)); try lia.
  replace (Z.succ (d - 1)) with d by lia. lia.
Qed.

Lemma digits_pos m : 0 < m -> 0 < digits m.
Proof. intros H. unfold digits. pose proof (Z.log2_nonneg m). lia. Qed.

Lemma digits_shiftr m k :
  0 < m -> 0 <= k -> k < digits m -> digits (m / 2 ^ k) = digits m - k.
Proof.
  intros Hm Hk Hd.
  pose proof (digits_bounds m Hm) as [Hlo Hhi].
  apply digits_unique.
  - apply Z.div_str_pos. split; [apply Z.pow_pos_nonneg; lia|].
    apply Z.le_trans with (2 ^ (digits m - 1)); [|assumption].
    apply Z.pow_le_mono_r; lia.
  - split.
    + apply Z.div_le_lower_bound; [apply Z.pow_pos_nonneg; lia|].
      rewrite <- Z.pow_add_r by lia.
      replace (k + (digits m - k - 1)) with (digits m - 1) by lia. assumption.
    + apply Z.div_lt_upper_bound; [apply Z.pow_pos_nonneg; lia|].
      rewrite <- Z.pow_add_r by lia.
      replace (k + (digits m - k)) with (digits m) by lia. assumption.
Qed.

Lemma digits_shiftl m k :
  0 < m -> 0 <= k -> digits (m * 2 ^ k) = digits m + k.
Proof.
  intros Hm Hk.
  pose proof (digits_bounds m Hm) as [Hlo Hhi].
  pose proof (digits_pos m Hm).
  assert (0 < 2 ^ k) by (apply Z.pow_pos_nonneg; lia).
  apply digits_unique; [nia|].
  replace (digits m + k - 1) with ((digits m - 1) + k) by lia.
  rewrite !Z.pow_add_r by lia. split; nia.
Qed.

(** shifting right *)
Lemma shr_1_m mrs : 0 <= shr_m mrs -> shr_m (shr_1 mrs) = shr_m mrs / 2.
Proof.
  destruct mrs as [m r s]. cbn [shr_m shr_1]. intros H.
  destruct m as [|[p|p|]|p]; cbn [shr_m]; try lia; try reflexivity.
  - apply Z.div_unique with 1; lia.
  - apply Z.div_unique with 0; lia.
Qed.

Lemma shr_1_nonneg mrs : 0 <= shr_m mrs -> 0 <= shr_m (shr_1 mrs).
Proof. intros H. rewrite shr_1_m by assumption. apply Z.div_pos; lia. Qed.

Lemma iter_shr_m p : forall mrs,
  0 <= shr_m mrs ->
  shr_m (SpecFloat.iter_pos shr_1 p mrs) = shr_m mrs / 2 ^ Zpos p.
Proof.
  induction p as [p IH|p IH|]; intros mrs H; cbn [SpecFloat.iter_pos].
  - assert (H1 := shr_1_nonneg mrs H).
    assert (H2 : 0 <= shr_m (SpecFloat.iter_pos shr_1 p (shr_1 mrs))).
    { rewrite IH by assumption. apply Z.div_pos; [assumption|]. apply Z.pow_pos_nonneg; lia. }
    rewrite IH by assumption. rewrite IH by assumption. rewrite shr_1_m by assumption.
    rewrite !Z.div_div by (try apply Z.pow_pos_nonneg; lia).
    f_equal. rewrite <- Z.pow_add_r by lia. rewrite <- (Z.pow_succ_r 2) by lia.
    f_equal. lia.
  - assert (H2 : 0 <= shr_m (SpecFloat.iter_pos shr_1 p mrs)).
    { rewrite IH by assumption. apply Z.div_pos; [assumption|]. apply Z.pow_pos_nonneg; lia. }
    rewrite IH by assumption. rewrite IH by assumption.
    rewrite !Z.div_div by (try apply Z.pow_pos_nonneg; lia).
    f_equal. rewrite <- Z.pow_add_r by lia. f_equal. lia.
  - rewrite shr_1_m by assumption. reflexivity.
Qed.

Lemma shr_1_exact m :
  0 <= m -> m mod 2 = 0 ->
  shr_1 (Build_shr_record m false false) = Build_shr_record (m / 2) false false.
Proof.
  intros H Hm. destruct m as [|[p|p|]|p]; try lia; cbn [shr_1 orb].
  - reflexivity.
  - exfalso. replace (Zpos p~1) with (1 + Zpos p * 2) in Hm by lia.
    rewrite Z.mod_add in Hm by lia. discriminate.
  - f_equal. apply Z.div_unique with 0; lia.
  - discriminate.
Qed.

Lemma iter_shr_exact p : forall m,
  0 <= m -> m mod 2 ^ Zpos p = 0 ->
  SpecFloat.iter_pos shr_1 p (Build_shr_record m false false)
  = Build_shr_record (m / 2 ^ Zpos p) false false.
Proof.
  assert (Hsplit : forall m a b, 0 <= m -> 0 <= a -> 0 <= b ->
            m mod 2 ^ (a + b) = 0 ->
            m mod 2 ^ a = 0 /\ (m / 2 ^ a) mod 2 ^ b = 0).
  { intros m a b Hm Ha Hb H.
    assert (0 < 2 ^ a) by (apply Z.pow_pos_nonneg; lia).
    assert (0 < 2 ^ b) by (apply Z.pow_pos_nonneg; lia).
    rewrite Z.pow_add_r in H by lia.
    apply Z.mod_divide in H; [|nia]. destruct H as [q Hq].
    subst m. split.
    - apply Z.mod_divide; [lia|]. exists (q * 2 ^ b). lia.
    - replace (q * (2 ^ a * 2 ^ b)) with (q * 2 ^ b * 2 ^ a) by lia.
      rewrite Z.div_mul by lia. apply Z.mod_mul. lia. }
  induction p as [p IH|p IH|]; intros m Hm H; cbn [SpecFloat.iter_pos].
  - replace (Zpos p~1) with (1 + (Zpos p + Zpos p)) in * by lia.
    destruct (Hsplit m 1 (Zpos p + Zpos p) Hm ltac:(lia) ltac:(lia) H) as [H1 H2].
    change (2 ^ 1) with 2 in *.
    rewrite shr_1_exact by assumption.
    assert (0 <= m / 2) by (apply Z.div_pos; lia).
    destruct (Hsplit (m / 2) (Zpos p) (Zpos p) ltac:(lia) ltac:(lia) ltac:(lia) H2) as [H3 H4].
    rewrite IH by assumption.
    rewrite IH; [|apply Z.div_pos; [lia|apply Z.pow_pos_nonneg; lia]|assumption].
    f_equal. rewrite !Z.div_div by (try apply Z.pow_pos_nonneg; lia).
    f_equal. rewrite !Z.pow_add_r by lia. lia.
  - replace (Zpos p~0) with (Zpos p + Zpos p) in * by lia.
    destruct (Hsplit m (Zpos p) (Zpos p) Hm ltac:(lia) ltac:(lia) H) as [H3 H4].
    rewrite IH by assumption.
    rewrite IH; [|apply Z.div_pos; [lia|apply Z.pow_pos_nonneg; lia]|assumption].
    f_equal. rewrite !Z.div_div by (try apply Z.pow_pos_nonneg; lia).
    f_equal. rewrite !Z.pow_add_r by lia. lia.
  - change (2 ^ 1) with 2 in *. apply shr_1_exact; assumption.
Qed.

Section Rounding.
Variables prec emax : Z.
Hypothesis Hprec : 0 < prec.

Abbreviation emin := (emin prec emax).
Abbreviation fexp := (fexp prec emax).

Lemma fexp_normal e : emin <= e - prec -> fexp e = e - prec.
Proof. unfold SpecFloat.fexp. lia. Qed.

Lemma shr_record_of_loc_m m l : shr_m (shr_record_of_loc m l) = m.
Proof. destruct l as [|[]]; reflexivity. Qed.

Lemma shr_fexp_spec m e l :
  0 < m -> prec <= digits m -> emin <= digits m + e - prec ->
  exists mrs,
    shr_fexp prec emax m e l = (mrs, e + (digits m - prec)) /\
    shr_m mrs = m / 2 ^ (digits m - prec) /\
    (l = loc_Exact -> m mod 2 ^ (digits m - prec) = 0 ->
     mrs = Build_shr_record (m / 2 ^ (digits m - prec)) false false).
Proof.
  intros Hm Hd He. unfold shr_fexp.
  rewrite Zdigits2_digits by assumption. rewrite fexp_normal by assumption.
  replace (digits m + e - prec - e) with (digits m - prec) by lia.
  destruct (digits m - prec) as [|p|p] eqn:Hk; [| |lia].
  - cbn [shr]. exists (shr_record_of_loc m l).
    rewrite Z.add_0_r, Z.pow_0_r, Z.div_1_r.
    split; [reflexivity|]. split; [apply shr_record_of_loc_m|].
    intros -> _. reflexivity.
  - cbn [shr]. exists (SpecFloat.iter_pos shr_1 p (shr_record_of_loc m l)).
    split; [reflexivity|]. split.
    + rewrite iter_shr_m; rewrite shr_record_of_loc_m; [reflexivity|lia].
    + intros -> Hmod. cbn [shr_record_of_loc]. apply iter_shr_exact; [lia|assumption].
Qed.

Lemma round_nearest_even_cases m l :
  round_nearest_even m l = m \/ round_nearest_even m l = m + 1.
Proof.
  unfold round_nearest_even. destruct l as [|[]]; auto.
  destruct (Z.even m); auto.
Qed.

(** Rounding a mantissa with at least [prec] digits, in the normal range. *)
Lemma binary_round_aux_spec sx mx ex lx :
  0 < mx -> prec <= digits mx ->
  emin <= digits mx + ex - prec -> digits mx + ex < emax ->
  let k := digits mx - prec in
  let M := mx / 2 ^ k in
  exists m e,
    binary_round_aux prec emax sx mx ex lx = S754_finite sx m e /\
    digits (Zpos m) = prec /\
    ((e = ex + k /\ (Zpos m = M \/ Zpos m = M + 1)) \/
     (e = ex + k + 1 /\ M + 1 = 2 ^ prec /\ Zpos m = 2 ^ (prec - 1))) /\
    (lx = loc_Exact -> mx mod 2 ^ k = 0 -> e = ex + k /\ Zpos m = M).
Proof.
  intros Hm Hd Hlo Hhi k M.
  assert (Hk : 0 <= k) by (unfold k; lia).
  assert (HdM : digits M = prec).
  { unfold M. rewrite digits_shiftr; unfold k; lia. }
  assert (HM : 0 < M).
  { unfold M. apply Z.div_str_pos. split; [apply Z.pow_pos_nonneg; lia|].
    pose proof (digits_bounds mx Hm) as [Hb _].
    apply Z.le_trans with (2 ^ (digits mx - 1)); [|assumption].
    apply Z.pow_le_mono_r; unfold k; lia. }
  pose proof (digits_bounds M HM) as HMb. rewrite HdM in HMb.
  unfold binary_round_aux.
  destruct (shr_fexp_spec mx ex lx Hm Hd Hlo) as (mrs & -> & Hmrs & Hex).
  fold k in Hmrs, Hex |- *. fold M in Hmrs, Hex.
  rewrite Hmrs.
  remember (round_nearest_even M (loc_of_shr_record mrs)) as m1 eqn:Em1.
  assert (Hm1 : m1 = M \/ m1 = M + 1)
    by (rewrite Em1; apply round_nearest_even_cases).
  assert (Hexact : lx = loc_Exact -> mx mod 2 ^ k = 0 -> m1 = M).
  { intros HE Hmod. rewrite Em1, (Hex HE Hmod). reflexivity. }
  clear Em1.
  assert (Hm1pos : 0 < m1) by lia.
  destruct (Z_lt_le_dec m1 (2 ^ prec)) as [Hsmall|Hbig].
  - (* the rounded mantissa still has [prec] digits *)
    assert (Hd1 : digits m1 = prec) by (apply digits_unique; lia).
    destruct (shr_fexp_spec m1 (ex + k) loc_Exact Hm1pos ltac:(lia) ltac:(unfold k in *; lia))
      as (mrs2 & -> & Hmrs2 & _).
    rewrite Hd1, Z.sub_diag, Z.pow_0_r, Z.div_1_r in Hmrs2.
    rewrite Hmrs2, Hd1, Z.sub_diag. destruct m1 as [|p1|p1] eqn:E1; try lia.
    replace (ex + k + 0 <=? emax - prec) with true
      by (symmetry; apply Z.leb_le; unfold k; lia).
    exists p1, (ex + k + 0). split; [reflexivity|]. split; [exact Hd1|].
    split; [left; split; [lia|exact Hm1]|].
    intros HE Hmod. split; [lia|]. apply Hexact; assumption.
  - (* the rounded mantissa is 2^prec: one more shift *)
    assert (Hm1eq : m1 = 2 ^ prec) by lia.
    assert (Hd1 : digits m1 = prec + 1).
    { apply digits_unique; [lia|]. rewrite Hm1eq.
      replace (prec + 1 - 1) with prec by lia. split; [lia|].
      apply Z.pow_lt_mono_r; lia. }
    destruct (shr_fexp_spec m1 (ex + k) loc_Exact Hm1pos ltac:(lia) ltac:(unfold k in *; lia))
      as (mrs2 & -> & Hmrs2 & _).
    rewrite Hd1 in Hmrs2 |- *.
    replace (prec + 1 - prec) with 1 in * by lia.
    rewrite Hm1eq in Hmrs2.
    replace (2 ^ prec / 2 ^ 1) with (2 ^ (prec - 1)) in Hmrs2.
    2:{ change (2 ^ 1) with 2. apply Z.div_unique with 0; [lia|].
        rewrite Z.add_0_r, <- (Z.pow_succ_r 2) by lia. f_equal; lia. }
    rewrite Hmrs2.
    assert (Hpp : 0 < 2 ^ (prec - 1)) by (apply Z.pow_pos_nonneg; lia).
    destruct (2 ^ (prec - 1)) as [|p1|p1] eqn:E1; try lia.
    replace (ex + k + 1 <=? emax - prec) with true
      by (symmetry; apply Z.leb_le; unfold k; lia).
    exists p1, (ex + k + 1). split; [reflexivity|]. split.
    { rewrite <- E1. apply digits_unique; [lia|].
      split; [lia|]. apply Z.pow_lt_mono_r; lia. }
    split; [right; split; [reflexivity|split; [lia|reflexivity]]|].
    intros HE Hmod. exfalso. pose proof (Hexact HE Hmod). lia.
Qed.
End Rounding.

Lemma pow2_pos e : (0 < pow2 e)%Q.
Proof. apply Qpower_0_lt. reflexivity. Qed.

Lemma pow2_add a b : (pow2 (a + b) == pow2 a * pow2 b)%Q.
Proof. apply Qpower_plus. discriminate. Qed.

Lemma pow2_Z n : 0 <= n -> (pow2 n == inject_Z (2 ^ n))%Q.
Proof. intros H. unfold pow2. rewrite Zpower_Qpower by assumption. reflexivity. Qed.

Lemma pow2_le a b : a <= b -> (pow2 a <= pow2 b)%Q.
Proof. intros H. apply Qpower_le_compat_l; [assumption|]. discriminate. Qed.

Lemma pow2_lt a b : a < b -> (pow2 a < pow2 b)%Q.
Proof. intros H. apply Qpower_lt_compat_l; [assumption|]. reflexivity. Qed.

Lemma pow2_0 : (pow2 0 == 1)%Q.
Proof. reflexivity. Qed.

Lemma mag_pos m e : (0 < mag m e)%Q.
Proof.
  unfold mag. apply Qmult_lt_0_compat; [|apply pow2_pos].
  change 0%Q with (inject_Z 0). rewrite <- Zlt_Qlt. lia.
Qed.

Section RoundingValue.
Variables prec emax : Z.
Hypothesis Hprec : 0 < prec.

Abbreviation emin := (emin prec emax).
Abbreviation u := (pow2 (1 - prec)).

Lemma binary_round_aux_value sx mx ex lx (X : Q) :
  0 < mx -> prec <= digits mx ->
  emin <= digits mx + ex - prec -> digits mx + ex < emax ->
  (inject_Z mx * pow2 ex <= X <= inject_Z (mx + 1) * pow2 ex)%Q ->
  exists m e,
    binary_round_aux prec emax sx mx ex lx = S754_finite sx m e /\
    digits (Zpos m) = prec /\
    digits mx + ex - prec <= e <= digits mx + ex - prec + 1 /\
    (X * (1 - u) <= mag m e <= X * (1 + u))%Q /\
    (lx = loc_Exact -> mx mod 2 ^ (digits mx - prec) = 0 ->
     (mag m e == inject_Z mx * pow2 ex)%Q).
Proof.
  intros Hm Hd Hlo Hhi HX.
  destruct (binary_round_aux_spec prec emax Hprec sx mx ex lx Hm Hd Hlo Hhi)
    as (m & e & Hres & Hdm & Hcases & Hexact).
  set (k := digits mx - prec) in *. set (M := mx / 2 ^ k) in *.
  assert (Hk : 0 <= k) by (unfold k; lia).
  assert (H2k : 0 < 2 ^ k) by (apply Z.pow_pos_nonneg; lia).
  exists m, e. split; [exact Hres|]. split; [exact Hdm|].
  split; [unfold k in *; lia|].
  (* the grid of step g = 2^(ex+k) *)
  set (g := pow2 (ex + k)).
  assert (Hg : (0 < g)%Q) by apply pow2_pos.
  assert (Hgk : (g == inject_Z (2 ^ k) * pow2 ex)%Q).
  { unfold g. rewrite Z.add_comm, pow2_add, pow2_Z by assumption. reflexivity. }
  assert (HMlo : M * 2 ^ k <= mx).
  { unfold M. pose proof (Z.mul_div_le mx (2 ^ k) H2k). lia. }
  assert (HMhi : mx + 1 <= (M + 1) * 2 ^ k).
  { unfold M. pose proof (Z.mod_pos_bound mx (2 ^ k) H2k).
    pose proof (Z.div_mod mx (2 ^ k) ltac:(lia)). lia. }
  assert (HdM : digits M = prec).
  { unfold M. rewrite digits_shiftr; unfold k; lia. }
  assert (HMpos : 0 < M).
  { unfold M. apply Z.div_str_pos. split; [assumption|].
    pose proof (digits_bounds mx Hm) as [Hb _].
    apply Z.le_trans with (2 ^ (digits mx - 1)); [|assumption].
    apply Z.pow_le_mono_r; unfold k; lia. }
  pose proof (digits_bounds M HMpos) as [HMb _]. rewrite HdM in HMb.
  assert (HXlo : (inject_Z M * g <= X)%Q).
  { apply Qle_trans with (inject_Z mx * pow2 ex)%Q; [|apply HX].
    rewrite Hgk, Qmult_assoc, <- inject_Z_mult.
    apply Qmult_le_compat_r; [|apply Qlt_le_weak, pow2_pos].
    rewrite <- Zle_Qle. exact HMlo. }
  assert (HXhi : (X <= inject_Z (M + 1) * g)%Q).
  { apply Qle_trans with (inject_Z (mx + 1) * pow2 ex)%Q; [apply HX|].
    rewrite Hgk, Qmult_assoc, <- inject_Z_mult.
    apply Qmult_le_compat_r; [|apply Qlt_le_weak, pow2_pos].
    rewrite <- Zle_Qle. exact HMhi. }
  assert (HguX : (g <= X * u)%Q).
  { apply Qle_trans with (inject_Z M * g * u)%Q.
    - apply Qle_trans with (inject_Z (2 ^ (prec - 1)) * g * u)%Q.
      + rewrite <- pow2_Z by lia.
        assert (E : (pow2 (prec - 1) * g * pow2 (1 - prec) == g)%Q).
        { rewrite (Qmult_comm (pow2 (prec - 1))), <- Qmult_assoc, <- pow2_add.
          replace (prec - 1 + (1 - prec)) with 0 by lia. rewrite pow2_0. ring. }
        rewrite E. apply Qle_refl.
      + apply Qmult_le_compat_r; [|apply Qlt_le_weak, pow2_pos].
        apply Qmult_le_compat_r; [|apply Qlt_le_weak, Hg].
        rewrite <- Zle_Qle. exact HMb.
    - apply Qmult_le_compat_r; [exact HXlo|apply Qlt_le_weak, pow2_pos]. }
  assert (HV : (mag m e == inject_Z M * g)%Q \/ (mag m e == inject_Z (M + 1) * g)%Q).
  { unfold mag. destruct Hcases as [[-> [->| ->]]|(-> & HM1 & ->)].
    - left. reflexivity.
    - right. reflexivity.
    - right. rewrite HM1. fold k. unfold g.
      rewrite <- !pow2_Z by lia. rewrite <- !pow2_add. 
      replace (prec - 1 + (ex + k + 1)) with (prec + (ex + k)) by lia. reflexivity. }
  split.
  - assert (E1 : (X * (1 - u) == X - X * u)%Q) by ring.
    assert (E2 : (X * (1 + u) == X + X * u)%Q) by ring.
    assert (E3 : (inject_Z (M + 1) * g == inject_Z M * g + g)%Q)
      by (rewrite inject_Z_plus; ring).
    rewrite E1, E2. rewrite E3 in HXhi, HV.
    revert HXlo HXhi HguX HV.
    generalize (X * u)%Q (inject_Z M * g)%Q (mag m e). intros t A V.
    intros HXlo HXhi HguX [HV|HV]; rewrite HV; split; lra.
  - intros HE Hmod. destruct (Hexact HE Hmod) as [He HmM].
    unfold mag. rewrite HmM, He. unfold M.
    rewrite pow2_add, (pow2_Z k) by assumption.
    assert (Emx : (inject_Z mx == inject_Z (mx / 2 ^ k) * inject_Z (2 ^ k))%Q).
    { rewrite <- inject_Z_mult.
      rewrite (Z_div_exact_2 mx (2 ^ k)) at 1 by (try lia; assumption).
      rewrite Z.mul_comm. reflexivity. }
    rewrite Emx. ring.
Qed.
End RoundingValue.

Lemma iter_xO_shift mx d : Zpos (Pos.iter xO mx d) = Zpos mx * 2 ^ Zpos d.
Proof.
  change (Pos.iter xO mx d) with (shift_pos d mx).
  rewrite shift_pos_correct. change (Zpower_pos 2 d) with (2 ^ Zpos d). lia.
Qed.

Section Operations.
Variables prec emax : Z.
Hypothesis Hprec : 0 < prec.

Abbreviation emin := (emin prec emax).
Abbreviation u := (pow2 (1 - prec)).

Lemma binary_round_value sx mx ex :
  emin <= digits (Zpos mx) + ex - prec -> digits (Zpos mx) + ex < emax ->
  exists m e,
    normal prec (binary_round prec emax sx mx ex) sx m e /\
    digits (Zpos mx) + ex - prec <= e <= digits (Zpos mx) + ex - prec + 1 /\
    (mag mx ex * (1 - u) <= mag m e <= mag mx ex * (1 + u))%Q /\
    (digits (Zpos mx) <= prec ->
     Zpos m = Zpos mx * 2 ^ (prec - digits (Zpos mx)) /\
     e = ex - (prec - digits (Zpos mx)) /\
     (mag m e == mag mx ex)%Q).
Proof.
  intros Hlo Hhi. unfold binary_round.
  change (Zpos (digits2_pos mx)) with (Zdigits2 (Zpos mx)).
  rewrite Zdigits2_digits by lia. rewrite fexp_normal by assumption.
  unfold shl_align.
  replace (digits (Zpos mx) + ex - prec - ex) with (digits (Zpos mx) - prec) by lia.
  destruct (digits (Zpos mx) - prec) as [|p|p] eqn:Hk.
  - (* exactly prec digits *)
    assert (Hd : digits (Zpos mx) = prec) by lia.
    destruct (binary_round_aux_value prec emax Hprec sx (Zpos mx) ex loc_Exact
                (mag mx ex) ltac:(lia) ltac:(lia) Hlo Hhi) as (m & e & Hres & Hdm & He & Hv & Hx).
    { unfold mag. split; [apply Qle_refl|].
      apply Qmult_le_compat_r; [|apply Qlt_le_weak, pow2_pos].
      rewrite <- Zle_Qle. lia. }
    exists m, e. split; [split; assumption|]. split; [exact He|]. split; [exact Hv|].
    intros _.
    destruct (binary_round_aux_spec prec emax Hprec sx (Zpos mx) ex loc_Exact
                ltac:(lia) ltac:(lia) Hlo Hhi) as (m' & e' & Hres' & _ & _ & Hex').
    rewrite Hres in Hres'. injection Hres' as <- <-.
    rewrite Hd, Z.sub_diag, Z.pow_0_r in *.
    destruct (Hex' eq_refl (Z.mod_1_r _)) as [He' Hm'].
    rewrite Z.div_1_r in Hm'. split; [lia|]. split; [lia|].
    unfold mag. rewrite Hm', He', Z.add_0_r. reflexivity.
  - (* more than prec digits: rounding *)
    destruct (binary_round_aux_value prec emax Hprec sx (Zpos mx) ex loc_Exact
                (mag mx ex) ltac:(lia) ltac:(lia) Hlo Hhi) as (m & e & Hres & Hdm & He & Hv & Hx).
    { unfold mag. split; [apply Qle_refl|].
      apply Qmult_le_compat_r; [|apply Qlt_le_weak, pow2_pos].
      rewrite <- Zle_Qle. lia. }
    exists m, e. split; [split; assumption|]. split; [exact He|]. split; [exact Hv|].
    intros Hd. lia.
  - (* fewer than prec digits: the mantissa is shifted left, nothing is lost *)
    assert (Hd : digits (Zpos mx) < prec) by lia.
    assert (Hp : Zpos p = prec - digits (Zpos mx)) by lia.
    set (mz := Pos.iter xO mx p).
    assert (Hmz : Zpos mz = Zpos mx * 2 ^ Zpos p) by apply iter_xO_shift.
    assert (Hdz : digits (Zpos mz) = prec).
    { rewrite Hmz, digits_shiftl by lia. lia. }
    destruct (binary_round_aux_spec prec emax Hprec sx (Zpos mz)
                (digits (Zpos mx) + ex - prec) loc_Exact
                ltac:(lia) ltac:(lia) ltac:(lia) ltac:(lia))
      as (m & e & Hres & Hdm & _ & Hex).
    rewrite Hdz, Z.sub_diag, Z.pow_0_r, Z.div_1_r in Hex.
    destruct (Hex eq_refl (Z.mod_1_r _)) as [He Hm].
    exists m, e. split; [split; assumption|].
    split; [lia|].
    assert (Hval : (mag m e == mag mx ex)%Q).
    { unfold mag. rewrite Hm, Hmz, He, inject_Z_mult.
      rewrite <- (pow2_Z (Zpos p)) by lia.
      rewrite <- Qmult_assoc, <- pow2_add.
      replace (Zpos p + (digits (Zpos mx) + ex - prec + 0)) with ex by lia.
      reflexivity. }
    split.
    + rewrite Hval.
      assert (Hu : (0 < u)%Q) by apply pow2_pos.
      pose proof (mag_pos mx ex) as Hmag.
      assert (0 <= mag mx ex * u)%Q by (apply Qmult_le_0_compat; lra).
      split; ring_simplify; lra.
    + intros _. rewrite Hm, Hmz, Hp. split; [reflexivity|]. split; [lia|exact Hval].
Qed.

Hypothesis Hemax : 2 <= emax.

Lemma mag_int p : (mag p 0 == inject_Z (Zpos p))%Q.
Proof. unfold mag. rewrite pow2_0. ring. Qed.

Lemma of_int_value z :
  z <> 0 -> digits (Z.abs z) < emax ->
  exists m e,
    normal prec (FP.of_int prec emax z) (z <? 0) m e /\
    digits (Z.abs z) - prec <= e <= digits (Z.abs z) - prec + 1 /\
    (inject_Z (Z.abs z) * (1 - u) <= mag m e <= inject_Z (Z.abs z) * (1 + u))%Q /\
    (digits (Z.abs z) <= prec ->
     Zpos m = Z.abs z * 2 ^ (prec - digits (Z.abs z)) /\
     e = digits (Z.abs z) - prec /\
     (mag m e == inject_Z (Z.abs z))%Q).
Proof.
  intros Hz Hd. unfold FP.of_int, binary_normalize.
  assert (Hmin : emin <= 1 - prec).
  { change emin with (3 - emax - prec). lia. }
  destruct z as [|p|p]; [congruence| |].
  - change (Z.abs (Zpos p)) with (Zpos p) in *.
    change (Zpos p <? 0) with false.
    pose proof (digits_pos (Zpos p) ltac:(lia)).
    destruct (binary_round_value false p 0 ltac:(lia) ltac:(lia))
      as (m & e & Hn & He & Hv & Hx).
    exists m, e. split; [exact Hn|]. split; [lia|].
    rewrite mag_int in Hv. split; [exact Hv|].
    intros Hle. destruct (Hx Hle) as (Hm' & He' & Hv').
    rewrite mag_int in Hv'. repeat split; try assumption; lia.
  - change (Z.abs (Zneg p)) with (Zpos p) in *.
    change (Zneg p <? 0) with true.
    pose proof (digits_pos (Zpos p) ltac:(lia)).
    destruct (binary_round_value true p 0 ltac:(lia) ltac:(lia))
      as (m & e & Hn & He & Hv & Hx).
    exists m, e. split; [exact Hn|]. split; [lia|].
    rewrite mag_int in Hv. split; [exact Hv|].
    intros Hle. destruct (Hx Hle) as (Hm' & He' & Hv').
    rewrite mag_int in Hv'. repeat split; try assumption; lia.
Qed.

Lemma digits_mul_normal a b :
  digits (Zpos a) = prec -> digits (Zpos b) = prec ->
  2 * prec - 1 <= digits (Zpos (a * b)) <= 2 * prec.
Proof.
  intros Ha Hb.
  pose proof (digits_bounds (Zpos a) ltac:(lia)) as [Ha1 Ha2].
  pose proof (digits_bounds (Zpos b) ltac:(lia)) as [Hb1 Hb2].
  rewrite Ha in *. rewrite Hb in *.
  assert (H0 : 0 < 2 ^ (prec - 1)) by (apply Z.pow_pos_nonneg; lia).
  assert (Hlo : 2 ^ (2 * prec - 2) <= Zpos (a * b)).
  { replace (2 * prec - 2) with ((prec - 1) + (prec - 1)) by lia.
    rewrite Z.pow_add_r by lia. rewrite Pos2Z.inj_mul. nia. }
  assert (Hhi : Zpos (a * b) < 2 ^ (2 * prec)).
  { replace (2 * prec) with (prec + prec) by lia.
    rewrite Z.pow_add_r by lia. rewrite Pos2Z.inj_mul. nia. }
  unfold digits. split.
  - apply Z.log2_le_mono in Hlo. rewrite Z.log2_pow2 in Hlo by lia. lia.
  - apply Z.log2_lt_pow2 in Hhi; lia.
Qed.

Lemma mul_value x sx mx ex y sy my ey :
  normal prec x sx mx ex -> normal prec y sy my ey ->
  emin <= ex + ey + prec - 1 -> ex + ey + 2 * prec < emax ->
  exists m e,
    normal prec (SFmul prec emax x y) (xorb sx sy) m e /\
    ex + ey + prec - 1 <= e <= ex + ey + prec + 1 /\
    (mag mx ex * mag my ey * (1 - u) <= mag m e
     <= mag mx ex * mag my ey * (1 + u))%Q /\
    (Zpos (mx * my) mod 2 ^ (digits (Zpos (mx * my)) - prec) = 0 ->
     (mag m e == mag mx ex * mag my ey)%Q).
Proof.
  intros [-> Hdx] [-> Hdy] Hlo Hhi. cbn [SFmul].
  pose proof (digits_mul_normal mx my Hdx Hdy) as Hd.
  assert (HP : (mag mx ex * mag my ey
                == inject_Z (Zpos (mx * my)) * pow2 (ex + ey))%Q).
  { unfold mag. rewrite Pos2Z.inj_mul, inject_Z_mult, pow2_add. ring. }
  destruct (binary_round_aux_value prec emax Hprec (xorb sx sy) (Zpos (mx * my))
              (ex + ey) loc_Exact (mag mx ex * mag my ey)%Q
              ltac:(lia) ltac:(lia) ltac:(lia) ltac:(lia))
    as (m & e & Hres & Hdm & He & Hv & Hx).
  { rewrite HP. split; [apply Qle_refl|].
    apply Qmult_le_compat_r; [|apply Qlt_le_weak, pow2_pos].
    rewrite <- Zle_Qle. lia. }
  exists m, e. split; [split; assumption|]. split; [lia|]. split; [exact Hv|].
  intros Hmod. rewrite HP. apply Hx; [reflexivity|exact Hmod].
Qed.

Lemma div_value x sx mx ex y sy my ey (X : Q) :
  normal prec x sx mx ex -> normal prec y sy my ey ->
  emin <= ex - ey - prec -> ex - ey + 1 < emax ->
  (X * mag my ey == mag mx ex)%Q ->
  exists m e,
    normal prec (SFdiv prec emax x y) (xorb sx sy) m e /\
    ex - ey - prec <= e <= ex - ey - prec + 2 /\
    (X * (1 - u) <= mag m e <= X * (1 + u))%Q.
Proof.
  intros [-> Hdx] [-> Hdy] Hlo Hhi HX. cbn [SFdiv].
  unfold SFdiv_core_binary.
  rewrite !Zdigits2_digits by lia. rewrite Hdx, Hdy.
  replace (prec + ex - (prec + ey)) with (ex - ey) by lia.
  rewrite fexp_normal by assumption.
  rewrite Z.min_l by lia.
  replace (ex - ey - (ex - ey - prec)) with prec by lia.
  destruct prec as [|pp|pp] eqn:Hpp; try lia. rewrite <- Hpp in *.
  clear Hpp pp.
  rewrite Z.shiftl_mul_pow2 by lia.
  pose proof (digits_bounds (Zpos mx) ltac:(lia)) as [Hx1 Hx2].
  pose proof (digits_bounds (Zpos my) ltac:(lia)) as [Hy1 Hy2].
  rewrite Hdx in *. rewrite Hdy in *.
  assert (H0 : 0 < 2 ^ (prec - 1)) by (apply Z.pow_pos_nonneg; lia).
  assert (Hp2 : 2 ^ prec = 2 * 2 ^ (prec - 1)).
  { rewrite <- (Z.pow_succ_r 2) by lia. f_equal. lia. }
  pose proof (Z_div_mod (Zpos mx * 2 ^ prec) (Zpos my) ltac:(lia)) as Hdm.
  destruct (Z.div_eucl (Zpos mx * 2 ^ prec) (Zpos my)) as [q r].
  destruct Hdm as [Hq Hr].
  assert (Hq1 : 2 ^ (prec - 1) <= q) by nia.
  assert (Hq2 : q < 2 ^ (prec + 1)).
  { rewrite Z.pow_add_r by lia. change (2 ^ 1) with 2. nia. }
  assert (Hdq : prec <= digits q <= prec + 1).
  { unfold digits. split.
    - apply Z.log2_le_mono in Hq1. rewrite Z.log2_pow2 in Hq1 by lia. lia.
    - apply Z.log2_lt_pow2 in Hq2; lia. }
  assert (Hmy : (0 < mag my ey)%Q) by apply mag_pos.
  assert (Hscale : (inject_Z (Zpos mx * 2 ^ prec) * pow2 (ex - ey - prec) * pow2 ey
                    == mag mx ex)%Q).
  { unfold mag. rewrite inject_Z_mult, <- (pow2_Z prec) by lia.
    rewrite <- !Qmult_assoc, <- !pow2_add.
    replace (prec + (ex - ey - prec + ey)) with ex by lia. reflexivity. }
  destruct (binary_round_aux_value prec emax Hprec (xorb sx sy) q
              (ex - ey - prec) (new_location (Zpos my) r) X
              ltac:(lia) ltac:(lia) ltac:(lia) ltac:(lia))
    as (m & e & Hres & Hdm & He & Hv & _).
  { split.
    - apply (Qmult_le_r _ _ (mag my ey) Hmy). rewrite HX, <- Hscale.
      unfold mag. 
      setoid_replace (inject_Z q * pow2 (ex - ey - prec) * (inject_Z (Zpos my) * pow2 ey))%Q
        with (inject_Z (q * Zpos my) * pow2 (ex - ey - prec) * pow2 ey)%Q using relation Qeq
        by (rewrite inject_Z_mult; ring).
      apply Qmult_le_compat_r; [|apply Qlt_le_weak, pow2_pos].
      apply Qmult_le_compat_r; [|apply Qlt_le_weak, pow2_pos].
      rewrite <- Zle_Qle. lia.
    - apply (Qmult_le_r _ _ (mag my ey) Hmy). rewrite HX, <- Hscale.
      unfold mag.
      setoid_replace (inject_Z (q + 1) * pow2 (ex - ey - prec) * (inject_Z (Zpos my) * pow2 ey))%Q
        with (inject_Z ((q + 1) * Zpos my) * pow2 (ex - ey - prec) * pow2 ey)%Q using relation Qeq
        by (rewrite inject_Z_mult; ring).
      apply Qmult_le_compat_r; [|apply Qlt_le_weak, pow2_pos].
      apply Qmult_le_compat_r; [|apply Qlt_le_weak, pow2_pos].
      rewrite <- Zle_Qle. lia. }
  exists m, e. split; [split; assumption|]. split; [lia|exact Hv].
Qed.

Lemma shl_align_fst mx ex ez :
  ez <= ex -> Zpos (fst (shl_align mx ex ez)) = Zpos mx * 2 ^ (ex - ez).
Proof.
  intros H. unfold shl_align.
  destruct (ez - ex) as [|p|p] eqn:E; try lia.
  - replace (ex - ez) with 0 by lia. cbn [fst]. lia.
  - cbn [fst]. rewrite iter_xO_shift. f_equal. f_equal. lia.
Qed.

Lemma val_finite s m e :
  (val (S754_finite s m e) == inject_Z (cond_Zopp s (Zpos m)) * pow2 e)%Q.
Proof.
  unfold val, mag. destruct s; cbn [cond_Zopp]; [|reflexivity].
  change (Z.neg m) with (- Zpos m). rewrite inject_Z_opp. ring.
Qed.

Lemma add_value x sx mx ex y sy my ey :
  normal prec x sx mx ex -> normal prec y sy my ey ->
  emin <= 1 + Z.min ex ey - prec -> Z.max ex ey + prec + 1 < emax ->
  ((val x + val y == 0)%Q /\ SFadd prec emax x y = S754_zero false) \/
  (exists m e, normal prec (SFadd prec emax x y) false m e /\
               (0 < val x + val y)%Q /\
               ((val x + val y) * (1 - u) <= mag m e
                <= (val x + val y) * (1 + u))%Q) \/
  (exists m e, normal prec (SFadd prec emax x y) true m e /\
               (val x + val y < 0)%Q /\
               (- (val x + val y) * (1 - u) <= mag m e
                <= - (val x + val y) * (1 + u))%Q).
Proof.
  intros [-> Hdx] [-> Hdy] Hlo Hhi. cbn [SFadd].
  set (ez := Z.min ex ey) in *.
  rewrite !shl_align_fst by (unfold ez; lia).
  set (sum := cond_Zopp sx (Zpos mx * 2 ^ (ex - ez))
            + cond_Zopp sy (Zpos my * 2 ^ (ey - ez))).
  assert (HT : (val (S754_finite sx mx ex) + val (S754_finite sy my ey)
                == inject_Z sum * pow2 ez)%Q).
  { rewrite !val_finite. unfold sum. rewrite inject_Z_plus.
    assert (Hx : (inject_Z (cond_Zopp sx (Zpos mx * 2 ^ (ex - ez))) * pow2 ez
                  == inject_Z (cond_Zopp sx (Zpos mx)) * pow2 ex)%Q).
    { replace (cond_Zopp sx (Zpos mx * 2 ^ (ex - ez)))
        with (cond_Zopp sx (Zpos mx) * 2 ^ (ex - ez))
        by (destruct sx; cbn [cond_Zopp]; lia).
      rewrite inject_Z_mult, <- (pow2_Z (ex - ez)) by (unfold ez; lia).
      rewrite <- Qmult_assoc, <- pow2_add.
      replace (ex - ez + ez) with ex by lia. reflexivity. }
    assert (Hy : (inject_Z (cond_Zopp sy (Zpos my * 2 ^ (ey - ez))) * pow2 ez
                  == inject_Z (cond_Zopp sy (Zpos my)) * pow2 ey)%Q).
    { replace (cond_Zopp sy (Zpos my * 2 ^ (ey - ez)))
        with (cond_Zopp sy (Zpos my) * 2 ^ (ey - ez))
        by (destruct sy; cbn [cond_Zopp]; lia).
      rewrite inject_Z_mult, <- (pow2_Z (ey - ez)) by (unfold ez; lia).
      rewrite <- Qmult_assoc, <- pow2_add.
      replace (ey - ez + ez) with ey by lia. reflexivity. }
    rewrite <- Hx, <- Hy. ring. }
  assert (Hbound : Z.abs sum < 2 ^ (prec + Z.max ex ey - ez + 1)).
  { pose proof (digits_bounds (Zpos mx) ltac:(lia)) as [_ Hx2].
    pose proof (digits_bounds (Zpos my) ltac:(lia)) as [_ Hy2].
    rewrite Hdx in Hx2. rewrite Hdy in Hy2.
    assert (Hxe : 0 < 2 ^ (ex - ez)) by (apply Z.pow_pos_nonneg; unfold ez; lia).
    assert (Hye : 0 < 2 ^ (ey - ez)) by (apply Z.pow_pos_nonneg; unfold ez; lia).
    assert (Hxm : 2 ^ (ex - ez) <= 2 ^ (Z.max ex ey - ez))
      by (apply Z.pow_le_mono_r; unfold ez; lia).
    assert (Hym : 2 ^ (ey - ez) <= 2 ^ (Z.max ex ey - ez))
      by (apply Z.pow_le_mono_r; unfold ez; lia).
    replace (prec + Z.max ex ey - ez + 1) with (1 + (prec + (Z.max ex ey - ez))) by lia.
    rewrite Z.pow_add_r, Z.pow_add_r by (unfold ez; lia).
    change (2 ^ 1) with 2.
    assert (H0 : 0 < 2 ^ prec) by (apply Z.pow_pos_nonneg; lia).
    unfold sum. destruct sx, sy; cbn [cond_Zopp]; nia. }
  assert (Hdig : forall p, Z.abs sum = Zpos p ->
            1 <= digits (Zpos p) <= prec + Z.max ex ey - ez + 1).
  { intros p Hp. rewrite Hp in Hbound. split.
    - pose proof (digits_pos (Zpos p) ltac:(lia)). lia.
    - unfold digits. apply Z.log2_lt_pow2 in Hbound; unfold ez; lia. }
  unfold binary_normalize.
  destruct sum as [|p|p] eqn:ES.
  - left. split; [|reflexivity]. rewrite HT. ring.
  - right. left. destruct (Hdig p eq_refl) as [Hd1 Hd2].
    destruct (binary_round_value false p ez ltac:(lia) ltac:(lia))
      as (m & e & Hn & He & Hv & _).
    assert (Hmag : (mag p ez == val (S754_finite sx mx ex) + val (S754_finite sy my ey))%Q).
    { rewrite HT. reflexivity. }
    exists m, e. split; [exact Hn|]. rewrite <- Hmag.
    split; [apply mag_pos|exact Hv].
  - right. right. destruct (Hdig p eq_refl) as [Hd1 Hd2].
    destruct (binary_round_value true p ez ltac:(lia) ltac:(lia))
      as (m & e & Hn & He & Hv & _).
    assert (Hmag : (mag p ez == - (val (S754_finite sx mx ex) + val (S754_finite sy my ey)))%Q).
    { rewrite HT. unfold mag. change (Z.neg p) with (- Zpos p).
      rewrite inject_Z_opp. ring. }
    exists m, e. split; [exact Hn|]. rewrite <- Hmag.
    split; [|exact Hv].
    pose proof (mag_pos p ez) as Hpos. rewrite Hmag in Hpos. lra.
Qed.

(** Conversion to an integer truncates the value. *)
Lemma trunc_mag_floor m e : FP.trunc_mag m e = Qfloor (mag m e).
Proof.
  unfold FP.trunc_mag, mag. destruct e as [|p|p].
  - rewrite Z.shiftl_0_r, pow2_0, Qmult_1_r, Qfloor_Z. reflexivity.
  - rewrite Z.shiftl_mul_pow2 by lia.
    rewrite pow2_Z, <- inject_Z_mult, Qfloor_Z by lia. reflexivity.
  - rewrite Z.shiftr_div_pow2 by lia.
    rewrite Zdiv_Qdiv. apply Qfloor_comp.
    unfold Qdiv. apply Qmult_comp; [reflexivity|].
    change (Z.neg p) with (- Zpos p). unfold pow2. rewrite Qpower_opp.
    fold (pow2 (Zpos p)). rewrite pow2_Z by lia. reflexivity.
Qed.
End Operations.

Lemma floor_near (v : Q) (x : Z) :
  (inject_Z x - 1 <= v)%Q -> (v < inject_Z x + 1)%Q -> x - 1 <= Qfloor v <= x.
Proof.
  intros Hlo Hhi. split.
  - rewrite <- (Qfloor_Z (x - 1)). apply Qfloor_resp_le.
    unfold Z.sub. rewrite inject_Z_plus, inject_Z_opp. change (inject_Z 1) with 1%Q. lra.
  - pose proof (Qfloor_le v) as Hf.
    assert (H : (inject_Z (Qfloor v) < inject_Z (x + 1))%Q).
    { rewrite inject_Z_plus. change (inject_Z 1) with 1%Q. lra. }
    rewrite <- Zlt_Qlt in H. lia.
Qed.

Lemma to_int_finite s m e :
  Qfloor (mag m e) <= Int32.max_signed ->
  FP.to_int (S754_finite s m e) = cond_Zopp s (Qfloor (mag m e)).
Proof.
  intros H. unfold FP.to_int. cbv zeta. rewrite trunc_mag_floor.
  assert (0 <= Qfloor (mag m e)).
  { rewrite <- (Qfloor_Z 0). apply Qfloor_resp_le. apply Qlt_le_weak, mag_pos. }
  replace ((Int32.min_signed <=? cond_Zopp s (Qfloor (mag m e)))
           && (cond_Zopp s (Qfloor (mag m e)) <=? Int32.max_signed)) with true;
    [reflexivity|].
  symmetry. apply andb_true_iff. unfold Int32.min_signed, Int32.max_signed in *.
  split; [apply Z.leb_le|apply Z.leb_le]; destruct s; cbn [cond_Zopp]; lia.
Qed.

Section LastPoint.
Lemma f32_u : (pow2 (1 - F32.prec) == u32)%Q.
Proof. reflexivity. Qed.

Lemma f32_emin : SpecFloat.emin F32.prec F32.emax = -149.
Proof. reflexivity. Qed.

Lemma digits_le_of_lt z k : 0 < z -> 0 <= k -> z < 2 ^ k -> digits z <= k.
Proof.
  intros Hz Hk H. unfold digits. apply Z.log2_lt_pow2 in H; lia.
Qed.

(** The last interpolated coordinate of a stroke between two points of
    the device range. *)
Lemma interpolate_last xs x n :
  0 <= xs <= 4095 -> 0 <= x <= 4095 -> 1 <= n <= Int32.max_signed ->
  x - 1 <= interpolate xs (F32.of_int (x - xs)) n n <= x /\
  0 <= interpolate xs (F32.of_int (x - xs)) n n.
Proof.
  intros Hxs Hx Hn. unfold interpolate, F32.to_int, F32.add, F32.mul, F32.div,
    F32.of_int.
  assert (Hp : 0 < F32.prec) by reflexivity.
  assert (He : 2 <= F32.emax) by (unfold F32.emax; lia).
  (* the float of n *)
  assert (Hdn : 1 <= digits (Z.abs n) <= 31).
  { rewrite Z.abs_eq by lia. split; [pose proof (digits_pos n); lia|].
    apply digits_le_of_lt; unfold Int32.max_signed in *; lia. }
  destruct (of_int_value F32.prec F32.emax Hp He n ltac:(lia)
              ltac:(unfold F32.emax; lia))
    as (mn & en & Hnn & Hen & Hvn & _).
  replace (n <? 0) with false in Hnn by (symmetry; apply Z.ltb_ge; lia).
  pose proof (mag_pos mn en) as Hmagn.
  (* the float of xs *)
  assert (HXS : (xs = 0 /\ FP.of_int F32.prec F32.emax xs = S754_zero false) \/
                (0 < xs /\ exists ms es,
                   normal F32.prec (FP.of_int F32.prec F32.emax xs) false ms es /\
                   -23 <= es <= -12 /\ (mag ms es == inject_Z xs)%Q)).
  { destruct (Z.eq_dec xs 0) as [->|Hne]; [left; split; reflexivity|].
    right. split; [lia|].
    assert (Hd : 1 <= digits (Z.abs xs) <= 12).
    { rewrite Z.abs_eq by lia. split; [pose proof (digits_pos xs); lia|].
      apply digits_le_of_lt; lia. }
    destruct (of_int_value F32.prec F32.emax Hp He xs Hne
                ltac:(unfold F32.emax; lia))
      as (ms & es & Hns & _ & _ & Hxact).
    destruct (Hxact ltac:(unfold F32.prec; lia)) as (_ & Hes & Hvs).
    replace (xs <? 0) with false in Hns by (symmetry; apply Z.ltb_ge; lia).
    rewrite Z.abs_eq in Hvs by lia.
    exists ms, es. split; [exact Hns|]. split; [unfold F32.prec in *; lia|exact Hvs]. }
  destruct (Z.eq_dec (x - xs) 0) as [Ha0|Ha0].
  - (* a stroke of no extent on this axis *)
    rewrite Ha0. change (FP.of_int F32.prec F32.emax 0) with (S754_zero false).
    destruct Hnn as [-> _]. cbn [SFdiv SFmul xorb].
    destruct HXS as [[-> ->]|(Hpos & ms & es & [-> _] & Hes & Hvs)].
    + cbn. lia.
    + cbn [SFadd]. rewrite to_int_finite.
      * cbn [cond_Zopp]. rewrite (Qfloor_comp _ _ Hvs), Qfloor_Z. lia.
      * rewrite (Qfloor_comp _ _ Hvs), Qfloor_Z. unfold Int32.max_signed. lia.
  - (* the general case *)
    set (a := x - xs) in *.
    assert (Hda : 1 <= digits (Z.abs a) <= 12).
    { split; [pose proof (digits_pos (Z.abs a)); lia|].
      apply digits_le_of_lt; unfold a; lia. }
    destruct (of_int_value F32.prec F32.emax Hp He a Ha0
                ltac:(unfold F32.emax; lia))
      as (ma & ea & Hna & _ & _ & Hxact).
    destruct (Hxact ltac:(unfold F32.prec; lia)) as (_ & Hea & Hva).
    (* the quotient *)
    assert (HX : (inject_Z (Z.abs a) / mag mn en * mag mn en == mag ma ea)%Q).
    { rewrite Hva. field. lra. }
    destruct (div_value F32.prec F32.emax Hp _ (a <? 0) ma ea _ false mn en _
                Hna Hnn ltac:(rewrite f32_emin; unfold F32.prec in *; lia)
                ltac:(unfold F32.prec, F32.emax in *; lia) HX)
      as (mq & eq & Hnq & Heq & Hvq).
    rewrite xorb_false_r in Hnq.
    (* the product *)
    destruct (mul_value F32.prec F32.emax Hp He _ (a <? 0) mq eq _ false mn en
                Hnq Hnn ltac:(rewrite f32_emin; unfold F32.prec in *; lia)
                ltac:(unfold F32.prec, F32.emax in *; lia))
      as (mp & ep & Hnp & Hep & Hvp & _).
    rewrite xorb_false_r in Hnp.
    rewrite f32_u in Hvq, Hvp.
    set (A := inject_Z (Z.abs a)) in *.
    assert (HA : (1 <= A <= 4095)%Q).
    { unfold A. split.
      - change 1%Q with (inject_Z 1). rewrite <- Zle_Qle. lia.
      - change 4095%Q with (inject_Z 4095). rewrite <- Zle_Qle. unfold a. lia. }
    assert (HW : (A * (1 - u32) <= mag mq eq * mag mn en <= A * (1 + u32))%Q).
    { assert (E : (A / mag mn en * mag mn en == A)%Q) by (field; lra).
      destruct Hvq as [Hq1 Hq2]. split.
      - setoid_replace (A * (1 - u32))%Q with (A / mag mn en * (1 - u32) * mag mn en)%Q using relation Qeq
          by (rewrite <- E at 1; ring).
        apply Qmult_le_compat_r; [exact Hq1|lra].
      - setoid_replace (A * (1 + u32))%Q with (A / mag mn en * (1 + u32) * mag mn en)%Q using relation Qeq
          by (rewrite <- E at 1; ring).
        apply Qmult_le_compat_r; [exact Hq2|lra]. }
    assert (HP : (A - (1 # 1000) <= mag mp ep <= A + (1 # 1000))%Q).
    { revert HW Hvp. generalize (mag mq eq * mag mn en)%Q (mag mp ep).
      intros W P HW HP. unfold u32 in *. split; lra. }
    clear HW Hvp Hvq HX.
    assert (Hval_p : (val (S754_finite (a <? 0) mp ep)
                      == if a <? 0 then - mag mp ep else mag mp ep)%Q)
      by reflexivity.
    destruct Hnp as [Hp_eq Hdp]. rewrite Hp_eq.
    assert (HxQ : (inject_Z x == inject_Z xs + inject_Z a)%Q).
    { rewrite <- inject_Z_plus. replace (xs + a) with x by (unfold a; lia).
      reflexivity. }
    assert (HAa : (A == if a <? 0 then - inject_Z a else inject_Z a)%Q).
    { unfold A. destruct (a <? 0) eqn:E.
      - apply Z.ltb_lt in E. rewrite Z.abs_neq by lia. rewrite inject_Z_opp. reflexivity.
      - apply Z.ltb_ge in E. rewrite Z.abs_eq by lia. reflexivity. }
    assert (Hx0 : (0 <= inject_Z x <= 4095)%Q).
    { split.
      - change 0%Q with (inject_Z 0). rewrite <- Zle_Qle. lia.
      - change 4095%Q with (inject_Z 4095). rewrite <- Zle_Qle. lia. }
    assert (Hx1 : x = 0 \/ (1 <= inject_Z x)%Q).
    { destruct (Z.eq_dec x 0); [left; assumption|right].
      change 1%Q with (inject_Z 1). rewrite <- Zle_Qle. lia. }
    destruct HXS as [[Hxs0 ->]|(Hpos & ms & es & Hns & Hes & Hvs)].
    + (* from the left edge: the product itself is converted *)
      cbn [SFadd]. subst xs.
      assert (Hapos : (a <? 0) = false) by (apply Z.ltb_ge; unfold a; lia).
      rewrite Hapos in *. 
      assert (Hxa : (inject_Z x == A)%Q) by (rewrite HxQ, HAa; ring).
      assert (Hfl : x - 1 <= Qfloor (mag mp ep) <= x).
      { apply floor_near; lra. }
      rewrite to_int_finite by (unfold Int32.max_signed; lia).
      cbn [cond_Zopp]. 
      assert (0 <= Qfloor (mag mp ep)).
      { rewrite <- (Qfloor_Z 0). apply Qfloor_resp_le, Qlt_le_weak, mag_pos. }
      lia.
    + (* the sum *)
      destruct (add_value F32.prec F32.emax Hp He _ false ms es _ (a <? 0) mp ep
                  Hns (conj eq_refl Hdp)
                  ltac:(rewrite f32_emin; unfold F32.prec in *; lia)
                  ltac:(unfold F32.prec, F32.emax in *; lia))
        as [[HT ->]|[(mr & er & [-> Hdr] & HT & Hvr)|(mr & er & [-> Hdr] & HT & Hvr)]].
      * (* the sum is zero *)
        cbn [FP.to_int]. destruct Hns as [Hns_eq _]. rewrite Hns_eq in HT.
        rewrite Hval_p in HT. cbn [val] in HT. rewrite Hvs in HT.
        destruct Hx1 as [->|Hx1]; [lia|]. exfalso.
        destruct (a <? 0); lra.
      * destruct Hns as [Hns_eq _]. rewrite Hns_eq in HT, Hvr.
        rewrite Hval_p in HT, Hvr. cbn [val] in HT, Hvr. rewrite Hvs in HT, Hvr.
        rewrite f32_u in Hvr.
        assert (HR : (inject_Z x - (1 # 100) <= mag mr er <= inject_Z x + (1 # 100))%Q).
        { revert HT Hvr. generalize (mag mr er). intros R HT Hvr.
          unfold u32 in *. destruct (a <? 0); split; lra. }
        assert (Hfl : x - 1 <= Qfloor (mag mr er) <= x) by (apply floor_near; lra).
        rewrite to_int_finite by (unfold Int32.max_signed; lia).
        cbn [cond_Zopp].
        assert (0 <= Qfloor (mag mr er)).
        { rewrite <- (Qfloor_Z 0). apply Qfloor_resp_le, Qlt_le_weak, mag_pos. }
        lia.
      * destruct Hns as [Hns_eq _]. rewrite Hns_eq in HT, Hvr.
        rewrite Hval_p in HT, Hvr. cbn [val] in HT, Hvr. rewrite Hvs in HT, Hvr.
        rewrite f32_u in Hvr.
        destruct Hx1 as [Hx1|Hx1]; [|exfalso; destruct (a <? 0); lra].
        assert (HR : (mag mr er <= (1 # 100))%Q).
        { revert HT Hvr. generalize (mag mr er). intros R HT Hvr.
          rewrite Hx1 in HxQ. change (inject_Z 0) with 0%Q in HxQ.
          unfold u32 in *. destruct (a <? 0); lra. }
        assert (Hfl : 0 - 1 <= Qfloor (mag mr er) <= 0).
        { apply floor_near; change (inject_Z 0) with 0%Q;
            pose proof (mag_pos mr er); lra. }
        assert (0 <= Qfloor (mag mr er)).
        { rewrite <- (Qfloor_Z 0). apply Qfloor_resp_le, Qlt_le_weak, mag_pos. }
        rewrite to_int_finite by (unfold Int32.max_signed; lia).
        replace (Qfloor (mag mr er)) with 0 by lia.
        destruct (true); cbn; lia.
Qed.
End LastPoint.

(** ** DrawPoint *)

Lemma clip_range z : 0 <= clip z <= 4095.
Proof. unfold clip. repeat case_match; lia. Qed.

Lemma color_rgb_cases c :
  let '(r, g, b) := color_rgb c in
  (r = 0 \/ r = 255) /\ (g = 0 \/ g = 255) /\ (b = 0 \/ b = 255).
Proof.
  unfold color_rgb.
  destruct c as [|p|p]; [tauto| |tauto].
  do 3 (destruct p as [p|p|]; try tauto).
Qed.

Lemma u16_small z : 0 <= z <= 4095 -> u16 z = z.
Proof. intros H. unfold u16. apply Z.mod_small. lia. Qed.

Lemma u8_channel z : z = 0 \/ z = 255 -> u8 z = z.
Proof. intros [->| ->]; reflexivity. Qed.

Lemma add_1_small n : 0 <= n < MAX_POINTS -> (n + 1)%i32 = n + 1.
Proof.
  intros H. apply wrap_in_range.
  unfold Int32.in_range, Int32.min_signed, Int32.max_signed, MAX_POINTS in *. lia.
Qed.

Lemma DrawPoint_put x y c st :
  buffer_ok st -> DrawPoint x y c st = Some (put (x, y, c) st).
Proof.
  intros [Hlen Hn].
  unfold DrawPoint, put, bind, get, modify, ret, store_point.
  destruct (MAX_POINTS <=? num_points st) eqn:Hfull; [reflexivity|].
  apply Z.leb_gt in Hfull.
  unfold call_point, call_warnings, point_of, warnings.
  pose proof (color_rgb_cases c) as Hc.
  pose proof (clip_range x) as Hcx. pose proof (clip_range y) as Hcy.
  destruct (color_rgb c) as [[r g] b]. destruct Hc as (Hr & Hg & Hb).
  unfold clip in *.
  destruct (4095 <? x) eqn:Hx, (4095 <? y) eqn:Hy;
    unfold bind, modify, ret; cbn [fprintf_stderr num_points vector_list
      set_buffer set_num_points x_start y_start xpos ypos size color divider
      dwell hidden_dwell stderr pen_moves];
    rewrite ?Hlen;
    (replace ((0 <=? num_points st) && (num_points st <? MAX_POINTS)) with true
       by (symmetry; apply andb_true_iff; split; [apply Z.leb_le|apply Z.ltb_lt]; lia));
    unfold set_num_points, set_buffer, fprintf_stderr;
    cbn [fprintf_stderr num_points vector_list
      set_buffer set_num_points x_start y_start xpos ypos size color divider
      dwell hidden_dwell stderr pen_moves];
    rewrite (add_1_small (num_points st)) by lia;
    rewrite (u8_channel r), (u8_channel g), (u8_channel b) by assumption;
    change (u8 255) with 255;
    rewrite ?app_nil_r, <- ?app_assoc; cbn [app].
  all: try change (4095 <? 0) with false; cbv iota.
  all: rewrite ?u16_small by lia; try reflexivity.
  all: destruct (x <? 0), (y <? 0); rewrite ?u16_small by lia; reflexivity.
Qed.

Lemma put_full c st : MAX_POINTS <= num_points st -> put c st = (0, st).
Proof.
  intros H. unfold put. apply Z.leb_le in H. rewrite H. reflexivity.
Qed.

Lemma put_room c st :
  num_points st < MAX_POINTS ->
  put c st =
    (num_points st,
     mkState (<[Z.to_nat (num_points st) := call_point c]> (vector_list st))
             (num_points st + 1) (x_start st) (y_start st) (xpos st) (ypos st)
             (size st) (color st) (divider st) (dwell st) (hidden_dwell st)
             (stderr st ++ call_warnings c) (pen_moves st)).
Proof.
  intros H. unfold put. apply Z.leb_gt in H. rewrite H. reflexivity.
Qed.

Lemma put_cases c st :
  (MAX_POINTS <= num_points st /\ put c st = (0, st)) \/
  (num_points st < MAX_POINTS /\
   put c st =
    (num_points st,
     mkState (<[Z.to_nat (num_points st) := call_point c]> (vector_list st))
             (num_points st + 1) (x_start st) (y_start st) (xpos st) (ypos st)
             (size st) (color st) (divider st) (dwell st) (hidden_dwell st)
             (stderr st ++ call_warnings c) (pen_moves st))).
Proof.
  destruct (Z_le_gt_dec MAX_POINTS (num_points st)) as [H|H].
  - left. split; [assumption|apply put_full; assumption].
  - right. split; [lia|apply put_room; lia].
Qed.

Lemma put_buffer_ok c st : buffer_ok st -> buffer_ok (snd (put c st)).
Proof.
  intros [Hlen Hn].
  destruct (put_cases c st) as [[H ->]|[H ->]]; cbn [snd]; [split; assumption|].
  split; cbn [vector_list num_points]; [rewrite length_insert; assumption|lia].
Qed.

Lemma put_config c st : config (snd (put c st)) = config st.
Proof. destruct (put_cases c st) as [[H ->]|[H ->]]; reflexivity. Qed.

Lemma put_pen c st : pen (snd (put c st)) = pen st.
Proof. destruct (put_cases c st) as [[H ->]|[H ->]]; reflexivity. Qed.

Lemma put_pen_moves c st : pen_moves (snd (put c st)) = pen_moves st.
Proof. destruct (put_cases c st) as [[H ->]|[H ->]]; reflexivity. Qed.

Lemma put_frame_room c st :
  buffer_ok st -> num_points st < MAX_POINTS ->
  frame (snd (put c st)) = frame st ++ [call_point c] /\
  num_points (snd (put c st)) = num_points st + 1 /\
  stderr (snd (put c st)) = stderr st ++ call_warnings c.
Proof.
  intros [Hlen Hn] H. rewrite put_room by assumption.
  cbn [snd]. unfold frame. cbn [vector_list num_points stderr].
  split; [|split; reflexivity].
  replace (Z.to_nat (num_points st + 1)) with (S (Z.to_nat (num_points st))) by lia.
  rewrite (take_S_r _ _ (call_point c)).
  - rewrite take_insert_ge by lia. reflexivity.
  - apply list_lookup_insert_eq. lia.
Qed.

Lemma put_all_nil s : put_all [] s = s.
Proof. reflexivity. Qed.

Lemma put_all_cons c cs s : put_all (c :: cs) s = put_all cs (put c (snd s)).
Proof. reflexivity. Qed.

Lemma put_all_app cs1 cs2 s : put_all (cs1 ++ cs2) s = put_all cs2 (put_all cs1 s).
Proof. unfold put_all. apply fold_left_app. Qed.

Lemma put_all_buffer_ok cs s : buffer_ok (snd s) -> buffer_ok (snd (put_all cs s)).
Proof.
  revert s. induction cs as [|c cs IH]; intros s H; [assumption|].
  rewrite put_all_cons. apply IH, put_buffer_ok, H.
Qed.

Lemma put_all_config cs s : config (snd (put_all cs s)) = config (snd s).
Proof.
  revert s. induction cs as [|c cs IH]; intros s; [reflexivity|].
  rewrite put_all_cons, IH. apply put_config.
Qed.

Lemma put_all_pen cs s : pen (snd (put_all cs s)) = pen (snd s).
Proof.
  revert s. induction cs as [|c cs IH]; intros s; [reflexivity|].
  rewrite put_all_cons, IH. apply put_pen.
Qed.

Lemma put_all_pen_moves cs s : pen_moves (snd (put_all cs s)) = pen_moves (snd s).
Proof.
  revert s. induction cs as [|c cs IH]; intros s; [reflexivity|].
  rewrite put_all_cons, IH. apply put_pen_moves.
Qed.

Lemma put_all_frame_room cs s :
  buffer_ok (snd s) ->
  num_points (snd s) + Z.of_nat (length cs) <= MAX_POINTS ->
  frame (snd (put_all cs s)) = frame (snd s) ++ map call_point cs /\
  num_points (snd (put_all cs s)) = num_points (snd s) + Z.of_nat (length cs) /\
  stderr (snd (put_all cs s)) = stderr (snd s) ++ concat (map call_warnings cs).
Proof.
  revert s. induction cs as [|c cs IH]; intros s Hok Hroom.
  - cbn. rewrite !app_nil_r. split; [reflexivity|split; [lia|reflexivity]].
  - rewrite put_all_cons. cbn [length] in Hroom.
    destruct (put_frame_room c (snd s) Hok ltac:(lia)) as (Hf & Hn & He).
    destruct (IH (put c (snd s)) (put_buffer_ok _ _ Hok) ltac:(rewrite Hn; lia))
      as (Hf' & Hn' & He').
    rewrite Hf', Hn', He', Hf, Hn, He. cbn [map concat length].
    rewrite <- !app_assoc. split; [reflexivity|split; [lia|reflexivity]].
Qed.

Lemma put_all_full cs s :
  MAX_POINTS <= num_points (snd s) -> snd (put_all cs s) = snd s.
Proof.
  revert s. induction cs as [|c cs IH]; intros s H; [reflexivity|].
  rewrite put_all_cons, IH; rewrite put_full by assumption; [reflexivity|assumption].
Qed.

(** loops *)
Lemma for_upto_calls body (g : Z -> call) (P : state -> Prop) :
  (forall j st, buffer_ok st -> P st -> body j st = Some (put (g j) st)) ->
  (forall c st, P st -> P (snd (put c st))) ->
  forall k i status st,
    buffer_ok st -> P st ->
    Int32.min_signed <= i -> i + Z.of_nat k <= Int32.max_signed + 1 ->
    for_upto k i body status st =
      Some (put_all (map g (seqZ i (Z.of_nat k))) (status, st)).
Proof.
  intros Hbody HP. induction k as [|k IH]; intros i status st Hok HPst Hi Hk.
  - reflexivity.
  - cbn [for_upto]. unfold bind at 1. rewrite Hbody by assumption.
    destruct (put (g i) st) as [s st'] eqn:Hput.
    rewrite seqZ_cons by lia. cbn [map]. rewrite put_all_cons. cbn [snd].
    rewrite Hput.
    replace (Z.pred (Z.of_nat (S k))) with (Z.of_nat k) by lia.
    destruct k as [|k'].
    + reflexivity.
    + assert (Hw : Int32.add i 1 = Z.succ i).
      { unfold Int32.add. rewrite wrap_in_range; [lia|].
        unfold Int32.in_range. lia. }
      rewrite Hw. apply IH; try lia.
      * replace st' with (snd (put (g i) st)) by (rewrite Hput; reflexivity).
        apply put_buffer_ok, Hok.
      * replace st' with (snd (put (g i) st)) by (rewrite Hput; reflexivity).
        apply HP, HPst.
Qed.

Lemma times_calls x y c k status st :
  buffer_ok st ->
  times k (DrawPoint x y c) status st =
    Some (put_all (replicate k (x, y, c)) (status, st)).
Proof.
  revert status st. induction k as [|k IH]; intros status st Hok; [reflexivity|].
  cbn [times replicate]. unfold bind at 1. rewrite DrawPoint_put by assumption.
  destruct (put (x, y, c) st) as [s st'] eqn:Hput.
  rewrite put_all_cons. cbn [snd]. rewrite Hput. apply IH.
  replace st' with (snd (put (x, y, c) st)) by (rewrite Hput; reflexivity).
  apply put_buffer_ok, Hok.
Qed.

Lemma DrawLineTo_spec x y c st :
  buffer_ok st -> DrawLineTo x y c st = Some (line_result x y c st).
Proof.
  intros Hok. unfold DrawLineTo, line_result.
  unfold bind at 1. unfold modify at 1.
  set (st0 := record_move (mkMove x y c) st).
  assert (Hok0 : buffer_ok st0) by exact Hok.
  unfold bind at 1, get at 1. unfold bind at 1, get at 1. unfold bind at 1, get at 1.
  change (x_start st0) with (x_start st). change (y_start st0) with (y_start st).
  change (divider st0) with (divider st).
  set (xl := F32.of_int (x - x_start st)%i32).
  set (yl := F32.of_int (y - y_start st)%i32).
  set (n := segments xl yl (divider st)).
  rewrite put_all_app.
  assert (Hstroke :
    (if 0 <? c
     then for_upto (Z.to_nat n) 1
            (fun i => xs <- get x_start ;; ys <- get y_start ;;
                      DrawPoint (interpolate xs xl n i) (interpolate ys yl n i) c) 0
     else ret 0) st0
    = Some (put_all (stroke_calls x y c st) (0, st0))).
  { unfold stroke_calls. fold xl yl n. destruct (0 <? c); [|reflexivity].
    rewrite (for_upto_calls _
               (fun i => (interpolate (x_start st) xl n i,
                          interpolate (y_start st) yl n i, c))
               (fun st' => pen st' = pen st)).
    - unfold seqZ. rewrite Nat2Z.id. reflexivity.
    - intros j st' Hok' Hpen. unfold bind, get.
      injection Hpen as -> ->. apply DrawPoint_put, Hok'.
    - intros c0 st' Hpen. rewrite put_pen. exact Hpen.
    - exact Hok0.
    - reflexivity.
    - unfold Int32.min_signed. lia.
    - assert (Hr : Int32.in_range n) by apply to_int_range.
      unfold Int32.in_range, Int32.min_signed, Int32.max_signed in *. lia. }
  unfold bind at 1. rewrite Hstroke.
  destruct (put_all (stroke_calls x y c st) (0, st0)) as [s1 st1] eqn:H1.
  assert (Hok1 : buffer_ok st1).
  { replace st1 with (snd (put_all (stroke_calls x y c st) (0, st0)))
      by (rewrite H1; reflexivity).
    apply put_all_buffer_ok, Hok0. }
  assert (Hcfg : config st1 = config st).
  { replace st1 with (snd (put_all (stroke_calls x y c st) (0, st0)))
      by (rewrite H1; reflexivity).
    rewrite put_all_config. reflexivity. }
  injection Hcfg as _ _ _ _ _ Hd Hh.
  unfold bind at 1.
  assert (Hdwell :
    (if c =? 0
     then n0 <- get hidden_dwell ;; times (Z.to_nat n0) (DrawPoint x y c) s1
     else n0 <- get dwell ;; times (Z.to_nat n0) (DrawPoint x y c) s1) st1
    = Some (put_all (dwell_calls x y c st) (s1, st1))).
  { unfold dwell_calls. destruct (c =? 0); unfold bind, get;
      rewrite times_calls by assumption; rewrite ?Hd, ?Hh; reflexivity. }
  rewrite Hdwell.
  destruct (put_all (dwell_calls x y c st) (s1, st1)) as [s2 st2].
  reflexivity.
Qed.

Lemma put_all_frame cs s :
  buffer_ok (snd s) ->
  let kept := take (Z.to_nat (MAX_POINTS - num_points (snd s))) cs in
  frame (snd (put_all cs s)) = frame (snd s) ++ map call_point kept /\
  num_points (snd (put_all cs s)) = num_points (snd s) + Z.of_nat (length kept) /\
  stderr (snd (put_all cs s)) = stderr (snd s) ++ concat (map call_warnings kept).
Proof.
  intros Hok kept.
  pose proof Hok as [_ Hn].
  rewrite <- (take_drop (Z.to_nat (MAX_POINTS - num_points (snd s))) cs) at 1 2 3.
  fold kept. rewrite put_all_app.
  assert (Hlen : (length kept <= Z.to_nat (MAX_POINTS - num_points (snd s)))%nat).
  { unfold kept. rewrite length_take. lia. }
  destruct (put_all_frame_room kept s Hok ltac:(lia)) as (Hf & Hnp & He).
  destruct (decide (length cs <= Z.to_nat (MAX_POINTS - num_points (snd s)))%nat)
    as [Hshort|Hlong].
  - rewrite drop_ge by lia. rewrite put_all_nil. auto.
  - rewrite put_all_full; [auto|].
    rewrite Hnp. unfold kept. rewrite length_take. lia.
Qed.

Lemma line_result_buffer_ok x y c st :
  buffer_ok st -> buffer_ok (snd (line_result x y c st)).
Proof.
  intros Hok. unfold line_result. cbn [snd].
  match goal with |- buffer_ok (set_pen _ _ (snd ?r)) =>
    assert (H : buffer_ok (snd r)) by (apply put_all_buffer_ok; exact Hok);
    exact H
  end.
Qed.

Lemma line_result_pen x y c st : pen (snd (line_result x y c st)) = (x, y).
Proof. reflexivity. Qed.

Lemma line_result_config x y c st :
  config (snd (line_result x y c st)) = config st.
Proof.
  unfold line_result. cbn [snd].
  match goal with |- config (set_pen _ _ (snd ?r)) = _ =>
    change (config (snd r) = config st)
  end.
  rewrite put_all_config. reflexivity.
Qed.

Lemma line_result_pen_moves x y c st :
  pen_moves (snd (line_result x y c st)) = pen_moves st ++ [mkMove x y c].
Proof.
  unfold line_result. cbn [snd].
  match goal with |- pen_moves (set_pen _ _ (snd ?r)) = _ =>
    change (pen_moves (snd r) = pen_moves st ++ [mkMove x y c])
  end.
  rewrite put_all_pen_moves. reflexivity.
Qed.

Lemma line_result_frame x y c st :
  buffer_ok st ->
  let kept := take (Z.to_nat (MAX_POINTS - num_points st))
                   (stroke_calls x y c st ++ dwell_calls x y c st) in
  frame (snd (line_result x y c st)) = frame st ++ map call_point kept /\
  num_points (snd (line_result x y c st)) = num_points st + Z.of_nat (length kept) /\
  stderr (snd (line_result x y c st)) = stderr st ++ concat (map call_warnings kept).
Proof.
  intros Hok kept. unfold line_result. cbn [snd].
  exact (put_all_frame (stroke_calls x y c st ++ dwell_calls x y c st)
           (0, record_move (mkMove x y c) st) Hok).
Qed.

Lemma buffer_ok_initial : buffer_ok initial_state.
Proof.
  split.
  - cbn [initial_state vector_list]. rewrite length_replicate.
    unfold MAX_POINTS. lia.
  - cbn [initial_state num_points]. unfold MAX_POINTS. lia.
Qed.

Ltac buffer_ok_by_computation :=
  split; [vm_compute; reflexivity | cbn; unfold MAX_POINTS; lia].

(** ** DrawDigit on a value that is no digit *)

(** C10.  For every [n] outside 0..9, [DrawDigit n x y color size] does
    nothing: it returns 0 and leaves the whole state as it was, so no point
    is appended, the fill count is unchanged and the pen stays where it
    was. *)
Theorem DrawDigit_other_noop (n x y c s : Z) (st : state) :
  n < 0 \/ 9 < n -> DrawDigit n x y c s st = Some (0, st).
Proof.
  intros H. unfold DrawDigit.
  destruct n as [|p|p]; [lia| |reflexivity].
  do 4 (destruct p as [p|p|]; try reflexivity; try lia).
Qed.

Lemma DrawDigit_other_noop_witness :
  (10 < 0 \/ 9 < 10) /\
  DrawDigit 10 0 2000 1 250 initial_state = Some (0, initial_state).
Proof.
  split; [right; lia|].
  apply (DrawDigit_other_noop 10 0 2000 1 250 initial_state). right. lia.
Defined.

(** ** The capacity of the buffer *)

Lemma draw_all_put_all cs status st :
  buffer_ok st -> draw_all cs status st = Some (put_all cs (status, st)).
Proof.
  revert status st. induction cs as [|[[x y] c] cs IH]; intros status st Hok.
  - reflexivity.
  - cbn [draw_all]. unfold bind at 1. rewrite DrawPoint_put by assumption.
    rewrite put_all_cons. cbn [snd].
    destruct (put (x, y, c) st) as [s st'] eqn:Hput.
    apply IH.
    replace st' with (snd (put (x, y, c) st)) by (rewrite Hput; reflexivity).
    apply put_buffer_ok, Hok.
Qed.

(** C4.  Whatever sequence of appends is run on a sound buffer, no store
    falls outside the array (the run has a result), the array keeps its
    size and the fill count stays within [0, MAX_POINTS]; and an append on
    a buffer at capacity returns with the state, contents and count
    included, exactly as it was. *)
Theorem buffer_never_overflows (cs : list call) (st : state) :
  buffer_ok st ->
  (exists r st', draw_all cs 0 st = Some (r, st') /\
                 buffer_ok st' /\ num_points st' <= MAX_POINTS) /\
  (MAX_POINTS <= num_points st ->
   forall x y c, DrawPoint x y c st = Some (0, st)).
Proof.
  intros Hok. split.
  - rewrite draw_all_put_all by assumption.
    destruct (put_all cs (0, st)) as [r st'] eqn:H.
    assert (Hok' : buffer_ok st').
    { replace st' with (snd (put_all cs (0, st))) by (rewrite H; reflexivity).
      apply put_all_buffer_ok, Hok. }
    exists r, st'. split; [reflexivity|]. split; [exact Hok'|apply Hok'].
  - intros Hfull x y c. rewrite DrawPoint_put by assumption.
    rewrite put_full by assumption. reflexivity.
Qed.

Lemma buffer_never_overflows_witness :
  buffer_ok initial_state /\
  (exists r st', draw_all [(5000, -3, 1); (10, 20, 0)] 0 initial_state = Some (r, st') /\
                 buffer_ok st' /\ num_points st' <= MAX_POINTS).
Proof.
  assert (H : buffer_ok initial_state) by buffer_ok_by_computation.
  split; [exact H|].
  exact (proj1 (buffer_never_overflows [(5000, -3, 1); (10, 20, 0)]
                  initial_state H)).
Defined.

(** ** Clipping and its diagnostics *)

Lemma clip_cases z :
  (4095 < z -> clip z = 4095) /\ (z < 0 -> clip z = 0) /\
  (0 <= z <= 4095 -> clip z = z).
Proof. unfold clip. repeat split; intros; repeat case_match; lia. Qed.

Lemma call_point_xy x y c :
  pt_x (call_point (x, y, c)) = clip x /\ pt_y (call_point (x, y, c)) = clip y.
Proof.
  unfold call_point, point_of. destruct (color_rgb c) as [[r g] b]. split; reflexivity.
Qed.

Lemma call_point_in_device c : in_device (call_point c).
Proof.
  destruct c as [[x y] c]. unfold in_device.
  destruct (call_point_xy x y c) as [-> ->]. split; apply clip_range.
Qed.

(** C3, as amended.  On a buffer with room, [DrawPoint] stores a point whose
    coordinates are the arguments clipped: 4095 for an argument above 4095,
    0 for a negative one, the argument itself otherwise.  What the call
    prints is settled by the two tests against 4095 alone: the x warning
    followed by the y warning when both coordinates exceed 4095, the one
    warning of its coordinate when only one does, and nothing otherwise.
    A negative coordinate is clipped without a warning. *)
Theorem DrawPoint_clipping (x y c : Z) (st : state) :
  buffer_ok st -> num_points st < MAX_POINTS ->
  exists st' p added,
    DrawPoint x y c st = Some (num_points st, st') /\
    vector_list st' !! Z.to_nat (num_points st) = Some p /\
    frame st' = frame st ++ [p] /\
    (4095 < x -> pt_x p = 4095) /\ (x < 0 -> pt_x p = 0) /\
    (0 <= x <= 4095 -> pt_x p = x) /\
    (4095 < y -> pt_y p = 4095) /\ (y < 0 -> pt_y p = 0) /\
    (0 <= y <= 4095 -> pt_y p = y) /\
    stderr st' = stderr st ++ added /\
    (4095 < x -> 4095 < y -> added = [clip_msg_x; clip_msg_y]) /\
    (4095 < x -> y <= 4095 -> added = [clip_msg_x]) /\
    (x <= 4095 -> 4095 < y -> added = [clip_msg_y]) /\
    (x <= 4095 -> y <= 4095 -> added = []).
Proof.
  intros Hok Hroom.
  rewrite DrawPoint_put by assumption.
  destruct (put_frame_room (x, y, c) st Hok Hroom) as (Hf & Hn & He).
  rewrite put_room in * by assumption. cbn [snd] in *.
  eexists _, (call_point (x, y, c)), (warnings x y).
  split; [reflexivity|].
  destruct (call_point_xy x y c) as [Hx Hy].
  destruct (clip_cases x) as (Hx1 & Hx2 & Hx3).
  destruct (clip_cases y) as (Hy1 & Hy2 & Hy3).
  rewrite Hx, Hy.
  split.
  { cbn [vector_list]. apply list_lookup_insert_eq. destruct Hok. lia. }
  split; [exact Hf|].
  do 6 (split; [assumption|]).
  split; [reflexivity|].
  unfold warnings.
  repeat split; intros H1 H2;
    destruct (Z.ltb_spec 4095 x); destruct (Z.ltb_spec 4095 y);
    try lia; reflexivity.
Qed.

Lemma DrawPoint_clipping_witness :
  buffer_ok initial_state /\ num_points initial_state < MAX_POINTS /\
  exists st' p added,
    DrawPoint 5000 (-7) 1 initial_state = Some (num_points initial_state, st') /\
    vector_list st' !! Z.to_nat (num_points initial_state) = Some p /\
    frame st' = frame initial_state ++ [p] /\
    (4095 < 5000 -> pt_x p = 4095) /\ (5000 < 0 -> pt_x p = 0) /\
    (0 <= 5000 <= 4095 -> pt_x p = 5000) /\
    (4095 < -7 -> pt_y p = 4095) /\ (-7 < 0 -> pt_y p = 0) /\
    (0 <= -7 <= 4095 -> pt_y p = -7) /\
    stderr st' = stderr initial_state ++ added /\
    (4095 < 5000 -> 4095 < -7 -> added = [clip_msg_x; clip_msg_y]) /\
    (4095 < 5000 -> -7 <= 4095 -> added = [clip_msg_x]) /\
    (5000 <= 4095 -> 4095 < -7 -> added = [clip_msg_y]) /\
    (5000 <= 4095 -> -7 <= 4095 -> added = []).
Proof.
  assert (H : buffer_ok initial_state) by buffer_ok_by_computation.
  assert (H' : num_points initial_state < MAX_POINTS) by (cbn; unfold MAX_POINTS; lia).
  split; [exact H|]. split; [exact H'|].
  exact (DrawPoint_clipping 5000 (-7) 1 initial_state H H').
Defined.

(** C3 as stated fails: it is not so that every call with a coordinate out
    of range adds exactly one line to the diagnostic stream.  The call
    [DrawPoint 5000 5000 1] adds two, and the call [DrawPoint (-5) 10 1],
    whose first coordinate is clipped to 0, adds none. *)
Lemma DrawPoint_warning_once_counterexample :
  ~ (forall x y c st,
       buffer_ok st -> num_points st < MAX_POINTS ->
       4095 < x \/ x < 0 \/ 4095 < y \/ y < 0 ->
       exists r st' line,
         DrawPoint x y c st = Some (r, st') /\
         stderr st' = stderr st ++ [line]) /\
  (exists st',
     DrawPoint 5000 5000 1 initial_state = Some (0, st') /\
     stderr st' = [clip_msg_x; clip_msg_y] /\
     frame st' = [mkPoint 4095 4095 255 0 0 255]) /\
  (exists st',
     DrawPoint (-5) 10 1 initial_state = Some (0, st') /\
     stderr st' = [] /\ frame st' = [mkPoint 0 10 255 0 0 255]).
Proof.
  split; [|split; eexists; (split; [|split]); vm_compute; reflexivity].
  intros H.
  assert (Hok : buffer_ok initial_state) by buffer_ok_by_computation.
  destruct (H 5000 5000 1 initial_state Hok
              ltac:(cbn; unfold MAX_POINTS; lia) ltac:(lia))
    as (r & st' & line & Hrun & Herr).
  rewrite DrawPoint_put in Hrun by assumption.
  destruct (put_frame_room (5000, 5000, 1) initial_state Hok
              ltac:(cbn; unfold MAX_POINTS; lia)) as (_ & _ & He).
  assert (Hst : snd (put (5000, 5000, 1) initial_state) = st')
    by (injection Hrun as _ <-; reflexivity).
  rewrite Hst, Herr in He. apply app_inv_head in He. discriminate He.
Qed.

(** ** The pen state and the dwell of DrawLineTo *)

(** C8.  After [DrawLineTo x y c] the pen is at [(x, y)] exactly, whatever
    the color and wherever the destination lies, while every point the call
    appended to the frame lies in the device range; the layout parameters
    are as before. *)
Theorem DrawLineTo_pen_state (x y c : Z) (st : state) :
  buffer_ok st ->
  exists r st' ps,
    DrawLineTo x y c st = Some (r, st') /\
    x_start st' = x /\ y_start st' = y /\
    config st' = config st /\
    frame st' = frame st ++ ps /\ Forall in_device ps.
Proof.
  intros Hok. rewrite DrawLineTo_spec by assumption.
  destruct (line_result_frame x y c st Hok) as (Hf & _ & _).
  pose proof (line_result_config x y c st) as Hc.
  pose proof (line_result_pen x y c st) as Hp.
  destruct (line_result x y c st) as [r st']. cbn [snd] in *.
  injection Hp as Hx Hy.
  eexists r, st', _. split; [reflexivity|].
  do 3 (split; [assumption|]). split; [exact Hf|].
  apply Forall_forall. intros p Hp. apply list_elem_of_fmap in Hp.
  destruct Hp as (cl & -> & _). apply call_point_in_device.
Qed.

Lemma DrawLineTo_pen_state_witness :
  buffer_ok initial_state /\
  exists r st' ps,
    DrawLineTo 5000 (-300) 0 initial_state = Some (r, st') /\
    x_start st' = 5000 /\ y_start st' = -300 /\
    config st' = config initial_state /\
    frame st' = frame initial_state ++ ps /\ Forall in_device ps.
Proof.
  assert (H : buffer_ok initial_state) by buffer_ok_by_computation.
  split; [exact H|].
  exact (DrawLineTo_pen_state 5000 (-300) 0 initial_state H).
Defined.

Lemma map_replicate {A B} (f : A -> B) n (a : A) :
  map f (replicate n a) = replicate n (f a).
Proof. induction n as [|n IH]; [reflexivity|]. cbn. rewrite IH. reflexivity. Qed.

(** C2.  When the points of the move all fit in the buffer: a blanked move
    appends no intermediate point, only [hidden_dwell] copies of the
    destination point; a move with any other color appends its intermediate
    points and then [dwell] copies of the destination point.  (Points are
    stored clipped to the device range, the destination point included.) *)
Theorem DrawLineTo_dwell (x y c : Z) (st : state) :
  buffer_ok st ->
  num_points st
    + Z.of_nat (length (stroke_calls x y c st ++ dwell_calls x y c st))
    <= MAX_POINTS ->
  exists r st',
    DrawLineTo x y c st = Some (r, st') /\
    (c = 0 ->
     frame st' =
       frame st ++ replicate (Z.to_nat (hidden_dwell st)) (point_of x y 0)) /\
    (c <> 0 ->
     frame st' =
       frame st ++ map call_point (stroke_calls x y c st)
                ++ replicate (Z.to_nat (dwell st)) (point_of x y c)).
Proof.
  intros Hok Hroom. rewrite DrawLineTo_spec by assumption.
  destruct (line_result_frame x y c st Hok) as (Hf & _ & _).
  rewrite take_ge in Hf by lia.
  destruct (line_result x y c st) as [r st']. cbn [snd] in *.
  exists r, st'. split; [reflexivity|].
  rewrite Hf, map_app. unfold dwell_calls.
  split.
  - intros ->. unfold stroke_calls. cbn [Z.ltb Z.compare Z.eqb app map].
    rewrite map_replicate. reflexivity.
  - intros Hc. apply Z.eqb_neq in Hc. rewrite Hc.
    rewrite map_replicate. reflexivity.
Qed.

Lemma DrawLineTo_dwell_witness :
  buffer_ok initial_state /\
  num_points initial_state
    + Z.of_nat (length (stroke_calls 120 2000 1 initial_state
                        ++ dwell_calls 120 2000 1 initial_state))
    <= MAX_POINTS /\
  exists r st',
    DrawLineTo 120 2000 1 initial_state = Some (r, st') /\
    (1 = 0 ->
     frame st' =
       frame initial_state
       ++ replicate (Z.to_nat (hidden_dwell initial_state)) (point_of 120 2000 0)) /\
    (1 <> 0 ->
     frame st' =
       frame initial_state ++ map call_point (stroke_calls 120 2000 1 initial_state)
                ++ replicate (Z.to_nat (dwell initial_state)) (point_of 120 2000 1)).
Proof.
  assert (H : buffer_ok initial_state) by buffer_ok_by_computation.
  assert (H' : num_points initial_state
    + Z.of_nat (length (stroke_calls 120 2000 1 initial_state
                        ++ dwell_calls 120 2000 1 initial_state))
    <= MAX_POINTS) by (vm_compute; discriminate).
  split; [exact H|]. split; [exact H'|].
  exact (DrawLineTo_dwell 120 2000 1 initial_state H H').
Defined.

(** ** Pen moves in sequence *)

Lemma run_moves_buffer_ok ms st : buffer_ok st -> buffer_ok (run_moves ms st).
Proof.
  revert st. induction ms as [|m ms IH]; intros st Hok; [exact Hok|].
  cbn [run_moves fold_left]. apply IH, line_result_buffer_ok, Hok.
Qed.

Lemma run_moves_app ms1 ms2 st :
  run_moves (ms1 ++ ms2) st = run_moves ms2 (run_moves ms1 st).
Proof. unfold run_moves. apply fold_left_app. Qed.

Lemma run_moves_pen_moves ms st :
  pen_moves (run_moves ms st) = pen_moves st ++ ms.
Proof.
  revert st. induction ms as [|m ms IH]; intros st.
  - cbn. rewrite app_nil_r. reflexivity.
  - cbn [run_moves fold_left]. fold (run_moves ms). rewrite IH.
    rewrite line_result_pen_moves. destruct m. rewrite <- app_assoc. reflexivity.
Qed.

Lemma run_moves_config ms st : config (run_moves ms st) = config st.
Proof.
  revert st. induction ms as [|m ms IH]; intros st; [reflexivity|].
  cbn [run_moves fold_left]. fold (run_moves ms). rewrite IH.
  apply line_result_config.
Qed.

Lemma do_moves_spec ms st :
  buffer_ok st -> do_moves ms st = Some (tt, run_moves ms st).
Proof.
  revert st. induction ms as [|m ms IH]; intros st Hok; [reflexivity|].
  cbn [do_moves run_moves fold_left]. unfold bind at 1.
  rewrite DrawLineTo_spec by assumption.
  pose proof (line_result_buffer_ok (mv_x m) (mv_y m) (mv_color m) st Hok) as Hok'.
  destruct (line_result (mv_x m) (mv_y m) (mv_color m) st) as [r st'].
  apply IH, Hok'.
Qed.

Lemma DrawDigit_program d x y c s :
  DrawDigit d x y c s = (do_moves (program d x y c s) ;;; ret 0).
Proof.
  unfold DrawDigit, program.
  destruct d as [|p|p]; [reflexivity| |reflexivity].
  do 4 (destruct p as [p|p|]; try reflexivity).
Qed.

Lemma bind_assoc {A B C} (m : M A) (f : A -> M B) (g : B -> M C) st :
  bind (bind m f) g st = bind m (fun a => bind (f a) g) st.
Proof. unfold bind. destruct (m st) as [[a st']|]; reflexivity. Qed.

Lemma bind_ext {A B} (m : M A) (f g : A -> M B) st :
  (forall a st', f a st' = g a st') -> bind m f st = bind m g st.
Proof. intros H. unfold bind. destruct (m st) as [[a st']|]; [apply H|reflexivity]. Qed.

Lemma DrawSquare_program x y c s st :
  DrawSquare x y c s st = (do_moves (square_program x y c s) ;;; ret 0) st.
Proof.
  unfold DrawSquare, square_program. cbv zeta. cbn [do_moves mv_x mv_y mv_color].
  symmetry.
  repeat (rewrite bind_assoc; apply bind_ext; intros ? ?).
  reflexivity.
Qed.

Lemma DrawDigit_run d x y c s st :
  buffer_ok st ->
  DrawDigit d x y c s st = Some (0, run_moves (program d x y c s) st).
Proof.
  intros Hok. rewrite DrawDigit_program. unfold bind.
  rewrite do_moves_spec by assumption. reflexivity.
Qed.

Lemma DrawSquare_run x y c s st :
  buffer_ok st ->
  DrawSquare x y c s st = Some (0, run_moves (square_program x y c s) st).
Proof.
  intros Hok. rewrite DrawSquare_program. unfold bind.
  rewrite do_moves_spec by assumption. reflexivity.
Qed.

(** ** The digit programs against the stroke table *)

Section NoOverflow.
Variables x y s : Z.
Hypothesis Hxs : Int32.in_range (x + s).
Hypothesis H2s : Int32.in_range (2 * s).
Hypothesis Hys : Int32.in_range (y - s).
Hypothesis Hy2s : Int32.in_range (y - 2 * s).

Lemma digit_right : (x + s)%i32 = x + 1 * s.
Proof. unfold Int32.add. rewrite wrap_in_range by assumption. lia. Qed.

Lemma digit_middle : (y - s)%i32 = y + -1 * s.
Proof. unfold Int32.sub. rewrite wrap_in_range by assumption. lia. Qed.

Lemma digit_bottom : (y - 2 * s)%i32 = y + -2 * s.
Proof.
  unfold Int32.sub, Int32.mul. rewrite (wrap_in_range (2 * s)) by assumption.
  rewrite wrap_in_range by assumption. lia.
Qed.

Lemma digit_left : x = x + 0 * s.
Proof. lia. Qed.

Lemma digit_top : y = y + 0 * s.
Proof. lia. Qed.

Lemma program_stroke_table d c :
  program d x y c s = digit_moves d x y c s.
Proof.
  unfold program, digit_moves.
  rewrite digit_right, digit_middle, digit_bottom.
  destruct d as [|p|p]; [| |reflexivity];
    do 4 (try destruct p as [p|p|]);
    cbn [stroke_table map place blank draw];
    rewrite <- ?digit_left, <- ?digit_top; reflexivity.
Qed.
End NoOverflow.

(** C5.  For a digit [d] in 0..9 drawn at [(x, y)] with size [s] and color
    [c] (the offsets [x + s], [y - s], [y - 2 * s] being representable),
    [DrawDigit] issues exactly the pen moves of the stroke table, in order:
    the vertex at offset [(dx * s, dy * s)] from the origin for each entry,
    with color 0 for a blanked entry and [c] for a visible one. *)
Theorem DrawDigit_stroke_table (d x y c s : Z) (st : state) :
  0 <= d <= 9 -> buffer_ok st ->
  Int32.in_range (x + s) -> Int32.in_range (2 * s) ->
  Int32.in_range (y - s) -> Int32.in_range (y - 2 * s) ->
  exists st',
    DrawDigit d x y c s st = Some (0, st') /\
    st' = run_moves (digit_moves d x y c s) st /\
    pen_moves st' = pen_moves st ++ digit_moves d x y c s.
Proof.
  intros Hd Hok Hxs H2s Hys Hy2s.
  exists (run_moves (digit_moves d x y c s) st).
  split; [|split; [reflexivity|apply run_moves_pen_moves]].
  rewrite DrawDigit_run by assumption.
  rewrite program_stroke_table by assumption. reflexivity.
Qed.

Lemma DrawDigit_stroke_table_witness :
  0 <= 9 <= 9 /\ buffer_ok initial_state /\
  exists st',
    DrawDigit 9 0 2000 1 250 initial_state = Some (0, st') /\
    st' = run_moves (digit_moves 9 0 2000 1 250) initial_state /\
    pen_moves st' = pen_moves initial_state ++ digit_moves 9 0 2000 1 250.
Proof.
  assert (H : buffer_ok initial_state) by buffer_ok_by_computation.
  split; [lia|]. split; [exact H|].
  apply (DrawDigit_stroke_table 9 0 2000 1 250 initial_state); try exact H;
    unfold Int32.in_range, Int32.min_signed, Int32.max_signed; lia.
Defined.

(** ** The shape of a digit does not depend on where the pen was *)

Lemma put_same_frame c st1 st2 :
  buffer_ok st1 -> buffer_ok st2 -> same_frame st1 st2 ->
  same_frame (snd (put c st1)) (snd (put c st2)).
Proof.
  intros Hok1 Hok2 (Hf & Hn & Hp & Hc).
  destruct (put_cases c st1) as [[H1 E1]|[H1 E1]];
    destruct (put_cases c st2) as [[H2 E2]|[H2 E2]]; try lia.
  - rewrite E1, E2. repeat split; assumption.
  - destruct (put_frame_room c st1 Hok1 H1) as (Hf1 & Hn1 & _).
    destruct (put_frame_room c st2 Hok2 H2) as (Hf2 & Hn2 & _).
    split; [rewrite Hf1, Hf2, Hf; reflexivity|].
    split; [lia|].
    rewrite !put_pen, !put_config. split; assumption.
Qed.

Lemma put_all_same_frame cs r1 r2 st1 st2 :
  buffer_ok st1 -> buffer_ok st2 -> same_frame st1 st2 ->
  same_frame (snd (put_all cs (r1, st1))) (snd (put_all cs (r2, st2))).
Proof.
  revert r1 r2 st1 st2. induction cs as [|c cs IH]; intros r1 r2 st1 st2 H1 H2 H.
  - exact H.
  - rewrite !put_all_cons. cbn [snd].
    pose proof (put_same_frame c st1 st2 H1 H2 H) as H'.
    pose proof (put_buffer_ok c st1 H1). pose proof (put_buffer_ok c st2 H2).
    destruct (put c st1), (put c st2). apply IH; assumption.
Qed.

Lemma stroke_calls_same x y c st1 st2 :
  pen st1 = pen st2 -> config st1 = config st2 ->
  stroke_calls x y c st1 = stroke_calls x y c st2.
Proof.
  intros Hp Hc. injection Hp as Hx Hy. injection Hc as _ _ _ _ Hd _ _.
  unfold stroke_calls. rewrite Hx, Hy, Hd. reflexivity.
Qed.

Lemma dwell_calls_same x y c st1 st2 :
  config st1 = config st2 -> dwell_calls x y c st1 = dwell_calls x y c st2.
Proof.
  intros Hc. injection Hc as _ _ _ _ _ Hd Hh.
  unfold dwell_calls. rewrite Hd, Hh. reflexivity.
Qed.

Lemma set_pen_same_frame x y st1 st2 :
  same_frame st1 st2 -> same_frame (set_pen x y st1) (set_pen x y st2).
Proof.
  intros (Hf & Hn & Hp & Hc). repeat split; try assumption.
Qed.

(** A move, visible or blanked, keeps two states alike. *)
Lemma line_result_same_frame x y c st1 st2 :
  buffer_ok st1 -> buffer_ok st2 -> same_frame st1 st2 ->
  same_frame (snd (line_result x y c st1)) (snd (line_result x y c st2)).
Proof.
  intros H1 H2 H. pose proof H as (Hf & Hn & Hp & Hc).
  unfold line_result. cbn [snd]. apply set_pen_same_frame.
  rewrite (stroke_calls_same x y c st1 st2 Hp Hc).
  rewrite (dwell_calls_same x y c st1 st2 Hc).
  apply put_all_same_frame; assumption.
Qed.

(** A blanked move makes alike two states that differ in the pen only. *)
Lemma blank_move_same_frame x y st1 st2 :
  buffer_ok st1 -> buffer_ok st2 ->
  frame st1 = frame st2 -> num_points st1 = num_points st2 ->
  config st1 = config st2 ->
  same_frame (snd (line_result x y 0 st1)) (snd (line_result x y 0 st2)).
Proof.
  intros H1 H2 Hf Hn Hc.
  unfold line_result. cbn [snd].
  rewrite (dwell_calls_same x y 0 st1 st2 Hc).
  unfold stroke_calls. cbn [Z.ltb Z.compare app].
  set (cs := dwell_calls x y 0 st2).
  set (a := put_all cs (0, record_move (mkMove x y 0) st1)).
  set (b := put_all cs (0, record_move (mkMove x y 0) st2)).
  destruct (put_all_frame cs (0, record_move (mkMove x y 0) st1) H1) as (Fa & Na & _).
  destruct (put_all_frame cs (0, record_move (mkMove x y 0) st2) H2) as (Fb & Nb & _).
  fold a in Fa, Na. fold b in Fb, Nb. cbn [snd] in Fa, Na, Fb, Nb.
  change (num_points (record_move (mkMove x y 0) st1)) with (num_points st1) in *.
  change (num_points (record_move (mkMove x y 0) st2)) with (num_points st2) in *.
  change (frame (record_move (mkMove x y 0) st1)) with (frame st1) in *.
  change (frame (record_move (mkMove x y 0) st2)) with (frame st2) in *.
  split; [|split; [|split]].
  - change (frame (snd a) = frame (snd b)). rewrite Fa, Fb, Hf, Hn. reflexivity.
  - change (num_points (snd a) = num_points (snd b)). rewrite Na, Nb, Hn. reflexivity.
  - reflexivity.
  - change (config (snd a) = config (snd b)). unfold a, b.
    rewrite !put_all_config. exact Hc.
Qed.

Lemma run_moves_same_frame ms st1 st2 :
  buffer_ok st1 -> buffer_ok st2 -> same_frame st1 st2 ->
  same_frame (run_moves ms st1) (run_moves ms st2).
Proof.
  revert st1 st2. induction ms as [|m ms IH]; intros st1 st2 H1 H2 H; [exact H|].
  cbn [run_moves fold_left]. apply IH.
  - apply line_result_buffer_ok, H1.
  - apply line_result_buffer_ok, H2.
  - apply line_result_same_frame; assumption.
Qed.

(** Every digit program opens with a blanked move. *)
Lemma program_blank_first d x y c s :
  program d x y c s = [] \/
  exists a b ms, program d x y c s = mkMove a b 0 :: ms.
Proof.
  unfold program.
  destruct d as [|p|p]; [right|..|left; reflexivity].
  - eexists _, _, _. reflexivity.
  - do 4 (try destruct p as [p|p|]);
      first [left; reflexivity | right; eexists _, _, _; reflexivity].
Qed.

Lemma DrawDigit_pen_independent d x y c s st1 st2 :
  buffer_ok st1 -> buffer_ok st2 ->
  frame st1 = frame st2 -> num_points st1 = num_points st2 ->
  config st1 = config st2 ->
  frame (run_moves (program d x y c s) st1)
  = frame (run_moves (program d x y c s) st2).
Proof.
  intros H1 H2 Hf Hn Hc.
  destruct (program_blank_first d x y c s) as [->|(a & b & ms & ->)].
  - exact Hf.
  - cbn [run_moves fold_left mv_x mv_y mv_color].
    apply run_moves_same_frame.
    + apply line_result_buffer_ok, H1.
    + apply line_result_buffer_ok, H2.
    + apply blank_move_same_frame; assumption.
Qed.

(** C7.  Clear the buffer, draw a digit, clear the buffer, draw the same
    digit at the same place: the second frame is the first one again, point
    for point, although the second drawing starts from the pen position the
    first one left behind. *)
Theorem DrawDigit_twice_same_frame (d x y c s : Z) (st : state) :
  buffer_ok st ->
  exists st1 st2,
    DrawDigit d x y c s (set_num_points 0 st) = Some (0, st1) /\
    DrawDigit d x y c s (set_num_points 0 st1) = Some (0, st2) /\
    frame st2 = frame st1.
Proof.
  intros Hok.
  assert (Hclear : forall t, buffer_ok t -> buffer_ok (set_num_points 0 t)).
  { intros t [Hl Hn]. split; [exact Hl|]. cbn. unfold MAX_POINTS. lia. }
  pose proof (Hclear _ Hok) as Hok0.
  set (st1 := run_moves (program d x y c s) (set_num_points 0 st)).
  assert (Hok1 : buffer_ok st1) by (apply run_moves_buffer_ok, Hok0).
  exists st1, (run_moves (program d x y c s) (set_num_points 0 st1)).
  split; [apply DrawDigit_run, Hok0|].
  split; [apply DrawDigit_run, Hclear, Hok1|].
  apply DrawDigit_pen_independent; try auto.
  unfold st1. change (config (run_moves (program d x y c s) (set_num_points 0 st))
                      = config (set_num_points 0 st)).
  apply run_moves_config.
Qed.

Lemma DrawDigit_twice_same_frame_witness :
  buffer_ok initial_state /\
  exists st1 st2,
    DrawDigit 4 0 2000 1 250 (set_num_points 0 initial_state) = Some (0, st1) /\
    DrawDigit 4 0 2000 1 250 (set_num_points 0 st1) = Some (0, st2) /\
    frame st2 = frame st1.
Proof.
  assert (H : buffer_ok initial_state) by buffer_ok_by_computation.
  split; [exact H|].
  exact (DrawDigit_twice_same_frame 4 0 2000 1 250 initial_state H).
Defined.

(** ** The frame rebuild *)

Lemma buffer_ok_clear st : buffer_ok st -> buffer_ok (set_num_points 0 st).
Proof. intros [Hl Hn]. split; [exact Hl|]. cbn. unfold MAX_POINTS. lia. Qed.

(** The pen moves of one rebuild, with the arithmetic of the program. *)
Lemma rebuild_run now st :
  buffer_ok st ->
  rebuild now st =
    Some (tt, run_moves (rebuild_program now st) (set_num_points 0 st)).
Proof.
  intros Hok. unfold rebuild, rebuild_program.
  unfold bind at 1, modify at 1. unfold bind at 1, modify at 1.
  change (set_num_points 0 (set_num_points MAX_POINTS st))
    with (set_num_points 0 st).
  pose proof (buffer_ok_clear st Hok) as H0.
  do 4 (unfold bind at 1, get at 1).
  change (xpos (set_num_points 0 st)) with (xpos st).
  change (ypos (set_num_points 0 st)) with (ypos st).
  change (color (set_num_points 0 st)) with (color st).
  change (size (set_num_points 0 st)) with (size st).
  revert H0. generalize (set_num_points 0 st) as s0. intros s0 H0.
  rewrite !run_moves_app.
  repeat (unfold bind at 1;
          first [rewrite DrawDigit_run by (repeat apply run_moves_buffer_ok; exact H0)
                |rewrite DrawSquare_run by (repeat apply run_moves_buffer_ok; exact H0)]).
  reflexivity.
Qed.

(** ** The refresh loop *)

Lemma monitor_app {Q} (rule : Q -> event -> option Q) q tr1 tr2 :
  monitor rule q (tr1 ++ tr2) =
    match monitor rule q tr1 with
    | Some q' => monitor rule q' tr2
    | None => None
    end.
Proof.
  revert q. induction tr1 as [|e tr1 IH]; intros q; [reflexivity|].
  cbn [app monitor]. destruct (rule q e); [apply IH|reflexivity].
Qed.

Lemma run_add clock status a b m :
  run clock status (a + b) m =
    match run clock status a m with
    | Some m' => run clock status b m'
    | None => None
    end.
Proof.
  revert m. induction a as [|a IH]; intros m; [reflexivity|].
  cbn [Nat.add run]. destruct (step clock status m); [apply IH|reflexivity].
Qed.

Lemma run_S clock status n m :
  run clock status (S n) m =
    match run clock status n m with
    | Some m' => step clock status m'
    | None => None
    end.
Proof.
  replace (S n) with (n + 1)%nat by lia. rewrite run_add.
  destruct (run clock status n m) as [m'|]; [|reflexivity].
  cbn [run]. destruct (step clock status m'); reflexivity.
Qed.

Lemma ticking_sec_next t0 k :
  tm_sec (ticking t0 (k + 1)) <> tm_sec (ticking t0 k).
Proof.
  unfold ticking, tm_of_seconds. cbn [tm_sec].
  replace (Z.of_nat (k + 1)) with (Z.of_nat k + 1) by lia.
  intros H.
  pose proof (Z.mod_pos_bound (t0 + Z.of_nat k) 60 ltac:(lia)).
  pose proof (Z.div_mod (t0 + Z.of_nat k) 60 ltac:(lia)).
  pose proof (Z.div_mod (t0 + (Z.of_nat k + 1)) 60 ltac:(lia)).
  pose proof (Z.mod_pos_bound (t0 + (Z.of_nat k + 1)) 60 ltac:(lia)).
  lia.
Qed.

(** C9 as stated fails.  Under the clock that advances one second per
    reading and with a device that is always ready, the frame rebuilt for
    one second is first written after a reading that already shows the
    next second: the loop reads the clock before it polls and writes. *)
Lemma write_before_change_counterexample :
  exists m pts,
    run (ticking 0) always_ready 5 (boot initial_state) = Some m /\
    trace m = [Ev_time (ticking 0 0); Ev_rebuild (ticking 0 0);
               Ev_time (ticking 0 1); Ev_status 1;
               Ev_write POINTS_PER_SECOND pts] /\
    tm_sec (ticking 0 0) = 0 /\ tm_sec (ticking 0 1) = 1 /\
    accepts written_before_change_rule None (trace m) = false.
Proof.
  eexists _, _. split; [vm_compute; reflexivity|].
  split; [vm_compute; reflexivity|].
  split; [reflexivity|]. split; reflexivity.
Qed.

(** With a device that is always ready the loop does go round: six steps
    from the head of the outer loop lead back to it, after one rebuild and
    one write of the rebuilt frame. *)
Lemma refresh_loop_round (t0 : Z) (status : nat -> Z) (m : machine) :
  (forall k, status k <> 0) ->
  pc m = At_outer -> buffer_ok (globals m) ->
  exists m',
    run (ticking t0) status 6 m = Some m' /\
    pc m' = At_outer /\ buffer_ok (globals m') /\
    reads m' = (reads m + 2)%nat /\
    trace m' =
      trace m ++ [Ev_time (ticking t0 (reads m)); Ev_rebuild (ticking t0 (reads m));
                  Ev_time (ticking t0 (reads m + 1)); Ev_status (status (polls m));
                  Ev_write POINTS_PER_SECOND (frame (globals m'))].
Proof.
  intros Hready Hpc Hok.
  cbn [run]. unfold step at 1. rewrite Hpc.
  unfold bind at 1. rewrite rebuild_run by assumption. unfold modify.
  set (g := fprintf_stderr _ _).
  assert (Hg : buffer_ok g).
  { apply (run_moves_buffer_ok _ _ (buffer_ok_clear _ Hok)). }
  unfold step at 1. cbn [pc tm_now seconds]. rewrite Z.eqb_refl.
  unfold step at 1. cbn [pc tm_now seconds globals reads polls trace].
  unfold step at 1. cbn [pc tm_now seconds globals reads polls trace].
  pose proof (Hready (polls m)) as Hr. apply Z.eqb_neq in Hr. rewrite Hr.
  unfold step at 1. cbn [pc tm_now seconds globals reads polls trace].
  unfold step at 1. cbn [pc tm_now seconds globals reads polls trace].
  replace (S (reads m)) with (reads m + 1)%nat by lia.
  pose proof (ticking_sec_next t0 (reads m)) as Hne. apply Z.eqb_neq in Hne.
  rewrite Hne.
  eexists. split; [reflexivity|]. cbn [pc globals reads trace].
  split; [reflexivity|]. split; [exact Hg|]. split; [lia|].
  rewrite <- !app_assoc. reflexivity.
Qed.

(** ** The interpolation of DrawLineTo *)

(** A stroke of no length has no segment. *)
Lemma segments_zero s m e :
  segments (F32.of_int 0) (F32.of_int 0) (S754_finite s m e) = 0.
Proof. destruct s; reflexivity. Qed.

Lemma sub_in_range a b :
  0 <= a <= 4095 -> 0 <= b <= 4095 -> (a - b)%i32 = a - b.
Proof.
  intros Ha Hb. unfold Int32.sub. apply wrap_in_range.
  unfold Int32.in_range, Int32.min_signed, Int32.max_signed. lia.
Qed.

Lemma map_map_point (f : Z -> call) l :
  map call_point (map f l) = map (fun i => call_point (f i)) l.
Proof. apply map_map. Qed.

(** C1, the count of segments.  A visible move to the place where the pen
    already is has no segment at all: the frame receives the ten dwell points and no
    intermediate point.  And the count is the rounded single-precision
    one: from (0, 0) to (3785, 1576), at distance just above 4100, the
    program makes 82 segments where the ceiling of distance over 50 is 83. *)
Lemma DrawLineTo_segments_counterexample :
  (exists r st',
     DrawLineTo 0 0 1 initial_state = Some (r, st') /\
     frame st' = replicate 10 (point_of 0 0 1)) /\
  segments (F32.of_int (3785 - 0)%i32) (F32.of_int (1576 - 0)%i32)
           (divider initial_state) = 82 /\
  (82 * 50) ^ 2 < 3785 ^ 2 + 1576 ^ 2.
Proof.
  split; [|split].
  - eexists _, _. split; vm_compute; reflexivity.
  - vm_compute. reflexivity.
  - lia.
Qed.

(** ** The layout of the clock face *)

Lemma pow2_m1 : (pow2 (-1) == 1 # 2)%Q.
Proof. reflexivity. Qed.

(** [(int)(k * size)] for a literal [k = c / 2]: the product is exact in
    double precision, so the result is [c * size / 2] cut toward zero. *)
Lemma scaled_half (c : positive) (s : Z) :
  Zpos c < 16 -> - 2 ^ 24 <= s <= 2 ^ 24 ->
  scaled (F64.lit (Zpos c) (-1)) s = Z.quot (Zpos c * s) 2.
Proof.
  intros Hc Hs. unfold scaled, F64.lit, F64.to_int, F64.mul, F64.of_int.
  assert (Hp : 0 < F64.prec) by reflexivity.
  assert (He : 2 <= F64.emax) by (unfold F64.emax; lia).
  assert (Hemin : SpecFloat.emin F64.prec F64.emax = -1074) by reflexivity.
  assert (Hdc : 1 <= digits (Zpos c) <= 4).
  { split; [pose proof (digits_pos (Zpos c)); lia|].
    apply digits_le_of_lt; lia. }
  cbn [binary_normalize].
  destruct (binary_round_value F64.prec F64.emax Hp false c (-1)
              ltac:(rewrite Hemin; unfold F64.prec; lia)
              ltac:(unfold F64.emax; lia))
    as (ml & el & Hnl & _ & _ & Hxl).
  destruct (Hxl ltac:(unfold F64.prec; lia)) as (Hml & Hel & Hvl).
  destruct (Z.eq_dec s 0) as [->|Hs0].
  - destruct Hnl as [-> _]. rewrite Z.mul_0_r. reflexivity.
  - assert (Hds : 1 <= digits (Z.abs s) <= 25).
    { split; [pose proof (digits_pos (Z.abs s)); lia|].
      apply digits_le_of_lt; lia. }
    destruct (of_int_value F64.prec F64.emax Hp He s Hs0
                ltac:(unfold F64.emax; lia))
      as (ms & es & Hns & _ & _ & Hxs).
    destruct (Hxs ltac:(unfold F64.prec; lia)) as (Hms & Hes & Hvs).
    destruct (mul_value F64.prec F64.emax Hp He _ false ml el _ (s <? 0) ms es
                Hnl Hns ltac:(rewrite Hemin; unfold F64.prec in *; lia)
                ltac:(unfold F64.prec, F64.emax in *; lia))
      as (m & e & [-> Hdm] & _ & _ & Hx).
    cbn [xorb] in *.
    assert (Hval : (mag m e == (Zpos c * Z.abs s) # 2)%Q).
    { rewrite Hx.
      - rewrite Hvl, Hvs. unfold mag.
        rewrite pow2_m1, (Qmake_Qdiv (Zpos c * Z.abs s) 2), inject_Z_mult.
        change (inject_Z (Zpos 2)) with 2%Q. field.
      - destruct Hnl as [_ Hdl]. destruct Hns as [_ Hdms].
        pose proof (digits_mul_normal F64.prec F64.emax Hp He ml ms Hdl Hdms) as Hk.
        set (k := digits (Zpos (ml * ms)) - F64.prec) in *.
        rewrite Pos2Z.inj_mul, Hml, Hms.
        set (t := F64.prec - digits (Zpos c) + (F64.prec - digits (Z.abs s)) - k).
        assert (Ht : 0 <= t) by (unfold t, k, F64.prec in *; lia).
        replace (Zpos c * 2 ^ (F64.prec - digits (Zpos c))
                 * (Z.abs s * 2 ^ (F64.prec - digits (Z.abs s))))
          with (Zpos c * Z.abs s * 2 ^ t * 2 ^ k).
        + apply Z.mod_mul. apply Z.pow_nonzero; unfold k, F64.prec in *; lia.
        + rewrite <- !Z.mul_assoc. f_equal.
          rewrite (Z.mul_assoc (2 ^ _)), (Z.mul_comm (2 ^ _) (Z.abs s)), <- Z.mul_assoc.
          f_equal. rewrite <- !Z.pow_add_r by (unfold t, k, F64.prec in *; lia).
          f_equal. unfold t. lia. }
    assert (Hfl : Qfloor (mag m e) = Zpos c * Z.abs s / 2).
    { rewrite (Qfloor_comp _ _ Hval). reflexivity. }
    rewrite to_int_finite; rewrite Hfl.
    + destruct (s <? 0) eqn:Hneg; cbn [cond_Zopp].
      * apply Z.ltb_lt in Hneg. rewrite Z.abs_neq by lia.
        replace (Zpos c * s) with (- (Zpos c * - s)) by lia.
        rewrite Z.quot_opp_l by lia. f_equal.
        symmetry. apply Z.quot_div_nonneg; lia.
      * apply Z.ltb_ge in Hneg. rewrite Z.abs_eq by lia.
        symmetry. apply Z.quot_div_nonneg; lia.
    + unfold Int32.max_signed.
      apply Z.div_le_upper_bound; [lia|].
      assert (Z.abs s <= 2 ^ 24) by lia. nia.
Qed.

Lemma scaled_3_5 s :
  - 2 ^ 24 <= s <= 2 ^ 24 -> scaled lit_3_5 s = Z.quot (7 * s) 2.
Proof. apply (scaled_half 7 s). lia. Qed.

Lemma scaled_7_5 s :
  - 2 ^ 24 <= s <= 2 ^ 24 -> scaled lit_7_5 s = Z.quot (15 * s) 2.
Proof. apply (scaled_half 15 s). lia. Qed.

Ltac int_range :=
  unfold Int32.in_range, Int32.min_signed, Int32.max_signed in *;
  first [lia | Z.quot_rem_to_equations; lia].

Lemma add_small a b :
  - 2 ^ 29 <= a <= 2 ^ 29 -> - 2 ^ 29 <= b <= 2 ^ 29 -> (a + b)%i32 = a + b.
Proof. intros. unfold Int32.add. apply wrap_in_range. int_range. Qed.

Lemma sub_small a b :
  - 2 ^ 29 <= a <= 2 ^ 29 -> - 2 ^ 29 <= b <= 2 ^ 29 -> (a - b)%i32 = a - b.
Proof. intros. unfold Int32.sub. apply wrap_in_range. int_range. Qed.

Lemma mul_small k b :
  0 <= k <= 10 -> - 2 ^ 24 <= b <= 2 ^ 24 -> (k * b)%i32 = k * b.
Proof.
  intros. unfold Int32.mul. apply wrap_in_range.
  unfold Int32.in_range, Int32.min_signed, Int32.max_signed. nia.
Qed.

Lemma quot_le_self a k : 0 <= a -> 0 < k -> 0 <= Z.quot a k <= a.
Proof.
  intros Hs Hk.
  pose proof (Z.rem_bound_pos a k Hs Hk). pose proof (Z.quot_pos a k Hs Hk).
  assert (1 * Z.quot a k <= k * Z.quot a k)
    by (apply Z.mul_le_mono_nonneg_r; [assumption | lia]).
  pose proof (Z.quot_rem' a k) as Hq.
  generalize dependent (Z.quot a k). generalize dependent (Z.rem a k).
  intros; lia.
Qed.

Lemma div_small a k :
  - 2 ^ 29 <= a <= 2 ^ 29 -> 0 < k -> (a / k)%i32 = Z.quot a k.
Proof.
  intros Ha Hk. unfold Int32.div. apply wrap_in_range.
  unfold Int32.in_range, Int32.min_signed, Int32.max_signed.
  destruct (Z_le_gt_dec 0 a) as [Hs|Hs].
  - pose proof (quot_le_self a k Hs Hk).
    generalize dependent (Z.quot a k). intros; lia.
  - apply Z.gt_lt in Hs.
    assert (H : 0 <= - a) by lia.
    pose proof (quot_le_self (- a) k H Hk) as Hb.
    rewrite Z.quot_opp_l in Hb by lia.
    generalize dependent (Z.quot a k). intros; lia.
Qed.

Lemma tens_digit v : 0 <= v <= 59 -> (v / 10)%i32 = v / 10.
Proof.
  intros Hv. rewrite div_small by lia. apply Z.quot_div_nonneg; lia.
Qed.

Lemma units_digit v : 0 <= v -> (v % 10)%i32 = v mod 10.
Proof. intros Hv. unfold Int32.rem. apply Z.rem_mod_nonneg; lia. Qed.

Section Layout.
Variables x y s : Z.
Hypothesis Hx : - 2 ^ 24 <= x <= 2 ^ 24.
Hypothesis Hy : - 2 ^ 24 <= y <= 2 ^ 24.
Hypothesis Hs : - 2 ^ 24 <= s <= 2 ^ 24.

Lemma digit_column k : 0 <= k <= 10 -> (x + k * s)%i32 = x + k * s.
Proof.
intros Hk. rewrite mul_small by assumption. apply add_small; nia.
Qed.

Lemma program_at_column d k c :
0 <= k <= 10 ->
program d (x + k * s)%i32 y c s = digit_moves d (x + k * s) y c s.
Proof.
intros Hk. rewrite digit_column by assumption.
apply program_stroke_table; int_range || (unfold Int32.in_range, Int32.min_signed, Int32.max_signed; nia).
Qed.

Lemma program_at_origin d c : program d x y c s = digit_moves d x y c s.
Proof. apply program_stroke_table; int_range. Qed.

Lemma half_size : (s / 2)%i32 = Z.quot s 2.
Proof. apply div_small; lia. Qed.

Lemma tenth_size : (s / 10)%i32 = Z.quot s 10.
Proof. apply div_small; lia. Qed.

Lemma quot_bound k : 0 < k -> - 2 ^ 24 <= Z.quot s k <= 2 ^ 24.
Proof.
intros Hk. destruct (Z_le_gt_dec 0 s) as [H|H].
- pose proof (quot_le_self s k H Hk). lia.
- assert (H' : 0 <= - s) by lia.
  pose proof (quot_le_self (- s) k H' Hk) as Hb.
  rewrite Z.quot_opp_l in Hb by lia. lia.
Qed.

Lemma upper_row : (y - s / 2)%i32 = y - Z.quot s 2.
Proof.
rewrite half_size. pose proof (quot_bound 2 ltac:(lia)).
apply sub_small; lia.
Qed.

Lemma lower_row : ((y - s / 2) - s)%i32 = y - Z.quot s 2 - s.
Proof.
rewrite upper_row. pose proof (quot_bound 2 ltac:(lia)).
apply sub_small; lia.
Qed.

Lemma left_colon : (x + scaled lit_3_5 s)%i32 = x + Z.quot (7 * s) 2.
Proof.
rewrite scaled_3_5 by assumption.
apply add_small; [lia|]. Z.quot_rem_to_equations. lia.
Qed.

Lemma right_colon : (x + scaled lit_7_5 s)%i32 = x + Z.quot (15 * s) 2.
Proof.
rewrite scaled_7_5 by assumption.
apply add_small; [lia|]. Z.quot_rem_to_equations. lia.
Qed.

End Layout.

Lemma square_program_moves x y c s :
  - 2 ^ 28 <= x <= 2 ^ 28 -> - 2 ^ 28 <= y <= 2 ^ 28 ->
  - 2 ^ 24 <= s <= 2 ^ 24 ->
  square_program x y c s = square_moves x y c s.
Proof.
  intros Hx Hy Hs. unfold square_program, square_moves. cbv zeta.
  rewrite (half_size s Hs).
  pose proof (quot_bound s Hs 2 ltac:(lia)) as Hh.
  set (h := Z.quot s 2) in *.
  rewrite (sub_small x h), (sub_small y h) by lia.
  rewrite (add_small (x - h) s), (add_small (y - h) s) by lia.
  reflexivity.
Qed.

Lemma rebuild_program_face now st :
  0 <= tm_hour now <= 23 -> 0 <= tm_min now <= 59 -> 0 <= tm_sec now <= 59 ->
  - 2 ^ 24 <= xpos st <= 2 ^ 24 -> - 2 ^ 24 <= ypos st <= 2 ^ 24 ->
  - 2 ^ 24 <= size st <= 2 ^ 24 ->
  rebuild_program now st =
    face_moves (tm_hour now) (tm_min now) (tm_sec now)
               (xpos st) (ypos st) (color st) (size st).
Proof.
  intros Hh Hm Hsec Hx Hy Hs.
  unfold rebuild_program, face_moves, colon_moves. cbv zeta.
  rewrite !tens_digit, !units_digit by lia.
  rewrite program_at_origin by assumption.
  rewrite !program_at_column by (assumption || lia).
  rewrite lower_row, upper_row, left_colon, right_colon, tenth_size
    by assumption.
  pose proof (quot_bound (size st) Hs 2 ltac:(lia)) as Hh2.
  pose proof (quot_bound (size st) Hs 10 ltac:(lia)) as Hh10.
  assert (H7 : - 2 ^ 26 <= Z.quot (7 * size st) 2 <= 2 ^ 26)
    by (Z.quot_rem_to_equations; lia).
  assert (H15 : - 2 ^ 27 <= Z.quot (15 * size st) 2 <= 2 ^ 27)
    by (Z.quot_rem_to_equations; lia).
  rewrite !square_program_moves by lia.
  reflexivity.
Qed.

(** C6.  One frame rebuild for a reading with hour in 0..23 and minute and
    second in 0..59 (origin and size within 2^24 in magnitude, so that the
    [int] arithmetic of the layout is exact) issues exactly the pen moves of
    six digits: the tens and units of the hour, the minute and the second,
    in that order, each a digit in 0..9, at the horizontal offsets 0, 2s, 4s,
    6s, 8s and 10s from the origin and on the same line; then those of two
    pairs of marker squares.  For a non-negative size the first pair is
    centred in the gap between the hour and the minute digits and the second
    in the gap between the minute and the second digits, both within the
    height of the digits. *)
Theorem rebuild_layout (now : tm) (st : state) :
  let h := tm_hour now in
  let m := tm_min now in
  let sec := tm_sec now in
  let x := xpos st in
  let y := ypos st in
  let s := size st in
  let face := face_moves h m sec x y (color st) s in
  0 <= h <= 23 -> 0 <= m <= 59 -> 0 <= sec <= 59 ->
  buffer_ok st ->
  - 2 ^ 24 <= x <= 2 ^ 24 -> - 2 ^ 24 <= y <= 2 ^ 24 ->
  - 2 ^ 24 <= s <= 2 ^ 24 ->
  exists st',
    rebuild now st = Some (tt, st') /\
    st' = run_moves face (set_num_points 0 st) /\
    pen_moves st' = pen_moves st ++ face /\
    Forall (fun d => 0 <= d <= 9)
           [h / 10; h mod 10; m / 10; m mod 10; sec / 10; sec mod 10] /\
    (0 <= s ->
     x + 3 * s <= x + Z.quot (7 * s) 2 <= x + 4 * s /\
     x + 7 * s <= x + Z.quot (15 * s) 2 <= x + 8 * s /\
     y - 2 * s <= y - Z.quot s 2 - s /\ y - Z.quot s 2 <= y).
Proof.
  intros h m sec x y s face Hh Hm Hsec Hok Hx Hy Hs.
  exists (run_moves face (set_num_points 0 st)).
  split; [|split; [reflexivity|split; [|split]]].
  - rewrite rebuild_run by assumption.
    rewrite rebuild_program_face by assumption. reflexivity.
  - rewrite run_moves_pen_moves. reflexivity.
  - repeat constructor;
      try (apply Z.div_pos; lia);
      try (apply Z.div_le_upper_bound; lia);
      try (apply Z.mod_pos_bound; lia);
      pose proof (Z.mod_pos_bound h 10); pose proof (Z.mod_pos_bound m 10);
      pose proof (Z.mod_pos_bound sec 10); lia.
  - intros Hs0. repeat split; Z.quot_rem_to_equations; lia.
Qed.

Lemma rebuild_layout_witness :
  exists st',
    rebuild (mkTm 2024 1 1 3 5 9) initial_state = Some (tt, st') /\
    st' = run_moves (face_moves 3 5 9 0 2000 1 250)
                    (set_num_points 0 initial_state) /\
    pen_moves st' = pen_moves initial_state ++ face_moves 3 5 9 0 2000 1 250 /\
    Forall (fun d => 0 <= d <= 9)
           [3 / 10; 3 mod 10; 5 / 10; 5 mod 10; 9 / 10; 9 mod 10] /\
    (0 <= 250 ->
     0 + 3 * 250 <= 0 + Z.quot (7 * 250) 2 <= 0 + 4 * 250 /\
     0 + 7 * 250 <= 0 + Z.quot (15 * 250) 2 <= 0 + 8 * 250 /\
     2000 - 2 * 250 <= 2000 - Z.quot 250 2 - 250 /\
     2000 - Z.quot 250 2 <= 2000).
Proof.
  apply (rebuild_layout (mkTm 2024 1 1 3 5 9) initial_state);
    try (cbn; lia); buffer_ok_by_computation.
Defined.

(** ** More on DrawPoint and DrawLineTo *)

Lemma color_rgb_dark c : color_rgb c = (0, 0, 0) <-> c = 0.
Proof.
  split; [|intros ->; reflexivity].
  unfold color_rgb. destruct c as [|p|p]; [reflexivity| |discriminate].
  do 3 (destruct p as [p|p|]; try discriminate).
Qed.

Lemma color_rgb_other c : c < 0 \/ 7 < c -> color_rgb c = (255, 255, 255).
Proof.
  intros H. unfold color_rgb. destruct c as [|p|p]; [lia| |reflexivity].
  do 3 (destruct p as [p|p|]; try reflexivity; try lia).
Qed.

Lemma color_rgb_injective c1 c2 :
  0 <= c1 <= 7 -> 0 <= c2 <= 7 -> color_rgb c1 = color_rgb c2 -> c1 = c2.
Proof.
  intros H1 H2.
  assert (E1 : c1 = 0 \/ c1 = 1 \/ c1 = 2 \/ c1 = 3 \/ c1 = 4 \/ c1 = 5
               \/ c1 = 6 \/ c1 = 7) by lia.
  assert (E2 : c2 = 0 \/ c2 = 1 \/ c2 = 2 \/ c2 = 3 \/ c2 = 4 \/ c2 = 5
               \/ c2 = 6 \/ c2 = 7) by lia.
  destruct E1 as [->|[->|[->|[->|[->|[->|[->| ->]]]]]]];
    destruct E2 as [->|[->|[->|[->|[->|[->|[->| ->]]]]]]];
    cbn; intros E; try reflexivity; discriminate E.
Qed.

(** The channels of a stored point.  Whatever the color argument, the
    intensity is 255 and each of red, green and blue is 0 or 255.  The point
    is dark exactly for color 0; a color outside 0..7 is drawn white, as
    color 7 is; and the eight colors 0..7 are told apart by their channels. *)
Theorem DrawPoint_color_table (x y c : Z) (st : state) :
  buffer_ok st -> num_points st < MAX_POINTS ->
  exists st' p,
    DrawPoint x y c st = Some (num_points st, st') /\
    vector_list st' !! Z.to_nat (num_points st) = Some p /\
    pt_i p = 255 /\
    (pt_r p = 0 \/ pt_r p = 255) /\ (pt_g p = 0 \/ pt_g p = 255) /\
    (pt_b p = 0 \/ pt_b p = 255) /\
    ((pt_r p, pt_g p, pt_b p) = (0, 0, 0) <-> c = 0) /\
    (c < 0 \/ 7 < c -> (pt_r p, pt_g p, pt_b p) = (255, 255, 255)) /\
    (forall c', 0 <= c <= 7 -> 0 <= c' <= 7 ->
                color_rgb c' = (pt_r p, pt_g p, pt_b p) -> c' = c).
Proof.
  intros Hok Hroom. pose proof Hok as [Hlen Hn].
  rewrite DrawPoint_put by assumption. rewrite put_room by assumption.
  eexists _, (call_point (x, y, c)). split; [reflexivity|].
  cbn [vector_list]. split.
  { apply list_lookup_insert_eq. lia. }
  unfold call_point, point_of.
  pose proof (color_rgb_cases c) as Hc.
  pose proof (color_rgb_dark c) as Hd.
  pose proof (color_rgb_other c) as Ho.
  pose proof (fun c' => color_rgb_injective c' c) as Hi.
  destruct (color_rgb c) as [[r g] b]. cbn [pt_i pt_r pt_g pt_b].
  destruct Hc as (Hr & Hg & Hb).
  repeat split; try assumption; try apply Hd.
  - intros c' H H'. apply Hi; assumption.
Qed.

Lemma DrawPoint_color_table_witness :
  exists st' p,
    DrawPoint 10 20 9 initial_state = Some (num_points initial_state, st') /\
    vector_list st' !! Z.to_nat (num_points initial_state) = Some p /\
    pt_i p = 255 /\
    (pt_r p = 0 \/ pt_r p = 255) /\ (pt_g p = 0 \/ pt_g p = 255) /\
    (pt_b p = 0 \/ pt_b p = 255) /\
    ((pt_r p, pt_g p, pt_b p) = (0, 0, 0) <-> 9 = 0) /\
    (9 < 0 \/ 7 < 9 -> (pt_r p, pt_g p, pt_b p) = (255, 255, 255)) /\
    (forall c', 0 <= 9 <= 7 -> 0 <= c' <= 7 ->
                color_rgb c' = (pt_r p, pt_g p, pt_b p) -> c' = 9).
Proof.
  apply (DrawPoint_color_table 10 20 9 initial_state).
  - buffer_ok_by_computation.
  - vm_compute. reflexivity.
Defined.

Lemma put_all_full_status cs st :
  MAX_POINTS <= num_points st -> put_all cs (0, st) = (0, st).
Proof.
  intros H. induction cs as [|c cs IH]; [reflexivity|].
  rewrite put_all_cons. cbn [snd]. rewrite put_full by assumption. exact IH.
Qed.

(** A move on a buffer that cannot take all of its points.  The points of
    the move are appended in order until the buffer is full and the rest is
    dropped: the frame gains a prefix of them, and only the calls that were
    kept can print a clipping warning.  The pen goes to the destination all
    the same.  On a buffer that is full already the move changes neither
    the frame nor the diagnostic stream, and returns 0. *)
Theorem DrawLineTo_capacity (x y c : Z) (st : state) :
  let calls := stroke_calls x y c st ++ dwell_calls x y c st in
  let kept := take (Z.to_nat (MAX_POINTS - num_points st)) calls in
  buffer_ok st ->
  exists r st',
    DrawLineTo x y c st = Some (r, st') /\
    frame st' = frame st ++ map call_point kept /\
    stderr st' = stderr st ++ concat (map call_warnings kept) /\
    num_points st' = num_points st + Z.of_nat (length kept) /\
    num_points st' <= MAX_POINTS /\
    pen st' = (x, y) /\
    (num_points st = MAX_POINTS ->
     r = 0 /\ frame st' = frame st /\ stderr st' = stderr st).
Proof.
  intros calls kept Hok. rewrite DrawLineTo_spec by assumption.
  destruct (line_result_frame x y c st Hok) as (Hf & Hn & He).
  pose proof (line_result_pen x y c st) as Hp.
  pose proof (line_result_buffer_ok x y c st Hok) as [_ Hb].
  assert (Hfull : num_points st = MAX_POINTS -> fst (line_result x y c st) = 0).
  { intros E. unfold line_result. cbn [fst].
    rewrite put_all_full_status; [reflexivity|]. cbn. lia. }
  destruct (line_result x y c st) as [r st']. cbn [snd fst] in *.
  exists r, st'. split; [reflexivity|].
  fold calls in Hf, Hn, He. fold kept in Hf, Hn, He.
  do 5 (split; [assumption || lia|]).
  intros E. split; [apply Hfull, E|].
  assert (K : kept = []).
  { unfold kept. rewrite E, Z.sub_diag. reflexivity. }
  rewrite Hf, He, K. cbn. rewrite !app_nil_r. split; reflexivity.
Qed.

Lemma DrawLineTo_capacity_witness :
  let st := set_num_points (MAX_POINTS - 3) initial_state in
  let calls := stroke_calls 5000 0 1 st ++ dwell_calls 5000 0 1 st in
  let kept := take (Z.to_nat (MAX_POINTS - num_points st)) calls in
  exists r st',
    DrawLineTo 5000 0 1 st = Some (r, st') /\
    frame st' = frame st ++ map call_point kept /\
    stderr st' = stderr st ++ concat (map call_warnings kept) /\
    num_points st' = num_points st + Z.of_nat (length kept) /\
    num_points st' <= MAX_POINTS /\
    pen st' = (5000, 0) /\
    (num_points st = MAX_POINTS ->
     r = 0 /\ frame st' = frame st /\ stderr st' = stderr st).
Proof.
  apply (DrawLineTo_capacity 5000 0 1
           (set_num_points (MAX_POINTS - 3) initial_state)).
  buffer_ok_by_computation.
Defined.

(** A move with a negative color.  The interpolation is skipped, as for a
    blanked move, but the dwell is the one of visible moves and its points
    are white: the frame gains [dwell] white points at the destination and
    nothing else. *)
Theorem DrawLineTo_negative_color (x y c : Z) (st : state) :
  buffer_ok st -> c < 0 ->
  num_points st + Z.max 0 (dwell st) <= MAX_POINTS ->
  exists r st',
    DrawLineTo x y c st = Some (r, st') /\
    frame st' =
      frame st ++ replicate (Z.to_nat (dwell st))
                            (mkPoint (clip x) (clip y) 255 255 255 255) /\
    pen st' = (x, y).
Proof.
  intros Hok Hc Hroom. rewrite DrawLineTo_spec by assumption.
  destruct (line_result_frame x y c st Hok) as (Hf & _ & _).
  pose proof (line_result_pen x y c st) as Hp.
  destruct (line_result x y c st) as [r st']. cbn [snd] in *.
  exists r, st'. split; [reflexivity|]. split; [|exact Hp].
  rewrite Hf. f_equal.
  assert (Hs : stroke_calls x y c st = []).
  { unfold stroke_calls. cbv zeta.
    replace (0 <? c) with false by (symmetry; apply Z.ltb_ge; lia).
    reflexivity. }
  rewrite Hs. cbn [app]. unfold dwell_calls.
  replace (c =? 0) with false by (symmetry; apply Z.eqb_neq; lia).
  rewrite take_ge by (rewrite length_replicate; lia).
  rewrite map_replicate. f_equal.
  unfold call_point, point_of. rewrite color_rgb_other by lia. reflexivity.
Qed.

Lemma DrawLineTo_negative_color_witness :
  exists r st',
    DrawLineTo 100 200 (-1) initial_state = Some (r, st') /\
    frame st' =
      frame initial_state
      ++ replicate (Z.to_nat (dwell initial_state))
                   (mkPoint (clip 100) (clip 200) 255 255 255 255) /\
    pen st' = (100, 200).
Proof.
  apply (DrawLineTo_negative_color 100 200 (-1) initial_state).
  - buffer_ok_by_computation.
  - lia.
  - vm_compute. discriminate.
Defined.

(** ** Interpolated points stay between the ends of the stroke *)

Lemma floor_nonneg (v : Q) : (0 <= v)%Q -> 0 <= Qfloor v.
Proof. intros H. rewrite <- (Qfloor_Z 0). apply Qfloor_resp_le, H. Qed.

Lemma floor_between (v : Q) (lo hi : Z) :
  (inject_Z lo - 1 <= v)%Q -> (v < inject_Z hi + 1)%Q ->
  lo - 1 <= Qfloor v <= hi.
Proof.
  intros Hlo Hhi. split.
  - rewrite <- (Qfloor_Z (lo - 1)). apply Qfloor_resp_le.
    unfold Z.sub. rewrite inject_Z_plus, inject_Z_opp.
    change (inject_Z 1) with 1%Q. lra.
  - pose proof (Qfloor_le v) as Hf.
    assert (H : (inject_Z (Qfloor v) < inject_Z (hi + 1))%Q).
    { rewrite inject_Z_plus. change (inject_Z 1) with 1%Q. lra. }
    rewrite <- Zlt_Qlt in H. lia.
Qed.

Lemma inject_Z_bounds (z lo hi : Z) :
  lo <= z <= hi -> (inject_Z lo <= inject_Z z <= inject_Z hi)%Q.
Proof. intros H. rewrite <- !Zle_Qle. exact H. Qed.

(** The float of an [int] is at least any count of at most [2^23] that
    the [int] is at least. *)
Lemma of_int_above i n mn en :
  1 <= i <= n -> i <= 2 ^ 23 -> n <= Int32.max_signed ->
  normal F32.prec (FP.of_int F32.prec F32.emax n) false mn en ->
  (inject_Z n * (1 - u32) <= mag mn en <= inject_Z n * (1 + u32))%Q ->
  (digits (Z.abs n) <= F32.prec -> (mag mn en == inject_Z (Z.abs n))%Q) ->
  (inject_Z i <= mag mn en)%Q.
Proof.
  intros Hi Hi23 Hn Hnn Hv Hx.
  destruct (Z_le_gt_dec (digits (Z.abs n)) F32.prec) as [Hd|Hd].
  - rewrite (Hx Hd). rewrite Z.abs_eq by lia. rewrite <- Zle_Qle. lia.
  - rewrite Z.abs_eq in Hd by lia.
    pose proof (digits_bounds n ltac:(lia)) as [Hlo _].
    assert (H24 : 2 ^ 24 <= n).
    { eapply Z.le_trans; [|exact Hlo].
      apply Z.pow_le_mono_r; unfold F32.prec in *; lia. }
    assert (HQ : (inject_Z (2 ^ 24) <= inject_Z n)%Q) by (rewrite <- Zle_Qle; lia).
    assert (HI : (inject_Z i <= inject_Z (2 ^ 23))%Q) by (rewrite <- Zle_Qle; lia).
    change (inject_Z (2 ^ 24)) with (16777216 # 1)%Q in HQ.
    change (inject_Z (2 ^ 23)) with (8388608 # 1)%Q in HI.
    destruct Hv as [Hv _]. unfold u32 in Hv.
    revert Hv HQ HI. generalize (inject_Z n) (inject_Z i) (mag mn en).
    intros N I M. lra.
Qed.

(** The [i]-th interpolated coordinate of a stroke between two points of
    the device range lies between the two ends, or one unit below the
    lower one, and within the device range. *)
Lemma interpolate_in_box xs x n i :
  0 <= xs <= 4095 -> 0 <= x <= 4095 ->
  1 <= i <= n -> i <= 2 ^ 23 -> n <= Int32.max_signed ->
  Z.min xs x - 1 <= interpolate xs (F32.of_int (x - xs)) n i <= Z.max xs x /\
  0 <= interpolate xs (F32.of_int (x - xs)) n i.
Proof.
  intros Hxs Hx Hi Hi23 Hn. unfold interpolate, F32.to_int, F32.add, F32.mul,
    F32.div, F32.of_int.
  assert (Hp : 0 < F32.prec) by reflexivity.
  assert (He : 2 <= F32.emax) by (unfold F32.emax; lia).
  (* the float of n *)
  assert (Hdn : 1 <= digits (Z.abs n) <= 31).
  { rewrite Z.abs_eq by lia. split; [pose proof (digits_pos n); lia|].
    apply digits_le_of_lt; unfold Int32.max_signed in *; lia. }
  destruct (of_int_value F32.prec F32.emax Hp He n ltac:(lia)
              ltac:(unfold F32.emax; lia))
    as (mn & en & Hnn & Hen & Hvn & Hxn).
  replace (n <? 0) with false in Hnn by (symmetry; apply Z.ltb_ge; lia).
  pose proof (mag_pos mn en) as Hmagn.
  rewrite f32_u in Hvn. rewrite (Z.abs_eq n) in Hvn by lia.
  assert (Hin : (inject_Z i <= mag mn en)%Q).
  { apply (of_int_above i n mn en); try assumption.
    intros Hd. destruct (Hxn Hd) as (_ & _ & E). exact E. }
  (* the float of i *)
  assert (Hdi : 1 <= digits (Z.abs i) <= 24).
  { rewrite Z.abs_eq by lia. split; [pose proof (digits_pos i); lia|].
    apply digits_le_of_lt; lia. }
  destruct (of_int_value F32.prec F32.emax Hp He i ltac:(lia)
              ltac:(unfold F32.emax; lia))
    as (mi & ei & Hni & _ & _ & Hxi).
  destruct (Hxi ltac:(unfold F32.prec; lia)) as (_ & Hei & Hvi).
  replace (i <? 0) with false in Hni by (symmetry; apply Z.ltb_ge; lia).
  rewrite (Z.abs_eq i) in Hvi by lia.
  (* the float of xs *)
  assert (HXS : (xs = 0 /\ FP.of_int F32.prec F32.emax xs = S754_zero false) \/
                (0 < xs /\ exists ms es,
                   normal F32.prec (FP.of_int F32.prec F32.emax xs) false ms es /\
                   -23 <= es <= -12 /\ (mag ms es == inject_Z xs)%Q)).
  { destruct (Z.eq_dec xs 0) as [->|Hne]; [left; split; reflexivity|].
    right. split; [lia|].
    assert (Hd : 1 <= digits (Z.abs xs) <= 12).
    { rewrite Z.abs_eq by lia. split; [pose proof (digits_pos xs); lia|].
      apply digits_le_of_lt; lia. }
    destruct (of_int_value F32.prec F32.emax Hp He xs Hne
                ltac:(unfold F32.emax; lia))
      as (ms & es & Hns & _ & _ & Hxact).
    destruct (Hxact ltac:(unfold F32.prec; lia)) as (_ & Hes & Hvs).
    replace (xs <? 0) with false in Hns by (symmetry; apply Z.ltb_ge; lia).
    rewrite Z.abs_eq in Hvs by lia.
    exists ms, es. split; [exact Hns|]. split; [unfold F32.prec in *; lia|exact Hvs]. }
  destruct (Z.eq_dec (x - xs) 0) as [Ha0|Ha0].
  - (* a stroke of no extent on this axis *)
    rewrite Ha0. change (FP.of_int F32.prec F32.emax 0) with (S754_zero false).
    destruct Hnn as [-> _]. destruct Hni as [-> _]. cbn [SFdiv SFmul xorb].
    destruct HXS as [[-> ->]|(Hpos & ms & es & [-> _] & Hes & Hvs)].
    + cbn. lia.
    + cbn [SFadd]. rewrite to_int_finite.
      * cbn [cond_Zopp]. rewrite (Qfloor_comp _ _ Hvs), Qfloor_Z. lia.
      * rewrite (Qfloor_comp _ _ Hvs), Qfloor_Z. unfold Int32.max_signed. lia.
  - (* the general case *)
    set (a := x - xs) in *.
    assert (Hda : 1 <= digits (Z.abs a) <= 12).
    { split; [pose proof (digits_pos (Z.abs a)); lia|].
      apply digits_le_of_lt; unfold a; lia. }
    destruct (of_int_value F32.prec F32.emax Hp He a Ha0
                ltac:(unfold F32.emax; lia))
      as (ma & ea & Hna & _ & _ & Hxact).
    destruct (Hxact ltac:(unfold F32.prec; lia)) as (_ & Hea & Hva).
    (* the quotient *)
    assert (HX : (inject_Z (Z.abs a) / mag mn en * mag mn en == mag ma ea)%Q).
    { rewrite Hva. field. lra. }
    destruct (div_value F32.prec F32.emax Hp _ (a <? 0) ma ea _ false mn en _
                Hna Hnn ltac:(rewrite f32_emin; unfold F32.prec in *; lia)
                ltac:(unfold F32.prec, F32.emax in *; lia) HX)
      as (mq & eq & Hnq & Heq & Hvq).
    rewrite xorb_false_r in Hnq.
    (* the product *)
    destruct (mul_value F32.prec F32.emax Hp He _ (a <? 0) mq eq _ false mi ei
                Hnq Hni ltac:(rewrite f32_emin; unfold F32.prec in *; lia)
                ltac:(unfold F32.prec, F32.emax in *; lia))
      as (mp & ep & Hnp & Hep & Hvp & _).
    rewrite xorb_false_r in Hnp.
    rewrite f32_u in Hvq, Hvp.
    set (A := inject_Z (Z.abs a)) in *.
    assert (HA : (1 <= A <= 4095)%Q).
    { unfold A. split.
      - change 1%Q with (inject_Z 1). rewrite <- Zle_Qle. lia.
      - change 4095%Q with (inject_Z 4095). rewrite <- Zle_Qle. unfold a. lia. }
    pose proof (mag_pos mq eq) as Hmagq.
    pose proof (mag_pos mp ep) as Hmagp.
    assert (HW : (mag mq eq * mag mi ei <= A * (1 + u32))%Q).
    { assert (E : (A / mag mn en * mag mn en == A)%Q) by (field; lra).
      destruct Hvq as [_ Hq2].
      apply Qle_trans with (mag mq eq * mag mn en)%Q.
      - rewrite Hvi. rewrite !(Qmult_comm (mag mq eq)).
        apply Qmult_le_compat_r; [exact Hin|lra].
      - setoid_replace (A * (1 + u32))%Q
          with (A / mag mn en * (1 + u32) * mag mn en)%Q using relation Qeq
          by (rewrite <- E at 1; ring).
        apply Qmult_le_compat_r; [exact Hq2|lra]. }
    assert (HW0 : (0 < mag mq eq * mag mi ei)%Q).
    { apply Qmult_lt_0_compat; [exact Hmagq|apply mag_pos]. }
    assert (HP : (mag mp ep <= A + (1 # 1000))%Q).
    { revert HW HW0 Hvp. generalize (mag mq eq * mag mi ei)%Q (mag mp ep).
      intros W P HW HW0 HP. unfold u32 in *. lra. }
    clear HW HW0 Hvp Hvq HX.
    assert (Hval_p : (val (S754_finite (a <? 0) mp ep)
                      == if a <? 0 then - mag mp ep else mag mp ep)%Q)
      by reflexivity.
    destruct Hnp as [Hp_eq Hdp]. rewrite Hp_eq.
    assert (HxQ : (inject_Z x == inject_Z xs + inject_Z a)%Q).
    { rewrite <- inject_Z_plus. replace (xs + a) with x by (unfold a; lia).
      reflexivity. }
    assert (HAa : (A == if a <? 0 then - inject_Z a else inject_Z a)%Q).
    { unfold A. destruct (a <? 0) eqn:E.
      - apply Z.ltb_lt in E. rewrite Z.abs_neq by lia. rewrite inject_Z_opp. reflexivity.
      - apply Z.ltb_ge in E. rewrite Z.abs_eq by lia. reflexivity. }
    pose proof (inject_Z_bounds x 0 4095 Hx) as Hx0.
    pose proof (inject_Z_bounds xs 0 4095 Hxs) as Hxs0.
    change (inject_Z 0) with 0%Q in Hx0, Hxs0.
    change (inject_Z 4095) with 4095%Q in Hx0, Hxs0.
    assert (Hx1 : x = 0 \/ (1 <= inject_Z x)%Q).
    { destruct (Z.eq_dec x 0); [left; assumption|right].
      change 1%Q with (inject_Z 1). rewrite <- Zle_Qle. lia. }
    destruct HXS as [[Hxs0' ->]|(Hpos & ms & es & Hns & Hes & Hvs)].
    + (* from the left edge: the product itself is converted *)
      cbn [SFadd]. subst xs.
      assert (Hapos : (a <? 0) = false) by (apply Z.ltb_ge; unfold a; lia).
      rewrite Hapos in *.
      assert (Hxa : (inject_Z x == A)%Q) by (rewrite HxQ, HAa; ring).
      assert (Hfl : 0 - 1 <= Qfloor (mag mp ep) <= x).
      { apply floor_between; change (inject_Z 0) with 0%Q; lra. }
      rewrite to_int_finite by (unfold Int32.max_signed; lia).
      cbn [cond_Zopp].
      pose proof (floor_nonneg (mag mp ep) ltac:(lra)).
      lia.
    + (* the sum *)
      assert (Hxs1 : (1 <= inject_Z xs)%Q).
      { change 1%Q with (inject_Z 1). rewrite <- Zle_Qle. lia. }
      destruct (add_value F32.prec F32.emax Hp He _ false ms es _ (a <? 0) mp ep
                  Hns (conj eq_refl Hdp)
                  ltac:(rewrite f32_emin; unfold F32.prec in *; lia)
                  ltac:(unfold F32.prec, F32.emax in *; lia))
        as [[HT ->]|[(mr & er & [-> Hdr] & HT & Hvr)|(mr & er & [-> Hdr] & HT & Hvr)]].
      * (* the sum is zero *)
        cbn [FP.to_int]. destruct Hns as [Hns_eq _]. rewrite Hns_eq in HT.
        rewrite Hval_p in HT. cbn [val] in HT. rewrite Hvs in HT.
        destruct Hx1 as [->|Hx1]; [lia|]. exfalso.
        destruct (a <? 0); lra.
      * destruct Hns as [Hns_eq _]. rewrite Hns_eq in HT, Hvr.
        rewrite Hval_p in HT, Hvr. cbn [val] in HT, Hvr. rewrite Hvs in HT, Hvr.
        rewrite f32_u in Hvr.
        pose proof (mag_pos mr er) as Hmagr.
        assert (Hfl : Z.min xs x - 1 <= Qfloor (mag mr er) <= Z.max xs x).
        { destruct (a <? 0) eqn:Ea.
          - apply Z.ltb_lt in Ea.
            rewrite Z.min_r, Z.max_l by (unfold a in Ea; lia).
            apply floor_between.
            + destruct Hx1 as [->|Hx1]; [change (inject_Z 0) with 0%Q; lra|].
              revert HT Hvr. generalize (mag mr er). intros R HT Hvr.
              unfold u32 in *. lra.
            + revert HT Hvr. generalize (mag mr er). intros R HT Hvr.
              unfold u32 in *. lra.
          - apply Z.ltb_ge in Ea.
            rewrite Z.min_l, Z.max_r by (unfold a in Ea; lia).
            apply floor_between.
            + revert HT Hvr. generalize (mag mr er). intros R HT Hvr.
              unfold u32 in *. lra.
            + revert HT Hvr. generalize (mag mr er). intros R HT Hvr.
              unfold u32 in *. lra. }
        rewrite to_int_finite by (unfold Int32.max_signed; lia).
        cbn [cond_Zopp].
        pose proof (floor_nonneg (mag mr er) ltac:(lra)).
        lia.
      * destruct Hns as [Hns_eq _]. rewrite Hns_eq in HT, Hvr.
        rewrite Hval_p in HT, Hvr. cbn [val] in HT, Hvr. rewrite Hvs in HT, Hvr.
        rewrite f32_u in Hvr.
        destruct Hx1 as [Hx1|Hx1]; [|exfalso; destruct (a <? 0); lra].
        assert (HR : (mag mr er <= (1 # 100))%Q).
        { revert HT Hvr. generalize (mag mr er). intros R HT Hvr.
          rewrite Hx1 in HxQ. change (inject_Z 0) with 0%Q in HxQ.
          unfold u32 in *. destruct (a <? 0); lra. }
        assert (Hfl : 0 - 1 <= Qfloor (mag mr er) <= 0).
        { apply floor_between; change (inject_Z 0) with 0%Q;
            pose proof (mag_pos mr er); lra. }
        pose proof (floor_nonneg (mag mr er)
                      ltac:(pose proof (mag_pos mr er); lra)).
        rewrite to_int_finite by (unfold Int32.max_signed; lia).
        replace (Qfloor (mag mr er)) with 0 by lia.
        cbn [cond_Zopp]. lia.
Qed.

(** ** Strokes inside the device range *)

Lemma segments_le_max a b d : segments a b d <= Int32.max_signed.
Proof. unfold segments, F32.to_int. apply to_int_range. Qed.

(** The first [2^23] calls of a stroke between two points of the device
    range: each lies between the two ends, and is not negative. *)
Lemma stroke_calls_in_box x y c st j cl :
  0 <= x_start st <= 4095 -> 0 <= y_start st <= 4095 ->
  0 <= x <= 4095 -> 0 <= y <= 4095 ->
  stroke_calls x y c st !! j = Some cl -> (Z.of_nat j < 2 ^ 23) ->
  call_within (Z.min (x_start st) x) (Z.max (x_start st) x)
              (Z.min (y_start st) y) (Z.max (y_start st) y) cl /\
  0 <= fst (fst cl) /\ 0 <= snd (fst cl).
Proof.
  intros Hxs Hys Hx Hy Hl Hj. unfold stroke_calls in Hl. cbv zeta in Hl.
  destruct (0 <? c); [|rewrite lookup_nil in Hl; discriminate].
  rewrite !sub_in_range in Hl by assumption.
  change (map ?f ?l) with (f <$> l) in Hl.
  rewrite list_lookup_fmap in Hl.
  destruct (seqZ 1 _ !! j) as [i|] eqn:Hi; [|discriminate].
  apply lookup_seqZ in Hi. destruct Hi as [-> Hjn].
  cbn in Hl. injection Hl as <-.
  set (n := segments _ _ _) in *.
  pose proof (segments_le_max (F32.of_int (x - x_start st))
                (F32.of_int (y - y_start st)) (divider st)) as Hn.
  fold n in Hn.
  destruct (interpolate_in_box (x_start st) x n (1 + Z.of_nat j))
    as [Hbx Hx0]; try assumption; try lia.
  destruct (interpolate_in_box (y_start st) y n (1 + Z.of_nat j))
    as [Hby Hy0]; try assumption; try lia.
  unfold call_within. cbn [fst snd]. repeat split; lia.
Qed.

Lemma warnings_none x y : x <= 4095 -> y <= 4095 -> warnings x y = [].
Proof.
  intros Hx Hy. unfold warnings.
  replace (4095 <? x) with false by (symmetry; apply Z.ltb_ge; lia).
  replace (4095 <? y) with false by (symmetry; apply Z.ltb_ge; lia).
  reflexivity.
Qed.

Lemma concat_nil_Forall {A} (ls : list (list A)) :
  Forall (fun l => l = []) ls -> concat ls = [].
Proof. induction 1 as [|l ls -> _ IH]; [reflexivity|exact IH]. Qed.

Section Box.
Variables X0 X1 Y0 Y1 : Z.
Hypothesis HX : 0 <= X0 /\ X1 <= 4095.
Hypothesis HY : 0 <= Y0 /\ Y1 <= 4095.

(** The calls of a move that are not dropped, when the destination is in
    the box and the pen is too (for a blanked move the pen may be
    anywhere). *)
Lemma line_calls_within x y c st :
  buffer_ok st ->
  X0 <= x <= X1 -> Y0 <= y <= Y1 ->
  c <= 0 \/ (X0 <= x_start st <= X1 /\ Y0 <= y_start st <= Y1) ->
  Forall (fun cl => call_within X0 X1 Y0 Y1 cl /\
                    0 <= fst (fst cl) /\ 0 <= snd (fst cl))
         (take (Z.to_nat (MAX_POINTS - num_points st))
               (stroke_calls x y c st ++ dwell_calls x y c st)).
Proof.
  intros [_ Hn] Hx Hy Hpen. apply Forall_lookup. intros j cl Hl.
  apply lookup_take_Some in Hl. destruct Hl as [Hl Hj].
  apply lookup_app_Some in Hl. destruct Hl as [Hl|[_ Hl]].
  - destruct Hpen as [Hc|[Hpx Hpy]].
    + unfold stroke_calls in Hl. cbv zeta in Hl.
      replace (0 <? c) with false in Hl by (symmetry; apply Z.ltb_ge; lia).
      rewrite lookup_nil in Hl. discriminate.
    + destruct (stroke_calls_in_box x y c st j cl) as ([Hbx Hby] & H0x & H0y);
        try assumption; try lia.
      { unfold MAX_POINTS in *. lia. }
      unfold call_within. repeat split; lia.
  - unfold dwell_calls in Hl. apply lookup_replicate in Hl.
    destruct Hl as [-> _]. unfold call_within. cbn [fst snd].
    repeat split; lia.
Qed.

Lemma line_result_within x y c st :
  buffer_ok st ->
  X0 <= x <= X1 -> Y0 <= y <= Y1 ->
  c <= 0 \/ (X0 <= x_start st <= X1 /\ Y0 <= y_start st <= Y1) ->
  exists ps,
    frame (snd (line_result x y c st)) = frame st ++ ps /\
    Forall (point_within X0 X1 Y0 Y1) ps /\
    stderr (snd (line_result x y c st)) = stderr st.
Proof.
  intros Hok Hx Hy Hpen.
  destruct (line_result_frame x y c st Hok) as (Hf & _ & He).
  pose proof (line_calls_within x y c st Hok Hx Hy Hpen) as Hk.
  eexists. split; [exact Hf|]. split.
  - change (map ?f ?l) with (f <$> l). apply Forall_fmap.
    eapply Forall_impl; [exact Hk|].
    intros [[cx cy] cc] ([Hbx Hby] & H0x & H0y). cbn [fst snd] in *.
    unfold point_within, compose.
    destruct (call_point_xy cx cy cc) as [-> ->].
    rewrite (proj2 (proj2 (clip_cases cx))) by lia.
    rewrite (proj2 (proj2 (clip_cases cy))) by lia.
    split; assumption.
  - rewrite He. rewrite concat_nil_Forall; [apply app_nil_r|].
    change (map ?f ?l) with (f <$> l). apply Forall_fmap.
    eapply Forall_impl; [exact Hk|].
    intros [[cx cy] cc] ([Hbx Hby] & _). cbn [fst snd] in *.
    unfold compose, call_warnings. apply warnings_none; lia.
Qed.

(** A sequence of moves inside the box, the first of them blanked or else
    the pen inside the box at the start. *)
Lemma run_moves_within ms st :
  buffer_ok st ->
  Forall (move_within X0 X1 Y0 Y1) ms ->
  (X0 <= x_start st <= X1 /\ Y0 <= y_start st <= Y1) \/
  (exists m ms', ms = m :: ms' /\ mv_color m <= 0) \/ ms = [] ->
  exists ps,
    frame (run_moves ms st) = frame st ++ ps /\
    Forall (point_within X0 X1 Y0 Y1) ps /\
    stderr (run_moves ms st) = stderr st.
Proof.
  intros Hok Hms. revert st Hok.
  induction Hms as [|m ms [Hmx Hmy] Hms IH]; intros st Hok Hstart.
  - exists []. rewrite app_nil_r. repeat split; constructor.
  - cbn [run_moves fold_left].
    assert (Hpen : mv_color m <= 0 \/
                   (X0 <= x_start st <= X1 /\ Y0 <= y_start st <= Y1)).
    { destruct Hstart as [H|[(m' & ms' & E & Hc)|E]]; [right; exact H| |discriminate].
      injection E as -> _. left. exact Hc. }
    destruct (line_result_within (mv_x m) (mv_y m) (mv_color m) st Hok Hmx Hmy Hpen)
      as (ps1 & Hf1 & Hp1 & He1).
    pose proof (line_result_buffer_ok (mv_x m) (mv_y m) (mv_color m) st Hok) as Hok1.
    set (st1 := snd (line_result (mv_x m) (mv_y m) (mv_color m) st)) in *.
    assert (Hx1 : x_start st1 = mv_x m) by reflexivity.
    assert (Hy1 : y_start st1 = mv_y m) by reflexivity.
    destruct (IH st1 Hok1) as (ps2 & Hf2 & Hp2 & He2).
    { left. rewrite Hx1, Hy1. split; assumption. }
    exists (ps1 ++ ps2). fold (run_moves ms st1).
    rewrite Hf2, Hf1, He2, He1, app_assoc.
    split; [reflexivity|]. split; [|reflexivity].
    apply Forall_app. split; assumption.
Qed.

End Box.

(** A visible or blanked move between two points of the device range.
    Every point it appends lies between the pen and the destination on both
    axes, or one unit below the lower one, so that nothing is clipped and
    no warning is printed. *)
Theorem DrawLineTo_between_ends (x y c : Z) (st : state) :
  buffer_ok st ->
  0 <= x_start st <= 4095 -> 0 <= y_start st <= 4095 ->
  0 <= x <= 4095 -> 0 <= y <= 4095 ->
  exists r st' ps,
    DrawLineTo x y c st = Some (r, st') /\
    frame st' = frame st ++ ps /\
    stderr st' = stderr st /\
    Forall (point_within (Z.min (x_start st) x) (Z.max (x_start st) x)
                         (Z.min (y_start st) y) (Z.max (y_start st) y)) ps /\
    Forall (fun p => 0 <= pt_x p /\ 0 <= pt_y p) ps.
Proof.
  intros Hok Hxs Hys Hx Hy. rewrite DrawLineTo_spec by assumption.
  destruct (line_result_within (Z.min (x_start st) x) (Z.max (x_start st) x)
              (Z.min (y_start st) y) (Z.max (y_start st) y)
              ltac:(lia) ltac:(lia) x y c st Hok ltac:(lia) ltac:(lia)
              ltac:(right; lia))
    as (ps & Hf & Hp & He).
  pose proof (line_result_frame x y c st Hok) as (Hf' & _ & _).
  destruct (line_result x y c st) as [r st']. cbn [snd] in *.
  exists r, st', ps. split; [reflexivity|].
  do 3 (split; [assumption|]).
  rewrite Hf in Hf'. apply app_inv_head in Hf'. rewrite Hf'.
  change (map ?f ?l) with (f <$> l). apply Forall_fmap, Forall_forall.
  intros cl _. destruct (call_point_in_device cl) as [H1 H2].
  unfold compose. lia.
Qed.

Lemma DrawLineTo_between_ends_witness :
  let st := set_pen 4000 100 initial_state in
  exists r st' ps,
    DrawLineTo 7 3000 2 st = Some (r, st') /\
    frame st' = frame st ++ ps /\
    stderr st' = stderr st /\
    Forall (point_within (Z.min (x_start st) 7) (Z.max (x_start st) 7)
                         (Z.min (y_start st) 3000) (Z.max (y_start st) 3000)) ps /\
    Forall (fun p => 0 <= pt_x p /\ 0 <= pt_y p) ps.
Proof.
  apply (DrawLineTo_between_ends 7 3000 2 (set_pen 4000 100 initial_state));
    try (cbn; lia).
  buffer_ok_by_computation.
Defined.

(** ** The cell of a digit and the extent of the clock face *)

Lemma stroke_table_unit d :
  Forall (fun e => 0 <= snd (fst e) <= 1 /\ -2 <= snd e <= 0) (stroke_table d).
Proof.
  unfold stroke_table, blank, draw.
  destruct d as [|p|p]; [| |constructor];
    do 4 (try destruct p as [p|p|]);
    repeat constructor; cbn; lia.
Qed.

Lemma digit_moves_within d x y c s :
  0 <= s -> Forall (move_within x (x + s) (y - 2 * s) y) (digit_moves d x y c s).
Proof.
  intros Hs. unfold digit_moves.
  change (map ?f ?l) with (f <$> l). apply Forall_fmap.
  eapply Forall_impl; [apply stroke_table_unit|].
  intros [[v dx] dy] [Hdx Hdy]. cbn [fst snd] in *.
  unfold compose, place, move_within. cbn [mv_x mv_y]. nia.
Qed.

Lemma digit_moves_colors d x y c s :
  Forall (fun m => mv_color m = 0 \/ mv_color m = c) (digit_moves d x y c s).
Proof.
  unfold digit_moves. change (map ?f ?l) with (f <$> l). apply Forall_fmap.
  apply Forall_forall. intros [[[|] dx] dy] _; unfold compose, place; cbn; tauto.
Qed.

Lemma square_moves_within x y c s :
  0 <= s ->
  Forall (move_within (x - Z.quot s 2) (x - Z.quot s 2 + s)
                      (y - Z.quot s 2) (y - Z.quot s 2 + s))
         (square_moves x y c s).
Proof.
  intros Hs. unfold square_moves. cbv zeta.
  repeat constructor; cbn [mv_x mv_y]; lia.
Qed.

Lemma move_within_wider x0 x1 y0 y1 x0' x1' y0' y1' ms :
  x0' <= x0 -> x1 <= x1' -> y0' <= y0 -> y1 <= y1' ->
  Forall (move_within x0 x1 y0 y1) ms -> Forall (move_within x0' x1' y0' y1') ms.
Proof.
  intros H1 H2 H3 H4 H. eapply Forall_impl; [exact H|].
  intros m [Hx Hy]. unfold move_within. lia.
Qed.

Lemma starts_blank_app ms1 ms2 :
  ms1 = [] \/ starts_blank ms1 -> starts_blank ms2 -> starts_blank (ms1 ++ ms2).
Proof.
  intros [->|(m & ms' & -> & Hc)] H2; [exact H2|].
  exists m, (ms' ++ ms2). split; [reflexivity|exact Hc].
Qed.

Lemma program_starts_blank d x y c s :
  program d x y c s = [] \/ starts_blank (program d x y c s).
Proof.
  destruct (program_blank_first d x y c s) as [E|(a & b & ms & E)];
    [left; exact E|right].
  rewrite E. eexists _, _. split; reflexivity.
Qed.

(** Whatever the reading, the first pen move of a rebuild is blanked. *)
Lemma rebuild_program_starts_blank now st : starts_blank (rebuild_program now st).
Proof.
  unfold rebuild_program. cbv zeta.
  repeat (apply starts_blank_app; [apply program_starts_blank|]).
  eexists _, _. split; reflexivity.
Qed.

Section Fits.
Variable st : state.
Hypothesis Hs : 0 <= size st.
Hypothesis Hx0 : 0 <= xpos st.
Hypothesis Hx1 : xpos st + 11 * size st <= 4095.
Hypothesis Hy0 : 0 <= ypos st - 2 * size st.
Hypothesis Hy1 : ypos st <= 4095.

(** The pen moves of a rebuild stay inside the face: eleven sizes wide
    from the origin, two sizes high below it. *)
Lemma rebuild_program_within now :
  Forall (move_within (xpos st) (xpos st + 11 * size st)
                      (ypos st - 2 * size st) (ypos st))
         (rebuild_program now st).
Proof.
  assert (Bx : - 2 ^ 24 <= xpos st <= 2 ^ 24) by lia.
  assert (By : - 2 ^ 24 <= ypos st <= 2 ^ 24) by lia.
  assert (Bs : - 2 ^ 24 <= size st <= 2 ^ 24) by lia.
  unfold rebuild_program. cbv zeta.
  rewrite program_at_origin by assumption.
  rewrite !program_at_column by (assumption || lia).
  rewrite lower_row, upper_row, left_colon, right_colon by assumption.
  rewrite (tenth_size (size st)) by assumption.
  pose proof (quot_bound (size st) Bs 2 ltac:(lia)) as Hh2.
  pose proof (quot_bound (size st) Bs 10 ltac:(lia)) as Hh10.
  assert (H7 : - 2 ^ 26 <= Z.quot (7 * size st) 2 <= 2 ^ 26)
    by (Z.quot_rem_to_equations; lia).
  assert (H15 : - 2 ^ 27 <= Z.quot (15 * size st) 2 <= 2 ^ 27)
    by (Z.quot_rem_to_equations; lia).
  rewrite !square_program_moves by lia.
  assert (Ht : 0 <= Z.quot (size st) 10) by (apply Z.quot_pos; lia).
  repeat (apply Forall_app; split);
    try (eapply move_within_wider;
         [| | | |apply digit_moves_within; exact Hs]; lia);
    (eapply move_within_wider;
     [| | | |apply square_moves_within; exact Ht];
     Z.quot_rem_to_equations; lia).
Qed.

End Fits.

(** ** What a rebuild always does *)

Lemma frame_clear st : frame (set_num_points 0 st) = [].
Proof. reflexivity. Qed.

Lemma line_result_in_device x y c st :
  buffer_ok st -> Forall in_device (frame st) ->
  Forall in_device (frame (snd (line_result x y c st))).
Proof.
  intros Hok H. destruct (line_result_frame x y c st Hok) as (-> & _ & _).
  apply Forall_app. split; [exact H|].
  apply Forall_forall. intros p Hp. apply list_elem_of_fmap in Hp.
  destruct Hp as (cl & -> & _). apply call_point_in_device.
Qed.

Lemma run_moves_in_device ms st :
  buffer_ok st -> Forall in_device (frame st) ->
  Forall in_device (frame (run_moves ms st)).
Proof.
  revert st. induction ms as [|m ms IH]; intros st Hok H; [exact H|].
  cbn [run_moves fold_left]. apply IH.
  - apply line_result_buffer_ok, Hok.
  - apply line_result_in_device; assumption.
Qed.

Lemma frame_length st : buffer_ok st -> Z.of_nat (length (frame st)) = num_points st.
Proof.
  intros [Hl Hn]. unfold frame. rewrite length_take. lia.
Qed.

(** Whatever the reading of the clock and whatever the layout, a rebuild
    runs to its end without a store outside the array.  It leaves the
    layout parameters as they were, and the frame it makes has at most
    [MAX_POINTS] points, every one of them in the device range. *)
Theorem rebuild_always_sound (now : tm) (st : state) :
  buffer_ok st ->
  exists st',
    rebuild now st = Some (tt, st') /\
    buffer_ok st' /\
    config st' = config st /\
    Z.of_nat (length (frame st')) = num_points st' /\
    num_points st' <= MAX_POINTS /\
    Forall in_device (frame st').
Proof.
  intros Hok. rewrite rebuild_run by assumption.
  pose proof (buffer_ok_clear st Hok) as H0.
  pose proof (run_moves_buffer_ok (rebuild_program now st) _ H0) as H1.
  eexists. split; [reflexivity|]. split; [exact H1|]. split.
  { rewrite run_moves_config. reflexivity. }
  split; [apply frame_length, H1|]. split; [apply H1|].
  apply run_moves_in_device; [exact H0|]. rewrite frame_clear. constructor.
Qed.

Lemma rebuild_always_sound_witness :
  exists st',
    rebuild (mkTm 2024 1 1 23 59 60)
            (set_buffer (vector_list initial_state) 9000
                        (set_pen (-5) 70000 initial_state))
    = Some (tt, st') /\
    buffer_ok st' /\
    config st' = config (set_buffer (vector_list initial_state) 9000
                                    (set_pen (-5) 70000 initial_state)) /\
    Z.of_nat (length (frame st')) = num_points st' /\
    num_points st' <= MAX_POINTS /\
    Forall in_device (frame st').
Proof.
  apply (rebuild_always_sound (mkTm 2024 1 1 23 59 60)
           (set_buffer (vector_list initial_state) 9000
                       (set_pen (-5) 70000 initial_state))).
  buffer_ok_by_computation.
Defined.

(** When the face fits the device range (its origin and its far corner,
    eleven sizes to the right and two sizes below, are both in it), a
    rebuild prints no clipping warning and clips nothing, whatever the
    reading and wherever the pen was: every point of the frame lies inside
    the face, at most one unit below or left of it. *)
Theorem rebuild_inside_face (now : tm) (st : state) :
  buffer_ok st ->
  0 <= size st -> 0 <= xpos st -> xpos st + 11 * size st <= 4095 ->
  0 <= ypos st - 2 * size st -> ypos st <= 4095 ->
  exists st',
    rebuild now st = Some (tt, st') /\
    stderr st' = stderr st /\
    Forall (point_within (xpos st) (xpos st + 11 * size st)
                         (ypos st - 2 * size st) (ypos st)) (frame st').
Proof.
  intros Hok Hs Hx0 Hx1 Hy0 Hy1. rewrite rebuild_run by assumption.
  pose proof (buffer_ok_clear st Hok) as H0.
  destruct (run_moves_within (xpos st) (xpos st + 11 * size st)
              (ypos st - 2 * size st) (ypos st) ltac:(lia) ltac:(lia)
              (rebuild_program now st) (set_num_points 0 st) H0
              (rebuild_program_within st Hs Hx0 Hx1 Hy0 Hy1 now))
    as (ps & Hf & Hp & He).
  { right. left. destruct (rebuild_program_starts_blank now st)
      as (m & ms & E & Hc).
    exists m, ms. split; [exact E|lia]. }
  eexists. split; [reflexivity|]. split; [exact He|].
  rewrite Hf, frame_clear. exact Hp.
Qed.

Lemma rebuild_inside_face_witness :
  exists st',
    rebuild (mkTm 2024 1 1 23 59 58) (set_pen 9000 (-4) initial_state)
    = Some (tt, st') /\
    stderr st' = stderr (set_pen 9000 (-4) initial_state) /\
    Forall (point_within 0 (0 + 11 * 250) (2000 - 2 * 250) 2000) (frame st').
Proof.
  apply (rebuild_inside_face (mkTm 2024 1 1 23 59 58)
           (set_pen 9000 (-4) initial_state));
    try (cbn; lia).
  buffer_ok_by_computation.
Defined.

(** Two rebuilds for the same reading under the same layout end alike. *)
Lemma rebuild_program_same_frame now st1 st2 :
  buffer_ok st1 -> buffer_ok st2 -> config st1 = config st2 ->
  same_frame (run_moves (rebuild_program now st1) (set_num_points 0 st1))
             (run_moves (rebuild_program now st2) (set_num_points 0 st2)).
Proof.
  intros Hok1 Hok2 Hc.
  assert (Hprog : rebuild_program now st1 = rebuild_program now st2).
  { unfold rebuild_program. injection Hc as -> -> -> -> _ _ _. reflexivity. }
  rewrite Hprog.
  destruct (rebuild_program_starts_blank now st2) as (m & ms & -> & Hm).
  cbn [run_moves fold_left]. rewrite Hm.
  pose proof (buffer_ok_clear st1 Hok1) as H1.
  pose proof (buffer_ok_clear st2 Hok2) as H2.
  apply run_moves_same_frame; try (apply line_result_buffer_ok; assumption).
  apply blank_move_same_frame; try assumption; reflexivity.
Qed.

(** The frame a rebuild makes is decided by the reading and the layout
    parameters alone: neither the frame that was in the buffer nor the place
    where the pen was left has any part in it. *)
Theorem rebuild_frame_layout_only (now : tm) (st1 st2 : state) :
  buffer_ok st1 -> buffer_ok st2 -> config st1 = config st2 ->
  exists st1' st2',
    rebuild now st1 = Some (tt, st1') /\
    rebuild now st2 = Some (tt, st2') /\
    frame st1' = frame st2' /\ pen st1' = pen st2'.
Proof.
  intros Hok1 Hok2 Hc. rewrite !rebuild_run by assumption.
  eexists _, _. split; [reflexivity|]. split; [reflexivity|].
  destruct (rebuild_program_same_frame now st1 st2 Hok1 Hok2 Hc)
    as (Hf & _ & Hp & _).
  split; [exact Hf|exact Hp].
Qed.

Lemma rebuild_frame_layout_only_witness :
  exists st1' st2',
    rebuild (mkTm 2024 1 1 12 34 56) initial_state = Some (tt, st1') /\
    rebuild (mkTm 2024 1 1 12 34 56)
            (set_buffer (vector_list initial_state) 777
                        (set_pen 4000 (-20) initial_state))
    = Some (tt, st2') /\
    frame st1' = frame st2' /\ pen st1' = pen st2'.
Proof.
  apply (rebuild_frame_layout_only (mkTm 2024 1 1 12 34 56) initial_state
           (set_buffer (vector_list initial_state) 777
                       (set_pen 4000 (-20) initial_state))).
  - buffer_ok_by_computation.
  - buffer_ok_by_computation.
  - reflexivity.
Defined.

(** ** What the loop writes *)

Lemma last_rebuilt_app tr e :
  last_rebuilt (tr ++ [e]) =
    match e with Ev_rebuild now => Some now | _ => last_rebuilt tr end.
Proof. unfold last_rebuilt. rewrite fold_left_app. reflexivity. Qed.

Lemma snoc_split {A} (tr tr1 tr2 : list A) (e w : A) :
  tr ++ [e] = tr1 ++ w :: tr2 ->
  (tr2 = [] /\ tr = tr1 /\ e = w) \/
  (exists tr2', tr2 = tr2' ++ [e] /\ tr = tr1 ++ w :: tr2').
Proof.
  intros H. destruct tr2 as [|a tr2 _] using rev_ind.
  - left. apply app_inj_tail in H. destruct H as [-> ->]. repeat split.
  - right. exists tr2.
    change (tr1 ++ w :: tr2 ++ [a]) with (tr1 ++ (w :: tr2) ++ [a]) in H.
    rewrite app_assoc in H. apply app_inj_tail in H. destruct H as [-> ->].
    split; reflexivity.
Qed.

Lemma writes_rebuilt_nil st : writes_rebuilt st [].
Proof. intros [|? ?] tr2 pps pts H; discriminate H. Qed.

Lemma writes_rebuilt_other st tr e :
  writes_rebuilt st tr -> is_write e = false -> writes_rebuilt st (tr ++ [e]).
Proof.
  intros H He tr1 tr2 pps pts E.
  apply snoc_split in E. destruct E as [(_ & _ & ->)|(tr2' & _ & ->)].
  - discriminate He.
  - eapply H. reflexivity.
Qed.

Lemma writes_rebuilt_write st tr now :
  writes_rebuilt st tr -> last_rebuilt tr = Some now ->
  writes_rebuilt st (tr ++ [Ev_write POINTS_PER_SECOND (rebuilt_frame now st)]).
Proof.
  intros H Hl tr1 tr2 pps pts E.
  apply snoc_split in E. destruct E as [(_ & -> & E)|(tr2' & _ & ->)].
  - injection E as <- <-. split; [reflexivity|]. exists now. split; [exact Hl|reflexivity].
  - eapply H. reflexivity.
Qed.

Lemma rebuilt_frame_run now st :
  buffer_ok st ->
  rebuilt_frame now st
  = frame (run_moves (rebuild_program now st) (set_num_points 0 st)).
Proof. intros Hok. unfold rebuilt_frame. rewrite rebuild_run by assumption. reflexivity. Qed.

Lemma rebuilt_frame_config now st1 st2 :
  buffer_ok st1 -> buffer_ok st2 -> config st1 = config st2 ->
  rebuilt_frame now st1 = rebuilt_frame now st2.
Proof.
  intros H1 H2 Hc. rewrite !rebuilt_frame_run by assumption.
  apply (rebuild_program_same_frame now st1 st2 H1 H2 Hc).
Qed.

Section Writes.
Variable clock : nat -> tm.
Variable status : nat -> Z.
Variable st : state.
Hypothesis Hst : buffer_ok st.

Lemma write_inv_boot : write_inv st (boot st).
Proof.
  split; [exact Hst|]. split; [reflexivity|]. split; [apply writes_rebuilt_nil|].
  intros H. exfalso. apply H. reflexivity.
Qed.

Lemma write_inv_step m :
  write_inv st m -> exists m', step clock status m = Some m' /\ write_inv st m'.
Proof.
  intros (Hok & Hc & Hw & Hf). unfold step. destruct (pc m) eqn:Hpc.
  - unfold bind at 1. rewrite rebuild_run by assumption. unfold modify.
    eexists. split; [reflexivity|].
    pose proof (run_moves_buffer_ok (rebuild_program (clock (reads m)) (globals m))
                  _ (buffer_ok_clear _ Hok)) as Hok'.
    split; [exact Hok'|]. split.
    { cbn [globals]. change (config (fprintf_stderr ?l ?s)) with (config s).
      rewrite run_moves_config. exact Hc. }
    cbn [trace pc globals]. split.
    + change (trace m ++ [Ev_time (clock (reads m)); Ev_rebuild (clock (reads m))])
        with (trace m ++ [Ev_time (clock (reads m))] ++ [Ev_rebuild (clock (reads m))]).
      rewrite app_assoc. do 2 (apply writes_rebuilt_other; [|reflexivity]). exact Hw.
    + intros _. exists (clock (reads m)). split.
      * change (trace m ++ [Ev_time (clock (reads m)); Ev_rebuild (clock (reads m))])
          with (trace m ++ [Ev_time (clock (reads m))] ++ [Ev_rebuild (clock (reads m))]).
        rewrite app_assoc. apply last_rebuilt_app.
      * change (frame (fprintf_stderr ?l ?s)) with (frame s).
        rewrite <- rebuilt_frame_run by assumption.
        apply rebuilt_frame_config; assumption.
  - eexists. split; [reflexivity|]. split; [exact Hok|]. split; [exact Hc|].
    cbn [trace pc globals]. split; [exact Hw|]. intros _. apply Hf. congruence.
  - eexists. split; [reflexivity|]. split; [exact Hok|]. split; [exact Hc|].
    cbn [trace pc globals]. split; [apply writes_rebuilt_other; [exact Hw|reflexivity]|].
    intros _. rewrite last_rebuilt_app. apply Hf. congruence.
  - eexists. split; [reflexivity|]. split; [exact Hok|]. split; [exact Hc|].
    cbn [trace pc globals]. split; [apply writes_rebuilt_other; [exact Hw|reflexivity]|].
    intros _. rewrite last_rebuilt_app. apply Hf. congruence.
  - destruct (Hf ltac:(congruence)) as (now & Hl & Hfr).
    eexists. split; [reflexivity|]. split; [exact Hok|]. split; [exact Hc|].
    cbn [trace pc globals]. rewrite Hfr. split.
    + apply writes_rebuilt_write; assumption.
    + intros _. exists now. rewrite last_rebuilt_app. split; [exact Hl|reflexivity].
Qed.

Lemma write_inv_run n m :
  write_inv st m -> exists m', run clock status n m = Some m' /\ write_inv st m'.
Proof.
  revert m. induction n as [|n IH]; intros m Hm.
  - exists m. split; [reflexivity|exact Hm].
  - cbn [run]. destruct (write_inv_step m Hm) as (m1 & -> & H1). apply IH, H1.
Qed.

End Writes.

(** What the device is sent.  However the clock and the device behave and
    however long the loop runs, the layout parameters stay as they were
    when the loop began, and every frame written is sent at
    [POINTS_PER_SECOND] and is exactly the frame of the most recent
    rebuild: the one that the reading of that rebuild and the layout
    decide. *)
Theorem writes_carry_rebuilt_frame (clock : nat -> tm) (status : nat -> Z)
    (st : state) (n : nat) :
  buffer_ok st ->
  exists m,
    run clock status n (boot st) = Some m /\
    config (globals m) = config st /\
    forall tr1 tr2 pps pts,
      trace m = tr1 ++ Ev_write pps pts :: tr2 ->
      pps = POINTS_PER_SECOND /\
      exists now, last_rebuilt tr1 = Some now /\ pts = rebuilt_frame now st.
Proof.
  intros Hok.
  destruct (write_inv_run clock status st Hok n (boot st) (write_inv_boot st Hok))
    as (m & Hrun & _ & Hc & Hw & _).
  exists m. split; [exact Hrun|]. split; [exact Hc|exact Hw].
Qed.

Lemma writes_carry_rebuilt_frame_witness :
  exists m,
    run (ticking 0) always_ready 12 (boot initial_state) = Some m /\
    config (globals m) = config initial_state /\
    forall tr1 tr2 pps pts,
      trace m = tr1 ++ Ev_write pps pts :: tr2 ->
      pps = POINTS_PER_SECOND /\
      exists now, last_rebuilt tr1 = Some now /\
                  pts = rebuilt_frame now initial_state.
Proof.
  apply (writes_carry_rebuilt_frame (ticking 0) always_ready initial_state 12).
  buffer_ok_by_computation.
Defined.

(** ** A device that is never ready, a clock that stands still *)

Lemma poll_forever clock status n m :
  (forall k, status k = 0) -> pc m = At_poll ->
  run clock status n m =
    Some (mkMachine At_poll (globals m) (tm_now m) (seconds m) (reads m)
                    (polls m + n) (trace m ++ replicate n (Ev_status 0))).
Proof.
  intros Hs. revert m. induction n as [|n IH]; intros m Hpc.
  - cbn [run replicate]. rewrite app_nil_r, Nat.add_0_r.
    destruct m; cbn in *; subst; reflexivity.
  - cbn [run]. unfold step. rewrite Hpc, Hs. cbn [Z.eqb].
    rewrite IH by reflexivity. cbn [globals tm_now seconds reads polls trace].
    rewrite <- app_assoc. cbn [app replicate].
    replace (S (polls m) + n)%nat with (polls m + S n)%nat by lia.
    reflexivity.
Qed.

(** A device that never reports ready.  The loop draws one frame, reads
    the clock once more and then polls for ever: after the first three
    steps every step is a poll, nothing is written, and the clock is not
    read again, so that the frame is never redrawn either. *)
Theorem device_never_ready (clock : nat -> tm) (status : nat -> Z)
    (st : state) (n : nat) :
  buffer_ok st -> (forall k, status k = 0) ->
  exists m,
    run clock status (3 + n) (boot st) = Some m /\
    pc m = At_poll /\ reads m = 2%nat /\ polls m = n /\
    trace m = [Ev_time (clock 0%nat); Ev_rebuild (clock 0%nat);
               Ev_time (clock 1%nat)] ++ replicate n (Ev_status 0).
Proof.
  intros Hok Hs. rewrite run_add.
  cbn [run]. unfold step at 1. cbn [pc boot globals reads polls trace].
  unfold bind at 1. rewrite rebuild_run by assumption. unfold modify.
  unfold step at 1. cbn [pc tm_now seconds]. rewrite Z.eqb_refl.
  unfold step at 1. cbn [pc globals tm_now seconds reads polls trace].
  rewrite poll_forever by (assumption || reflexivity).
  eexists. split; [reflexivity|]. cbn [pc reads polls trace].
  repeat split.
Qed.

Lemma device_never_ready_witness :
  exists m,
    run (ticking 0) (fun _ => 0) (3 + 5) (boot initial_state) = Some m /\
    pc m = At_poll /\ reads m = 2%nat /\ polls m = 5%nat /\
    trace m = [Ev_time (ticking 0 0); Ev_rebuild (ticking 0 0);
               Ev_time (ticking 0 1)] ++ replicate 5 (Ev_status 0).
Proof.
  apply (device_never_ready (ticking 0) (fun _ => 0) initial_state 5).
  - buffer_ok_by_computation.
  - reflexivity.
Defined.

Lemma rebuilt_times_app tr1 tr2 :
  rebuilt_times (tr1 ++ tr2) = rebuilt_times tr1 ++ rebuilt_times tr2.
Proof.
  induction tr1 as [|e tr1 IH]; [reflexivity|].
  destruct e; cbn [app rebuilt_times]; rewrite IH; reflexivity.
Qed.

Section SameSecond.
Variable clock : nat -> tm.
Variable status : nat -> Z.
Hypothesis Hsec : forall k, tm_sec (clock k) = tm_sec (clock 0%nat).

Lemma same_second_step m :
  pc m <> At_outer -> seconds m = tm_sec (clock 0%nat) ->
  tm_sec (tm_now m) = tm_sec (clock 0%nat) ->
  exists m', step clock status m = Some m' /\
    pc m' <> At_outer /\ seconds m' = tm_sec (clock 0%nat) /\
    tm_sec (tm_now m') = tm_sec (clock 0%nat) /\
    rebuilt_times (trace m') = rebuilt_times (trace m).
Proof.
  intros Hpc Hs Hn. unfold step. destruct (pc m) eqn:E; [congruence|..].
  - rewrite Hn, Hs, Z.eqb_refl. eexists. split; [reflexivity|].
    cbn. repeat split; try assumption; try congruence.
  - eexists. split; [reflexivity|]. cbn [pc seconds tm_now trace].
    rewrite rebuilt_times_app, app_nil_r.
    repeat split; try assumption; try congruence; try apply Hsec.
  - eexists. split; [reflexivity|]. cbn [pc seconds tm_now trace].
    rewrite rebuilt_times_app, app_nil_r.
    repeat split; try assumption; try (destruct (status (polls m) =? 0); congruence).
  - eexists. split; [reflexivity|]. cbn [pc seconds tm_now trace].
    rewrite rebuilt_times_app, app_nil_r.
    repeat split; try assumption; try congruence.
Qed.

Lemma same_second_run n m :
  pc m <> At_outer -> seconds m = tm_sec (clock 0%nat) ->
  tm_sec (tm_now m) = tm_sec (clock 0%nat) ->
  exists m', run clock status n m = Some m' /\
    pc m' <> At_outer /\ rebuilt_times (trace m') = rebuilt_times (trace m).
Proof.
  revert m. induction n as [|n IH]; intros m Hpc Hs Hn.
  - exists m. repeat split; assumption.
  - cbn [run].
    destruct (same_second_step m Hpc Hs Hn) as (m1 & -> & H1 & H2 & H3 & H4).
    destruct (IH m1 H1 H2 H3) as (m' & Hr & Hp & Ht).
    exists m'. split; [exact Hr|]. split; [exact Hp|]. congruence.
Qed.

End SameSecond.

(** The loop looks at the second field of the clock and at nothing else.
    As long as every reading shows the second value of the first one, be it
    because the clock stands still or because it jumps by whole minutes, the
    frame drawn for the first reading is the only one ever drawn. *)
Theorem same_second_never_redrawn (clock : nat -> tm) (status : nat -> Z)
    (st : state) (n : nat) :
  buffer_ok st ->
  (forall k, tm_sec (clock k) = tm_sec (clock 0%nat)) ->
  exists m,
    run clock status (S n) (boot st) = Some m /\
    rebuilt_times (trace m) = [clock 0%nat] /\
    pc m <> At_outer.
Proof.
  intros Hok Hsec. cbn [run]. unfold step at 1. cbn [pc boot globals reads].
  unfold bind at 1. rewrite rebuild_run by assumption. unfold modify.
  match goal with |- context [run _ _ n ?m0] =>
    destruct (same_second_run clock status Hsec n m0) as (m & Hr & Hp & Ht);
      [cbn; congruence|reflexivity|reflexivity|]
  end.
  exists m. split; [exact Hr|]. split; [rewrite Ht; reflexivity|exact Hp].
Qed.

Lemma same_second_never_redrawn_witness :
  exists m,
    run (fun k => mkTm 117 0 28 12 (Z.of_nat k) 30) always_ready 40
        (boot initial_state) = Some m /\
    rebuilt_times (trace m) = [mkTm 117 0 28 12 0 30] /\
    pc m <> At_outer.
Proof.
  apply (same_second_never_redrawn
           (fun k => mkTm 117 0 28 12 (Z.of_nat k) 30) always_ready
           initial_state 39).
  - buffer_ok_by_computation.
  - reflexivity.
Defined.

(** ** The diagnostic stream of the loop *)

Lemma rebuild_quiet now st :
  buffer_ok st ->
  0 <= size st -> 0 <= xpos st -> xpos st + 11 * size st <= 4095 ->
  0 <= ypos st - 2 * size st -> ypos st <= 4095 ->
  stderr (run_moves (rebuild_program now st) (set_num_points 0 st)) = stderr st.
Proof.
  intros Hok Hs Hx0 Hx1 Hy0 Hy1.
  destruct (run_moves_within (xpos st) (xpos st + 11 * size st)
              (ypos st - 2 * size st) (ypos st) ltac:(lia) ltac:(lia)
              (rebuild_program now st) (set_num_points 0 st)
              (buffer_ok_clear st Hok)
              (rebuild_program_within st Hs Hx0 Hx1 Hy0 Hy1 now))
    as (ps & _ & _ & He); [|exact He].
  right. left. destruct (rebuild_program_starts_blank now st)
    as (m & ms & E & Hc).
  exists m, ms. split; [exact E|lia].
Qed.

Section Diagnostics.
Variable clock : nat -> tm.
Variable status : nat -> Z.
Variable st : state.
Hypothesis Hs : 0 <= size st.
Hypothesis Hx0 : 0 <= xpos st.
Hypothesis Hx1 : xpos st + 11 * size st <= 4095.
Hypothesis Hy0 : 0 <= ypos st - 2 * size st.
Hypothesis Hy1 : ypos st <= 4095.

Lemma diagnostics_step m :
  buffer_ok (globals m) -> config (globals m) = config st ->
  stderr (globals m) = stderr st ++ map now_line (rebuilt_times (trace m)) ->
  exists m', step clock status m = Some m' /\
    buffer_ok (globals m') /\ config (globals m') = config st /\
    stderr (globals m') = stderr st ++ map now_line (rebuilt_times (trace m')).
Proof.
  intros Hok Hc He. unfold step. destruct (pc m) eqn:Hpc.
  - unfold bind at 1. rewrite rebuild_run by assumption. unfold modify.
    eexists. split; [reflexivity|].
    pose proof (run_moves_buffer_ok (rebuild_program (clock (reads m)) (globals m))
                  _ (buffer_ok_clear _ Hok)) as Hok'.
    split; [exact Hok'|]. split.
    { cbn [globals]. change (config (fprintf_stderr ?l ?s)) with (config s).
      rewrite run_moves_config. exact Hc. }
    cbn [globals trace].
    change (stderr (fprintf_stderr ?l ?s)) with (stderr s ++ [l]).
    injection Hc as Ex Ey Es _ _ _ _.
    rewrite rebuild_quiet by (assumption || lia).
    rewrite rebuilt_times_app. cbn [rebuilt_times].
    rewrite map_app. cbn [map]. rewrite He, <- app_assoc. reflexivity.
  - eexists. split; [reflexivity|]. cbn [globals trace].
    split; [exact Hok|]. split; [exact Hc|exact He].
  - eexists. split; [reflexivity|]. cbn [globals trace].
    rewrite rebuilt_times_app, app_nil_r.
    split; [exact Hok|]. split; [exact Hc|exact He].
  - eexists. split; [reflexivity|]. cbn [globals trace].
    rewrite rebuilt_times_app, app_nil_r.
    split; [exact Hok|]. split; [exact Hc|exact He].
  - eexists. split; [reflexivity|]. cbn [globals trace].
    rewrite rebuilt_times_app, app_nil_r.
    split; [exact Hok|]. split; [exact Hc|exact He].
Qed.

Lemma diagnostics_run n m :
  buffer_ok (globals m) -> config (globals m) = config st ->
  stderr (globals m) = stderr st ++ map now_line (rebuilt_times (trace m)) ->
  exists m', run clock status n m = Some m' /\
    stderr (globals m') = stderr st ++ map now_line (rebuilt_times (trace m')).
Proof.
  revert m. induction n as [|n IH]; intros m Hok Hc He.
  - exists m. split; [reflexivity|exact He].
  - cbn [run].
    destruct (diagnostics_step m Hok Hc He) as (m1 & -> & H1 & H2 & H3).
    apply IH; assumption.
Qed.

End Diagnostics.

(** When the face fits the device range, the loop prints one line per
    rebuild, the [now:] line of its reading, and nothing else: no clipping
    warning ever appears, however long the loop runs. *)
Theorem diagnostics_when_face_fits (clock : nat -> tm) (status : nat -> Z)
    (st : state) (n : nat) :
  buffer_ok st ->
  0 <= size st -> 0 <= xpos st -> xpos st + 11 * size st <= 4095 ->
  0 <= ypos st - 2 * size st -> ypos st <= 4095 ->
  exists m,
    run clock status n (boot st) = Some m /\
    stderr (globals m) = stderr st ++ map now_line (rebuilt_times (trace m)).
Proof.
  intros Hok Hs Hx0 Hx1 Hy0 Hy1.
  apply (diagnostics_run clock status st Hs Hx0 Hx1 Hy0 Hy1 n (boot st)).
  - exact Hok.
  - reflexivity.
  - cbn. rewrite app_nil_r. reflexivity.
Qed.

Lemma diagnostics_when_face_fits_witness :
  exists m,
    run (ticking 86399) always_ready 20 (boot initial_state) = Some m /\
    stderr (globals m)
    = stderr initial_state ++ map now_line (rebuilt_times (trace m)).
Proof.
  apply (diagnostics_when_face_fits (ticking 86399) always_ready
           initial_state 20);
    try (cbn; lia).
  buffer_ok_by_computation.
Defined.

Lemma refresh_loop_round_witness :
  exists m',
    run (ticking 0) always_ready 6 (boot initial_state) = Some m' /\
    pc m' = At_outer /\ buffer_ok (globals m') /\
    reads m' = (reads (boot initial_state) + 2)%nat /\
    trace m' =
      trace (boot initial_state)
      ++ [Ev_time (ticking 0 (reads (boot initial_state)));
          Ev_rebuild (ticking 0 (reads (boot initial_state)));
          Ev_time (ticking 0 (reads (boot initial_state) + 1));
          Ev_status (always_ready (polls (boot initial_state)));
          Ev_write POINTS_PER_SECOND (frame (globals m'))].
Proof.
  apply (refresh_loop_round 0 always_ready (boot initial_state)).
  - intros k. discriminate.
  - reflexivity.
  - buffer_ok_by_computation.
Defined.

(** ** The shapes on their own *)

(** The cell of a digit.  With a size that is not negative (and offsets
    that an [int] can hold), every pen move of [DrawDigit], for whatever
    value of the digit, ends inside the cell one size wide and two sizes
    high whose top left corner is the origin, and is either blanked or of
    the color asked for. *)
Theorem DrawDigit_stays_in_cell (d x y c s : Z) (st : state) :
  buffer_ok st -> 0 <= s ->
  Int32.in_range (x + s) -> Int32.in_range (2 * s) ->
  Int32.in_range (y - s) -> Int32.in_range (y - 2 * s) ->
  exists st' ms,
    DrawDigit d x y c s st = Some (0, st') /\
    pen_moves st' = pen_moves st ++ ms /\
    Forall (move_within x (x + s) (y - 2 * s) y) ms /\
    Forall (fun m => mv_color m = 0 \/ mv_color m = c) ms.
Proof.
  intros Hok Hs Hxs H2s Hys Hy2s.
  rewrite DrawDigit_run by assumption.
  rewrite program_stroke_table by assumption.
  eexists _, (digit_moves d x y c s). split; [reflexivity|].
  split; [apply run_moves_pen_moves|].
  split; [apply digit_moves_within, Hs|apply digit_moves_colors].
Qed.

Lemma DrawDigit_stays_in_cell_witness :
  exists st' ms,
    DrawDigit 8 500 2000 3 250 initial_state = Some (0, st') /\
    pen_moves st' = pen_moves initial_state ++ ms /\
    Forall (move_within 500 (500 + 250) (2000 - 2 * 250) 2000) ms /\
    Forall (fun m => mv_color m = 0 \/ mv_color m = 3) ms.
Proof.
  apply (DrawDigit_stays_in_cell 8 500 2000 3 250 initial_state);
    try (vm_compute; split; discriminate); try lia.
  buffer_ok_by_computation.
Defined.

(** The outline of [DrawSquare].  A blanked move to one corner, then four
    moves in the color asked for along the sides, the last of them back to
    that corner, where the pen is left.  The sides have the length [size];
    the corner is [size / 2] (cut toward zero) away from [(x, y)] on both
    axes, so that the middle of the outline is [(x, y)] for an even size
    and half a unit off on both axes for an odd one. *)
Theorem DrawSquare_outline (x y c s : Z) (st : state) :
  let h := Z.quot s 2 in
  buffer_ok st ->
  - 2 ^ 28 <= x <= 2 ^ 28 -> - 2 ^ 28 <= y <= 2 ^ 28 ->
  - 2 ^ 24 <= s <= 2 ^ 24 ->
  exists st',
    DrawSquare x y c s st = Some (0, st') /\
    pen_moves st' =
      pen_moves st ++ [mkMove (x - h) (y - h) 0;
                       mkMove (x - h + s) (y - h) c;
                       mkMove (x - h + s) (y - h + s) c;
                       mkMove (x - h) (y - h + s) c;
                       mkMove (x - h) (y - h) c] /\
    pen st' = (x - h, y - h) /\
    (x - h) + (x - h + s) = 2 * x + Z.rem s 2 /\
    (y - h) + (y - h + s) = 2 * y + Z.rem s 2.
Proof.
  intros h Hok Hx Hy Hs.
  rewrite DrawSquare_run by assumption.
  rewrite square_program_moves by assumption.
  eexists. split; [reflexivity|].
  split; [apply run_moves_pen_moves|].
  split; [reflexivity|].
  pose proof (Z.quot_rem' s 2). unfold h. lia.
Qed.

Lemma DrawSquare_outline_witness :
  exists st',
    DrawSquare 875 1875 1 25 initial_state = Some (0, st') /\
    pen_moves st' =
      pen_moves initial_state
      ++ [mkMove (875 - Z.quot 25 2) (1875 - Z.quot 25 2) 0;
          mkMove (875 - Z.quot 25 2 + 25) (1875 - Z.quot 25 2) 1;
          mkMove (875 - Z.quot 25 2 + 25) (1875 - Z.quot 25 2 + 25) 1;
          mkMove (875 - Z.quot 25 2) (1875 - Z.quot 25 2 + 25) 1;
          mkMove (875 - Z.quot 25 2) (1875 - Z.quot 25 2) 1] /\
    pen st' = (875 - Z.quot 25 2, 1875 - Z.quot 25 2) /\
    (875 - Z.quot 25 2) + (875 - Z.quot 25 2 + 25) = 2 * 875 + Z.rem 25 2 /\
    (1875 - Z.quot 25 2) + (1875 - Z.quot 25 2 + 25) = 2 * 1875 + Z.rem 25 2.
Proof.
  apply (DrawSquare_outline 875 1875 1 25 initial_state); try lia.
  buffer_ok_by_computation.
Defined.

(** ** The options of the command line *)

Section CommandLineFacts.
Variable atoi : string -> Z.
Variable atof : string -> spec_float.

Lemma option_for_value {A} argv i name (conv : string -> A) set a v st :
  argv !! i = Some a -> argv !! S i = Some v ->
  option_for argv i name conv set st = Some (tt, set_if name a conv set v st).
Proof.
  intros Ha Hv. unfold option_for, bind, arg, set_if, is_option, modify, ret.
  rewrite Ha. destruct (strcasecmp a name =? 0); [rewrite Hv|]; reflexivity.
Qed.

Lemma option_for_last {A} argv i name (conv : string -> A) set a st :
  argv !! i = Some a -> argv !! S i = None ->
  option_for argv i name conv set st
  = if is_option name a then None else Some (tt, st).
Proof.
  intros Ha Hv. unfold option_for, bind, arg, is_option, modify, ret.
  rewrite Ha. destruct (strcasecmp a name =? 0); [rewrite Hv|]; reflexivity.
Qed.

Lemma parse_option_value argv i a v st :
  argv !! i = Some a -> argv !! S i = Some v ->
  parse_option atoi atof argv i st = Some (tt, apply_option atoi atof a v st).
Proof.
  intros Ha Hv. unfold parse_option, apply_option.
  repeat (unfold bind at 1; rewrite (option_for_value _ _ _ _ _ a v) by assumption).
  apply option_for_value; assumption.
Qed.

Lemma parse_option_last argv i a st :
  argv !! i = Some a -> argv !! S i = None ->
  parse_option atoi atof argv i st
  = if known_option a then None else Some (tt, st).
Proof.
  intros Ha Hv. unfold parse_option, known_option, option_names.
  cbn [existsb].
  repeat (unfold bind at 1; rewrite (option_for_last _ _ _ _ _ a) by assumption;
          destruct (is_option _ a); cbn [orb]; [reflexivity|]).
  rewrite (option_for_last _ _ _ _ _ a) by assumption.
  destruct (is_option _ a); reflexivity.
Qed.

Lemma parse_from_list args argv i st :
  drop i argv = args ->
  parse_from atoi atof (length args) argv i st
  = match parse_list atoi atof args st with
    | Some st' => Some (tt, st')
    | None => None
    end.
Proof.
  revert i st. induction args as [|a rest IH]; intros i st Hd; [reflexivity|].
  assert (Ha : argv !! i = Some a).
  { pose proof (lookup_drop argv i 0) as H.
    rewrite Hd, Nat.add_0_r in H. symmetry. exact H. }
  assert (Hrest : drop (S i) argv = rest).
  { replace (S i) with (i + 1)%nat by lia. rewrite <- drop_drop, Hd. reflexivity. }
  cbn [length parse_from parse_list]. unfold bind at 1.
  destruct rest as [|v rest'].
  - assert (Hv : argv !! S i = None).
    { pose proof (lookup_drop argv (S i) 0) as H.
      rewrite Hrest, Nat.add_0_r in H. symmetry. exact H. }
    rewrite (parse_option_last _ _ a) by assumption.
    destruct (known_option a); reflexivity.
  - assert (Hv : argv !! S i = Some v).
    { pose proof (lookup_drop argv (S i) 0) as H.
      rewrite Hrest, Nat.add_0_r in H. symmetry. exact H. }
    rewrite (parse_option_value _ _ a v) by assumption.
    apply IH, Hrest.
Qed.

Lemma parse_args_list argv st :
  parse_args atoi atof argv st
  = match parse_list atoi atof (tail argv) st with
    | Some st' => Some (tt, st')
    | None => None
    end.
Proof.
  unfold parse_args.
  replace (length argv - 1)%nat with (length (tail argv))
    by (destruct argv; cbn; lia).
  apply parse_from_list. destruct argv; reflexivity.
Qed.

End CommandLineFacts.

Lemma option_value_found name args found :
  option_value name args found
  = match option_value name args None with
    | Some w => Some w
    | None => found
    end.
Proof.
  revert found. induction args as [|a rest IH]; intros found; [reflexivity|].
  cbn [option_value]. destruct rest as [|v rest']; [reflexivity|].
  rewrite IH. rewrite (IH (if is_option name a then Some v else None)).
  destruct (option_value name (v :: rest') None); [reflexivity|].
  destruct (is_option name a); reflexivity.
Qed.

Section Fields.
Variable atoi : string -> Z.
Variable atof : string -> spec_float.

(** A field that one option sets, through the whole loop. *)
Lemma parse_list_field {A} (f : state -> A) name (conv : string -> A) args st st' :
  (forall a v s, f (apply_option atoi atof a v s)
                 = if is_option name a then conv v else f s) ->
  parse_list atoi atof args st = Some st' ->
  f st' = field_after name conv (f st) args.
Proof.
  intros Hstep. revert st. induction args as [|a rest IH]; intros st H.
  - injection H as <-. reflexivity.
  - cbn [parse_list] in H. destruct rest as [|v rest'].
    + destruct (known_option a); [discriminate|]. injection H as <-. reflexivity.
    + apply IH in H. rewrite H, Hstep. unfold field_after.
      change (option_value name (a :: v :: rest') None)
        with (option_value name (v :: rest')
                (if is_option name a then Some v else None)).
      rewrite (option_value_found name (v :: rest')
                 (if is_option name a then Some v else None)).
      destruct (option_value name (v :: rest') None); [reflexivity|].
      destruct (is_option name a); reflexivity.
Qed.

(** A field that no option sets. *)
Lemma parse_list_keeps {A} (f : state -> A) args st st' :
  (forall a v s, f (apply_option atoi atof a v s) = f s) ->
  parse_list atoi atof args st = Some st' -> f st' = f st.
Proof.
  intros Hstep. revert st. induction args as [|a rest IH]; intros st H.
  - injection H as <-. reflexivity.
  - cbn [parse_list] in H. destruct rest as [|v rest'].
    + destruct (known_option a); [discriminate|]. injection H as <-. reflexivity.
    + apply IH in H. rewrite H. apply Hstep.
Qed.

Lemma parse_list_fails args st :
  parse_list atoi atof args st = None <->
  exists a, last args = Some a /\ known_option a = true.
Proof.
  revert st. induction args as [|a rest IH]; intros st.
  - split; [discriminate|]. intros (a & H & _). discriminate H.
  - cbn [parse_list]. destruct rest as [|v rest'].
    + cbn [last]. destruct (known_option a) eqn:E.
      * split; [|reflexivity]. intros _. exists a. split; [reflexivity|exact E].
      * split; [discriminate|]. intros (b & H & Hb). injection H as <-. congruence.
    + rewrite IH. reflexivity.
Qed.

End Fields.

Ltac option_fields :=
  intros a v s; unfold apply_option, set_if;
  repeat (destruct (is_option _ a)); reflexivity.

(** What the options do.  When the command line is read to its end, each
    parameter has the value converted from the argument that follows the
    last occurrence of its option (the name in whatever case), and is as it
    was when its option does not occur.  Every argument but the last is
    looked at as a possible option, also one that is itself the value of
    the option before it.  Nothing else changes: the buffer, the pen and
    the diagnostic stream are as they were. *)
Theorem parse_args_values (atoi : string -> Z) (atof : string -> spec_float)
    (argv : list string) (st st' : state) :
  let args := tail argv in
  parse_args atoi atof argv st = Some (tt, st') ->
  size st' = field_after "-size" atoi (size st) args /\
  dwell st' = field_after "-dwell" atoi (dwell st) args /\
  xpos st' = field_after "-xpos" atoi (xpos st) args /\
  ypos st' = field_after "-ypos" atoi (ypos st) args /\
  color st' = field_after "-color" atoi (color st) args /\
  hidden_dwell st' = field_after "-hidden_dwell" atoi (hidden_dwell st) args /\
  divider st' = field_after "-divider" atof (divider st) args /\
  vector_list st' = vector_list st /\ num_points st' = num_points st /\
  pen st' = pen st /\ stderr st' = stderr st /\ pen_moves st' = pen_moves st.
Proof.
  intros args H. rewrite parse_args_list in H. fold args in H.
  destruct (parse_list atoi atof args st) as [s1|] eqn:E; [|discriminate].
  injection H as <-.
  split; [apply (parse_list_field atoi atof size "-size" atoi args st s1
                   ltac:(option_fields) E)|].
  split; [apply (parse_list_field atoi atof dwell "-dwell" atoi args st s1
                   ltac:(option_fields) E)|].
  split; [apply (parse_list_field atoi atof xpos "-xpos" atoi args st s1
                   ltac:(option_fields) E)|].
  split; [apply (parse_list_field atoi atof ypos "-ypos" atoi args st s1
                   ltac:(option_fields) E)|].
  split; [apply (parse_list_field atoi atof color "-color" atoi args st s1
                   ltac:(option_fields) E)|].
  split; [apply (parse_list_field atoi atof hidden_dwell "-hidden_dwell" atoi args st s1
                   ltac:(option_fields) E)|].
  split; [apply (parse_list_field atoi atof divider "-divider" atof args st s1
                   ltac:(option_fields) E)|].
  split; [apply (parse_list_keeps atoi atof vector_list args st s1 ltac:(option_fields) E)|].
  split; [apply (parse_list_keeps atoi atof num_points args st s1 ltac:(option_fields) E)|].
  split; [apply (parse_list_keeps atoi atof pen args st s1 ltac:(option_fields) E)|].
  split; [apply (parse_list_keeps atoi atof stderr args st s1 ltac:(option_fields) E)|].
  apply (parse_list_keeps atoi atof pen_moves args st s1 ltac:(option_fields) E).
Qed.

Lemma parse_args_values_witness :
  let argv := ["laserclock"; "-SIZE"; "300"; "-size"; "-Xpos"; "40"]%string in
  let st' := set_xpos 40 (set_size 0 (set_size 300 initial_state)) in
  parse_args decimal decimal_float argv initial_state = Some (tt, st') /\
  size st' = field_after "-size" decimal (size initial_state) (tail argv) /\
  dwell st' = field_after "-dwell" decimal (dwell initial_state) (tail argv) /\
  xpos st' = field_after "-xpos" decimal (xpos initial_state) (tail argv) /\
  ypos st' = field_after "-ypos" decimal (ypos initial_state) (tail argv) /\
  color st' = field_after "-color" decimal (color initial_state) (tail argv) /\
  hidden_dwell st'
  = field_after "-hidden_dwell" decimal (hidden_dwell initial_state) (tail argv) /\
  divider st'
  = field_after "-divider" decimal_float (divider initial_state) (tail argv) /\
  vector_list st' = vector_list initial_state /\
  num_points st' = num_points initial_state /\
  pen st' = pen initial_state /\ stderr st' = stderr initial_state /\
  pen_moves st' = pen_moves initial_state.
Proof.
  intros argv st'.
  assert (H : parse_args decimal decimal_float argv initial_state = Some (tt, st'))
    by reflexivity.
  split; [exact H|].
  exact (parse_args_values decimal decimal_float argv initial_state st' H).
Defined.

(** When the options cannot be read.  The loop hands [atoi] or [atof] the
    null pointer, for which they have no defined result, exactly when the
    last argument is the name of an option: its value is missing.  Every
    other command line is read to its end, whatever the arguments are. *)
Theorem parse_args_fault (atoi : string -> Z) (atof : string -> spec_float)
    (argv : list string) (st : state) :
  parse_args atoi atof argv st = None <->
  exists a, last (tail argv) = Some a /\ known_option a = true.
Proof.
  rewrite parse_args_list, <- (parse_list_fails atoi atof (tail argv) st).
  destruct (parse_list atoi atof (tail argv) st); split; congruence.
Qed.

(** ** Strokes along an axis: the count of segments is exact *)

Lemma digits_le_prec n : 0 < n < 2 ^ 24 -> 1 <= digits n <= 24.
Proof.
  intros H. split; [pose proof (digits_pos n); lia|].
  apply digits_le_of_lt; lia.
Qed.

Lemma norm_int_mantissa n :
  0 < n < 2 ^ 24 ->
  Zpos (Z.to_pos (n * 2 ^ (F32.prec - digits n))) = n * 2 ^ (F32.prec - digits n) /\
  digits (n * 2 ^ (F32.prec - digits n)) = F32.prec.
Proof.
  intros H. pose proof (digits_le_prec n H) as Hd. unfold F32.prec.
  assert (0 < 2 ^ (24 - digits n)) by (apply Z.pow_pos_nonneg; lia).
  split.
  - rewrite Z2Pos.id; [reflexivity|nia].
  - rewrite digits_shiftl by lia. lia.
Qed.

Lemma of_int_norm z :
  z <> 0 -> Z.abs z < 2 ^ 24 -> F32.of_int z = norm_int (z <? 0) (Z.abs z).
Proof.
  intros Hz Hlt.
  assert (Hn : 0 < Z.abs z < 2 ^ 24) by lia.
  pose proof (digits_le_prec _ Hn) as Hd.
  destruct (of_int_value F32.prec F32.emax ltac:(reflexivity)
              ltac:(unfold F32.emax; lia) z Hz ltac:(unfold F32.emax; lia))
    as (m & e & [Hf _] & _ & _ & Hx).
  destruct (Hx ltac:(unfold F32.prec; lia)) as (Hm & He & _).
  unfold F32.of_int. rewrite Hf. unfold norm_int. rewrite <- Hm, <- He.
  rewrite Pos2Z.id. reflexivity.
Qed.

(** Rounding a mantissa that is the integer [n] shifted up by [t]. *)
Lemma round_exact_int s q e n t :
  0 < n < 2 ^ 24 -> 0 <= t -> q = n * 2 ^ t -> e = - t ->
  24 <= digits n + t ->
  binary_round_aux F32.prec F32.emax s q e loc_Exact = norm_int s n.
Proof.
  intros Hn Ht -> -> Hd.
  pose proof (digits_le_prec n Hn) as Hdn.
  assert (H2t : 0 < 2 ^ t) by (apply Z.pow_pos_nonneg; lia).
  assert (Hq : 0 < n * 2 ^ t) by nia.
  assert (Hdq : digits (n * 2 ^ t) = digits n + t) by (apply digits_shiftl; lia).
  destruct (binary_round_aux_spec F32.prec F32.emax ltac:(reflexivity) s
              (n * 2 ^ t) (- t) loc_Exact Hq
              ltac:(rewrite Hdq; unfold F32.prec; lia)
              ltac:(rewrite Hdq; change (SpecFloat.emin F32.prec F32.emax) with (-149);
                    unfold F32.prec; lia)
              ltac:(rewrite Hdq; unfold F32.emax; lia))
    as (m & e & -> & _ & _ & Hx).
  rewrite Hdq in Hx. unfold F32.prec in *.
  set (k := digits n + t - 24) in *.
  assert (Hk : 0 <= k <= t) by (unfold k; lia).
  assert (Hsplit : n * 2 ^ t = n * 2 ^ (t - k) * 2 ^ k).
  { rewrite <- Z.mul_assoc, <- Z.pow_add_r by lia. do 2 f_equal. lia. }
  destruct (Hx eq_refl) as [-> Hm].
  { rewrite Hsplit. apply Z.mod_mul. apply Z.pow_nonzero; lia. }
  unfold norm_int, F32.prec. f_equal.
  - rewrite Hsplit, Z.div_mul in Hm by (apply Z.pow_nonzero; lia).
    replace (t - k) with (24 - digits n) in Hm by (unfold k; lia).
    rewrite <- Hm. rewrite Pos2Z.id. reflexivity.
  - unfold k. lia.
Qed.

Lemma digits_mul a b :
  0 < a -> 0 < b -> digits a + digits b - 1 <= digits (a * b) <= digits a + digits b.
Proof.
  intros Ha Hb.
  pose proof (digits_bounds a Ha) as [Ha1 Ha2].
  pose proof (digits_bounds b Hb) as [Hb1 Hb2].
  pose proof (digits_bounds (a * b) ltac:(nia)) as [Hc1 Hc2].
  pose proof (digits_pos a Ha). pose proof (digits_pos b Hb).
  pose proof (digits_pos (a * b) ltac:(nia)).
  assert (Hlo : 2 ^ (digits a + digits b - 2) <= a * b).
  { replace (digits a + digits b - 2) with ((digits a - 1) + (digits b - 1)) by lia.
    rewrite Z.pow_add_r by lia.
    apply Z.mul_le_mono_nonneg; try assumption; apply Z.pow_nonneg; lia. }
  assert (Hhi : a * b < 2 ^ (digits a + digits b)).
  { rewrite Z.pow_add_r by lia. apply Z.mul_lt_mono_nonneg; lia. }
  split.
  - assert (digits a + digits b - 2 < digits (a * b)); [|lia].
    apply (Z.pow_lt_mono_r_iff 2); lia.
  - assert (digits (a * b) - 1 < digits a + digits b); [|lia].
    apply (Z.pow_lt_mono_r_iff 2); lia.
Qed.

Lemma square_lt L : 0 < L < 2 ^ 12 -> 0 < L * L < 2 ^ 24.
Proof. intros H. change (2 ^ 24) with (2 ^ 12 * 2 ^ 12). nia. Qed.

(** The square of a whole number below [2^12] is exact. *)
Lemma mul_square s L :
  0 < L < 2 ^ 12 ->
  F32.mul (norm_int s L) (norm_int s L) = norm_int false (L * L).
Proof.
  intros HL.
  assert (HL24 : 0 < L < 2 ^ 24) by lia.
  pose proof (square_lt L HL) as HN.
  pose proof (digits_le_prec L HL24) as HdL.
  pose proof (digits_le_of_lt L 12 ltac:(lia) ltac:(lia) ltac:(lia)) as HdL12.
  pose proof (digits_mul L L ltac:(lia) ltac:(lia)) as HdN.
  destruct (norm_int_mantissa L HL24) as [Hm _].
  unfold F32.mul, norm_int. cbn [SFmul].
  replace (xorb s s) with false by (destruct s; reflexivity).
  apply (round_exact_int false _ _ (L * L) (2 * (24 - digits L))).
  - exact HN.
  - lia.
  - rewrite Pos2Z.inj_mul, Hm. unfold F32.prec.
    replace (2 * (24 - digits L)) with ((24 - digits L) + (24 - digits L)) by lia.
    rewrite Z.pow_add_r by lia. ring.
  - unfold F32.prec. lia.
  - lia.
Qed.

Lemma sqrtrem_square a : 0 <= a -> Z.sqrtrem (a * a) = (a, 0).
Proof.
  intros Ha. pose proof (Z.sqrtrem_spec (a * a) ltac:(nia)) as H.
  destruct (Z.sqrtrem (a * a)) as [s r]. destruct H as [H1 H2].
  assert (s = a) by nia. subst s. f_equal. nia.
Qed.

(** The square root of the square of a whole number below [2^12] is that
    number. *)
Lemma sqrt_square L :
  0 < L < 2 ^ 12 -> F32.sqrt (norm_int false (L * L)) = norm_int false L.
Proof.
  intros HL.
  assert (HL24 : 0 < L < 2 ^ 24) by lia.
  pose proof (square_lt L HL) as HN.
  pose proof (digits_le_prec L HL24) as HdL.
  pose proof (digits_le_of_lt L 12 ltac:(lia) ltac:(lia) ltac:(lia)) as HdL12.
  pose proof (digits_mul L L ltac:(lia) ltac:(lia)) as HdN.
  pose proof (digits_le_prec _ HN) as HdN24.
  destruct (norm_int_mantissa _ HN) as [Hm Hdm].
  destruct (norm_int_mantissa L HL24) as [HmL _].
  unfold F32.sqrt, norm_int at 1. cbn [SFsqrt]. unfold SFsqrt_core_binary.
  rewrite Zdigits2_digits by lia. rewrite Hm, Hdm.
  set (dN := digits (L * L)) in *. set (dL := digits L) in *.
  unfold F32.prec in *.
  replace (24 + (dN - 24) + 1) with (dN + 1) by lia.
  rewrite !Z.div2_div.
  assert (Hhalf : (dN + 1) / 2 = dL).
  { assert (E : dN = 2 * dL - 1 \/ dN = 2 * dL) by lia.
    destruct E as [-> | ->].
    - replace (2 * dL - 1 + 1) with (dL * 2) by lia. apply Z.div_mul. lia.
    - replace (2 * dL + 1) with (1 + dL * 2) by lia.
      rewrite Z.div_add by lia. reflexivity. }
  rewrite Hhalf.
  assert (Hfexp : SpecFloat.fexp 24 F32.emax dL = dL - 24).
  { unfold SpecFloat.fexp, SpecFloat.emin, F32.emax. lia. }
  rewrite Hfexp.
  assert (Hdiv : dL - 24 <= (dN - 24) / 2).
  { apply Z.div_le_lower_bound; lia. }
  rewrite Z.min_l by exact Hdiv.
  set (sh := dN - 24 - 2 * (dL - 24)).
  assert (Hsh : sh = 23 \/ sh = 24) by (unfold sh; lia).
  assert (Hm' : L * L * 2 ^ (24 - dN) * 2 ^ sh
                = (L * 2 ^ (24 - dL)) * (L * 2 ^ (24 - dL))).
  { transitivity (L * L * 2 ^ ((24 - dN) + sh)).
    - rewrite Z.pow_add_r by lia. ring.
    - replace (24 - dN + sh) with ((24 - dL) + (24 - dL)) by (unfold sh; lia).
      rewrite Z.pow_add_r by lia. ring. }
  assert (Hshift : match sh with
                   | Zpos _ => Z.shiftl (L * L * 2 ^ (24 - dN)) sh
                   | 0 => L * L * 2 ^ (24 - dN)
                   | Zneg _ => 0
                   end = (L * 2 ^ (24 - dL)) * (L * 2 ^ (24 - dL))).
  { rewrite <- Hm'. destruct Hsh as [-> | ->]; rewrite Z.shiftl_mul_pow2 by lia;
      reflexivity. }
  rewrite Hshift.
  assert (0 < 2 ^ (24 - dL)) by (apply Z.pow_pos_nonneg; lia).
  rewrite sqrtrem_square by nia. cbn [Z.eqb].
  apply (round_exact_int false _ _ L (24 - dL)); try lia; fold dL; lia.
Qed.

(** The quotient of two whole numbers below [2^12], when it is whole, is
    exact. *)
Lemma div_whole k d :
  0 < k -> 0 < d -> k * d < 2 ^ 12 ->
  F32.div (norm_int false (k * d)) (norm_int false d) = norm_int false k.
Proof.
  intros Hk Hd HL.
  assert (HL24 : 0 < k * d < 2 ^ 24) by nia.
  assert (Hd24 : 0 < d < 2 ^ 24) by nia.
  assert (Hk24 : 0 < k < 2 ^ 24) by nia.
  pose proof (digits_le_prec _ HL24) as HdL.
  pose proof (digits_le_prec _ Hd24) as Hdd.
  pose proof (digits_le_prec _ Hk24) as Hdk.
  pose proof (digits_mul k d Hk Hd) as Hdm.
  destruct (norm_int_mantissa _ HL24) as [HmL HdmL].
  destruct (norm_int_mantissa _ Hd24) as [Hmd Hdmd].
  unfold F32.div, norm_int at 1 2. cbn [SFdiv xorb]. unfold SFdiv_core_binary.
  rewrite !Zdigits2_digits by lia. rewrite HmL, Hmd, HdmL, Hdmd.
  set (dL := digits (k * d)) in *. set (dd := digits d) in *.
  set (dk := digits k) in *.
  unfold F32.prec in *.
  replace (24 + (dL - 24) - (24 + (dd - 24))) with (dL - dd) by lia.
  assert (Hfexp : SpecFloat.fexp 24 F32.emax (dL - dd) = dL - dd - 24).
  { unfold SpecFloat.fexp, SpecFloat.emin, F32.emax. lia. }
  rewrite Hfexp. rewrite Z.min_l by lia.
  replace (dL - 24 - (dd - 24) - (dL - dd - 24)) with 24 by lia.
  rewrite Z.shiftl_mul_pow2 by lia.
  assert (H2d : 0 < 2 ^ (24 - dd)) by (apply Z.pow_pos_nonneg; lia).
  assert (Hexact : k * d * 2 ^ (24 - dL) * 2 ^ 24
                   = k * 2 ^ (24 + dd - dL) * (d * 2 ^ (24 - dd))).
  { transitivity (k * d * 2 ^ ((24 - dL) + 24)).
    - rewrite Z.pow_add_r by lia. ring.
    - replace (24 - dL + 24) with ((24 + dd - dL) + (24 - dd)) by lia.
      rewrite Z.pow_add_r by lia. ring. }
  rewrite Hexact.
  assert (Heucl : Z.div_eucl (k * 2 ^ (24 + dd - dL) * (d * 2 ^ (24 - dd)))
                             (d * 2 ^ (24 - dd))
                  = (k * 2 ^ (24 + dd - dL), 0)).
  { pose proof (Z.div_mul (k * 2 ^ (24 + dd - dL)) (d * 2 ^ (24 - dd)) ltac:(nia)) as Hq.
    pose proof (Z.mod_mul (k * 2 ^ (24 + dd - dL)) (d * 2 ^ (24 - dd)) ltac:(nia)) as Hr.
    unfold Z.div, Z.modulo in Hq, Hr.
    destruct (Z.div_eucl _ _) as [q r]. cbn in Hq, Hr. subst. reflexivity. }
  rewrite Heucl.
  assert (Hloc : new_location (d * 2 ^ (24 - dd)) 0 = loc_Exact).
  { unfold new_location. destruct (Z.even _); reflexivity. }
  rewrite Hloc.
  apply (round_exact_int false _ _ k (24 + dd - dL)); try lia; fold dk; lia.
Qed.

Lemma norm_int_normal s n :
  0 < n < 2 ^ 24 ->
  normal F32.prec (norm_int s n) s
         (Z.to_pos (n * 2 ^ (F32.prec - digits n))) (digits n - F32.prec).
Proof.
  intros Hn. split; [reflexivity|].
  destruct (norm_int_mantissa n Hn) as [-> Hd]. exact Hd.
Qed.

Lemma mag_norm_int n :
  0 < n < 2 ^ 24 ->
  (mag (Z.to_pos (n * 2 ^ (F32.prec - digits n))) (digits n - F32.prec)
   == inject_Z n)%Q.
Proof.
  intros Hn. pose proof (digits_le_prec n Hn) as Hd.
  destruct (norm_int_mantissa n Hn) as [Hm _].
  unfold mag. rewrite Hm. unfold F32.prec in *.
  rewrite inject_Z_mult, <- pow2_Z by lia.
  rewrite <- Qmult_assoc, <- pow2_add.
  replace (24 - digits n + (digits n - 24)) with 0 by lia.
  rewrite pow2_0. ring.
Qed.

Lemma to_int_norm c : 0 < c < 2 ^ 24 -> F32.to_int (norm_int false c) = c.
Proof.
  intros Hc. pose proof (digits_le_prec c Hc) as Hd.
  destruct (norm_int_mantissa c Hc) as [Hm _].
  unfold F32.to_int, norm_int, FP.to_int. cbv zeta.
  assert (Ht : FP.trunc_mag (Z.to_pos (c * 2 ^ (F32.prec - digits c)))
                            (digits c - F32.prec) = c).
  { unfold FP.trunc_mag. rewrite Hm. unfold F32.prec in *.
    destruct (digits c - 24) as [|p|p] eqn:E; try lia.
    - replace (24 - digits c) with 0 by lia.
      rewrite Z.shiftl_0_r. change (2 ^ 0) with 1. lia.
    - rewrite Z.shiftr_div_pow2 by lia.
      replace (24 - digits c) with (Zpos p) by lia.
      apply Z.div_mul. apply Z.pow_nonzero; lia. }
  rewrite Ht. cbn [cond_Zopp].
  replace ((Int32.min_signed <=? c) && (c <=? Int32.max_signed)) with true;
    [reflexivity|].
  symmetry. apply andb_true_iff.
  unfold Int32.min_signed, Int32.max_signed. split; apply Z.leb_le; lia.
Qed.

(** [ceilf] of a positive number with a fraction part, converted to [int]:
    the least whole number not below it. *)
Lemma ceil_spec m p :
  exists c,
    1 <= c /\
    (c - 1) * 2 ^ Zpos p < Zpos m <= c * 2 ^ Zpos p /\
    (c < 2 ^ 24 ->
     F32.to_int (F32.ceil (S754_finite false m (Zneg p))) = c).
Proof.
  assert (H2p : 0 < 2 ^ Zpos p) by (apply Z.pow_pos_nonneg; lia).
  set (q := Zpos m / 2 ^ Zpos p).
  pose proof (Z.div_mod (Zpos m) (2 ^ Zpos p) ltac:(lia)) as Hdm. fold q in Hdm.
  pose proof (Z.mod_pos_bound (Zpos m) (2 ^ Zpos p) H2p) as Hr.
  assert (Hq0 : 0 <= q) by (apply Z.div_pos; lia).
  exists (if q * 2 ^ Zpos p =? Zpos m then q else q + 1).
  destruct (q * 2 ^ Zpos p =? Zpos m) eqn:E.
  - apply Z.eqb_eq in E. assert (Hq1 : 1 <= q) by nia.
    split; [exact Hq1|]. split; [nia|]. intros Hc.
    unfold F32.ceil, FP.ceil.
    rewrite Z.shiftr_div_pow2, Z.shiftl_mul_pow2 by lia. fold q.
    rewrite (proj2 (Z.eqb_eq _ _) E).
    replace (q =? 0) with false by (symmetry; apply Z.eqb_neq; lia).
    cbn [cond_Zopp].
    change (binary_normalize F32.prec F32.emax q 0 false) with (F32.of_int q).
    rewrite of_int_norm by lia.
    replace (q <? 0) with false by (symmetry; apply Z.ltb_ge; lia).
    rewrite Z.abs_eq by lia. apply to_int_norm. lia.
  - apply Z.eqb_neq in E.
    split; [lia|]. split; [nia|]. intros Hc.
    unfold F32.ceil, FP.ceil.
    rewrite Z.shiftr_div_pow2, Z.shiftl_mul_pow2 by lia. fold q.
    rewrite (proj2 (Z.eqb_neq _ _) E).
    replace (q + 1 =? 0) with false by (symmetry; apply Z.eqb_neq; lia).
    cbn [cond_Zopp].
    change (binary_normalize F32.prec F32.emax (q + 1) 0 false)
      with (F32.of_int (q + 1)).
    rewrite of_int_norm by lia.
    replace (q + 1 <? 0) with false by (symmetry; apply Z.ltb_ge; lia).
    rewrite Z.abs_eq by lia. apply to_int_norm. lia.
Qed.

Lemma ceil_bounds_Q m p c :
  (c - 1) * 2 ^ Zpos p < Zpos m <= c * 2 ^ Zpos p ->
  (inject_Z c - 1 < mag m (Zneg p) /\ mag m (Zneg p) <= inject_Z c)%Q.
Proof.
  intros [Hlo Hhi].
  assert (Hpp : (0 < pow2 (Zpos p))%Q) by apply pow2_pos.
  assert (E : (mag m (Zneg p) * pow2 (Zpos p) == inject_Z (Zpos m))%Q).
  { unfold mag. rewrite <- Qmult_assoc, <- pow2_add.
    change (Zneg p + Zpos p) with (- Zpos p + Zpos p).
    rewrite Z.add_opp_diag_l, pow2_0. ring. }
  split.
  - apply (Qmult_lt_r _ _ _ Hpp). rewrite E, pow2_Z by lia.
    setoid_replace ((inject_Z c - 1) * inject_Z (2 ^ Zpos p))%Q
      with (inject_Z ((c - 1) * 2 ^ Zpos p)) using relation Qeq.
    + rewrite <- Zlt_Qlt. exact Hlo.
    + rewrite inject_Z_mult. unfold Z.sub. rewrite inject_Z_plus, inject_Z_opp.
      change (inject_Z 1) with 1%Q. ring.
  - apply (Qmult_le_r _ _ _ Hpp). rewrite E, pow2_Z by lia.
    rewrite <- inject_Z_mult, <- Zle_Qle. exact Hhi.
Qed.

Lemma ceil_div_exact L d : 0 < d -> L mod d = 0 -> (L + d - 1) / d = L / d.
Proof.
  intros Hd Hm. pose proof (Z.div_mod L d ltac:(lia)) as E. rewrite Hm in E.
  symmetry. apply (Z.div_unique (L + d - 1) d (L / d) (d - 1)); lia.
Qed.

Lemma ceil_div_inexact L d : 0 < d -> L mod d <> 0 -> (L + d - 1) / d = L / d + 1.
Proof.
  intros Hd Hm. pose proof (Z.div_mod L d ltac:(lia)) as E.
  pose proof (Z.mod_pos_bound L d Hd).
  symmetry. apply (Z.div_unique (L + d - 1) d (L / d + 1) (L mod d - 1)); lia.
Qed.

(** The ceiling of a quotient that was rounded to single precision is the
    ceiling of the quotient itself, for whole numbers up to 4095 that do
    not divide. *)
Lemma quotient_ceiling (L d c : Z) (V : Q) :
  0 < d -> 0 < L <= 4095 -> L mod d <> 0 ->
  (inject_Z L / inject_Z d * (1 - u32) <= V
   <= inject_Z L / inject_Z d * (1 + u32))%Q ->
  (inject_Z c - 1 < V)%Q -> (V <= inject_Z c)%Q ->
  c = L / d + 1.
Proof.
  intros Hd HL Hm [HV1 HV2] Hc1 Hc2.
  pose proof (Z.div_mod L d ltac:(lia)) as E.
  pose proof (Z.mod_pos_bound L d Hd) as Hr.
  set (k := L / d) in *. set (r := L mod d) in *.
  assert (Hdq : (0 < inject_Z d)%Q).
  { change 0%Q with (inject_Z 0). rewrite <- Zlt_Qlt. exact Hd. }
  assert (EQ : (inject_Z L == inject_Z (d * k) + inject_Z r)%Q).
  { rewrite <- inject_Z_plus, <- E. reflexivity. }
  assert (HrQ : (1 <= inject_Z r)%Q /\ (inject_Z r <= inject_Z d - 1)%Q).
  { split.
    - change 1%Q with (inject_Z 1). rewrite <- Zle_Qle. lia.
    - change 1%Q with (inject_Z 1). unfold Qminus.
      rewrite <- inject_Z_opp, <- inject_Z_plus, <- Zle_Qle. lia. }
  assert (HLQ : (inject_Z L <= 4095)%Q).
  { change 4095%Q with (inject_Z 4095). rewrite <- Zle_Qle. lia. }
  assert (Hk0 : (0 <= inject_Z (d * k))%Q).
  { change 0%Q with (inject_Z 0). rewrite <- Zle_Qle.
    assert (0 <= k) by (apply Z.div_pos; lia). nia. }
  assert (Hlo : (inject_Z k < V)%Q).
  { eapply Qlt_le_trans; [|exact HV1].
    apply (Qmult_lt_r _ _ _ Hdq).
    setoid_replace (inject_Z L / inject_Z d * (1 - u32) * inject_Z d)%Q
      with (inject_Z L * (1 - u32))%Q using relation Qeq by (field; lra).
    rewrite <- inject_Z_mult, (Z.mul_comm k d).
    revert EQ HrQ HLQ Hk0. generalize (inject_Z L) (inject_Z (d * k)) (inject_Z r).
    intros l pq rq EQ [Hr1 _] HLQ Hk0. unfold u32. lra. }
  assert (Hhi : (V <= inject_Z (k + 1))%Q).
  { eapply Qle_trans; [exact HV2|].
    apply (Qmult_le_r _ _ _ Hdq).
    setoid_replace (inject_Z L / inject_Z d * (1 + u32) * inject_Z d)%Q
      with (inject_Z L * (1 + u32))%Q using relation Qeq by (field; lra).
    rewrite <- inject_Z_mult.
    replace ((k + 1) * d) with (d * k + d) by lia. rewrite inject_Z_plus.
    revert EQ HrQ HLQ Hk0 Hdq.
    generalize (inject_Z L) (inject_Z (d * k)) (inject_Z r) (inject_Z d).
    intros l pq rq dq EQ [_ Hr2] HLQ Hk0 Hdq. unfold u32. lra. }
  assert (H1 : (inject_Z c - 1 < inject_Z (k + 1))%Q) by lra.
  assert (H2 : (inject_Z k < inject_Z c)%Q) by lra.
  change 1%Q with (inject_Z 1) in H1. unfold Qminus in H1.
  rewrite <- inject_Z_opp, <- inject_Z_plus, <- Zlt_Qlt in H1.
  rewrite <- Zlt_Qlt in H2. lia.
Qed.

Lemma ceil_quotient L d :
  0 < L <= 4095 -> 0 < d <= 4095 ->
  F32.to_int (F32.ceil (F32.div (norm_int false L) (norm_int false d)))
  = (L + d - 1) / d.
Proof.
  intros HL Hd.
  assert (HL24 : 0 < L < 2 ^ 24) by lia.
  assert (Hd24 : 0 < d < 2 ^ 24) by lia.
  pose proof (digits_le_of_lt L 12 ltac:(lia) ltac:(lia) ltac:(lia)) as HdL.
  pose proof (digits_le_of_lt d 12 ltac:(lia) ltac:(lia) ltac:(lia)) as Hdd.
  pose proof (digits_pos L ltac:(lia)) as HdL0.
  pose proof (digits_pos d ltac:(lia)) as Hdd0.
  destruct (Z.eq_dec (L mod d) 0) as [Hm|Hm].
  - (* the divider divides the length *)
    rewrite ceil_div_exact by (assumption || lia).
    pose proof (Z.div_mod L d ltac:(lia)) as E. rewrite Hm, Z.add_0_r in E.
    set (k := L / d) in *.
    assert (Hk : 0 < k) by nia.
    assert (Hk4 : k <= 4095) by nia.
    replace L with (k * d) by lia.
    rewrite div_whole by lia.
    pose proof (digits_le_of_lt k 12 ltac:(lia) ltac:(lia) ltac:(lia)) as Hdk.
    pose proof (digits_pos k ltac:(lia)) as Hdk0.
    unfold norm_int. unfold F32.prec.
    destruct (digits k - 24) as [|p|p] eqn:Ep; try lia.
    destruct (ceil_spec (Z.to_pos (k * 2 ^ (24 - digits k))) p)
      as (c & Hc1 & [Hlo Hhi] & Hres).
    destruct (norm_int_mantissa k ltac:(lia)) as [Hmk _].
    unfold F32.prec in Hmk. rewrite Hmk in Hlo, Hhi.
    replace (24 - digits k) with (Zpos p) in Hlo, Hhi by lia.
    assert (H2p : 0 < 2 ^ Zpos p) by (apply Z.pow_pos_nonneg; lia).
    assert (c = k) by nia. subst c.
    apply Hres. lia.
  - (* it does not *)
    rewrite ceil_div_inexact by (assumption || lia).
    destruct (div_value F32.prec F32.emax ltac:(reflexivity) _ false _ _ _ false _ _
                (inject_Z L / inject_Z d)%Q
                (norm_int_normal false L HL24) (norm_int_normal false d Hd24))
      as (mq & eq & [Hq _] & Heq & HV).
    { change (SpecFloat.emin F32.prec F32.emax) with (-149).
      unfold F32.prec. lia. }
    { unfold F32.prec, F32.emax. lia. }
    { rewrite !mag_norm_int by assumption. field.
      change 0%Q with (inject_Z 0). rewrite inject_Z_injective. lia. }
    unfold F32.div. rewrite Hq. cbn [xorb].
    unfold F32.prec in Heq.
    destruct eq as [|p|p]; try lia.
    destruct (ceil_spec mq p) as (c & Hc1 & Hb & Hres).
    destruct (ceil_bounds_Q mq p c Hb) as [Hlo Hhi].
    rewrite f32_u in HV.
    assert (Hc : c = L / d + 1).
    { apply (quotient_ceiling L d c (mag mq (Zneg p))); try assumption; lia. }
    rewrite Hres; [exact Hc|].
    rewrite Hc. assert (L / d <= L) by (apply Z.div_le_upper_bound; nia). lia.
Qed.

Lemma vector_length_x a :
  a <> 0 -> Z.abs a < 2 ^ 12 ->
  F32.sqrt (F32.add (F32.mul (F32.of_int a) (F32.of_int a))
                    (F32.mul (F32.of_int 0) (F32.of_int 0)))
  = norm_int false (Z.abs a).
Proof.
  intros Ha Hlt. rewrite (of_int_norm a) by lia.
  rewrite mul_square by lia.
  change (F32.mul (F32.of_int 0) (F32.of_int 0)) with (S754_zero false).
  unfold norm_int at 1. unfold F32.add. cbn [SFadd].
  apply sqrt_square. lia.
Qed.

Lemma vector_length_y a :
  a <> 0 -> Z.abs a < 2 ^ 12 ->
  F32.sqrt (F32.add (F32.mul (F32.of_int 0) (F32.of_int 0))
                    (F32.mul (F32.of_int a) (F32.of_int a)))
  = norm_int false (Z.abs a).
Proof.
  intros Ha Hlt. rewrite (of_int_norm a) by lia.
  rewrite mul_square by lia.
  change (F32.mul (F32.of_int 0) (F32.of_int 0)) with (S754_zero false).
  unfold norm_int at 1. unfold F32.add. cbn [SFadd].
  apply sqrt_square. lia.
Qed.

(** The count of segments of a stroke along an axis, of a length up to
    4095, under a divider that is a whole number from 1 to 4095: the
    length over the divider, rounded up. *)
Lemma segments_axis a d :
  Z.abs a <= 4095 -> 1 <= d <= 4095 ->
  segments (F32.of_int a) (F32.of_int 0) (F32.of_int d) = (Z.abs a + d - 1) / d /\
  segments (F32.of_int 0) (F32.of_int a) (F32.of_int d) = (Z.abs a + d - 1) / d.
Proof.
  intros Ha Hd.
  rewrite (of_int_norm d) by lia.
  replace (d <? 0) with false by (symmetry; apply Z.ltb_ge; lia).
  rewrite (Z.abs_eq d) by lia.
  destruct (Z.eq_dec a 0) as [->|Hne].
  - change (Z.abs 0) with 0. rewrite Z.div_small by lia.
    unfold norm_int. split; apply segments_zero.
  - unfold segments. cbv zeta.
    rewrite vector_length_x, vector_length_y by lia.
    split; apply ceil_quotient; lia.
Qed.

Lemma of_int_finite n :
  1 <= n <= Int32.max_signed ->
  exists m e, F32.of_int n = S754_finite false m e.
Proof.
  intros Hn.
  assert (Hd : digits (Z.abs n) <= 31).
  { rewrite Z.abs_eq by lia. apply digits_le_of_lt; unfold Int32.max_signed in *; lia. }
  destruct (of_int_value F32.prec F32.emax ltac:(reflexivity)
              ltac:(unfold F32.emax; lia) n ltac:(lia) ltac:(unfold F32.emax; lia))
    as (m & e & [Hf _] & _).
  replace (n <? 0) with false in Hf by (symmetry; apply Z.ltb_ge; lia).
  exists m, e. exact Hf.
Qed.

(** On the axis that a stroke does not move along, every interpolated
    coordinate is the coordinate of the pen. *)
Lemma interpolate_still xs n i :
  0 <= xs <= 4095 -> 1 <= n <= Int32.max_signed -> 1 <= i <= Int32.max_signed ->
  interpolate xs (F32.of_int 0) n i = xs.
Proof.
  intros Hxs Hn Hi. unfold interpolate.
  destruct (of_int_finite n Hn) as (mn & en & ->).
  destruct (of_int_finite i Hi) as (mi & ei & ->).
  change (F32.of_int 0) with (S754_zero false).
  unfold F32.div, F32.mul, F32.add. cbn [SFdiv SFmul xorb].
  destruct (Z.eq_dec xs 0) as [->|Hne]; [reflexivity|].
  rewrite of_int_norm by lia.
  replace (xs <? 0) with false by (symmetry; apply Z.ltb_ge; lia).
  rewrite Z.abs_eq by lia. unfold norm_int at 1. cbn [SFadd].
  apply to_int_norm. lia.
Qed.

Lemma stroke_segments_axis x y st d :
  0 <= x_start st <= 4095 -> 0 <= y_start st <= 4095 ->
  0 <= x <= 4095 -> 0 <= y <= 4095 ->
  x = x_start st \/ y = y_start st ->
  divider st = F32.of_int d -> 1 <= d <= 4095 ->
  segments (F32.of_int (x - x_start st)%i32) (F32.of_int (y - y_start st)%i32)
           (divider st)
  = (Z.abs (x - x_start st) + Z.abs (y - y_start st) + d - 1) / d.
Proof.
  intros Hxs Hys Hx Hy Hax Hdv Hd. rewrite Hdv, !sub_in_range by assumption.
  destruct Hax as [E|E]; rewrite E, Z.sub_diag; change (Z.abs 0) with 0.
  - rewrite Z.add_0_l. apply segments_axis; lia.
  - rewrite Z.add_0_r. apply segments_axis; lia.
Qed.

(** A visible stroke along an axis under a divider that is a whole number.
    Between two points of the device range that share a coordinate, with
    the divider a whole number [d] from 1 to 4095, [DrawLineTo] appends
    exactly the length over [d], rounded up, intermediate points, all of
    them on the line of the stroke, and then the dwell points. *)
Theorem DrawLineTo_axis_count (x y c d : Z) (st : state) :
  let len := Z.abs (x - x_start st) + Z.abs (y - y_start st) in
  let n := (len + d - 1) / d in
  buffer_ok st -> 0 < c ->
  0 <= x_start st <= 4095 -> 0 <= y_start st <= 4095 ->
  0 <= x <= 4095 -> 0 <= y <= 4095 ->
  x = x_start st \/ y = y_start st ->
  divider st = F32.of_int d -> 1 <= d <= 4095 ->
  num_points st + n + Z.max 0 (dwell st) <= MAX_POINTS ->
  exists r st' pts,
    DrawLineTo x y c st = Some (r, st') /\
    frame st' = frame st ++ pts ++ replicate (Z.to_nat (dwell st)) (point_of x y c) /\
    Z.of_nat (length pts) = n /\
    Forall (fun p => (x = x_start st -> pt_x p = x) /\
                     (y = y_start st -> pt_y p = y)) pts.
Proof.
  intros len n Hok Hc Hxs Hys Hx Hy Hax Hdv Hd Hroom.
  pose proof (stroke_segments_axis x y st d Hxs Hys Hx Hy Hax Hdv Hd) as Hseg.
  fold len in Hseg. fold n in Hseg.
  assert (Hn0 : 0 <= n) by (apply Z.div_pos; lia).
  assert (Hcalls : stroke_calls x y c st
                   = map (fun i => (interpolate (x_start st)
                                      (F32.of_int (x - x_start st)%i32) n i,
                                    interpolate (y_start st)
                                      (F32.of_int (y - y_start st)%i32) n i, c))
                         (seqZ 1 n)).
  { unfold stroke_calls. cbv zeta. rewrite Hseg.
    replace (0 <? c) with true by (symmetry; apply Z.ltb_lt; exact Hc).
    reflexivity. }
  assert (Hdwell : dwell_calls x y c st = replicate (Z.to_nat (dwell st)) (x, y, c)).
  { unfold dwell_calls.
    replace (c =? 0) with false by (symmetry; apply Z.eqb_neq; lia). reflexivity. }
  rewrite DrawLineTo_spec by assumption.
  destruct (line_result_frame x y c st Hok) as (Hf & _ & _).
  rewrite take_ge in Hf.
  2:{ rewrite length_app, Hcalls, Hdwell, length_map, length_seqZ, length_replicate. lia. }
  destruct (line_result x y c st) as [r st']. cbn [snd] in Hf.
  exists r, st', (map call_point (stroke_calls x y c st)).
  split; [reflexivity|]. split.
  { rewrite Hf, map_app, Hdwell, map_replicate. reflexivity. }
  split.
  { rewrite Hcalls, !length_map, length_seqZ. lia. }
  rewrite Hcalls. change (map ?f ?l) with (f <$> l).
  apply Forall_fmap, Forall_fmap, Forall_forall. intros i Hi.
  apply elem_of_seqZ in Hi. unfold compose.
  assert (Hnmax : n <= Int32.max_signed).
  { rewrite <- Hseg. apply segments_le_max. }
  rewrite !sub_in_range by assumption.
  match goal with |- context [call_point (?a, ?b, c)] =>
    destruct (call_point_xy a b c) as [-> ->] end.
  split; intros E.
  - rewrite E, Z.sub_diag, interpolate_still by lia.
    apply clip_cases. lia.
  - rewrite E, Z.sub_diag, interpolate_still by lia.
    apply clip_cases. lia.
Qed.

Lemma DrawLineTo_axis_count_witness :
  let st := set_pen 0 2000 initial_state in
  exists r st' pts,
    DrawLineTo 250 2000 1 st = Some (r, st') /\
    frame st' = frame st ++ pts
                ++ replicate (Z.to_nat (dwell st)) (point_of 250 2000 1) /\
    Z.of_nat (length pts)
    = (Z.abs (250 - x_start st) + Z.abs (2000 - y_start st) + 50 - 1) / 50 /\
    Forall (fun p => (250 = x_start st -> pt_x p = 250) /\
                     (2000 = y_start st -> pt_y p = 2000)) pts.
Proof.
  apply (DrawLineTo_axis_count 250 2000 1 50 (set_pen 0 2000 initial_state));
    try (cbn; lia); try reflexivity; try (right; reflexivity).
  - buffer_ok_by_computation.
  - vm_compute. discriminate.
Defined.

(** ** The size of a frame *)

Lemma move_points_nonneg d dw hd px py m : 0 < d -> 0 <= move_points d dw hd px py m.
Proof.
  intros Hd. unfold move_points.
  destruct (mv_color m =? 0); [lia|].
  destruct (0 <? mv_color m); [|lia].
  assert (0 <= (Z.abs (mv_x m - px) + Z.abs (mv_y m - py) + d - 1) / d)
    by (apply Z.div_pos; lia).
  lia.
Qed.

Lemma path_points_nonneg d dw hd px py ms : 0 < d -> 0 <= path_points d dw hd px py ms.
Proof.
  intros Hd. revert px py. induction ms as [|m ms IH]; intros px py; cbn; [lia|].
  pose proof (move_points_nonneg d dw hd px py m Hd).
  pose proof (IH (mv_x m) (mv_y m)). lia.
Qed.

Lemma stroke_calls_length x y c st :
  length (stroke_calls x y c st)
  = if 0 <? c
    then Z.to_nat (segments (F32.of_int (x - x_start st)%i32)
                            (F32.of_int (y - y_start st)%i32) (divider st))
    else O.
Proof.
  unfold stroke_calls. cbv zeta. destruct (0 <? c); [|reflexivity].
  rewrite length_map, length_seqZ. reflexivity.
Qed.

(** The fill count after one move. *)
Lemma line_result_count x y c st d :
  buffer_ok st -> 0 <= x <= 4095 -> 0 <= y <= 4095 ->
  divider st = F32.of_int d -> 1 <= d <= 4095 ->
  c <= 0 \/ (0 <= x_start st <= 4095 /\ 0 <= y_start st <= 4095 /\
             (x = x_start st \/ y = y_start st)) ->
  num_points (snd (line_result x y c st))
  = Z.min MAX_POINTS
      (num_points st
       + move_points d (dwell st) (hidden_dwell st) (x_start st) (y_start st)
                     (mkMove x y c)).
Proof.
  intros Hok Hx Hy Hdv Hd Hpen. pose proof Hok as [_ Hn].
  destruct (line_result_frame x y c st Hok) as (_ & -> & _).
  rewrite length_take, length_app, stroke_calls_length.
  unfold dwell_calls. rewrite length_replicate.
  unfold move_points. cbn [mv_x mv_y mv_color].
  destruct (c =? 0) eqn:E0.
  - apply Z.eqb_eq in E0. subst c. cbn [Z.ltb Z.compare]. lia.
  - apply Z.eqb_neq in E0. destruct (0 <? c) eqn:Ec.
    + apply Z.ltb_lt in Ec.
      destruct Hpen as [Hc|(Hxs & Hys & Hax)]; [lia|].
      rewrite (stroke_segments_axis x y st d) by assumption.
      assert (0 <= (Z.abs (x - x_start st) + Z.abs (y - y_start st) + d - 1) / d)
        by (apply Z.div_pos; lia).
      lia.
    + lia.
Qed.

Lemma run_moves_count ms st d :
  buffer_ok st -> divider st = F32.of_int d -> 1 <= d <= 4095 ->
  Forall (move_within 0 4095 0 4095) ms ->
  along_axes (x_start st) (y_start st) ms ->
  (0 <= x_start st <= 4095 /\ 0 <= y_start st <= 4095) \/
  (exists m ms', ms = m :: ms' /\ mv_color m <= 0) \/ ms = [] ->
  num_points (run_moves ms st)
  = Z.min MAX_POINTS
      (num_points st
       + path_points d (dwell st) (hidden_dwell st) (x_start st) (y_start st) ms).
Proof.
  intros Hok Hdv Hd Hms. revert st Hok Hdv.
  induction Hms as [|m ms [Hmx Hmy] Hms IH]; intros st Hok Hdv Hax Hstart.
  - cbn. destruct Hok as [_ Hn]. lia.
  - cbn [run_moves fold_left path_points]. destruct Hax as [Hax1 Hax2].
    assert (Hpen : mv_color m <= 0 \/
                   (0 <= x_start st <= 4095 /\ 0 <= y_start st <= 4095 /\
                    (mv_x m = x_start st \/ mv_y m = y_start st))).
    { destruct Hax1 as [Hc|Hc]; [left; exact Hc|].
      destruct Hstart as [[H1 H2]|[(m' & ms' & E & Hc')|E]];
        [right; tauto| |discriminate].
      injection E as -> _. left. exact Hc'. }
    pose proof (line_result_count (mv_x m) (mv_y m) (mv_color m) st d Hok
                  Hmx Hmy Hdv Hd Hpen) as H1.
    pose proof (line_result_buffer_ok (mv_x m) (mv_y m) (mv_color m) st Hok) as Hok1.
    pose proof (line_result_config (mv_x m) (mv_y m) (mv_color m) st) as Hc1.
    revert H1 Hok1 Hc1.
    generalize (snd (line_result (mv_x m) (mv_y m) (mv_color m) st))
      (eq_refl : x_start (snd (line_result (mv_x m) (mv_y m) (mv_color m) st)) = mv_x m)
      (eq_refl : y_start (snd (line_result (mv_x m) (mv_y m) (mv_color m) st)) = mv_y m).
    intros st1 Hx1 Hy1 H1 Hok1 Hc1.
    injection Hc1 as _ _ _ _ Hdiv Hdw Hhd.
    fold (run_moves ms st1).
    rewrite (IH st1 Hok1); [|congruence|rewrite Hx1, Hy1; exact Hax2|left; lia].
    rewrite Hx1, Hy1, Hdw, Hhd, H1.
    replace (move_points d (dwell st) (hidden_dwell st) (x_start st) (y_start st)
               {| mv_x := mv_x m; mv_y := mv_y m; mv_color := mv_color m |})
      with (move_points d (dwell st) (hidden_dwell st) (x_start st) (y_start st) m)
      by (destruct m; reflexivity).
    pose proof (move_points_nonneg d (dwell st) (hidden_dwell st)
                  (x_start st) (y_start st) m ltac:(lia)).
    pose proof (path_points_nonneg d (dwell st) (hidden_dwell st)
                  (mv_x m) (mv_y m) ms ltac:(lia)).
    lia.
Qed.

Lemma digit_points_default d x y px py :
  0 <= path_points 50 10 15 px py (digit_moves d x y 1 250) <= 115.
Proof.
  unfold digit_moves, stroke_table, blank, draw.
  destruct d as [|p|p]; [| |cbn; lia];
    do 4 (try destruct p as [p|p|]);
    cbn [map place path_points move_points mv_x mv_y mv_color Z.eqb Z.ltb
         Z.compare Pos.compare Pos.compare_cont];
    try lia.
  all: repeat match goal with
       | |- context [Z.abs ?e] =>
           let H := fresh in
           first [ assert (H : Z.abs e = 0) by lia
                 | assert (H : Z.abs e = 250) by lia
                 | assert (H : Z.abs e = 500) by lia ];
           rewrite H; clear H
       end.
  all: vm_compute; split; discriminate.
Qed.

Lemma rebuild_program_clock now st :
  - 2 ^ 24 <= xpos st <= 2 ^ 24 -> - 2 ^ 24 <= ypos st <= 2 ^ 24 ->
  - 2 ^ 24 <= size st <= 2 ^ 24 ->
  rebuild_program now st
  = clock_moves (tm_hour now / 10)%i32 (tm_hour now % 10)%i32
                (tm_min now / 10)%i32 (tm_min now % 10)%i32
                (tm_sec now / 10)%i32 (tm_sec now % 10)%i32
                (xpos st) (ypos st) (color st) (size st).
Proof.
  intros Bx By Bs. unfold rebuild_program, clock_moves, colon_moves. cbv zeta.
  rewrite program_at_origin by assumption.
  rewrite !program_at_column by (assumption || lia).
  rewrite lower_row, upper_row, left_colon, right_colon by assumption.
  rewrite (tenth_size (size st)) by assumption.
  pose proof (quot_bound (size st) Bs 2 ltac:(lia)) as Hh2.
  pose proof (quot_bound (size st) Bs 10 ltac:(lia)) as Hh10.
  assert (H7 : - 2 ^ 26 <= Z.quot (7 * size st) 2 <= 2 ^ 26)
    by (Z.quot_rem_to_equations; lia).
  assert (H15 : - 2 ^ 27 <= Z.quot (15 * size st) 2 <= 2 ^ 27)
    by (Z.quot_rem_to_equations; lia).
  rewrite !square_program_moves by lia.
  rewrite <- !app_assoc. reflexivity.
Qed.

Lemma along_axes_app px py ms1 ms2 :
  along_axes px py ms1 -> (forall qx qy, along_axes qx qy ms2) ->
  along_axes px py (ms1 ++ ms2).
Proof.
  intros H1 H2. revert px py H1. induction ms1 as [|m ms1 IH]; intros px py H1.
  - apply H2.
  - destruct H1 as [Ha Hb]. split; [exact Ha|]. apply IH, Hb.
Qed.

Lemma digit_moves_along d x y c s px py : along_axes px py (digit_moves d x y c s).
Proof.
  unfold digit_moves, stroke_table, blank, draw.
  destruct d as [|p|p]; [| |exact I];
    do 4 (try destruct p as [p|p|]);
    cbn [map place along_axes mv_x mv_y mv_color];
    try exact I; repeat split; lia.
Qed.

Lemma square_moves_along x y c s px py : along_axes px py (square_moves x y c s).
Proof.
  unfold square_moves. cbv zeta. cbn [along_axes mv_x mv_y mv_color].
  repeat split; lia.
Qed.

Lemma clock_moves_along d1 d2 d3 d4 d5 d6 x y c s px py :
  along_axes px py (clock_moves d1 d2 d3 d4 d5 d6 x y c s).
Proof.
  unfold clock_moves, colon_moves.
  repeat (apply along_axes_app; [|intros ? ?]);
    first [apply digit_moves_along | apply square_moves_along].
Qed.

Lemma path_points_app_bound d dw hd lo1 hi1 lo2 hi2 ms1 ms2 :
  (forall px py, lo1 <= path_points d dw hd px py ms1 <= hi1) ->
  (forall px py, lo2 <= path_points d dw hd px py ms2 <= hi2) ->
  forall px py,
    lo1 + lo2 <= path_points d dw hd px py (ms1 ++ ms2) <= hi1 + hi2.
Proof.
  intros H1 H2.
  assert (E : forall px py, exists qx qy,
             path_points d dw hd px py (ms1 ++ ms2)
             = path_points d dw hd px py ms1 + path_points d dw hd qx qy ms2).
  { clear H1. induction ms1 as [|m ms1 IH]; intros px py.
    - exists px, py. reflexivity.
    - cbn [app path_points].
      destruct (IH (mv_x m) (mv_y m)) as (qx & qy & ->).
      exists qx, qy. lia. }
  intros px py. destruct (E px py) as (qx & qy & ->).
  pose proof (H1 px py). pose proof (H2 qx qy). lia.
Qed.

Lemma square_points_default x y px py :
  59 <= path_points 50 10 15 px py (square_moves x y 1 25) <= 59.
Proof.
  unfold square_moves. cbv zeta.
  cbn [path_points move_points mv_x mv_y mv_color Z.eqb Z.ltb Z.compare
       Pos.compare Pos.compare_cont].
  change (Z.quot 25 2) with 12.
  repeat match goal with
         | |- context [Z.abs ?e] =>
             let H := fresh in
             first [ assert (H : Z.abs e = 0) by lia
                   | assert (H : Z.abs e = 25) by lia ];
             rewrite H; clear H
         end.
  vm_compute. split; discriminate.
Qed.

(** The points that a face of the default size asks for under the default
    divider and dwells: at least those of the four squares, at most those
    of six digits 8 besides. *)
Lemma clock_points_default d1 d2 d3 d4 d5 d6 x y px py :
  236 <= path_points 50 10 15 px py (clock_moves d1 d2 d3 d4 d5 d6 x y 1 250)
      <= 926.
Proof.
  unfold clock_moves, colon_moves. change (Z.quot 250 10) with 25.
  revert px py.
  apply (path_points_app_bound 50 10 15 0 115 236 811);
    [intros; apply digit_points_default|].
  apply (path_points_app_bound 50 10 15 0 115 236 696);
    [intros; apply digit_points_default|].
  apply (path_points_app_bound 50 10 15 0 115 236 581);
    [intros; apply digit_points_default|].
  apply (path_points_app_bound 50 10 15 0 115 236 466);
    [intros; apply digit_points_default|].
  apply (path_points_app_bound 50 10 15 0 115 236 351);
    [intros; apply digit_points_default|].
  apply (path_points_app_bound 50 10 15 0 115 236 236);
    [intros; apply digit_points_default|].
  apply (path_points_app_bound 50 10 15 118 118 118 118).
  - apply (path_points_app_bound 50 10 15 59 59 59 59);
      intros; apply square_points_default.
  - apply (path_points_app_bound 50 10 15 59 59 59 59);
      intros; apply square_points_default.
Qed.

Section FrameSize.
Variable st : state.
Variable d : Z.
Hypothesis Hok : buffer_ok st.
Hypothesis Hs : 0 <= size st.
Hypothesis Hx0 : 0 <= xpos st.
Hypothesis Hx1 : xpos st + 11 * size st <= 4095.
Hypothesis Hy0 : 0 <= ypos st - 2 * size st.
Hypothesis Hy1 : ypos st <= 4095.
Hypothesis Hdv : divider st = F32.of_int d.
Hypothesis Hd : 1 <= d <= 4095.

Lemma rebuild_count now :
  num_points (run_moves (rebuild_program now st) (set_num_points 0 st))
  = Z.min MAX_POINTS
      (path_points d (dwell st) (hidden_dwell st) (x_start st) (y_start st)
                   (rebuild_program now st)).
Proof.
  rewrite (run_moves_count (rebuild_program now st) (set_num_points 0 st) d).
  - reflexivity.
  - apply buffer_ok_clear, Hok.
  - exact Hdv.
  - exact Hd.
  - eapply move_within_wider;
      [| | | |apply (rebuild_program_within st Hs Hx0 Hx1 Hy0 Hy1 now)]; lia.
  - rewrite rebuild_program_clock by lia. apply clock_moves_along.
  - right. left. destruct (rebuild_program_starts_blank now st)
      as (m & ms & E & Hc).
    exists m, ms. split; [exact E|lia].
Qed.

End FrameSize.

(** The size of a frame.  When the face fits the device range and the
    divider is a whole number [d] from 1 to 4095, the frame a rebuild makes
    has as many points as its pen moves ask for, as long as the buffer can
    take them: [hidden_dwell] for a blanked move, and for a move in a color
    above 0 its length over [d], rounded up, and [dwell] more. *)
Theorem rebuild_frame_size (now : tm) (st : state) (d : Z) :
  buffer_ok st ->
  0 <= size st -> 0 <= xpos st -> xpos st + 11 * size st <= 4095 ->
  0 <= ypos st - 2 * size st -> ypos st <= 4095 ->
  divider st = F32.of_int d -> 1 <= d <= 4095 ->
  exists st' ms,
    rebuild now st = Some (tt, st') /\
    pen_moves st' = pen_moves st ++ ms /\
    Z.of_nat (length (frame st')) = num_points st' /\
    num_points st'
    = Z.min MAX_POINTS
        (path_points d (dwell st) (hidden_dwell st) (x_start st) (y_start st) ms).
Proof.
  intros Hok Hs Hx0 Hx1 Hy0 Hy1 Hdv Hd.
  rewrite rebuild_run by assumption.
  exists (run_moves (rebuild_program now st) (set_num_points 0 st)),
         (rebuild_program now st).
  split; [reflexivity|]. split; [rewrite run_moves_pen_moves; reflexivity|].
  split.
  - apply frame_length.
    apply (run_moves_buffer_ok _ _ (buffer_ok_clear _ Hok)).
  - apply rebuild_count; assumption.
Qed.

Lemma rebuild_frame_size_witness :
  exists st' ms,
    rebuild (mkTm 2024 1 1 12 34 56) initial_state = Some (tt, st') /\
    pen_moves st' = pen_moves initial_state ++ ms /\
    Z.of_nat (length (frame st')) = num_points st' /\
    num_points st'
    = Z.min MAX_POINTS
        (path_points 50 (dwell initial_state) (hidden_dwell initial_state)
                     (x_start initial_state) (y_start initial_state) ms).
Proof.
  apply (rebuild_frame_size (mkTm 2024 1 1 12 34 56) initial_state 50);
    try (cbn; lia); try reflexivity.
  buffer_ok_by_computation.
Defined.

(** With the settings the program starts with (size 250, origin (0, 2000),
    divider 50, dwells 10 and 15), every frame has between 236 and 926
    points, whatever the reading: the buffer of [MAX_POINTS] cells is never
    filled, so that no point of a frame is ever dropped. *)
Theorem default_frame_size (now : tm) (st : state) :
  buffer_ok st -> config st = config initial_state ->
  exists st',
    rebuild now st = Some (tt, st') /\
    236 <= num_points st' <= 926 /\
    Z.of_nat (length (frame st')) = num_points st'.
Proof.
  intros Hok Hc. injection Hc as Ex Ey Es Ec Ed Edw Ehd.
  change (xpos initial_state) with 0 in Ex.
  change (ypos initial_state) with 2000 in Ey.
  change (size initial_state) with 250 in Es.
  change (color initial_state) with 1 in Ec.
  change (divider initial_state) with (F32.of_int 50) in Ed.
  change (dwell initial_state) with 10 in Edw.
  change (hidden_dwell initial_state) with 15 in Ehd.
  rewrite rebuild_run by assumption.
  eexists. split; [reflexivity|].
  split; [|apply frame_length;
           apply (run_moves_buffer_ok _ _ (buffer_ok_clear _ Hok))].
  rewrite (rebuild_count st 50) by (assumption || lia).
  rewrite rebuild_program_clock by lia.
  rewrite Ex, Ey, Es, Ec, Edw, Ehd.
  pose proof (clock_points_default
                (tm_hour now / 10)%i32 (tm_hour now % 10)%i32
                (tm_min now / 10)%i32 (tm_min now % 10)%i32
                (tm_sec now / 10)%i32 (tm_sec now % 10)%i32
                0 2000 (x_start st) (y_start st)) as H.
  unfold MAX_POINTS. lia.
Qed.

Lemma default_frame_size_witness :
  exists st',
    rebuild (mkTm 2024 1 1 8 8 8) (set_pen 300 4000 initial_state)
    = Some (tt, st') /\
    236 <= num_points st' <= 926 /\
    Z.of_nat (length (frame st')) = num_points st'.
Proof.
  apply (default_frame_size (mkTm 2024 1 1 8 8 8) (set_pen 300 4000 initial_state)).
  - buffer_ok_by_computation.
  - reflexivity.
Defined.

(** ** DrawCircle *)

Lemma first_angle_zero s : first_angle (S754_zero s) = S754_zero false.
Proof. destruct s; reflexivity. Qed.

Lemma last_angle_zero s :
  Double.ltb (Double.of_float (S754_zero false)) (last_angle (S754_zero s)) = true.
Proof. destruct s; vm_compute; reflexivity. Qed.

Lemma add_zero_step s : F32.add (S754_zero false) (S754_zero s) = S754_zero false.
Proof. destruct s; reflexivity. Qed.

Section CircleFacts.
Variable cos : spec_float -> spec_float.
Variable sin : spec_float -> spec_float.

Lemma circle_loop_zero_step rounds x y c radius s st :
  buffer_ok st ->
  circle_loop cos sin rounds x y c radius (S754_zero s) (S754_zero false) st
  = Unfinished.
Proof.
  revert st. induction rounds as [|rounds IH]; intros st Hok; [reflexivity|].
  cbn [circle_loop]. rewrite last_angle_zero. cbv zeta.
  rewrite DrawLineTo_spec by assumption.
  pose proof (line_result_buffer_ok
                (F32.to_int (Double.to_float
                   (Double.mul (Double.of_float radius)
                      (cos (radians (S754_zero false))))) + x)%i32
                (F32.to_int (Double.to_float
                   (Double.mul (Double.of_float radius)
                      (sin (radians (S754_zero false))))) + y)%i32
                c st Hok) as Hok'.
  destruct (line_result _ _ c st) as [r st']. cbn [snd] in Hok'.
  rewrite add_zero_step. apply IH, Hok'.
Qed.

End CircleFacts.

(** A step of zero.  With a [stepsize] of zero (of either sign) the angle
    never leaves zero and the loop of [DrawCircle] never ends, whatever the
    other arguments and whatever the sine and the cosine are: after any
    number of rounds the routine is still in its loop.  (The buffer fills
    up and every further point is dropped.) *)
Theorem DrawCircle_zero_step_never_returns
    (cos sin : spec_float -> spec_float) (rounds : nat) (x y c : Z)
    (radius : spec_float) (s : bool) (st : state) :
  buffer_ok st ->
  DrawCircle cos sin rounds x y c radius (S754_zero s) st = Unfinished.
Proof.
  intros Hok. unfold DrawCircle. rewrite DrawLineTo_spec by assumption.
  pose proof (line_result_buffer_ok
                (F32.to_int (F32.add (F32.of_int x) radius)) y 0 st Hok) as Hok'.
  destruct (line_result _ y 0 st) as [r st1]. cbn [snd] in Hok'.
  rewrite first_angle_zero, circle_loop_zero_step by assumption. reflexivity.
Qed.

Lemma DrawCircle_zero_step_never_returns_witness :
  DrawCircle (fun f => f) (fun f => f) 1000 2000 2000 1 (F32.of_int 500)
             (S754_zero false) initial_state = Unfinished.
Proof.
  apply (DrawCircle_zero_step_never_returns (fun f => f) (fun f => f) 1000
           2000 2000 1 (F32.of_int 500) false initial_state).
  buffer_ok_by_computation.
Defined.

(** A step that is not a number.  The first test of the loop fails, so
    that [DrawCircle] makes its blanked move to the point [radius] right of
    the centre, draws nothing and returns 0. *)
Theorem DrawCircle_nan_step
    (cos sin : spec_float -> spec_float) (rounds : nat) (x y c : Z)
    (radius : spec_float) (st : state) :
  buffer_ok st ->
  exists st',
    DrawCircle cos sin (S rounds) x y c radius S754_nan st = Returned 0 st' /\
    pen_moves st'
    = pen_moves st ++ [mkMove (F32.to_int (F32.add (F32.of_int x) radius)) y 0] /\
    pen st' = (F32.to_int (F32.add (F32.of_int x) radius), y).
Proof.
  intros Hok. unfold DrawCircle. rewrite DrawLineTo_spec by assumption.
  pose proof (line_result_pen_moves
                (F32.to_int (F32.add (F32.of_int x) radius)) y 0 st) as Hm.
  pose proof (line_result_pen
                (F32.to_int (F32.add (F32.of_int x) radius)) y 0 st) as Hp.
  destruct (line_result _ y 0 st) as [r st1]. cbn [snd] in Hm, Hp.
  exists st1. split; [reflexivity|]. split; assumption.
Qed.

Lemma DrawCircle_nan_step_witness :
  exists st',
    DrawCircle (fun f => f) (fun f => f) 1 2000 2000 1 (F32.of_int 500)
               S754_nan initial_state = Returned 0 st' /\
    pen_moves st'
    = pen_moves initial_state
      ++ [mkMove (F32.to_int (F32.add (F32.of_int 2000) (F32.of_int 500))) 2000 0] /\
    pen st' = (F32.to_int (F32.add (F32.of_int 2000) (F32.of_int 500)), 2000).
Proof.
  apply (DrawCircle_nan_step (fun f => f) (fun f => f) 0 2000 2000 1
           (F32.of_int 500) initial_state).
  buffer_ok_by_computation.
Defined.

Lemma check_whole_steps_ok : check_whole_steps = true.
Proof. vm_compute. reflexivity. Qed.

Lemma angle_rounds_stable r r' stepsize theta n :
  angle_rounds r stepsize theta = Some n -> (n < r')%nat ->
  angle_rounds r' stepsize theta = Some n.
Proof.
  revert r' theta n. induction r as [|r IH]; intros r' theta n H Hn; [discriminate|].
  cbn [angle_rounds] in H. destruct r' as [|r']; [lia|]. cbn [angle_rounds].
  destruct (Double.ltb (Double.of_float theta) (last_angle stepsize)); [|exact H].
  destruct (angle_rounds r stepsize (F32.add theta stepsize)) as [k|] eqn:E;
    [|discriminate].
  injection H as <-. rewrite (IH r' _ k E) by lia. reflexivity.
Qed.

Lemma whole_step_rounds_spec k :
  1 <= k <= 360 ->
  exists n, angle_rounds 362 (F32.of_int k) (first_angle (F32.of_int k)) = Some n /\
            Z.of_nat n = whole_step_rounds k.
Proof.
  intros Hk. pose proof check_whole_steps_ok as H. unfold check_whole_steps in H.
  rewrite forallb_forall in H. specialize (H k).
  destruct (angle_rounds 362 (F32.of_int k) (first_angle (F32.of_int k))) as [n|].
  - exists n. split; [reflexivity|]. apply Z.eqb_eq, H.
    apply list_elem_of_In, elem_of_seqZ. lia.
  - discriminate H. apply list_elem_of_In, elem_of_seqZ. lia.
Qed.

Section CircleRounds.
Variable cos : spec_float -> spec_float.
Variable sin : spec_float -> spec_float.

(** The loop draws one stroke per round of the angle. *)
Lemma circle_loop_rounds rounds x y c radius stepsize theta st :
  buffer_ok st ->
  match angle_rounds rounds stepsize theta with
  | Some n =>
      exists st' ms,
        circle_loop cos sin rounds x y c radius stepsize theta st
        = Returned tt st' /\
        pen_moves st' = pen_moves st ++ ms /\ length ms = n /\
        Forall (fun m => mv_color m = c) ms /\ buffer_ok st'
  | None =>
      circle_loop cos sin rounds x y c radius stepsize theta st = Unfinished
  end.
Proof.
  revert theta st. induction rounds as [|rounds IH]; intros theta st Hok;
    [reflexivity|].
  cbn [angle_rounds circle_loop].
  destruct (Double.ltb (Double.of_float theta) (last_angle stepsize)).
  - cbv zeta. rewrite DrawLineTo_spec by assumption.
    set (px := (F32.to_int _ + x)%i32). set (py := (F32.to_int _ + y)%i32).
    pose proof (line_result_buffer_ok px py c st Hok) as Hok1.
    pose proof (line_result_pen_moves px py c st) as Hm1.
    destruct (line_result px py c st) as [r st1]. cbn [snd] in Hok1, Hm1.
    specialize (IH (F32.add theta stepsize) st1 Hok1).
    destruct (angle_rounds rounds stepsize (F32.add theta stepsize)) as [n|];
      cbn [option_map].
    + destruct IH as (st' & ms & -> & Hms & Hlen & Hcol & Hok').
      exists st', (mkMove px py c :: ms). split; [reflexivity|].
      split; [rewrite Hms, Hm1, <- app_assoc; reflexivity|].
      split; [cbn; lia|]. split; [|exact Hok'].
      constructor; [reflexivity|exact Hcol].
    + exact IH.
  - exists st, []. rewrite app_nil_r. repeat split; try constructor; apply Hok.
Qed.

End CircleRounds.

(** A step of a whole number of degrees.  For a [stepsize] of [k] degrees,
    [k] from 1 to 360, [DrawCircle] returns 0 after its blanked move and
    one stroke in the color asked for per angle from [-k/2] in steps of
    [k] up to the last one below [360 + k/2]: 360 over [k], rounded up, and
    one more, whatever the sine and the cosine are. *)
Theorem DrawCircle_whole_step
    (cos sin : spec_float -> spec_float) (rounds : nat) (x y c k : Z)
    (radius : spec_float) (st : state) :
  buffer_ok st -> 1 <= k <= 360 ->
  whole_step_rounds k < Z.of_nat rounds ->
  exists st' ms,
    DrawCircle cos sin rounds x y c radius (F32.of_int k) st = Returned 0 st' /\
    pen_moves st'
    = pen_moves st
      ++ mkMove (F32.to_int (F32.add (F32.of_int x) radius)) y 0 :: ms /\
    Z.of_nat (length ms) = (360 + k - 1) / k + 1 /\
    Forall (fun m => mv_color m = c) ms.
Proof.
  intros Hok Hk Hr. unfold DrawCircle. rewrite DrawLineTo_spec by assumption.
  set (px := F32.to_int (F32.add (F32.of_int x) radius)).
  pose proof (line_result_buffer_ok px y 0 st Hok) as Hok1.
  pose proof (line_result_pen_moves px y 0 st) as Hm1.
  destruct (line_result px y 0 st) as [r st1]. cbn [snd] in Hok1, Hm1.
  destruct (whole_step_rounds_spec k Hk) as (n & Hn & Hnk).
  pose proof (angle_rounds_stable 362 rounds _ _ n Hn ltac:(lia)) as Hn'.
  pose proof (circle_loop_rounds cos sin rounds x y c radius (F32.of_int k)
                (first_angle (F32.of_int k)) st1 Hok1) as H.
  rewrite Hn' in H. destruct H as (st' & ms & -> & Hms & Hlen & Hcol & _).
  exists st', ms. split; [reflexivity|].
  split; [rewrite Hms, Hm1, <- app_assoc; reflexivity|].
  split; [|exact Hcol]. rewrite Hlen. exact Hnk.
Qed.

Lemma DrawCircle_whole_step_witness :
  exists st' ms,
    DrawCircle (fun f => f) (fun f => f) 40 2000 2000 1 (F32.of_int 500)
               (F32.of_int 10) initial_state = Returned 0 st' /\
    pen_moves st'
    = pen_moves initial_state
      ++ mkMove (F32.to_int (F32.add (F32.of_int 2000) (F32.of_int 500))) 2000 0
         :: ms /\
    Z.of_nat (length ms) = (360 + 10 - 1) / 10 + 1 /\
    Forall (fun m => mv_color m = 1) ms.
Proof.
  apply (DrawCircle_whole_step (fun f => f) (fun f => f) 40 2000 2000 1 10
           (F32.of_int 500) initial_state).
  - buffer_ok_by_computation.
  - lia.
  - vm_compute. reflexivity.
Defined.

(** ** The cadence of the refresh loop *)

Lemma schedule_app st c ts1 ts2 :
  schedule st c (ts1 ++ ts2) = schedule st c ts1 ++ schedule st (kept st c ts1) ts2.
Proof.
  revert c. induction ts1 as [|t ts1 IH]; intros c; [reflexivity|].
  cbn [app schedule]. rewrite IH, <- app_assoc. reflexivity.
Qed.

Lemma kept_app st c ts1 ts2 :
  kept st c (ts1 ++ ts2) = kept st (kept st c ts1) ts2.
Proof. unfold kept. apply fold_left_app. Qed.

Lemma readings_S (clock : nat -> tm) n :
  map clock (seq 0 (S n)) = map clock (seq 0 n) ++ [clock n].
Proof. rewrite seq_S, map_app. reflexivity. Qed.

Lemma non_poll_app tr1 tr2 : non_poll (tr1 ++ tr2) = non_poll tr1 ++ non_poll tr2.
Proof. unfold non_poll. apply List.filter_app. Qed.

Lemma non_poll_polls ps : forallb is_poll ps = true -> non_poll ps = [].
Proof.
  induction ps as [|e ps IH]; [reflexivity|]. cbn [forallb].
  intros H. apply andb_true_iff in H. destruct H as [He Hps].
  unfold non_poll. cbn [List.filter]. rewrite He. cbn [negb]. apply IH, Hps.
Qed.

(** The inner poll loop: when the device is not busy forever, the loop
    leaves it, after polls only, the last of which found the device ready. *)
Lemma polls_until_ready clock status d : forall m,
  pc m = At_poll -> status (polls m + d)%nat <> 0 ->
  exists k m' ps,
    run clock status k m = Some m' /\ pc m' = At_write /\
    globals m' = globals m /\ tm_now m' = tm_now m /\ seconds m' = seconds m /\
    reads m' = reads m /\ trace m' = trace m ++ ps /\
    forallb is_poll ps = true /\
    (forall q, q <> Ready -> monitor poll_rule q ps = Some Ready).
Proof.
  induction d as [|d IH]; intros m Hpc Hd.
  - rewrite Nat.add_0_r in Hd. apply Z.eqb_neq in Hd.
    exists 1%nat, (mkMachine At_write (globals m) (tm_now m) (seconds m) (reads m)
                             (S (polls m)) (trace m ++ [Ev_status (status (polls m))])),
      [Ev_status (status (polls m))].
    split; [cbn [run]; unfold step; rewrite Hpc, Hd; reflexivity|].
    do 6 (split; [reflexivity|]). split; [reflexivity|].
    intros q Hq. cbn [monitor poll_rule]. rewrite Hd. destruct q; congruence.
  - destruct (status (polls m) =? 0) eqn:E.
    + set (m1 := mkMachine At_poll (globals m) (tm_now m) (seconds m) (reads m)
                           (S (polls m)) (trace m ++ [Ev_status (status (polls m))])).
      destruct (IH m1 eq_refl) as (k & m' & ps & Hrun & Hpc' & Hg & Ht & Hs & Hr & Htr & Hps & Hmon).
      { cbn [polls m1]. replace (S (polls m) + d)%nat with (polls m + S d)%nat by lia.
        exact Hd. }
      exists (S k), m', (Ev_status (status (polls m)) :: ps).
      split; [cbn [run]; unfold step at 1; rewrite Hpc, E; exact Hrun|].
      split; [exact Hpc'|]. do 4 (split; [assumption|]).
      split; [rewrite Htr; cbn [trace m1]; rewrite <- app_assoc; reflexivity|].
      split; [cbn [forallb is_poll]; exact Hps|].
      intros q Hq. cbn [monitor poll_rule]. rewrite E.
      destruct q; try congruence; apply Hmon; discriminate.
    + exists 1%nat, (mkMachine At_write (globals m) (tm_now m) (seconds m) (reads m)
                               (S (polls m)) (trace m ++ [Ev_status (status (polls m))])),
        [Ev_status (status (polls m))].
      split; [cbn [run]; unfold step; rewrite Hpc, E; reflexivity|].
      do 6 (split; [reflexivity|]). split; [reflexivity|].
      intros q Hq. cbn [monitor poll_rule]. rewrite E. destruct q; congruence.
Qed.

Section Cadence.
Variable clock : nat -> tm.
Variable status : nat -> Z.
Variable st : state.
Hypothesis Hst : buffer_ok st.
Hypothesis Hready : forall k, exists j, (k <= j)%nat /\ status j <> 0.

Lemma cadence_inv_boot : cadence_inv clock st 0 (boot st).
Proof. repeat split; try reflexivity; exact Hst || apply Hst. Qed.

(** One more reading. *)
Lemma cadence_inv_next n m :
  cadence_inv clock st n m ->
  exists k m', run clock status k m = Some m' /\ cadence_inv clock st (S n) m'.
Proof.
  intros (Hreads & Hok & Hc & Htr & Hmon & Hpc).
  unfold cadence_inv. rewrite readings_S, schedule_app, kept_app.
  destruct (kept st None (map clock (seq 0 n))) as [shown|] eqn:Ek.
  - (* a frame is kept: read, poll, write *)
    destruct Hpc as (Hpc & Hsec & Hshown & Hframe).
    set (m2 := mkMachine At_poll (globals m) (clock (reads m)) (seconds m)
                         (S (reads m)) (polls m)
                         (trace m ++ [Ev_time (clock (reads m))])).
    assert (Hrun2 : run clock status 2 m = Some m2).
    { cbn [run]. unfold step at 1. rewrite Hpc.
      apply Z.eqb_eq in Hsec. rewrite Hsec. unfold step. cbn [pc]. reflexivity. }
    destruct (Hready (polls m2)) as (j & Hj & Hsj).
    destruct (polls_until_ready clock status (j - polls m2) m2 eq_refl)
      as (k & m3 & ps & Hrun3 & Hpc3 & Hg3 & Ht3 & Hs3 & Hr3 & Htr3 & Hps & Hmon3).
    { replace (polls m2 + (j - polls m2))%nat with j by lia. exact Hsj. }
    set (m4 := mkMachine At_test (globals m3) (tm_now m3) (seconds m3) (reads m3)
                         (polls m3)
                         (trace m3 ++ [Ev_write POINTS_PER_SECOND (frame (globals m3))])).
    assert (Hrun4 : run clock status (2 + k + 1) m = Some m4).
    { rewrite !run_add, Hrun2, Hrun3. cbn [run]. unfold step. rewrite Hpc3.
      reflexivity. }
    assert (Htr4 : non_poll (trace m4)
                   = schedule st None (map clock (seq 0 n))
                     ++ [Ev_time (clock n);
                         Ev_write POINTS_PER_SECOND (rebuilt_frame shown st)]).
    { cbn [trace m4]. rewrite Htr3. cbn [trace m2].
      rewrite !non_poll_app, (non_poll_polls ps Hps), Htr, Hg3, Hreads.
      cbn [globals m2]. rewrite Hframe, app_nil_r, <- app_assoc. reflexivity. }
    assert (Hmon4 : monitor poll_rule Idle (trace m4) = Some Idle).
    { cbn [trace m4]. rewrite Htr3. cbn [trace m2].
      rewrite !monitor_app, Hmon. cbn [monitor poll_rule].
      rewrite (Hmon3 Idle) by discriminate. reflexivity. }
    assert (Hreads4 : reads m4 = S n).
    { cbn [reads m4]. rewrite Hr3. cbn [reads m2]. rewrite Hreads. reflexivity. }
    assert (Hnow4 : tm_now m4 = clock n).
    { cbn [tm_now m4]. rewrite Ht3. cbn [tm_now m2]. rewrite Hreads. reflexivity. }
    assert (Hsec4 : seconds m4 = tm_sec shown).
    { cbn [seconds m4]. rewrite Hs3. cbn [seconds m2]. exact Hshown. }
    assert (Hg4 : globals m4 = globals m).
    { cbn [globals m4]. rewrite Hg3. reflexivity. }
    cbn [schedule kept fold_left advance fst snd]. rewrite app_nil_r.
    destruct (tm_sec (clock n) =? tm_sec shown) eqn:E.
    + exists (2 + k + 1)%nat, m4. split; [exact Hrun4|].
      split; [exact Hreads4|]. rewrite Hg4.
      split; [exact Hok|]. split; [exact Hc|]. split; [exact Htr4|].
      split; [exact Hmon4|].
      split; [reflexivity|]. split.
      * rewrite Hnow4, Hsec4. apply Z.eqb_eq, E.
      * split; [exact Hsec4|exact Hframe].
    + exists (2 + k + 1 + 1)%nat,
        (mkMachine At_outer (globals m4) (tm_now m4) (seconds m4) (reads m4)
                   (polls m4) (trace m4)).
      split.
      { rewrite run_add, Hrun4. cbn [run]. unfold step.
        change (pc m4) with At_test. cbv iota. rewrite Hnow4, Hsec4, E. reflexivity. }
      cbn [reads globals trace pc]. rewrite Hg4.
      split; [exact Hreads4|]. split; [exact Hok|]. split; [exact Hc|].
      split; [exact Htr4|]. split; [exact Hmon4|reflexivity].
  - (* no frame: the reading is for a rebuild *)
    cbn [schedule kept fold_left advance fst snd]. rewrite app_nil_r.
    pose proof (run_moves_buffer_ok (rebuild_program (clock (reads m)) (globals m))
                  _ (buffer_ok_clear _ Hok)) as Hok'.
    eexists 1%nat, _. split.
    { cbn [run]. unfold step. rewrite Hpc. unfold bind at 1.
      rewrite rebuild_run by assumption. unfold modify. reflexivity. }
    cbn [reads globals trace pc tm_now seconds].
    split; [rewrite Hreads; reflexivity|]. split; [exact Hok'|].
    split.
    { change (config (fprintf_stderr ?l ?s)) with (config s).
      rewrite run_moves_config. exact Hc. }
    split.
    { rewrite non_poll_app, Htr, Hreads. reflexivity. }
    split.
    { rewrite monitor_app, Hmon. reflexivity. }
    split; [reflexivity|]. split; [reflexivity|].
    split; [rewrite Hreads; reflexivity|].
    change (frame (fprintf_stderr ?l ?s)) with (frame s).
    rewrite <- rebuilt_frame_run by assumption. rewrite Hreads.
    apply rebuilt_frame_config; assumption.
Qed.

Lemma cadence_inv_reach n :
  exists k m, run clock status k (boot st) = Some m /\ cadence_inv clock st n m.
Proof.
  induction n as [|n (k & m & Hrun & Hinv)].
  - exists 0%nat, (boot st). split; [reflexivity|apply cadence_inv_boot].
  - destruct (cadence_inv_next n m Hinv) as (k' & m' & Hrun' & Hinv').
    exists (k + k')%nat, m'. split; [|exact Hinv'].
    rewrite run_add, Hrun. exact Hrun'.
Qed.

End Cadence.

(** Under the clock that advances one second per reading every reading
    shows another second than the one before: the readings go by pairs, the
    first of a pair for a rebuild and the second followed by the one write
    of the frame. *)
Lemma schedule_ticking t0 st r :
  kept st None (map (ticking t0) (seq 0 (2 * r))) = None /\
  schedule st None (map (ticking t0) (seq 0 (2 * r)))
  = flat_map (fun j => [Ev_time (ticking t0 (2 * j));
                        Ev_rebuild (ticking t0 (2 * j));
                        Ev_time (ticking t0 (2 * j + 1));
                        Ev_write POINTS_PER_SECOND
                                 (rebuilt_frame (ticking t0 (2 * j)) st)])
             (seq 0 r).
Proof.
  induction r as [|r [IHk IHs]]; [split; reflexivity|].
  replace (2 * S r)%nat with (S (S (2 * r))) by lia.
  rewrite !readings_S, <- !app_assoc, schedule_app, kept_app, IHk, IHs.
  rewrite seq_S, flat_map_app. cbn [flat_map Nat.add app].
  cbn [schedule kept fold_left advance fst snd].
  replace (S (2 * r)) with (2 * r + 1)%nat by lia.
  pose proof (ticking_sec_next t0 (2 * r)) as Hne. apply Z.eqb_neq in Hne.
  rewrite Hne. cbn [app]. split; reflexivity.
Qed.

(** C9, as amended.  Let the clock be any sequence of readings and the
    device one that is never busy forever.  Then the loop takes any number
    of readings, and when it has dealt with them its trace, polls apart, is
    their schedule: a reading taken when no frame is kept is followed by
    the rebuild for that reading; a reading taken while a frame is kept is
    followed by one write of that frame, the frame that a rebuild makes for
    the reading it was rebuilt for, whatever was in the buffer before; and
    the frame is given up, so that the next reading is one for a rebuild,
    exactly when that reading showed another second value.  A frame is
    therefore rebuilt only after a reading with a changed second, and the
    write that follows that reading still sends the old frame.  The polls
    stand between a reading and its write: a busy poll is followed by a
    poll, a ready poll by the write, and there is no write but right after
    a ready poll.  Under the clock that advances one second per reading the
    readings go by pairs: a rebuild for every other reading, and one write
    of its frame after the next reading, which shows the next second. *)
Theorem refresh_loop_cadence (clock : nat -> tm) (status : nat -> Z)
    (st : state) (readings : nat) :
  buffer_ok st ->
  (forall k, exists j, (k <= j)%nat /\ status j <> 0) ->
  exists n m,
    run clock status n (boot st) = Some m /\
    reads m = readings /\
    non_poll (trace m) = schedule st None (map clock (seq 0 readings)) /\
    accepts poll_rule Idle (trace m) = true /\
    (forall t0 r,
       (forall k, clock k = ticking t0 k) -> readings = (2 * r)%nat ->
       non_poll (trace m)
       = flat_map (fun j => [Ev_time (ticking t0 (2 * j));
                             Ev_rebuild (ticking t0 (2 * j));
                             Ev_time (ticking t0 (2 * j + 1));
                             Ev_write POINTS_PER_SECOND
                                      (rebuilt_frame (ticking t0 (2 * j)) st)])
                  (seq 0 r)).
Proof.
  intros Hok Hready.
  destruct (cadence_inv_reach clock status st Hok Hready readings)
    as (n & m & Hrun & Hreads & _ & _ & Htr & Hmon & _).
  exists n, m. split; [exact Hrun|]. split; [exact Hreads|].
  split; [exact Htr|]. split; [unfold accepts; rewrite Hmon; reflexivity|].
  intros t0 r Hclock ->. rewrite Htr.
  rewrite (map_ext clock (ticking t0) Hclock).
  apply schedule_ticking.
Qed.

Lemma refresh_loop_cadence_witness :
  buffer_ok initial_state /\
  (forall k, exists j, (k <= j)%nat /\ always_ready j <> 0) /\
  exists n m,
    run (ticking 11109) always_ready n (boot initial_state) = Some m /\
    reads m = 4%nat /\
    non_poll (trace m)
    = schedule initial_state None (map (ticking 11109) (seq 0 4)) /\
    accepts poll_rule Idle (trace m) = true /\
    (forall t0 r,
       (forall k, ticking 11109 k = ticking t0 k) -> 4%nat = (2 * r)%nat ->
       non_poll (trace m)
       = flat_map (fun j => [Ev_time (ticking t0 (2 * j));
                             Ev_rebuild (ticking t0 (2 * j));
                             Ev_time (ticking t0 (2 * j + 1));
                             Ev_write POINTS_PER_SECOND
                                      (rebuilt_frame (ticking t0 (2 * j))
                                                     initial_state)])
                  (seq 0 r)).
Proof.
  assert (H : buffer_ok initial_state) by buffer_ok_by_computation.
  assert (H' : forall k, exists j, (k <= j)%nat /\ always_ready j <> 0).
  { intros k. exists k. split; [lia|]. unfold always_ready. lia. }
  split; [exact H|]. split; [exact H'|].
  exact (refresh_loop_cadence (ticking 11109) always_ready initial_state 4 H H').
Defined.

(** ** The count of segments and the places of the points of a stroke *)

(** The value of a float in normal form settles its exponent. *)
Lemma mag_normal_bounds m e :
  digits (Zpos m) = F32.prec ->
  (pow2 (e + 23) <= mag m e)%Q /\ (mag m e < pow2 (e + 24))%Q.
Proof.
  intros Hd. pose proof (digits_bounds (Zpos m) ltac:(lia)) as [Hlo Hhi].
  rewrite Hd in Hlo, Hhi. unfold F32.prec in *.
  change (24 - 1) with 23 in Hlo.
  pose proof (pow2_pos e) as He.
  assert (E23 : (pow2 (e + 23) == inject_Z (2 ^ 23) * pow2 e)%Q).
  { rewrite pow2_add, (pow2_Z 23) by lia. ring. }
  assert (E24 : (pow2 (e + 24) == inject_Z (2 ^ 24) * pow2 e)%Q).
  { rewrite pow2_add, (pow2_Z 24) by lia. ring. }
  rewrite E23, E24. unfold mag. split.
  - apply Qmult_le_compat_r; [|apply Qlt_le_weak, He].
    rewrite <- Zle_Qle. exact Hlo.
  - apply Qmult_lt_compat_r; [exact He|].
    rewrite <- Zlt_Qlt. exact Hhi.
Qed.

Lemma exponent_of_value m e a b :
  digits (Zpos m) = F32.prec ->
  (pow2 a <= mag m e)%Q -> (mag m e < pow2 b)%Q ->
  a - 24 < e /\ e < b - 23.
Proof.
  intros Hd Ha Hb. destruct (mag_normal_bounds m e Hd) as [Hlo Hhi].
  split.
  - destruct (Z_lt_le_dec (a - 24) e) as [H|H]; [exact H|exfalso].
    pose proof (pow2_le (e + 24) a ltac:(lia)). lra.
  - destruct (Z_lt_le_dec e (b - 23)) as [H|H]; [exact H|exfalso].
    pose proof (pow2_le b (e + 23) ltac:(lia)). lra.
Qed.

Lemma Qsquare_le (a b : Q) : (0 <= a)%Q -> (a <= b)%Q -> (a * a <= b * b)%Q.
Proof. intros Ha Hab. nra. Qed.

Lemma Qsquare_lt (a b : Q) : (0 <= a)%Q -> (a < b)%Q -> (a * a < b * b)%Q.
Proof. intros Ha Hab. nra. Qed.

(** The square root of a float: the square of the result is the argument
    up to two roundings. *)
Lemma sqrt_value mx ex :
  digits (Zpos mx) = F32.prec -> -100 <= ex <= 100 ->
  exists m e,
    normal F32.prec (F32.sqrt (S754_finite false mx ex)) false m e /\
    (mag mx ex * ((1 - u32) * (1 - u32)) <= mag m e * mag m e)%Q /\
    (mag m e * mag m e <= mag mx ex * ((1 + u32) * (1 + u32)))%Q.
Proof.
  intros Hd Hex.
  assert (Hp : 0 < F32.prec) by reflexivity.
  unfold F32.sqrt. cbn [SFsqrt]. unfold SFsqrt_core_binary.
  rewrite Zdigits2_digits by lia. rewrite Hd. rewrite !Z.div2_div.
  unfold F32.prec in *.
  set (h := (24 + ex + 1) / 2).
  assert (Hh : 2 * h <= 25 + ex <= 2 * h + 1).
  { unfold h. pose proof (Z.div_mod (24 + ex + 1) 2 ltac:(lia)).
    pose proof (Z.mod_pos_bound (24 + ex + 1) 2 ltac:(lia)). lia. }
  assert (Hfexp : SpecFloat.fexp 24 F32.emax h = h - 24).
  { unfold SpecFloat.fexp, SpecFloat.emin, F32.emax. lia. }
  rewrite Hfexp.
  assert (Hhalf : h - 24 <= ex / 2).
  { apply Z.div_le_lower_bound; lia. }
  rewrite Z.min_l by exact Hhalf.
  set (s := ex - 2 * (h - 24)).
  assert (Hs : s = 23 \/ s = 24) by (unfold s; lia).
  assert (H2s : 0 < 2 ^ s) by (apply Z.pow_pos_nonneg; lia).
  assert (Hm' : match s with
                | Zpos _ => Z.shiftl (Zpos mx) s
                | 0 => Zpos mx
                | Zneg _ => 0
                end = Zpos mx * 2 ^ s).
  { destruct Hs as [-> | ->]; rewrite Z.shiftl_mul_pow2 by lia; reflexivity. }
  rewrite Hm'.
  pose proof (digits_bounds (Zpos mx) ltac:(lia)) as [Hlo Hhi]. rewrite Hd in Hlo, Hhi.
  change (24 - 1) with 23 in Hlo.
  set (M := Zpos mx * 2 ^ s) in *.
  assert (HM : 2 ^ 46 <= M < 2 ^ 48).
  { unfold M. destruct Hs as [-> | ->]; lia. }
  pose proof (Z.sqrtrem_spec M ltac:(lia)) as Hsq.
  destruct (Z.sqrtrem M) as [q r]. destruct Hsq as [HMq Hr].
  assert (Hq : 2 ^ 23 <= q < 2 ^ 24) by nia.
  assert (Hdq : digits q = 24).
  { apply digits_unique; lia. }
  set (l := if r =? 0 then loc_Exact
            else loc_Inexact (if r <=? q then Lt else Gt)).
  (* the value of the argument on the grid of the root *)
  assert (Hval : (mag mx ex == inject_Z M * (pow2 (h - 24) * pow2 (h - 24)))%Q).
  { unfold mag, M. rewrite inject_Z_mult, <- pow2_Z by lia.
    rewrite <- pow2_add, <- Qmult_assoc, <- pow2_add.
    replace (s + (h - 24 + (h - 24))) with ex by (unfold s; lia). reflexivity. }
  pose proof (pow2_pos (h - 24)) as Hg.
  destruct (binary_round_aux_value F32.prec F32.emax Hp false q (h - 24) l
              (inject_Z q * pow2 (h - 24))%Q
              ltac:(lia) ltac:(unfold F32.prec; lia)
              ltac:(rewrite f32_emin; unfold F32.prec; lia)
              ltac:(unfold F32.emax; lia))
    as (m & e & Hres & Hdm & He & [_ Hup] & _).
  { split; [apply Qle_refl|].
    apply Qmult_le_compat_r; [|apply Qlt_le_weak, Hg]. rewrite <- Zle_Qle. lia. }
  destruct (binary_round_aux_value F32.prec F32.emax Hp false q (h - 24) l
              (inject_Z (q + 1) * pow2 (h - 24))%Q
              ltac:(lia) ltac:(unfold F32.prec; lia)
              ltac:(rewrite f32_emin; unfold F32.prec; lia)
              ltac:(unfold F32.emax; lia))
    as (m2 & e2 & Hres2 & _ & _ & [Hdown _] & _).
  { split; [|apply Qle_refl].
    apply Qmult_le_compat_r; [|apply Qlt_le_weak, Hg]. rewrite <- Zle_Qle. lia. }
  fold l. change 24 with F32.prec at 1.
  rewrite Hres in Hres2. injection Hres2 as <- <-.
  rewrite f32_u in Hup, Hdown.
  exists m, e. split; [split; assumption|].
  pose proof (mag_pos m e) as Hmag.
  assert (Hq0 : (0 < inject_Z q)%Q).
  { change 0%Q with (inject_Z 0). rewrite <- Zlt_Qlt. lia. }
  assert (Hq1 : (0 < inject_Z (q + 1))%Q).
  { change 0%Q with (inject_Z 0). rewrite <- Zlt_Qlt. lia. }
  set (g := pow2 (h - 24)) in *.
  split.
  - (* from below: ((q + 1) g (1 - u))^2 is above the argument *)
    apply Qle_trans with ((inject_Z (q + 1) * g * (1 - u32))
                          * (inject_Z (q + 1) * g * (1 - u32)))%Q.
    + rewrite Hval.
      setoid_replace (inject_Z (q + 1) * g * (1 - u32) * (inject_Z (q + 1) * g * (1 - u32)))%Q
        with (inject_Z ((q + 1) * (q + 1)) * (g * g) * ((1 - u32) * (1 - u32)))%Q
        using relation Qeq by (rewrite inject_Z_mult; ring).
      apply Qmult_le_compat_r; [|unfold u32; lra].
      apply Qmult_le_compat_r.
      * rewrite <- Zle_Qle. nia.
      * apply Qlt_le_weak, Qmult_lt_0_compat; exact Hg.
    + apply Qsquare_le; [|exact Hdown].
      apply Qmult_le_0_compat; [|unfold u32; lra].
      apply Qlt_le_weak, Qmult_lt_0_compat; assumption.
  - apply Qle_trans with ((inject_Z q * g * (1 + u32)) * (inject_Z q * g * (1 + u32)))%Q.
    + apply Qsquare_le; [lra|exact Hup].
    + rewrite Hval.
      setoid_replace (inject_Z q * g * (1 + u32) * (inject_Z q * g * (1 + u32)))%Q
        with (inject_Z (q * q) * (g * g) * ((1 + u32) * (1 + u32)))%Q
        using relation Qeq by (rewrite inject_Z_mult; ring).
      apply Qmult_le_compat_r; [|unfold u32; lra].
      apply Qmult_le_compat_r.
      * rewrite <- Zle_Qle. nia.
      * apply Qlt_le_weak, Qmult_lt_0_compat; exact Hg.
Qed.

Lemma square_abs a : Z.abs a * Z.abs a = a * a.
Proof. lia. Qed.

(** The sum of the squares of the two extents of a stroke. *)
Lemma squares_sum a b :
  Z.abs a <= 4095 -> Z.abs b <= 4095 -> a <> 0 \/ b <> 0 ->
  exists m e,
    normal F32.prec
           (F32.add (F32.mul (F32.of_int a) (F32.of_int a))
                    (F32.mul (F32.of_int b) (F32.of_int b))) false m e /\
    -23 <= e <= 2 /\
    (inject_Z (a * a + b * b) * (1 - u32) <= mag m e
     <= inject_Z (a * a + b * b) * (1 + u32))%Q.
Proof.
  intros Ha Hb Hne.
  assert (Hsq : forall c, c <> 0 -> Z.abs c <= 4095 ->
            F32.mul (F32.of_int c) (F32.of_int c) = norm_int false (c * c) /\
            0 < c * c < 2 ^ 24).
  { intros c Hc Hle. rewrite (of_int_norm c) by lia.
    rewrite mul_square by lia. rewrite square_abs. split; [reflexivity|].
    rewrite <- square_abs. apply square_lt. lia. }
  assert (Hone : forall N, 0 < N < 2 ^ 24 ->
            exists m e, normal F32.prec (norm_int false N) false m e /\
                        -23 <= e <= 0 /\ (mag m e == inject_Z N)%Q).
  { intros N HN. eexists _, _. split; [apply norm_int_normal, HN|].
    split; [|apply mag_norm_int, HN].
    pose proof (digits_le_prec N HN). unfold F32.prec. lia. }
  destruct (Z.eq_dec a 0) as [->|Ha0]; [|destruct (Z.eq_dec b 0) as [->|Hb0]].
  - destruct Hne as [Hne|Hne]; [congruence|].
    destruct (Hsq b Hne Hb) as [-> HN].
    change (F32.mul (F32.of_int 0) (F32.of_int 0)) with (S754_zero false).
    unfold norm_int at 1. unfold F32.add. cbn [SFadd]. fold (norm_int false (b * b)).
    destruct (Hone _ HN) as (m & e & Hn & He & Hv).
    exists m, e. split; [exact Hn|]. split; [lia|].
    rewrite Hv. change (0 * 0 + b * b) with (b * b).
    assert (0 <= inject_Z (b * b))%Q by (change 0%Q with (inject_Z 0); rewrite <- Zle_Qle; lia).
    unfold u32. lra.
  - destruct (Hsq a Ha0 Ha) as [-> HN].
    change (F32.mul (F32.of_int 0) (F32.of_int 0)) with (S754_zero false).
    unfold norm_int at 1. unfold F32.add. cbn [SFadd]. fold (norm_int false (a * a)).
    destruct (Hone _ HN) as (m & e & Hn & He & Hv).
    exists m, e. split; [exact Hn|]. split; [lia|].
    rewrite Hv. rewrite Z.add_0_r.
    assert (0 <= inject_Z (a * a))%Q by (change 0%Q with (inject_Z 0); rewrite <- Zle_Qle; lia).
    unfold u32. lra.
  - destruct (Hsq a Ha0 Ha) as [-> HNa]. destruct (Hsq b Hb0 Hb) as [-> HNb].
    destruct (Hone _ HNa) as (ma & ea & Hna & Hea & Hva).
    destruct (Hone _ HNb) as (mb & eb & Hnb & Heb & Hvb).
    assert (Hp : 0 < F32.prec) by reflexivity.
    assert (He : 2 <= F32.emax) by (unfold F32.emax; lia).
    assert (HA : (1 <= inject_Z (a * a) <= 16769025)%Q).
    { change 1%Q with (inject_Z 1). change 16769025%Q with (inject_Z (4095 * 4095)).
      rewrite <- !Zle_Qle. nia. }
    assert (HB : (1 <= inject_Z (b * b) <= 16769025)%Q).
    { change 1%Q with (inject_Z 1). change 16769025%Q with (inject_Z (4095 * 4095)).
      rewrite <- !Zle_Qle. nia. }
    destruct (add_value F32.prec F32.emax Hp He _ false ma ea _ false mb eb
                Hna Hnb ltac:(rewrite f32_emin; unfold F32.prec; lia)
                ltac:(unfold F32.prec, F32.emax; lia))
      as [[HT _]|[(m & e & Hn & HT & Hv)|(m & e & _ & HT & _)]].
    + exfalso. destruct Hna as [Hfa _]. destruct Hnb as [Hfb _].
      rewrite Hfa, Hfb in HT. cbn [val] in HT. rewrite Hva, Hvb in HT. lra.
    + destruct Hna as [Hfa _]. destruct Hnb as [Hfb _].
      rewrite Hfa, Hfb in Hv, HT. cbn [val] in Hv, HT.
      rewrite f32_u in Hv. rewrite Hva, Hvb in Hv.
      rewrite <- inject_Z_plus in Hv.
      exists m, e. split; [exact Hn|]. split; [|exact Hv].
      destruct Hn as [_ Hdm].
      destruct (exponent_of_value m e 0 26 Hdm) as [H1 H2].
      * rewrite pow2_0. rewrite inject_Z_plus in Hv. unfold u32 in Hv. lra.
      * rewrite (pow2_Z 26) by lia. change (inject_Z (2 ^ 26)) with 67108864%Q.
        rewrite inject_Z_plus in Hv. unfold u32 in Hv. lra.
      * lia.
    + exfalso. destruct Hna as [Hfa _]. destruct Hnb as [Hfb _].
      rewrite Hfa, Hfb in HT. cbn [val] in HT. rewrite Hva, Hvb in HT. lra.
Qed.

(** The count of segments of a stroke between two points of the device
    range under a divider between [1/256] and [2^100]: the ceiling of the
    quotient of the length by the divider, the square of the length taken
    with a relative error of at most [2^-20]. *)
Lemma segments_near a b mv ev :
  Z.abs a <= 4095 -> Z.abs b <= 4095 -> a <> 0 \/ b <> 0 ->
  digits (Zpos mv) = F32.prec ->
  (1 # 256 <= mag mv ev)%Q -> (mag mv ev <= inject_Z (2 ^ 100))%Q ->
  exists c,
    segments (F32.of_int a) (F32.of_int b) (S754_finite false mv ev) = c /\
    1 <= c <= 2 ^ 22 /\
    ((inject_Z c - 1) * mag mv ev * ((inject_Z c - 1) * mag mv ev)
     < inject_Z (a * a + b * b) * (1 + (1 # 1048576)))%Q /\
    (inject_Z (a * a + b * b) * (1 - (1 # 1048576))
     <= inject_Z c * mag mv ev * (inject_Z c * mag mv ev))%Q.
Proof.
  intros Ha Hb Hne Hdv Hv1 Hv2.
  assert (Hp : 0 < F32.prec) by reflexivity.
  assert (He : 2 <= F32.emax) by (unfold F32.emax; lia).
  destruct (squares_sum a b Ha Hb Hne) as (mw & ew & Hnw & Hew & HW).
  destruct (sqrt_value mw ew (proj2 Hnw) ltac:(lia)) as (mr & er & Hnr & HR1 & HR2).
  set (S := inject_Z (a * a + b * b)) in *.
  assert (HS : (1 <= S <= 33538050)%Q).
  { unfold S. change 1%Q with (inject_Z 1).
    change 33538050%Q with (inject_Z (2 * (4095 * 4095))).
    rewrite <- !Zle_Qle. nia. }
  pose proof (mag_pos mr er) as HRpos.
  pose proof (mag_pos mv ev) as Hvpos.
  set (W := mag mw ew) in *. set (R := mag mr er) in *. set (v := mag mv ev) in *.
  (* the size of the root *)
  assert (HRR : (1 # 2 <= R * R)%Q /\ (R * R <= 40000000)%Q).
  { revert HR1 HR2 HW HS. generalize (R * R)%Q. intros R2 HR1 HR2 HW HS.
    unfold u32 in *. split; lra. }
  assert (HRlo : (1 # 2 <= R)%Q) by nra.
  assert (HRhi : (R < 8192)%Q) by nra.
  destruct (exponent_of_value mr er (-1) 13 (proj2 Hnr)) as [Her1 Her2].
  { change (pow2 (-1)) with (1 # 2)%Q. exact HRlo. }
  { rewrite (pow2_Z 13) by lia. change (inject_Z (2 ^ 13)) with 8192%Q. exact HRhi. }
  destruct (exponent_of_value mv ev (-8) 101 Hdv) as [Hev1 Hev2].
  { change (pow2 (-8)) with (1 # 256)%Q. exact Hv1. }
  { rewrite (pow2_Z 101) by lia. eapply Qle_lt_trans; [exact Hv2|].
    rewrite <- Zlt_Qlt. lia. }
  (* the quotient *)
  assert (HX : (R / v * v == R)%Q) by (field; lra).
  destruct (div_value F32.prec F32.emax Hp _ false mr er _ false mv ev (R / v)%Q
              Hnr (conj eq_refl Hdv)
              ltac:(rewrite f32_emin; unfold F32.prec; lia)
              ltac:(unfold F32.prec, F32.emax; lia) HX)
    as (mq & eq & Hnq & _ & HQ).
  cbn [xorb] in Hnq. rewrite f32_u in HQ.
  pose proof (mag_pos mq eq) as HQpos.
  set (Qv := mag mq eq) in *.
  assert (HQv : (R * (1 - u32) <= Qv * v)%Q /\ (Qv * v <= R * (1 + u32))%Q).
  { destruct HQ as [HQ1 HQ2]. split.
    - apply Qle_trans with (R / v * (1 - u32) * v)%Q.
      + setoid_replace (R / v * (1 - u32) * v)%Q with (R * (1 - u32))%Q
          using relation Qeq by (field; lra). apply Qle_refl.
      + apply Qmult_le_compat_r; [exact HQ1|lra].
    - apply Qle_trans with (R / v * (1 + u32) * v)%Q.
      + apply Qmult_le_compat_r; [exact HQ2|lra].
      + setoid_replace (R / v * (1 + u32) * v)%Q with (R * (1 + u32))%Q
          using relation Qeq by (field; lra). apply Qle_refl. }
  assert (HQhi : (Qv < 4194304)%Q).
  { assert (H : (Qv * (1 # 256) <= Qv * v)%Q).
    { rewrite !(Qmult_comm Qv). apply Qmult_le_compat_r; [exact Hv1|lra]. }
    unfold u32 in *. lra. }
  destruct (exponent_of_value mq eq (eq + 23) 22 (proj2 Hnq)) as [_ Heq].
  { apply (mag_normal_bounds mq eq (proj2 Hnq)). }
  { rewrite (pow2_Z 22) by lia. change (inject_Z (2 ^ 22)) with 4194304%Q. exact HQhi. }
  destruct eq as [|pe|pe]; try lia.
  destruct (ceil_spec mq pe) as (c & Hc1 & Hcb & Hres).
  destruct (ceil_bounds_Q mq pe c Hcb) as [Hclo Hchi]. fold Qv in Hclo, Hchi.
  assert (Hc22 : c <= 2 ^ 22).
  { assert (H : (inject_Z c < inject_Z (2 ^ 22 + 1))%Q).
    { change (inject_Z (2 ^ 22 + 1)) with 4194305%Q. lra. }
    rewrite <- Zlt_Qlt in H. lia. }
  exists c. split.
  { unfold segments. cbv zeta.
    rewrite (proj1 Hnw). unfold F32.div. rewrite (proj1 Hnq).
    apply Hres. lia. }
  split; [lia|].
  set (C := inject_Z c) in *.
  assert (HC1 : (1 <= C)%Q).
  { unfold C. change 1%Q with (inject_Z 1). rewrite <- Zle_Qle. exact Hc1. }
  assert (Hu5a : ((1 + u32) * (1 + u32) * ((1 + u32) * (1 + u32)) * (1 + u32)
                  <= 1 + (1 # 1048576))%Q) by (unfold u32; lra).
  assert (Hu5b : (1 - (1 # 1048576)
                  <= (1 - u32) * (1 - u32) * ((1 - u32) * (1 - u32)) * (1 - u32))%Q)
    by (unfold u32; lra).
  split.
  - (* (c - 1) v < Qv v <= R (1 + u) *)
    assert (H1 : ((C - 1) * v * ((C - 1) * v) < Qv * v * (Qv * v))%Q).
    { apply Qsquare_lt.
      - apply Qmult_le_0_compat; lra.
      - apply Qmult_lt_compat_r; lra. }
    assert (H2 : (Qv * v * (Qv * v) <= R * (1 + u32) * (R * (1 + u32)))%Q).
    { apply Qsquare_le; [|apply HQv]. apply Qmult_le_0_compat; lra. }
    assert (H3 : (R * (1 + u32) * (R * (1 + u32))
                  == R * R * ((1 + u32) * (1 + u32)))%Q) by ring.
    rewrite H3 in H2. clear H3.
    revert H1 H2 HR2 HW HS Hu5a.
    generalize ((C - 1) * v * ((C - 1) * v))%Q (Qv * v * (Qv * v))%Q (R * R)%Q.
    intros P1 P2 P3 H1 H2 HR2 HW HS Hu5a. unfold u32 in *. lra.
  - assert (H1 : (Qv * v * (Qv * v) <= C * v * (C * v))%Q).
    { apply Qsquare_le.
      - apply Qmult_le_0_compat; lra.
      - apply Qmult_le_compat_r; lra. }
    assert (H2 : (R * (1 - u32) * (R * (1 - u32)) <= Qv * v * (Qv * v))%Q).
    { apply Qsquare_le; [|apply HQv]. apply Qmult_le_0_compat; unfold u32; lra. }
    assert (H3 : (R * (1 - u32) * (R * (1 - u32))
                  == R * R * ((1 - u32) * (1 - u32)))%Q) by ring.
    rewrite H3 in H2. clear H3.
    revert H1 H2 HR1 HW HS Hu5b.
    generalize (C * v * (C * v))%Q (Qv * v * (Qv * v))%Q (R * R)%Q.
    intros P1 P2 P3 H1 H2 HR1 HW HS Hu5b. unfold u32 in *. lra.
Qed.

Lemma floor_close (v t : Q) (eps : Q) :
  (t - eps <= v)%Q -> (v <= t + eps)%Q ->
  (t - 1 - eps < inject_Z (Qfloor v))%Q /\ (inject_Z (Qfloor v) <= t + eps)%Q.
Proof.
  intros Hlo Hhi. pose proof (Qfloor_le v) as H1. pose proof (Qlt_floor v) as H2.
  rewrite inject_Z_plus in H2. change (inject_Z 1) with 1%Q in H2. split; lra.
Qed.

(** The [i]-th interpolated coordinate of a stroke between two points of
    the device range is the coordinate at [i/n] of the way, cut down to a
    whole number, up to the rounding of the three operations. *)
Lemma interpolate_near xs x n i :
  0 <= xs <= 4095 -> 0 <= x <= 4095 -> 1 <= i <= n -> n <= 2 ^ 23 ->
  (inject_Z xs + inject_Z (x - xs) * inject_Z i / inject_Z n - 1 - (1 # 512)
   < inject_Z (interpolate xs (F32.of_int (x - xs)) n i))%Q /\
  (inject_Z (interpolate xs (F32.of_int (x - xs)) n i)
   <= inject_Z xs + inject_Z (x - xs) * inject_Z i / inject_Z n + (1 # 512))%Q.
Proof.
  intros Hxs Hx Hi Hn.
  assert (HN : (1 <= inject_Z n)%Q).
  { change 1%Q with (inject_Z 1). rewrite <- Zle_Qle. lia. }
  assert (HI : (1 <= inject_Z i)%Q /\ (inject_Z i <= inject_Z n)%Q).
  { change 1%Q with (inject_Z 1). rewrite <- !Zle_Qle. lia. }
  pose proof (inject_Z_bounds xs 0 4095 Hxs) as Hxs0.
  change (inject_Z 0) with 0%Q in Hxs0. change (inject_Z 4095) with 4095%Q in Hxs0.
  destruct (Z.eq_dec (x - xs) 0) as [Ha0|Ha0].
  { rewrite Ha0. rewrite interpolate_still by (unfold Int32.max_signed; lia).
    setoid_replace (inject_Z 0 * inject_Z i / inject_Z n)%Q with 0%Q
      using relation Qeq by (change (inject_Z 0) with 0%Q; field; lra).
    split; lra. }
  unfold interpolate, F32.to_int, F32.add, F32.mul, F32.div, F32.of_int.
  assert (Hp : 0 < F32.prec) by reflexivity.
  assert (He : 2 <= F32.emax) by (unfold F32.emax; lia).
  (* the floats of n and i *)
  assert (Hwhole : forall k, 1 <= k <= 2 ^ 23 ->
            exists mk ek, normal F32.prec (FP.of_int F32.prec F32.emax k) false mk ek /\
                          -23 <= ek <= 0 /\ (mag mk ek == inject_Z k)%Q).
  { intros k Hk.
    assert (Hd : 1 <= digits (Z.abs k) <= 24).
    { rewrite Z.abs_eq by lia. split; [pose proof (digits_pos k); lia|].
      apply digits_le_of_lt; lia. }
    destruct (of_int_value F32.prec F32.emax Hp He k ltac:(lia)
                ltac:(unfold F32.emax; lia))
      as (mk & ek & Hnk & _ & _ & Hxk).
    destruct (Hxk ltac:(unfold F32.prec; lia)) as (_ & Hek & Hvk).
    replace (k <? 0) with false in Hnk by (symmetry; apply Z.ltb_ge; lia).
    rewrite (Z.abs_eq k) in Hvk by lia.
    exists mk, ek. split; [exact Hnk|]. split; [unfold F32.prec in *; lia|exact Hvk]. }
  destruct (Hwhole n ltac:(lia)) as (mn & en & Hnn & Hen & Hvn).
  destruct (Hwhole i ltac:(lia)) as (mi & ei & Hni & Hei & Hvi).
  (* the float of the extent *)
  set (a := x - xs) in *.
  assert (Hda : 1 <= digits (Z.abs a) <= 12).
  { split; [pose proof (digits_pos (Z.abs a)); lia|].
    apply digits_le_of_lt; unfold a; lia. }
  destruct (of_int_value F32.prec F32.emax Hp He a Ha0
              ltac:(unfold F32.emax; lia))
    as (ma & ea & Hna & _ & _ & Hxact).
  destruct (Hxact ltac:(unfold F32.prec; lia)) as (_ & Hea & Hva).
  set (A := inject_Z (Z.abs a)) in *.
  assert (HA : (1 <= A <= 4095)%Q).
  { unfold A. split.
    - change 1%Q with (inject_Z 1). rewrite <- Zle_Qle. lia.
    - change 4095%Q with (inject_Z 4095). rewrite <- Zle_Qle. unfold a. lia. }
  (* the quotient and the product *)
  assert (HX : (A / inject_Z n * mag mn en == mag ma ea)%Q).
  { rewrite Hva, Hvn. field. lra. }
  destruct (div_value F32.prec F32.emax Hp _ (a <? 0) ma ea _ false mn en _
              Hna Hnn ltac:(rewrite f32_emin; unfold F32.prec in *; lia)
              ltac:(unfold F32.prec, F32.emax in *; lia) HX)
    as (mq & eq & Hnq & Heq & Hvq).
  rewrite xorb_false_r in Hnq.
  destruct (mul_value F32.prec F32.emax Hp He _ (a <? 0) mq eq _ false mi ei
              Hnq Hni ltac:(rewrite f32_emin; unfold F32.prec in *; lia)
              ltac:(unfold F32.prec, F32.emax in *; lia))
    as (mp & ep & Hnp & Hep & Hvp & _).
  rewrite xorb_false_r in Hnp.
  rewrite f32_u in Hvq, Hvp. rewrite Hvi in Hvp.
  set (T := (A * inject_Z i / inject_Z n)%Q).
  assert (HT : (0 < T)%Q /\ (T <= A)%Q).
  { unfold T. split.
    - apply Qlt_shift_div_l; [lra|]. rewrite Qmult_0_l.
      apply Qmult_lt_0_compat; lra.
    - apply Qle_shift_div_r; [lra|].
      rewrite !(Qmult_comm A). apply Qmult_le_compat_r; lra. }
  assert (HW : (T * (1 - u32) <= mag mq eq * inject_Z i)%Q /\
               (mag mq eq * inject_Z i <= T * (1 + u32))%Q).
  { destruct Hvq as [Hq1 Hq2]. split.
    - setoid_replace (T * (1 - u32))%Q with (A / inject_Z n * (1 - u32) * inject_Z i)%Q
        using relation Qeq by (unfold T; field; lra).
      apply Qmult_le_compat_r; [exact Hq1|lra].
    - setoid_replace (T * (1 + u32))%Q with (A / inject_Z n * (1 + u32) * inject_Z i)%Q
        using relation Qeq by (unfold T; field; lra).
      apply Qmult_le_compat_r; [exact Hq2|lra]. }
  pose proof (mag_pos mp ep) as Hmagp.
  assert (HP : (T - (1 # 1024) <= mag mp ep)%Q /\ (mag mp ep <= T + (1 # 1024))%Q).
  { revert HW Hvp HT HA. generalize (mag mq eq * inject_Z i)%Q (mag mp ep) T.
    intros W P T' HW Hvp HT HA. unfold u32 in *. split; lra. }
  clear HW Hvp Hvq HX.
  (* the place at i/n of the way *)
  assert (Hsigned : (inject_Z a * inject_Z i / inject_Z n
                     == if a <? 0 then - T else T)%Q).
  { unfold T, A. destruct (a <? 0) eqn:E.
    - apply Z.ltb_lt in E. rewrite Z.abs_neq by lia. rewrite inject_Z_opp.
      field. lra.
    - apply Z.ltb_ge in E. rewrite Z.abs_eq by lia. reflexivity. }
  rewrite Hsigned.
  assert (HAa : (A == if a <? 0 then - inject_Z a else inject_Z a)%Q).
  { unfold A. destruct (a <? 0) eqn:E.
    - apply Z.ltb_lt in E. rewrite Z.abs_neq by lia. rewrite inject_Z_opp. reflexivity.
    - apply Z.ltb_ge in E. rewrite Z.abs_eq by lia. reflexivity. }
  assert (HxQ : (inject_Z x == inject_Z xs + inject_Z a)%Q).
  { rewrite <- inject_Z_plus. replace (xs + a) with x by (unfold a; lia). reflexivity. }
  pose proof (inject_Z_bounds x 0 4095 Hx) as Hx0.
  change (inject_Z 0) with 0%Q in Hx0. change (inject_Z 4095) with 4095%Q in Hx0.
  destruct Hnp as [Hp_eq Hdp]. rewrite Hp_eq.
  destruct (Z.eq_dec xs 0) as [Hxs_0|Hxs_ne].
  - (* from the left edge: the product itself is converted *)
    subst xs. change (FP.of_int F32.prec F32.emax 0) with (S754_zero false).
    cbn [SFadd].
    assert (Hapos : (a <? 0) = false) by (apply Z.ltb_ge; unfold a; lia).
    rewrite Hapos in *.
    destruct (floor_close (mag mp ep) T (1 # 1024)) as [F1 F2]; [lra|lra|].
    rewrite to_int_finite.
    + cbn [cond_Zopp]. change (inject_Z 0) with 0%Q. split; lra.
    + assert (H : (inject_Z (Qfloor (mag mp ep)) < inject_Z 4097)%Q).
      { change (inject_Z 4097) with 4097%Q. lra. }
      rewrite <- Zlt_Qlt in H. unfold Int32.max_signed. lia.
  - (* the sum *)
    assert (HXS : exists ms es,
               normal F32.prec (FP.of_int F32.prec F32.emax xs) false ms es /\
               -23 <= es <= 0 /\ (mag ms es == inject_Z xs)%Q).
    { apply Hwhole. lia. }
    destruct HXS as (ms & es & Hns & Hes & Hvs).
    assert (Hxs1 : (1 <= inject_Z xs)%Q).
    { change 1%Q with (inject_Z 1). rewrite <- Zle_Qle. lia. }
    assert (Hval_p : (val (S754_finite (a <? 0) mp ep)
                      == if a <? 0 then - mag mp ep else mag mp ep)%Q)
      by reflexivity.
    destruct (add_value F32.prec F32.emax Hp He _ false ms es _ (a <? 0) mp ep
                Hns (conj eq_refl Hdp)
                ltac:(rewrite f32_emin; unfold F32.prec in *; lia)
                ltac:(unfold F32.prec, F32.emax in *; lia))
      as [[HS ->]|[(mr & er & [-> Hdr] & HS & Hvr)|(mr & er & [-> Hdr] & HS & Hvr)]].
    + (* the sum is zero *)
      cbn [FP.to_int]. destruct Hns as [Hns_eq _]. rewrite Hns_eq in HS.
      rewrite Hval_p in HS. cbn [val] in HS. rewrite Hvs in HS.
      change (inject_Z 0) with 0%Q. destruct (a <? 0); split; lra.
    + destruct Hns as [Hns_eq _]. rewrite Hns_eq in HS, Hvr.
      rewrite Hval_p in HS, Hvr. cbn [val] in HS, Hvr. rewrite Hvs in HS, Hvr.
      rewrite f32_u in Hvr.
      pose proof (mag_pos mr er) as Hmagr.
      assert (HR : ((inject_Z xs + (if a <? 0 then - T else T)) - (1 # 512)
                    <= mag mr er)%Q /\
                   (mag mr er
                    <= (inject_Z xs + (if a <? 0 then - T else T)) + (1 # 512))%Q).
      { revert HS Hvr. generalize (mag mr er). intros R HS Hvr.
        unfold u32 in *. destruct (a <? 0); split; lra. }
      destruct (floor_close (mag mr er) _ (1 # 512) (proj1 HR) (proj2 HR)) as [F1 F2].
      rewrite to_int_finite.
      * cbn [cond_Zopp]. split; [exact F1|exact F2].
      * assert (H : (inject_Z (Qfloor (mag mr er)) < inject_Z 4097)%Q).
        { change (inject_Z 4097) with 4097%Q. destruct (a <? 0); lra. }
        rewrite <- Zlt_Qlt in H. unfold Int32.max_signed. lia.
    + destruct Hns as [Hns_eq _]. rewrite Hns_eq in HS, Hvr.
      rewrite Hval_p in HS, Hvr. cbn [val] in HS, Hvr. rewrite Hvs in HS, Hvr.
      rewrite f32_u in Hvr.
      pose proof (mag_pos mr er) as Hmagr.
      assert (HR : (mag mr er < 1)%Q).
      { revert HS Hvr. generalize (mag mr er). intros R HS Hvr.
        unfold u32 in *. destruct (a <? 0); lra. }
      assert (Hfl : Qfloor (mag mr er) = 0).
      { pose proof (floor_nonneg (mag mr er) ltac:(lra)).
        pose proof (Qfloor_le (mag mr er)) as Hle.
        assert (H0 : (inject_Z (Qfloor (mag mr er)) < inject_Z 1)%Q).
        { change (inject_Z 1) with 1%Q. lra. }
        rewrite <- Zlt_Qlt in H0. lia. }
      rewrite to_int_finite by (rewrite Hfl; unfold Int32.max_signed; lia).
      rewrite Hfl. cbn [cond_Zopp]. change (inject_Z (- 0)) with 0%Q.
      destruct (a <? 0); split; lra.
Qed.

(** A [float] of at least [1/256] is a positive number in normal form. *)
Lemma valid_normal f :
  valid_binary F32.prec F32.emax f = true -> (1 # 256 <= val f)%Q ->
  exists m e, f = S754_finite false m e /\ digits (Zpos m) = F32.prec.
Proof.
  intros Hvalid Hv. destruct f as [s| | |s m e]; cbn [val] in Hv; try lra.
  pose proof (mag_pos m e) as Hm.
  destruct s; [lra|]. exists m, e. split; [reflexivity|].
  cbn [valid_binary] in Hvalid. unfold bounded, canonical_mantissa in Hvalid.
  apply andb_true_iff in Hvalid. destruct Hvalid as [Hc _].
  apply Z.eqb_eq in Hc.
  change (Zpos (digits2_pos m)) with (Zdigits2 (Zpos m)) in Hc.
  rewrite Zdigits2_digits in Hc by lia.
  unfold SpecFloat.fexp, SpecFloat.emin, F32.prec, F32.emax in *.
  destruct (Z_le_gt_dec (digits (Zpos m)) 24) as [Hle|Hgt]; [|lia].
  destruct (Z.eq_dec (digits (Zpos m)) 24) as [E|E]; [exact E|exfalso].
  assert (He : e = -149) by lia. subst e.
  pose proof (digits_bounds (Zpos m) ltac:(lia)) as [_ Hhi].
  assert (H24 : Zpos m < 2 ^ 24).
  { eapply Z.lt_le_trans; [exact Hhi|]. apply Z.pow_le_mono_r; lia. }
  assert (HQ : (mag m (-149) < inject_Z (2 ^ 24) * pow2 (-149))%Q).
  { unfold mag. apply Qmult_lt_compat_r; [apply pow2_pos|].
    rewrite <- Zlt_Qlt. exact H24. }
  assert (Hsmall : (inject_Z (2 ^ 24) * pow2 (-149) <= 1 # 256)%Q).
  { rewrite <- (pow2_Z 24), <- pow2_add by lia.
    change (1 # 256)%Q with (pow2 (-8)). apply pow2_le. lia. }
  lra.
Qed.

(** C1, as amended.  For a move with a color above 0 whose points all fit
    in the buffer, [DrawLineTo] appends exactly [n] intermediate points and
    then the dwell points, [n] being the count the program computes in
    single precision; it is 0, not 1, when the destination is the pen
    position.  Between two points of the device range and under a divider
    (a valid [float]) from [1/256] to [2^100], [n] is the ceiling of the
    length of the stroke over the divider up to rounding: [n] times the
    divider reaches the length, and [n - 1] times the divider stays below
    it, the square of the length being taken with a relative error of at
    most [2^-20] either way.  The points are evenly spaced: the [i]-th one
    is the point at [i/n] of the way from the pen position to the
    destination, each coordinate cut down to a whole number, up to a
    rounding error of [1/512]; and the last one is the destination or one
    unit short of it on either axis. *)
Theorem DrawLineTo_interpolation (x y c : Z) (st : state) :
  let x_length := F32.of_int (x - x_start st)%i32 in
  let y_length := F32.of_int (y - y_start st)%i32 in
  let n := segments x_length y_length (divider st) in
  let pts := map (fun i => point_of (interpolate (x_start st) x_length n i)
                                    (interpolate (y_start st) y_length n i) c)
                 (seqZ 1 n) in
  let dist2 := inject_Z ((x - x_start st) * (x - x_start st)
                         + (y - y_start st) * (y - y_start st)) in
  let step := val (divider st) in
  let at_x (i : Z) :=
    (inject_Z (x_start st) + inject_Z (x - x_start st) * inject_Z i / inject_Z n)%Q in
  let at_y (i : Z) :=
    (inject_Z (y_start st) + inject_Z (y - y_start st) * inject_Z i / inject_Z n)%Q in
  buffer_ok st -> 0 < c ->
  num_points st + Z.max 0 n + Z.max 0 (dwell st) <= MAX_POINTS ->
  exists r st',
    DrawLineTo x y c st = Some (r, st') /\
    frame st' = frame st ++ pts ++ replicate (Z.to_nat (dwell st)) (point_of x y c) /\
    length pts = Z.to_nat n /\
    (x = x_start st -> y = y_start st ->
     (exists s m e, divider st = S754_finite s m e) -> n = 0) /\
    (0 <= x_start st <= 4095 -> 0 <= y_start st <= 4095 ->
     0 <= x <= 4095 -> 0 <= y <= 4095 ->
     valid_binary F32.prec F32.emax (divider st) = true ->
     (1 # 256 <= step)%Q -> (step <= inject_Z (2 ^ 100))%Q ->
     0 <= n /\
     (1 <= n ->
      ((inject_Z n - 1) * step * ((inject_Z n - 1) * step)
       < dist2 * (1 + (1 # 1048576)))%Q) /\
     (dist2 * (1 - (1 # 1048576)) <= inject_Z n * step * (inject_Z n * step))%Q /\
     (forall i p,
        1 <= i <= n -> pts !! Z.to_nat (i - 1) = Some p ->
        (at_x i - 1 - (1 # 512) < inject_Z (pt_x p))%Q /\
        (inject_Z (pt_x p) <= at_x i + (1 # 512))%Q /\
        (at_y i - 1 - (1 # 512) < inject_Z (pt_y p))%Q /\
        (inject_Z (pt_y p) <= at_y i + (1 # 512))%Q) /\
     (1 <= n ->
      exists p, last pts = Some p /\
                x - 1 <= pt_x p <= x /\ y - 1 <= pt_y p <= y)).
Proof.
  intros x_length y_length n pts dist2 step at_x at_y Hok Hc Hroom.
  assert (Hcalls : stroke_calls x y c st
                   = map (fun i => (interpolate (x_start st) x_length n i,
                                    interpolate (y_start st) y_length n i, c))
                         (seqZ 1 n)).
  { unfold stroke_calls. fold x_length y_length n.
    replace (0 <? c) with true by (symmetry; apply Z.ltb_lt; exact Hc).
    reflexivity. }
  assert (Hdwell : dwell_calls x y c st = replicate (Z.to_nat (dwell st)) (x, y, c)).
  { unfold dwell_calls.
    replace (c =? 0) with false by (symmetry; apply Z.eqb_neq; lia). reflexivity. }
  assert (Hlen : length pts = Z.to_nat n).
  { unfold pts. rewrite length_map, length_seqZ. reflexivity. }
  rewrite DrawLineTo_spec by assumption.
  destruct (line_result_frame x y c st Hok) as (Hf & _ & _).
  rewrite take_ge in Hf.
  2:{ rewrite length_app, Hcalls, Hdwell, length_map, length_seqZ, length_replicate. lia. }
  destruct (line_result x y c st) as [r st']. cbn [snd] in Hf.
  exists r, st'. split; [reflexivity|].
  split.
  { rewrite Hf, map_app, Hcalls, Hdwell, map_map_point, map_replicate. reflexivity. }
  split; [exact Hlen|].
  assert (Hzero : x = x_start st -> y = y_start st ->
                  (exists s m e, divider st = S754_finite s m e) -> n = 0).
  { intros Hx Hy (s & m & e & Hdv).
    unfold n, x_length, y_length. rewrite Hdv, Hx, Hy.
    unfold Int32.sub. rewrite !Z.sub_diag. apply segments_zero. }
  split; [exact Hzero|].
  intros Hxs Hys Hx Hy Hvalid Hstep1 Hstep2.
  destruct (valid_normal (divider st) Hvalid Hstep1) as (mv & ev & Hdv & Hdm).
  assert (Hstep : step = mag mv ev) by (unfold step; rewrite Hdv; reflexivity).
  (* the count *)
  assert (Hcount : 0 <= n <= 2 ^ 22 /\
            (1 <= n ->
             ((inject_Z n - 1) * step * ((inject_Z n - 1) * step)
              < dist2 * (1 + (1 # 1048576)))%Q) /\
            (dist2 * (1 - (1 # 1048576))
             <= inject_Z n * step * (inject_Z n * step))%Q).
  { destruct (Z.eq_dec x (x_start st)) as [Ex|Ex];
      [destruct (Z.eq_dec y (y_start st)) as [Ey|Ey]|].
    - rewrite (Hzero Ex Ey ltac:(eauto)).
      split; [lia|]. split; [lia|].
      unfold dist2. rewrite Ex, Ey, !Z.sub_diag.
      change (inject_Z (0 * 0 + 0 * 0)) with 0%Q. change (inject_Z 0) with 0%Q. lra.
    - destruct (segments_near (x - x_start st) (y - y_start st) mv ev
                  ltac:(lia) ltac:(lia) ltac:(lia) Hdm
                  ltac:(rewrite <- Hstep; exact Hstep1)
                  ltac:(rewrite <- Hstep; exact Hstep2))
        as (k & Hk & Hk1 & Hk2 & Hk3).
      assert (En : n = k).
      { unfold n, x_length, y_length. rewrite Hdv, !sub_in_range by assumption.
        exact Hk. }
      rewrite En, Hstep. split; [lia|]. split; [intros _; exact Hk2|exact Hk3].
    - destruct (segments_near (x - x_start st) (y - y_start st) mv ev
                  ltac:(lia) ltac:(lia) ltac:(lia) Hdm
                  ltac:(rewrite <- Hstep; exact Hstep1)
                  ltac:(rewrite <- Hstep; exact Hstep2))
        as (k & Hk & Hk1 & Hk2 & Hk3).
      assert (En : n = k).
      { unfold n, x_length, y_length. rewrite Hdv, !sub_in_range by assumption.
        exact Hk. }
      rewrite En, Hstep. split; [lia|]. split; [intros _; exact Hk2|exact Hk3]. }
  destruct Hcount as (Hn & Hc1 & Hc2).
  split; [lia|]. split; [exact Hc1|]. split; [exact Hc2|].
  assert (Hpoint : forall i, 1 <= i <= n ->
            pt_x (point_of (interpolate (x_start st) x_length n i)
                           (interpolate (y_start st) y_length n i) c)
            = interpolate (x_start st) (F32.of_int (x - x_start st)) n i /\
            pt_y (point_of (interpolate (x_start st) x_length n i)
                           (interpolate (y_start st) y_length n i) c)
            = interpolate (y_start st) (F32.of_int (y - y_start st)) n i).
  { intros i Hi. unfold x_length, y_length. rewrite !sub_in_range by assumption.
    destruct (call_point_xy
                (interpolate (x_start st) (F32.of_int (x - x_start st)) n i)
                (interpolate (y_start st) (F32.of_int (y - y_start st)) n i) c)
      as [Epx Epy].
    unfold call_point in Epx, Epy. rewrite Epx, Epy.
    destruct (interpolate_in_box (x_start st) x n i Hxs Hx Hi ltac:(lia)
                ltac:(unfold Int32.max_signed; lia)) as [Bx Bx0].
    destruct (interpolate_in_box (y_start st) y n i Hys Hy Hi ltac:(lia)
                ltac:(unfold Int32.max_signed; lia)) as [By By0].
    rewrite (proj2 (proj2 (clip_cases _))) by lia.
    rewrite (proj2 (proj2 (clip_cases _))) by lia.
    split; reflexivity. }
  split.
  - intros i p Hi Hp.
    assert (Ep : p = point_of (interpolate (x_start st) x_length n i)
                              (interpolate (y_start st) y_length n i) c).
    { unfold pts in Hp. change (map ?f ?l) with (f <$> l) in Hp.
      rewrite list_lookup_fmap in Hp.
      rewrite lookup_seqZ_lt in Hp by lia.
      cbn [fmap option_fmap option_map] in Hp. injection Hp as <-.
      repeat f_equal; lia. }
    destruct (Hpoint i Hi) as [Epx Epy]. rewrite Ep, Epx, Epy.
    destruct (interpolate_near (x_start st) x n i Hxs Hx Hi ltac:(lia)) as [X1 X2].
    destruct (interpolate_near (y_start st) y n i Hys Hy Hi ltac:(lia)) as [Y1 Y2].
    unfold at_x, at_y. repeat split; assumption.
  - intros Hn1.
    exists (point_of (interpolate (x_start st) x_length n n)
                     (interpolate (y_start st) y_length n n) c).
    split.
    + unfold pts. rewrite last_lookup.
      change (map ?f ?l) with (f <$> l). rewrite list_lookup_fmap.
      rewrite length_fmap, length_seqZ. rewrite lookup_seqZ_lt by lia.
      cbn [fmap option_fmap option_map]. repeat f_equal; lia.
    + destruct (Hpoint n ltac:(lia)) as [Epx Epy]. rewrite Epx, Epy.
      destruct (interpolate_last (x_start st) x n Hxs Hx
                  ltac:(unfold Int32.max_signed; lia)) as [Hix _].
      destruct (interpolate_last (y_start st) y n Hys Hy
                  ltac:(unfold Int32.max_signed; lia)) as [Hiy _].
      lia.
Qed.

Lemma DrawLineTo_interpolation_witness :
  let st := initial_state in
  let x_length := F32.of_int (120 - x_start st)%i32 in
  let y_length := F32.of_int (2000 - y_start st)%i32 in
  let n := segments x_length y_length (divider st) in
  let pts := map (fun i => point_of (interpolate (x_start st) x_length n i)
                                    (interpolate (y_start st) y_length n i) 1)
                 (seqZ 1 n) in
  let dist2 := inject_Z ((120 - x_start st) * (120 - x_start st)
                         + (2000 - y_start st) * (2000 - y_start st)) in
  let step := val (divider st) in
  let at_x (i : Z) :=
    (inject_Z (x_start st) + inject_Z (120 - x_start st) * inject_Z i / inject_Z n)%Q in
  let at_y (i : Z) :=
    (inject_Z (y_start st) + inject_Z (2000 - y_start st) * inject_Z i / inject_Z n)%Q in
  (buffer_ok st /\ 0 < 1 /\
   num_points st + Z.max 0 n + Z.max 0 (dwell st) <= MAX_POINTS) /\
  (n = 41 /\ 0 <= x_start st <= 4095 /\ 0 <= y_start st <= 4095 /\
   0 <= 120 <= 4095 /\ 0 <= 2000 <= 4095 /\
   valid_binary F32.prec F32.emax (divider st) = true /\
   (1 # 256 <= step)%Q /\ (step <= inject_Z (2 ^ 100))%Q) /\
  exists r st',
    DrawLineTo 120 2000 1 st = Some (r, st') /\
    frame st' = frame st ++ pts ++ replicate (Z.to_nat (dwell st)) (point_of 120 2000 1) /\
    length pts = Z.to_nat n /\
    (120 = x_start st -> 2000 = y_start st ->
     (exists s m e, divider st = S754_finite s m e) -> n = 0) /\
    (0 <= x_start st <= 4095 -> 0 <= y_start st <= 4095 ->
     0 <= 120 <= 4095 -> 0 <= 2000 <= 4095 ->
     valid_binary F32.prec F32.emax (divider st) = true ->
     (1 # 256 <= step)%Q -> (step <= inject_Z (2 ^ 100))%Q ->
     0 <= n /\
     (1 <= n ->
      ((inject_Z n - 1) * step * ((inject_Z n - 1) * step)
       < dist2 * (1 + (1 # 1048576)))%Q) /\
     (dist2 * (1 - (1 # 1048576)) <= inject_Z n * step * (inject_Z n * step))%Q /\
     (forall i p,
        1 <= i <= n -> pts !! Z.to_nat (i - 1) = Some p ->
        (at_x i - 1 - (1 # 512) < inject_Z (pt_x p))%Q /\
        (inject_Z (pt_x p) <= at_x i + (1 # 512))%Q /\
        (at_y i - 1 - (1 # 512) < inject_Z (pt_y p))%Q /\
        (inject_Z (pt_y p) <= at_y i + (1 # 512))%Q) /\
     (1 <= n ->
      exists p, last pts = Some p /\
                120 - 1 <= pt_x p <= 120 /\ 2000 - 1 <= pt_y p <= 2000)).
Proof.
  intros st x_length y_length n pts dist2 step at_x at_y.
  assert (H : buffer_ok st) by buffer_ok_by_computation.
  assert (H1 : 0 < 1) by lia.
  assert (H2 : num_points st + Z.max 0 n + Z.max 0 (dwell st) <= MAX_POINTS)
    by (vm_compute; discriminate).
  split; [split; [exact H|split; [exact H1|exact H2]]|].
  split.
  { split; [vm_compute; reflexivity|].
    repeat (split; [cbn; lia|]).
    split; [vm_compute; reflexivity|].
    split; vm_compute; discriminate. }
  exact (DrawLineTo_interpolation 120 2000 1 initial_state H H1 H2).
Defined.
